(** * Minimum cut engines: Stoer-Wagner (linear scan and priority queue)
      and Karger contraction (rejection sampling and shuffle based);
      sorting benchmark.

    Shallow embedding of
      - Min_Cut/kargeroptattempt/stoer_wagner.cpp
      - Min_Cut/mincut/algorithms/stoer_wagner/stoer_wagner_pq.cpp
      - Min_Cut/mincut/kargeroptattempt/kargercppver.cpp
      - mincut/kargeroptattempt/kargercppopt.cpp
    and of the sorting benchmark
      - QuickSort/src/main.cpp
    (second part of the definitions), and the properties of these
    programs.

    Conventions of the embedding:
      - a C++ [int] is a [Z]; every [+=] of the source is [Int.add], the
        addition followed by two's complement wrap-around on 32 bits
        (a signed overflow, undefined in C++, is given this value; the
        theorems about weights assume [weights_fit], under which no
        addition overflows);
      - a [vector<int>] is a [list Z], a [vector<vector<int>>] a list of
        rows; an index of the source is a [nat], and the sentinel index
        [-1] of the source is [None];
      - the functions return in [option]: [None] stands for an access
        outside a vector (undefined behaviour in C++);
      - a function taking its vector by non-const reference returns the
        final value of that vector next to its result;
      - the counters [V], [unadded], [E] and [trials] of the loops are
        numbers of iterations, [nat]; a loop without a bound in the
        source takes a [fuel], and its result is an [outcome]. *)

From stdpp Require Import base list option numbers sets sorting.

#[local] Set Warnings "-clear-no-such-hyp".

Abbreviation matrix := (list (list Z)).

(** ** 32-bit integers *)

Module Int.

Definition INT_MAX : Z := 2147483647.
Definition INT_MIN : Z := (-2147483648)%Z.

Definition wrap (z : Z) : Z :=
  ((z + 2147483648) `mod` 4294967296 - 2147483648)%Z.

Definition add (a b : Z) : Z := wrap (a + b).

End Int.

(** ** Loops and vector accesses *)

(** [for (int i = i0; i < i0 + n; i++) body] over a state [St]. *)
Fixpoint for_loop {St : Type} (i n : nat) (body : nat → St → option St)
    (s : St) : option St :=
  match n with
  | 0 => Some s
  | S n' => s' ← body i s; for_loop (S i) n' body s'
  end.

(** [v[i] = x] *)
Definition vset {A : Type} (v : list A) (i : nat) (x : A) : option (list A) :=
  if decide (i < length v) then Some (<[i:=x]> v) else None.

(** [G[i][j]] *)
Definition get (G : matrix) (i j : nat) : option Z :=
  row ← G !! i; row !! j.

(** [G[i][j] = x] *)
Definition set (G : matrix) (i j : nat) (x : Z) : option matrix :=
  row ← G !! i; row' ← vset row j x; vset G i row'.

(** [v.erase(v.begin() + i)] *)
Definition erase {A : Type} (v : list A) (i : nat) : option (list A) :=
  if decide (i < length v) then Some (delete i v) else None.

(** ** State of one minimum cut phase, shared by the two deterministic
       engines *)

Record phase_state := {
  added : list Z;
  weight : list Z;
  prev : option nat;
  last : nat
}.

(** [G[prev][i] += G[last][i]; G[i][prev] = G[prev][i];] for every [i]. *)
Definition merge_body (prev last : nat) (i : nat) (G : matrix) : option matrix :=
  a ← get G prev i;
  b ← get G last i;
  G1 ← set G prev i (Int.add a b);
  c ← get G1 prev i;
  set G1 i prev c.

Definition merge (G : matrix) (V prev last : nat) : option matrix :=
  for_loop 0 V (merge_body prev last) G.

(** [weight[i] += G[m][i]] for the vertices not yet added. *)
Definition update_body (G : matrix) (m : nat) (added : list Z)
    (i : nat) (weight : list Z) : option (list Z) :=
  a ← added !! i;
  if bool_decide (a = 0%Z) then
    w ← weight !! i; g ← get G m i; vset weight i (Int.add w g)
  else Some weight.

(** ** Linear scan engine (stoer_wagner.cpp) *)

Module Linear.

Definition init_weights (G : matrix) (V : nat) (weight : list Z) : option (list Z) :=
  for_loop 0 V (λ i weight,
    w ← weight !! i; g ← get G i 0; vset weight i (Int.add w g)) weight.

(** The scan for the most tightly connected vertex; the state is
    [(mosttightvertex, maxval)]. *)
Definition scan_body (added weight : list Z) (i : nat)
    (s : option nat * Z) : option (option nat * Z) :=
  let '(mosttightvertex, maxval) := s in
  w ← weight !! i;
  a ← added !! i;
  if bool_decide (maxval < w)%Z && bool_decide (a = 0%Z)
  then Some (Some i, w) else Some (mosttightvertex, maxval).

Definition scan (V : nat) (added weight : list Z) : option (option nat * Z) :=
  for_loop 0 V (scan_body added weight) (None, (-1)%Z).

(** One iteration of [while (unadded)].  When the scan finds no vertex
    ([mosttightvertex == -1], here [found = None]) the source writes
    [added[-1]], outside the vector. *)
Definition add_vertex (G : matrix) (V : nat) (st : phase_state) : option phase_state :=
  '(found, maxval) ← scan V st.(added) st.(weight);
  mosttightvertex ← found;
  added' ← vset st.(added) mosttightvertex 1%Z;
  weight' ← for_loop 0 V (update_body G mosttightvertex added') st.(weight);
  Some {| added := added'; weight := weight';
          prev := Some st.(last); last := mosttightvertex |}.

Fixpoint grow (unadded : nat) (G : matrix) (V : nat) (st : phase_state)
    : option phase_state :=
  match unadded with
  | 0 => Some st
  | S unadded' => st' ← add_vertex G V st; grow unadded' G V st'
  end.

Definition phase_init (G : matrix) (V : nat) : option phase_state :=
  added0 ← vset (replicate V 0%Z) 0 1%Z;
  weight0 ← init_weights G V (replicate V 0%Z);
  Some {| added := added0; weight := weight0; prev := None; last := 0 |}.

Definition phase (G : matrix) (V : nat) : option phase_state :=
  st ← phase_init G V; grow (V - 1) G V st.

(** [G[i].erase(G[i].begin() + last)] for every row, then
    [G.erase(G.begin() + last)]. *)
Definition remove_vertex (G : matrix) (V last : nat) : option matrix :=
  G1 ← for_loop 0 V (λ i G, row ← G !! i; row' ← erase row last; vset G i row') G;
  erase G1 last.

(** The body of [while (V > 1)] after the phase. *)
Definition contract (G : matrix) (V : nat) (st : phase_state) : option matrix :=
  prev ← st.(prev);
  G ← merge G V prev st.(last);
  remove_vertex G V st.(last).

Fixpoint sw_loop (V : nat) (G : matrix) (mincut : Z) : option (Z * matrix) :=
  match V with
  | 0 => Some (mincut, G)
  | S V' =>
    if decide (1 < V) then
      st ← phase G V;
      w ← st.(weight) !! st.(last);
      G ← contract G V st;
      sw_loop V' G (Z.min mincut w)
    else Some (mincut, G)
  end.

(** The result and the final value of the matrix [G], which the source
    takes by reference and works on in place. *)
Definition stoer_wagner (G : matrix) : option (Z * matrix) :=
  sw_loop (length G) G Int.INT_MAX.

End Linear.

(** ** Priority queue engine (stoer_wagner_pq.cpp) *)

Module PQ.

(** [std::priority_queue<pair<int,int>>]: the queue orders its entries
    [(weight, vertex)] by the lexicographic [operator<] of [std::pair]
    and [top] is a greatest entry.  Entries that compare equal are
    equal, so the queue is represented by the list of its entries in
    descending order: [top] is the head and [pop] drops it. *)
Abbreviation queue := (list (Z * nat)).

Definition pair_lt (x y : Z * nat) : Prop :=
  (x.1 < y.1)%Z ∨ (x.1 = y.1 ∧ x.2 < y.2).

Global Instance pair_lt_dec x y : Decision (pair_lt x y).
Proof. unfold pair_lt. apply _. Defined.

Fixpoint push (x : Z * nat) (pq : queue) : queue :=
  match pq with
  | [] => [x]
  | y :: pq' => if decide (pair_lt y x) then x :: pq else y :: push x pq'
  end.

(** [if (i != 0) { weight[i] += G[0][i]; pq.push({weight[i], i}); }] *)
Definition init_body (G : matrix) (i : nat) (s : list Z * queue)
    : option (list Z * queue) :=
  let '(weight, pq) := s in
  if decide (i ≠ 0) then
    w ← weight !! i; g ← get G 0 i;
    weight ← vset weight i (Int.add w g);
    Some (weight, push (Int.add w g, i) pq)
  else Some (weight, pq).

(** The loop [while (!pq.empty())] that pops until an entry of a vertex
    not yet added is found; returns [mosttightvertex] and the queue. *)
Fixpoint pop_valid (added : list Z) (pq : queue) : option (option nat * queue) :=
  match pq with
  | [] => Some (None, [])
  | (current_weight, current_vertex) :: pq' =>
    a ← added !! current_vertex;
    if bool_decide (a = 0%Z) then Some (Some current_vertex, pq')
    else pop_valid added pq'
  end.

(** [if (!added[i]) { weight[i] += G[m][i]; pq.push({weight[i], i}); }] *)
Definition update_push_body (G : matrix) (m : nat) (added : list Z)
    (i : nat) (s : list Z * queue) : option (list Z * queue) :=
  let '(weight, pq) := s in
  a ← added !! i;
  if bool_decide (a = 0%Z) then
    w ← weight !! i; g ← get G m i;
    weight ← vset weight i (Int.add w g);
    Some (weight, push (Int.add w g, i) pq)
  else Some (weight, pq).

(** [while (unadded > 0)]; the result carries the queue and the final
    value of [unadded], which is not 0 after a [break]. *)
Fixpoint grow (unadded : nat) (G : matrix) (V : nat) (st : phase_state)
    (pq : queue) : option (phase_state * queue * nat) :=
  match unadded with
  | 0 => Some (st, pq, 0)
  | S unadded' =>
    '(found, pq) ← pop_valid st.(added) pq;
    match found with
    | None => Some (st, pq, unadded)
    | Some mosttightvertex =>
      added' ← vset st.(added) mosttightvertex 1%Z;
      '(weight', pq) ← for_loop 0 V (update_push_body G mosttightvertex added')
                         (st.(weight), pq);
      grow unadded' G V
        {| added := added'; weight := weight';
           prev := Some st.(last); last := mosttightvertex |} pq
    end
  end.

Definition phase_init (G : matrix) (V : nat) : option (phase_state * queue) :=
  added0 ← vset (replicate V 0%Z) 0 1%Z;
  '(weight0, pq) ← for_loop 0 V (init_body G) (replicate V 0%Z, []);
  Some ({| added := added0; weight := weight0; prev := None; last := 0 |}, pq).

Definition phase (G : matrix) (V : nat) : option (phase_state * queue * nat) :=
  '(st, pq) ← phase_init G V; grow (V - 1) G V st pq.

(** [G.erase(G.begin() + last)], then
    [G[i].erase(G[i].begin() + last)] for every remaining row. *)
Definition remove_vertex (G : matrix) (last : nat) : option matrix :=
  G1 ← erase G last;
  for_loop 0 (length G1) (λ i G, row ← G !! i; row' ← erase row last; vset G i row') G1.

Fixpoint sw_loop (V : nat) (G : matrix) (mincut : Z) : option Z :=
  match V with
  | 0 => Some mincut
  | S V' =>
    if decide (1 < V) then
      '(st, pq, unadded) ← phase G V;
      mincut ← (if decide (unadded = 0)
                then w ← st.(weight) !! st.(last); Some (Z.min mincut w)
                else Some mincut);
      match st.(prev) with
      | None => Some mincut
      | Some prev =>
        G ← merge G V prev st.(last);
        G ← remove_vertex G st.(last);
        sw_loop V' G mincut
      end
    else Some mincut
  end.

(** The engine works on the copy [G = G_mat]; the matrix of the caller
    is returned as it was received. *)
Definition stoer_wagner (G_mat : matrix) : option (Z * matrix) :=
  let G := G_mat in
  mincut ← sw_loop (length G) G Int.INT_MAX;
  Some (mincut, G_mat).

End PQ.

(** ** Union-find (class DisjointUnionSets, the same in the two
       randomized programs) *)

Record DisjointUnionSets := {
  rank : list Z;
  parent : list nat
}.

Module DSU.

(** [DisjointUnionSets(int n)] *)
Definition make (n : nat) : DisjointUnionSets :=
  {| rank := replicate n 0%Z; parent := seq 0 n |}.

(** The recursive [find] on the [parent] vector.  [fuel] bounds the depth
    of the recursion; [find] below gives it the size of [parent], which
    is enough on every forest a trial builds ([find_spec]). *)
Fixpoint find_rec (fuel : nat) (parent : list nat) (i : nat)
    : option (list nat * nat) :=
  match fuel with
  | 0 => None
  | S fuel' =>
    p ← parent !! i;
    if decide (p = i) then Some (parent, i)
    else
      r ← find_rec fuel' parent p;
      parent' ← vset r.1 i r.2;
      root ← parent' !! i;
      Some (parent', root)
  end.

(** [find] returns the root and the structure after the path
    compression. *)
Definition find (dus : DisjointUnionSets) (i : nat)
    : option (DisjointUnionSets * nat) :=
  '(parent', root) ← find_rec (length dus.(parent)) dus.(parent) i;
  Some ({| rank := dus.(rank); parent := parent' |}, root).

Definition unionSets (dus : DisjointUnionSets) (x y : nat)
    : option DisjointUnionSets :=
  '(dus, xRoot) ← find dus x;
  '(dus, yRoot) ← find dus y;
  if decide (xRoot = yRoot) then Some dus
  else
    rankx ← dus.(rank) !! xRoot;
    ranky ← dus.(rank) !! yRoot;
    if decide (rankx < ranky)%Z then
      parent' ← vset dus.(parent) xRoot yRoot;
      Some {| rank := dus.(rank); parent := parent' |}
    else if decide (ranky < rankx)%Z then
      parent' ← vset dus.(parent) yRoot xRoot;
      Some {| rank := dus.(rank); parent := parent' |}
    else
      parent' ← vset dus.(parent) yRoot xRoot;
      rankx' ← dus.(rank) !! xRoot;
      rank' ← vset dus.(rank) xRoot (Int.add rankx' 1);
      Some {| rank := rank'; parent := parent' |}.

End DSU.

(** ** The edge list of an adjacency matrix and the cut count (the same
       in the two randomized programs) *)

Abbreviation edge := (nat * nat)%type.

(** [for i < V: for j in i+1..V-1: if (G[i][j] == 1) edges.push_back((i,j))] *)
Definition build_edges (G : matrix) (V : nat) : option (list edge) :=
  for_loop 0 V (λ i edges,
    for_loop (S i) (V - S i) (λ j edges,
      g ← get G i j;
      if bool_decide (g = 1%Z) then Some (edges ++ [(i, j)]) else Some edges)
      edges) [].

(** [for i < E: if (find(edges[i].first) != find(edges[i].second)) cutedges += 1] *)
Definition count_body (edges : list edge) (i : nat) (s : DisjointUnionSets * Z)
    : option (DisjointUnionSets * Z) :=
  let '(dus, cutedges) := s in
  e ← edges !! i;
  '(dus, subset1) ← DSU.find dus e.1;
  '(dus, subset2) ← DSU.find dus e.2;
  if decide (subset1 ≠ subset2) then Some (dus, Int.add cutedges 1)
  else Some (dus, cutedges).

Definition count_cut (E : nat) (edges : list edge) (dus : DisjointUnionSets)
    : option Z :=
  s ← for_loop 0 E (count_body edges) (dus, 0%Z); Some s.2.

(** ** Shuffle based randomized engine (kargercppopt.cpp) *)

Module KargerOpt.

(** The loop over the shuffled edges, left by [break] as soon as
    [vertices <= 2]. *)
Fixpoint contract_edges (shuffled_edges : list edge) (dus : DisjointUnionSets)
    (vertices : Z) : option (DisjointUnionSets * Z) :=
  match shuffled_edges with
  | [] => Some (dus, vertices)
  | (u, v) :: rest =>
    if decide (vertices ≤ 2)%Z then Some (dus, vertices)
    else
      '(dus, set1) ← DSU.find dus u;
      '(dus, set2) ← DSU.find dus v;
      if decide (set1 ≠ set2) then
        dus ← DSU.unionSets dus set1 set2;
        contract_edges rest dus (vertices - 1)%Z
      else contract_edges rest dus vertices
  end.

Definition karger_min_cut_trial (V E : nat) (shuffled_edges : list edge) : option Z :=
  '(dus, vertices) ← contract_edges shuffled_edges (DSU.make V) (Z.of_nat V);
  count_cut E shuffled_edges dus.

Section Driver.

(** The generator [g] and [std::shuffle(edges.begin(), edges.end(), g)]:
    the shuffle returns some permutation of the vector and the next state
    of the generator. *)
Variable Rng : Type.
Variable shuffle : Rng → list edge → list edge * Rng.

(** One iteration of [for (int i = 0; i < trials; i++)]; the state is
    [(edges, g, min_cut)]. *)
Definition trial_body (V E : nat) (i : nat) (s : list edge * Rng * Z)
    : option (list edge * Rng * Z) :=
  let '(edges, g, min_cut) := s in
  let '(edges, g) := shuffle g edges in
  cut_size ← karger_min_cut_trial V E edges;
  Some (edges, g, if decide (cut_size < min_cut)%Z then cut_size else min_cut).

Definition karger_min_cut (G : matrix) (trials : Z) (g : Rng) : option Z :=
  let V := length G in
  edges ← build_edges G V;
  let E := length edges in
  '(edges, g, min_cut) ←
    for_loop 0 (Z.to_nat trials) (trial_body V E) (edges, g, Int.INT_MAX);
  Some min_cut.

End Driver.

End KargerOpt.

(** ** Rejection sampling randomized engine (kargercppver.cpp) *)

(** A run of a loop that has no bound in the source: it returns, it
    reaches undefined behaviour, or it is still running when the fuel of
    the model is used up. *)
Inductive outcome (A : Type) : Type :=
  | Returns (a : A)
  | Undefined
  | OutOfFuel.
Arguments Returns {A} a.
Arguments Undefined {A}.
Arguments OutOfFuel {A}.

Module KargerVer.

Section Rand.

(** [rand()]: a non-negative [int] and the next state of the generator. *)
Variable Rng : Type.
Variable rand : Rng → Z * Rng.

(** One iteration of [while (vertices > 2)]; the state is
    [(dus, vertices, g)].  [rand() % E] with [E = 0] is undefined. *)
Definition contract_step (E : nat) (edges : list edge)
    (s : DisjointUnionSets * Z * Rng) : option (DisjointUnionSets * Z * Rng) :=
  let '(dus, vertices, g) := s in
  let '(r, g) := rand g in
  if decide (E = 0) then None
  else
    let i := Z.to_nat (Z.rem r (Z.of_nat E)) in
    e ← edges !! i;
    '(dus, subset1) ← DSU.find dus e.1;
    '(dus, subset2) ← DSU.find dus e.2;
    if decide (subset1 = subset2) then Some (dus, vertices, g)
    else
      dus ← DSU.unionSets dus subset1 subset2;
      Some (dus, (vertices - 1)%Z, g).

(** [fuel] bounds the number of iterations of [while (vertices > 2)]. *)
Fixpoint contract_loop (fuel : nat) (E : nat) (edges : list edge)
    (s : DisjointUnionSets * Z * Rng) : outcome (DisjointUnionSets * Z * Rng) :=
  if decide (2 < s.1.2)%Z then
    match fuel with
    | 0 => OutOfFuel
    | S fuel' =>
      match contract_step E edges s with
      | None => Undefined
      | Some s' => contract_loop fuel' E edges s'
      end
    end
  else Returns s.

Definition karger_min_cut_trial (fuel : nat) (V E : nat) (edges : list edge)
    (g : Rng) : outcome (Z * Rng) :=
  match contract_loop fuel E edges (DSU.make V, Z.of_nat V, g) with
  | Returns (dus, vertices, g) =>
    match count_cut E edges dus with
    | Some cutedges => Returns (cutedges, g)
    | None => Undefined
    end
  | Undefined => Undefined
  | OutOfFuel => OutOfFuel
  end.

(** [for (int i = 0; i < trials; i++)] on the state [(g, min_cut)]. *)
Fixpoint trials_loop (fuel : nat) (trials : nat) (V E : nat) (edges : list edge)
    (s : Rng * Z) : outcome (Rng * Z) :=
  match trials with
  | 0 => Returns s
  | S trials' =>
    match karger_min_cut_trial fuel V E edges s.1 with
    | Returns (cut_size, g) =>
      trials_loop fuel trials' V E edges
        (g, if decide (cut_size < s.2)%Z then cut_size else s.2)
    | Undefined => Undefined
    | OutOfFuel => OutOfFuel
    end
  end.

Definition karger_min_cut (fuel : nat) (G : matrix) (trials : Z) (g : Rng)
    : outcome Z :=
  let V := length G in
  match build_edges G V with
  | None => Undefined
  | Some edges =>
    let E := length edges in
    match trials_loop fuel (Z.to_nat trials) V E edges (g, Int.INT_MAX) with
    | Returns (g, min_cut) => Returns min_cut
    | Undefined => Undefined
    | OutOfFuel => OutOfFuel
    end
  end.

End Rand.

End KargerVer.

(** * Vocabulary of the specification *)

Definition sumZ (f : nat → Z) (l : list nat) : Z :=
  foldr (λ a acc, (f a + acc)%Z) 0%Z l.

(** The weight of the pairs of a list of vertices: every pair of
    positions is counted once, with the later vertex of the list first. *)
Fixpoint pairs_weight (W : nat → nat → Z) (l : list nat) : Z :=
  match l with
  | [] => 0%Z
  | x :: l' => (sumZ (λ a, W a x) l' + pairs_weight W l')%Z
  end.

(** The entry [G[i][j]] of a matrix, 0 outside the matrix. *)
Definition entry (G : matrix) (i j : nat) : Z := default 0%Z (get G i j).

(** A [V]x[V] matrix. *)
Definition square (n : nat) (G : matrix) : Prop :=
  length G = n ∧ ∀ i row, G !! i = Some row → length row = n.

Definition symmetric (G : matrix) : Prop :=
  ∀ i j, entry G i j = entry G j i.

Definition nonneg (G : matrix) : Prop :=
  ∀ i j, (0 ≤ entry G i j)%Z.

(** The total edge weight: the sum of the entries [G[i][j]] over the
    pairs of distinct vertices, each pair counted once. *)
Definition total_weight (G : matrix) : Z :=
  pairs_weight (entry G) (seq 0 (length G)).

(** The weights fit: no sum of edge weights exceeds [INT_MAX], so no
    addition of weights between distinct vertices overflows.  The diagonal
    is not part of the sum: a merge may wrap an entry [G[i][i]], and such
    an entry never reaches a weight of a later phase or a cut. *)
Definition weights_fit (G : matrix) : Prop :=
  (total_weight G ≤ Int.INT_MAX)%Z.

(** A cut is given by the side [side i] of every vertex; it is proper
    when both sides have a vertex. *)
Definition proper_cut (n : nat) (side : nat → bool) : Prop :=
  ∃ i j, i < n ∧ j < n ∧ side i = true ∧ side j = false.

Definition crossing (G : matrix) (side : nat → bool) (a b : nat) : Z :=
  if decide (side a = side b) then 0%Z else entry G a b.

(** The weight of a cut: the sum of the weights of the pairs of vertices
    with different sides. *)
Definition cut_weight (G : matrix) (side : nat → bool) : Z :=
  pairs_weight (crossing G side) (seq 0 (length G)).

(** [r] is the global minimum cut weight of [G]. *)
Definition is_min_cut (G : matrix) (r : Z) : Prop :=
  (∃ side, proper_cut (length G) side ∧ cut_weight G side = r) ∧
  (∀ side, proper_cut (length G) side → (r ≤ cut_weight G side)%Z).

(** The invariant of the contracted graphs of a run. *)
Definition graph_ok (n : nat) (G : matrix) : Prop :=
  square n G ∧ symmetric G ∧
  (∀ i j, i < n → j < n → i ≠ j → (0 ≤ entry G i j)%Z) ∧
  weights_fit G.

(** The index before the removal of vertex [t] of the vertex that has
    index [i] after it. *)
Definition up (t i : nat) : nat := if decide (i < t) then i else S i.

(** The sum of the weights between the vertices of [A] and [i]. *)
Definition wsum (G : matrix) (A : list nat) (i : nat) : Z :=
  sumZ (λ a, entry G a i) A.

(** A maximum adjacency order, most recent vertex first: every vertex
    after the first is, when it is added, a vertex with the greatest
    weight to the vertices added before it. *)
Inductive ma_order (G : matrix) (n : nat) : list nat → Prop :=
  | ma_start v : v < n → ma_order G n [v]
  | ma_next u A :
      ma_order G n A → u < n → u ∉ A →
      (∀ x, x < n → x ∉ A → (wsum G A x ≤ wsum G A u)%Z) →
      ma_order G n (u :: A).

(** The cut that has vertex [t] alone on one side. *)
Definition alone (t : nat) (v : nat) : bool := bool_decide (v = t).

(** The index after the removal of vertex [t] of a vertex [v ≠ t]. *)
Definition down (t v : nat) : nat := if decide (v < t) then v else v - 1.

(** The state of a phase whose vertices added so far are [A], the most
    recent first: [A] is a maximum adjacency order, [added] marks the
    vertices of [A] and [weight[i]] is the weight between [i] and the
    vertices added before [i], or all of [A] when [i] is not added. *)
Definition phase_inv (G : matrix) (n : nat) (A : list nat) (st : phase_state) : Prop :=
  ma_order G n A ∧ head A = Some st.(last) ∧ st.(prev) = head (tail A) ∧
  length st.(added) = n ∧ length st.(weight) = n ∧
  (∀ i, i < n → st.(added) !! i = Some (if decide (i ∈ A) then 1 else 0)%Z) ∧
  (∀ i, i < n → i ∉ A → st.(weight) !! i = Some (wsum G A i)) ∧
  (∀ t A', A = t :: A' → A' ≠ [] → st.(weight) !! t = Some (wsum G A' t)).

(** The order of the queue: [x] is not below [y]. *)
Definition pair_ge (x y : Z * nat) : Prop := ¬ PQ.pair_lt x y.

(** The queue of a phase whose vertices added so far are [A]: it is in
    descending order, it holds the current weight of every vertex that is
    not added, and its other entries for such a vertex are stale entries
    with a smaller weight. *)
Definition queue_inv (G : matrix) (n : nat) (A : list nat) (pq : PQ.queue) : Prop :=
  StronglySorted pair_ge pq ∧
  (∀ w v, (w, v) ∈ pq → v < n) ∧
  (∀ i, i < n → i ∉ A → (wsum G A i, i) ∈ pq) ∧
  (∀ w v, (w, v) ∈ pq → v ∉ A → (w ≤ wsum G A v)%Z).

(** The triangle with unit weights, on which the two deterministic
    engines break the tie between vertices 1 and 2 differently. *)
Definition K3 : matrix := [[0; 1; 1]; [1; 0; 1]; [1; 1; 0]]%Z.


(** *** Union-find forests *)

(** [reach p i r d]: following [parent] from [i] ends after [d] steps at
    the root [r]. *)
Inductive reach (p : list nat) : nat → nat → nat → Prop :=
  | reach_root i : p !! i = Some i → reach p i i 0
  | reach_step i j r d :
      p !! i = Some j → j ≠ i → reach p j r d → reach p i r (S d).

Definition root_of (p : list nat) (x r : nat) : Prop := ∃ d, reach p x r d.

(** [u] and [v] are in the same component. *)
Definition same (p : list nat) (u v : nat) : Prop :=
  ∃ r, root_of p u r ∧ root_of p v r.

(** Every vertex has a root at depth at most [k]. *)
Definition forest (p : list nat) (k : nat) : Prop :=
  ∀ i, i < length p → ∃ r d, reach p i r d ∧ d ≤ k.

Definition roots (p : list nat) : list nat :=
  filter (λ i, p !! i = Some i) (seq 0 (length p)).

(** The invariant of the union-find structure of a trial on [V] vertices:
    a forest whose depth is bounded by the number of unions made so far,
    every component of which lies on one side of the cut [side]. *)
Definition dsu_inv (V : nat) (side : nat → bool) (d : DisjointUnionSets) : Prop :=
  length d.(parent) = V ∧ length d.(rank) = V ∧
  forest d.(parent) (V - length (roots d.(parent))) ∧
  (∀ i r, root_of d.(parent) i r → side r = side i).

(** The edges [(i, j)], [i < j], with [G[i][j] == 1], row by row. *)
Definition row_edges (G : matrix) (i : nat) (js : list nat) : list edge :=
  (λ j, (i, j)) <$> filter (λ j, get G i j = Some 1%Z) js.

Definition unit_edges (G : matrix) (V : nat) : list edge :=
  i ← seq 0 V; row_edges G i (seq (S i) (V - S i)).

(** The edges of a trial have their endpoints among the [V] vertices
    and do not cross the cut [side]. *)
Definition edges_ok (V : nat) (side : nat → bool) (es : list edge) : Prop :=
  Forall (λ e : edge, e.1 < V ∧ e.2 < V ∧ side e.1 = side e.2) es.

(** A graph of four vertices with the single edge 0-1: three components. *)
Definition three_components : matrix :=
  [[0; 1; 0; 0]; [1; 0; 0; 0]; [0; 0; 0; 0]; [0; 0; 0; 0]]%Z.

(** A shuffle and a [rand] for the examples. *)
Definition reverse_shuffle (g : nat) (l : list edge) : list edge * nat :=
  (reverse l, S g).

Definition counter_rand (g : nat) : Z * nat := (Z.of_nat g, S g).

(** The union-find structure of [three_components] after the
    contraction of its edge. *)
Definition contracted_once : DisjointUnionSets :=
  {| rank := [1; 0; 0; 0]%Z; parent := [0; 0; 2; 3] |}.

(** Two vertices and no edge. *)
Definition two_isolated : matrix := [[0; 0]; [0; 0]]%Z.



(** *** Invariants of the loops *)

Definition merge_inv (n : nat) (G : matrix) (s t : nat) (k : nat) (Gk : matrix) : Prop :=
  square n Gk ∧
  (∀ a b, a ≠ s → b ≠ s → get Gk a b = get G a b) ∧
  (∀ i, i < n → i ≠ s → i ≠ t →
     let x := if decide (i < k) then Int.add (entry G s i) (entry G t i)
              else entry G s i in
     let y := if decide (i < k) then Int.add (entry G s i) (entry G t i)
              else entry G i s in
     get Gk s i = Some x ∧ get Gk i s = Some y).

(** What a contraction computes: the matrix after the merge of [t] into
    [s] and the removal of [t], entry by entry. *)
Definition contracted (n : nat) (G : matrix) (s t : nat) (G' : matrix) : Prop :=
  square (n - 1) G' ∧
  ∀ i j, i < n - 1 → j < n - 1 →
    (up t i ≠ s → up t j ≠ s → entry G' i j = entry G (up t i) (up t j)) ∧
    (up t i ≠ s → up t j = s →
       entry G' i j = Int.add (entry G s (up t i)) (entry G t (up t i)) ∧
       entry G' j i = Int.add (entry G s (up t i)) (entry G t (up t i))).

Definition scan_inv (added weight : list Z) (k : nat) (s : option nat * Z) : Prop :=
  (∀ i w, i < k → added !! i = Some 0%Z → weight !! i = Some w → (w ≤ s.2)%Z) ∧
  (-1 ≤ s.2)%Z ∧
  match s.1 with
  | None => s.2 = (-1)%Z
  | Some u => added !! u = Some 0%Z ∧ weight !! u = Some s.2
  end.

(** What path compression changes: some vertices of the component of
    the root [r0] now point to [r0]. *)
Definition compressed (p p' : list nat) (r0 : nat) : Prop :=
  length p' = length p ∧
  ∀ x, p' !! x = p !! x ∨
       (p' !! x = Some r0 ∧ p !! x ≠ Some x ∧ root_of p x r0).

(** The weighted graph with the edges (0,1,3) (0,2,1) (1,2,2) (1,3,4)
    (2,3,1). *)
Definition five_edges : matrix :=
  [[0; 3; 1; 0]; [3; 0; 2; 4]; [1; 2; 0; 1]; [0; 4; 1; 0]]%Z.

(** *** Graphs whose total edge weight exceeds [INT_MAX] *)

(** A triangle with one edge of weight [INT_MAX]; its lightest cut,
    vertex 0 alone, weighs 2. *)
Definition heavy_triangle : matrix :=
  [[0; 1; 1]; [1; 0; 2147483647]; [1; 2147483647; 0]]%Z.

(** The edges 0-2, 0-3, 1-3 of weight 1 and the edge 2-3 of weight
    [INT_MAX - 1]; its lightest cut, vertex 1 alone, weighs 1. *)
Definition heavy_edge : matrix :=
  [[0; 0; 1; 1]; [0; 0; 0; 1]; [1; 0; 0; 2147483646]; [1; 1; 2147483646; 0]]%Z.

(** A triangle 1-2-3 of weight [INT_MAX] that two edges of weight 2 join
    to vertex 0; its lightest cut, vertex 0 alone, weighs 4. *)
Definition heavy_clique : matrix :=
  [[0; 0; 2; 2]; [0; 0; 2147483647; 2147483647];
   [2; 2147483647; 0; 2147483647]; [2; 2147483647; 2147483647; 0]]%Z.

(** Two edges of weight [INT_MAX] at vertex 0 and the edge 1-2 of
    weight 1. *)
Definition heavy_star : matrix :=
  [[0; 2147483647; 2147483647]; [2147483647; 0; 1]; [2147483647; 1; 0]]%Z.


(** ** Vocabulary of the further properties *)

(** The union-find structures a program can hold: the structure of the
    constructor, and the structures left by calls of [find] and
    [unionSets] that return. *)
Inductive built (V : nat) : DisjointUnionSets → Prop :=
  | built_make : built V (DSU.make V)
  | built_find d i d' r :
      built V d → DSU.find d i = Some (d', r) → built V d'
  | built_union d x y d' :
      built V d → DSU.unionSets d x y = Some d' → built V d'.

(** The structure on four vertices after [unionSets(0, 1)],
    [unionSets(2, 3)] and [unionSets(0, 2)]: the root 0 has rank 2, and
    vertex 3 is two links away from it, below vertex 2. *)
Definition two_levels : DisjointUnionSets :=
  {| rank := [2; 0; 1; 0]%Z; parent := [0; 0; 0; 2] |}.

(** [two_levels] after [find(3)], which links vertex 3 to the root. *)
Definition two_levels_compressed : DisjointUnionSets :=
  {| rank := [2; 0; 1; 0]%Z; parent := [0; 0; 0; 0] |}.

(** No cut: every vertex on the same side. *)
Definition one_side (i : nat) : bool := true.

(** The number of the edges of a list that cross the cut [side]. *)
Definition cut_edges (side : nat → bool) (es : list edge) : Z :=
  Z.of_nat (length (filter (λ e : edge, side e.1 ≠ side e.2) es)).

(** The cut that has the set of the representative [r] on one side. *)
Definition side_of (d : DisjointUnionSets) (r : nat) (u : nat) : bool :=
  match DSU.find d u with
  | Some (_, ru) => bool_decide (ru = r)
  | None => false
  end.

(** A graph without weights: every entry is 0 or 1. *)
Definition unit_graph (G : matrix) : Prop :=
  ∀ i j, entry G i j = 0%Z ∨ entry G i j = 1%Z.

(** The state of a phase of the priority queue engine on any square
    matrix, with [A] the vertices added so far, the most recent first:
    [added] marks them, and the queue holds an entry for every other
    vertex. *)
Definition pq_state_ok (n : nat) (A : list nat) (st : phase_state) (pq : PQ.queue)
    : Prop :=
  NoDup A ∧ (∀ a, a ∈ A → a < n) ∧
  head A = Some st.(last) ∧ st.(prev) = head (tail A) ∧
  length st.(added) = n ∧ length st.(weight) = n ∧
  (∀ i, i < n → st.(added) !! i = Some (if decide (i ∈ A) then 1 else 0)%Z) ∧
  (∀ z : Z * nat, z ∈ pq → z.2 < n) ∧
  (∀ i, i < n → i ∉ A → ∃ w, (w, i) ∈ pq).

(** ** The graph that [main] reads (the four programs)

    [main] reads [V] and [E], creates the [V]x[V] matrix of zeros and
    stores every edge read in both directions.  The input is the list of
    the edges read from [cin], [E] its length. *)

Definition zero_matrix (V : nat) : matrix := replicate V (replicate V 0%Z).

(** [G[src][dst] = weight; G[dst][src] = weight;] with [src] and [dst]
    the [int]s read. *)
Definition store_edge (G : matrix) (e : Z * Z * Z) : option matrix :=
  let '(src, dst, weight) := e in
  if decide (0 ≤ src ∧ 0 ≤ dst)%Z then
    G ← set G (Z.to_nat src) (Z.to_nat dst) weight;
    set G (Z.to_nat dst) (Z.to_nat src) weight
  else None.

Fixpoint store_edges (G : matrix) (input : list (Z * Z * Z)) : option matrix :=
  match input with
  | [] => Some G
  | e :: input' => G ← store_edge G e; store_edges G input'
  end.

(** The matrix of [main] in stoer_wagner.cpp and stoer_wagner_pq.cpp. *)
Definition read_weighted_graph (V : nat) (input : list (Z * Z * Z)) : option matrix :=
  store_edges (zero_matrix V) input.

(** The matrix of [main] in kargercppver.cpp and kargercppopt.cpp, which
    stores 1 for every edge read. *)
Definition read_graph (V : nat) (input : list (Z * Z)) : option matrix :=
  store_edges (zero_matrix V) ((λ p : Z * Z, (p.1, p.2, 1%Z)) <$> input).

(** The edge [e] read joins the vertices [i] and [j]. *)
Definition joins (i j : nat) (e : Z * Z * Z) : Prop :=
  (e.1.1 = Z.of_nat i ∧ e.1.2 = Z.of_nat j) ∨
  (e.1.1 = Z.of_nat j ∧ e.1.2 = Z.of_nat i).

Global Instance joins_dec i j e : Decision (joins i j e).
Proof. unfold joins. apply _. Defined.

(** Both endpoints of the edge read are vertices. *)
Definition endpoints_ok (V : nat) (e : Z * Z * Z) : Prop :=
  (0 ≤ e.1.1 < Z.of_nat V)%Z ∧ (0 ≤ e.1.2 < Z.of_nat V)%Z.

(** Union by rank: the ranks are not negative, the rank grows along
    every parent link, and the set of a representative of rank [k] has
    at least [2^k] members. *)
Definition rank_inv (d : DisjointUnionSets) : Prop :=
  (∀ x k, d.(rank) !! x = Some k → (0 ≤ k)%Z) ∧
  (∀ x p kx kp, d.(parent) !! x = Some p → p ≠ x →
     d.(rank) !! x = Some kx → d.(rank) !! p = Some kp → (kx < kp)%Z) ∧
  (∀ r k, d.(parent) !! r = Some r → d.(rank) !! r = Some k →
     ∃ l : list nat, NoDup l ∧ (∀ x, x ∈ l → root_of d.(parent) x r) ∧
       (2 ^ k ≤ Z.of_nat (length l))%Z).

(** Four vertices and no edge. *)
Definition four_isolated : matrix :=
  [[0; 0; 0; 0]; [0; 0; 0; 0]; [0; 0; 0; 0]; [0; 0; 0; 0]]%Z.

(** Two vertices and an edge of weight -1. *)
Definition negative_edge : matrix := [[0; -1]; [-1; 0]]%Z.

(** * Sorting benchmark (QuickSort/src/main.cpp)

    Conventions of the embedding, besides those above:
      - the functions work on the vector [arr] and on the counters [m],
        both taken by reference in the source: they take the two values
        and return the final values next to their result;
      - an index of the source is an [int], here a [Z]; an access with
        an index outside the vector is [Undefined].  Index arithmetic is
        exact: the vectors of the benchmark hold at most 100000
        elements, and the properties are stated for the vectors with
        [indices_fit], on which no index expression of the source
        leaves the range of [int];
      - the counters of [Metrics] grow by one per step of a run and are
        counted in [Z]; the field [time_ms], that only the benchmark
        runner writes, is left out;
      - every function with a [while] loop or a recursion takes the
        [fuel] of the model, a bound on the number of iterations of each
        of its loops and on the depth of its recursion; a run that
        exceeds it is [OutOfFuel]. *)

Global Instance outcome_ret : MRet outcome := λ A a, Returns a.

Global Instance outcome_bind : MBind outcome := λ A B f x,
  match x with
  | Returns a => f a
  | Undefined => Undefined
  | OutOfFuel => OutOfFuel
  end.

(** [while (cond) body] on a state [St]; the condition may change the
    state (it counts its comparisons). *)
Fixpoint while {St : Type} (fuel : nat) (cond : St → outcome (bool * St))
    (body : St → outcome St) (s : St) : outcome St :=
  '(c, s) ← cond s;
  if c : bool then
    match fuel with
    | 0 => OutOfFuel
    | S fuel' => s ← body s; while fuel' cond body s
    end
  else mret s.

(** [for (int i = i0; ...; i++) body], [n] iterations. *)
Fixpoint for_up {St : Type} (n : nat) (i : Z) (body : Z → St → outcome St)
    (s : St) : outcome St :=
  match n with
  | 0 => mret s
  | S n' => s ← body i s; for_up n' (i + 1)%Z body s
  end.

(** [for (int i = i0; ...; i--) body], [n] iterations. *)
Fixpoint for_down {St : Type} (n : nat) (i : Z) (body : Z → St → outcome St)
    (s : St) : outcome St :=
  match n with
  | 0 => mret s
  | S n' => s ← body i s; for_down n' (i - 1)%Z body s
  end.

(** [arr[i]] *)
Definition load (arr : list Z) (i : Z) : outcome Z :=
  if decide (0 ≤ i)%Z then
    match arr !! Z.to_nat i with
    | Some x => Returns x
    | None => Undefined
    end
  else Undefined.

(** [arr[i] = x] *)
Definition store (arr : list Z) (i : Z) (x : Z) : outcome (list Z) :=
  if decide (0 ≤ i < Z.of_nat (length arr))%Z
  then Returns (<[Z.to_nat i:=x]> arr) else Undefined.

Module QuickSort.

Record Metrics := {
  comparisons : Z;
  swaps : Z;
  max_depth : Z;
  current_depth : Z
}.

(** [Metrics m;]: the default member initializers. *)
Definition Metrics_init : Metrics :=
  {| comparisons := 0; swaps := 0; max_depth := 0; current_depth := 0 |}.

Definition reset (m : Metrics) : Metrics :=
  {| comparisons := 0; swaps := 0; max_depth := 0; current_depth := 0 |}.

(** [m.comparisons++] *)
Definition count_comparison (m : Metrics) : Metrics :=
  {| comparisons := m.(comparisons) + 1; swaps := m.(swaps);
     max_depth := m.(max_depth); current_depth := m.(current_depth) |}.

(** [m.swaps++] *)
Definition count_swap (m : Metrics) : Metrics :=
  {| comparisons := m.(comparisons); swaps := m.(swaps) + 1;
     max_depth := m.(max_depth); current_depth := m.(current_depth) |}.

(** [m.current_depth++; if (m.current_depth > m.max_depth)
    m.max_depth = m.current_depth;] *)
Definition enter (m : Metrics) : Metrics :=
  let current_depth := (m.(current_depth) + 1)%Z in
  {| comparisons := m.(comparisons); swaps := m.(swaps);
     max_depth := if decide (m.(max_depth) < current_depth)%Z
                  then current_depth else m.(max_depth);
     current_depth := current_depth |}.

(** [m.current_depth--] *)
Definition leave (m : Metrics) : Metrics :=
  {| comparisons := m.(comparisons); swaps := m.(swaps);
     max_depth := m.(max_depth); current_depth := m.(current_depth) - 1 |}.

Definition swap_counted (arr : list Z) (i j : Z) (m : Metrics)
    : outcome (list Z * Metrics) :=
  let m := count_swap m in
  if decide (i ≠ j) then
    a ← load arr i; b ← load arr j;
    arr ← store arr i b; arr ← store arr j a;
    mret (arr, m)
  else mret (arr, m).

Definition compare_counted (a b : Z) (m : Metrics) : bool * Metrics :=
  (bool_decide (a < b)%Z, count_comparison m).

Definition compare_eq_counted (a b : Z) (m : Metrics) : bool * Metrics :=
  (bool_decide (a = b), count_comparison m).

Definition compare_le_counted (a b : Z) (m : Metrics) : bool * Metrics :=
  (bool_decide (a ≤ b)%Z, count_comparison m).

(** ** Pivot selection

    A pivot function returns the index of the pivot; it works on [arr],
    on [m] and on the generator [rng] of the program. *)

Section Pivot.

(** The generator [rng] and [uniform_int_distribution<int> dist(l, r);
    dist(rng)]: a draw and the next state of the generator. *)
Variable Rng : Type.
Variable uniform : Rng → Z → Z → Z * Rng.

Definition PivotFunc : Type :=
  list Z → Z → Z → Metrics → Rng → outcome (Z * list Z * Metrics * Rng).

Definition findPivot_Naive : PivotFunc := λ arr l r m rng,
  mret (l, arr, m, rng).

(** The choice of the median of [a], [b] and [c] from the outcomes of
    the three comparisons: the index [ia], [ib] or [ic]. *)
Definition median_index (ab bc ac : bool) (ia ib ic : Z) : Z :=
  if (ab && bc) || (negb ab && negb bc && negb ac) then ib
  else if (ac && negb bc) || (negb ac && bc) then ic
  else ia.

Definition findPivot_MedianOfThree : PivotFunc := λ arr l r m rng,
  let mid := (l + (r - l) `quot` 2)%Z in
  a ← load arr l; b ← load arr mid; c ← load arr r;
  let '(ab, m) := compare_counted a b m in
  let '(bc, m) := compare_counted b c m in
  let '(ac, m) := compare_counted a c m in
  mret (median_index ab bc ac l mid r, arr, m, rng).

(** [dist(l, r)] with [l > r] is undefined. *)
Definition draw (rng : Rng) (l r : Z) : outcome (Z * Rng) :=
  if decide (l ≤ r)%Z then mret (uniform rng l r) else Undefined.

Definition findPivot_Randomized : PivotFunc := λ arr l r m rng,
  '(i, rng) ← draw rng l r;
  mret (i, arr, m, rng).

Definition findPivot_RandomizedMedianOfThree : PivotFunc := λ arr l r m rng,
  '(i1, rng) ← draw rng l r;
  '(i2, rng) ← draw rng l r;
  '(i3, rng) ← draw rng l r;
  a ← load arr i1; b ← load arr i2; c ← load arr i3;
  let '(ab, m) := compare_counted a b m in
  let '(bc, m) := compare_counted b c m in
  let '(ac, m) := compare_counted a c m in
  mret (median_index ab bc ac i1 i2 i3, arr, m, rng).

(** The inner loop of the insertion sort,
    [while (j >= l && compare_counted(key, arr[j], m))], on the state
    [(j, arr, m)]. *)
Definition shift_greater (fuel : nat) (l key : Z) (s : Z * list Z * Metrics)
    : outcome (Z * list Z * Metrics) :=
  while fuel
    (λ '(j, arr, m),
       if decide (l ≤ j)%Z then
         a ← load arr j;
         let '(c, m) := compare_counted key a m in
         mret (c, (j, arr, m))
       else mret (false, (j, arr, m)))
    (λ '(j, arr, m),
       a ← load arr j;
       arr ← store arr (j + 1) a;
       mret ((j - 1)%Z, arr, count_swap m))
    s.

(** The body of the loop [for (int i = l + 1; i <= r; i++)]. *)
Definition insert_body (fuel : nat) (l : Z) (i : Z) (s : list Z * Metrics)
    : outcome (list Z * Metrics) :=
  let '(arr, m) := s in
  key ← load arr i;
  '(j, arr, m) ← shift_greater fuel l key ((i - 1)%Z, arr, m);
  arr ← store arr (j + 1) key;
  mret (arr, m).

(** The insertion sort of [arr[l..r]]. *)
Definition sort5_MoM (fuel : nat) (arr : list Z) (l r : Z) (m : Metrics)
    : outcome (list Z * Metrics) :=
  for_up (Z.to_nat (r - l)) (l + 1)%Z (insert_body fuel l) (arr, m).

(** The body of the loop over the groups of five of [momSelect]. *)
Definition group_body (fuel : nat) (l r : Z) (i : Z) (s : list Z * Metrics)
    : outcome (list Z * Metrics) :=
  let '(arr, m) := s in
  let subL := (l + i * 5)%Z in
  let subR := Z.min (subL + 4) r in
  '(arr, m) ← sort5_MoM fuel arr subL subR m;
  let medianIdx := (subL + (subR - subL) `quot` 2)%Z in
  swap_counted arr (l + i) medianIdx m.

Fixpoint momSelect (fuel : nat) (arr : list Z) (l r k : Z) (m : Metrics)
    : outcome (Z * list Z * Metrics) :=
  match fuel with
  | 0 => OutOfFuel
  | S fuel' =>
    let n := (r - l + 1)%Z in
    if decide (n ≤ 5)%Z then
      '(arr, m) ← sort5_MoM fuel arr l r m;
      mret ((l + k)%Z, arr, m)
    else
      let numGroups := ((n + 4) `quot` 5)%Z in
      '(arr, m) ← for_up (Z.to_nat numGroups) 0 (group_body fuel l r) (arr, m);
      let mom_k := ((numGroups - 1) `quot` 2)%Z in
      momSelect fuel' arr l (l + numGroups - 1) mom_k m
  end.

Definition findPivot_MoM (fuel : nat) : PivotFunc := λ arr l r m rng,
  let n := (r - l + 1)%Z in
  let k := ((n - 1) `quot` 2)%Z in
  '(i, arr, m) ← momSelect fuel arr l r k m;
  mret (i, arr, m, rng).

(** ** Partitions *)

(** The state of the loops of [partition_TwoWay] is
    [(startPtr, endPtr, arr, m)]. *)

(** [while (startPtr <= endPtr && compare_le_counted(arr[startPtr], pivot, m))
      startPtr++;] *)
Definition skip_small (fuel : nat) (pivot : Z) (s : Z * Z * list Z * Metrics)
    : outcome (Z * Z * list Z * Metrics) :=
  while fuel
    (λ '(startPtr, endPtr, arr, m),
       if decide (startPtr ≤ endPtr)%Z then
         a ← load arr startPtr;
         let '(c, m) := compare_le_counted a pivot m in
         mret (c, (startPtr, endPtr, arr, m))
       else mret (false, (startPtr, endPtr, arr, m)))
    (λ '(startPtr, endPtr, arr, m), mret ((startPtr + 1)%Z, endPtr, arr, m))
    s.

(** [while (startPtr <= endPtr && compare_counted(pivot, arr[endPtr], m))
      endPtr--;] *)
Definition skip_large (fuel : nat) (pivot : Z) (s : Z * Z * list Z * Metrics)
    : outcome (Z * Z * list Z * Metrics) :=
  while fuel
    (λ '(startPtr, endPtr, arr, m),
       if decide (startPtr ≤ endPtr)%Z then
         a ← load arr endPtr;
         let '(c, m) := compare_counted pivot a m in
         mret (c, (startPtr, endPtr, arr, m))
       else mret (false, (startPtr, endPtr, arr, m)))
    (λ '(startPtr, endPtr, arr, m), mret (startPtr, (endPtr - 1)%Z, arr, m))
    s.

(** The body of [while (startPtr <= endPtr)]. *)
Definition partition_step (fuel : nat) (pivot : Z) (s : Z * Z * list Z * Metrics)
    : outcome (Z * Z * list Z * Metrics) :=
  s ← skip_small fuel pivot s;
  '(startPtr, endPtr, arr, m) ← skip_large fuel pivot s;
  if decide (startPtr < endPtr)%Z then
    '(arr, m) ← swap_counted arr startPtr endPtr m;
    mret ((startPtr + 1)%Z, (endPtr - 1)%Z, arr, m)
  else mret (startPtr, endPtr, arr, m).

Definition partition_TwoWay (fuel : nat) (arr : list Z) (l r : Z) (m : Metrics)
    : outcome (Z * list Z * Metrics) :=
  pivot ← load arr l;
  '(startPtr, endPtr, arr, m) ← while fuel
    (λ '(startPtr, endPtr, arr, m),
       mret (bool_decide (startPtr ≤ endPtr)%Z, (startPtr, endPtr, arr, m)))
    (partition_step fuel pivot)
    ((l + 1)%Z, r, arr, m);
  '(arr, m) ← swap_counted arr l endPtr m;
  mret (endPtr, arr, m).

(** The body of [while (i <= gt)] in [partition_ThreeWay], on the state
    [(lt, gt, i, arr, m)]. *)
Definition three_way_step (pivot : Z) (s : Z * Z * Z * list Z * Metrics)
    : outcome (Z * Z * Z * list Z * Metrics) :=
  let '(lt, gt, i, arr, m) := s in
  a ← load arr i;
  let '(c, m) := compare_counted a pivot m in
  if c : bool then
    '(arr, m) ← swap_counted arr lt i m;
    mret ((lt + 1)%Z, gt, (i + 1)%Z, arr, m)
  else
    a ← load arr i;
    let '(c, m) := compare_counted pivot a m in
    if c : bool then
      '(arr, m) ← swap_counted arr i gt m;
      mret (lt, (gt - 1)%Z, i, arr, m)
    else mret (lt, gt, (i + 1)%Z, arr, m).

(** The function returns [lt] and [gt], that the source stores through
    references. *)
Definition partition_ThreeWay (fuel : nat) (arr : list Z) (l r : Z) (m : Metrics)
    : outcome (Z * Z * list Z * Metrics) :=
  pivot ← load arr l;
  '(lt, gt, i, arr, m) ← while fuel
    (λ '(lt, gt, i, arr, m),
       mret (bool_decide (i ≤ gt)%Z, (lt, gt, i, arr, m)))
    (three_way_step pivot)
    (l, r, (l + 1)%Z, arr, m);
  mret (lt, gt, arr, m).

(** ** Quicksort *)

Fixpoint quicksort_TwoWay (fuel : nat) (findPivot : PivotFunc)
    (arr : list Z) (l r : Z) (m : Metrics) (rng : Rng)
    : outcome (list Z * Metrics * Rng) :=
  if decide (r ≤ l)%Z then mret (arr, m, rng)
  else
    match fuel with
    | 0 => OutOfFuel
    | S fuel' =>
      let m := enter m in
      '(pivotIdx, arr, m, rng) ← findPivot arr l r m rng;
      '(arr, m) ← swap_counted arr l pivotIdx m;
      '(mid, arr, m) ← partition_TwoWay fuel arr l r m;
      '(arr, m, rng) ← quicksort_TwoWay fuel' findPivot arr l (mid - 1) m rng;
      '(arr, m, rng) ← quicksort_TwoWay fuel' findPivot arr (mid + 1) r m rng;
      mret (arr, leave m, rng)
    end.

End Pivot.

Fixpoint quicksort_ThreeWay (fuel : nat) (arr : list Z) (l r : Z) (m : Metrics)
    : outcome (list Z * Metrics) :=
  if decide (r ≤ l)%Z then mret (arr, m)
  else
    match fuel with
    | 0 => OutOfFuel
    | S fuel' =>
      let m := enter m in
      '(lt, gt, arr, m) ← partition_ThreeWay fuel arr l r m;
      '(arr, m) ← quicksort_ThreeWay fuel' arr l (lt - 1) m;
      '(arr, m) ← quicksort_ThreeWay fuel' arr (gt + 1) r m;
      mret (arr, leave m)
    end.

(** ** Merge sort *)

(** [vector<int> v(n)]: a negative [n] is no size. *)
Definition new_vector (n : Z) : outcome (list Z) :=
  if decide (0 ≤ n)%Z then mret (replicate (Z.to_nat n) 0%Z) else Undefined.

(** The three loops of [merge], on the state [(i, j, k, arr, m)]. *)

(** [while (i < n1 && j < n2)] *)
Definition merge_both (fuel : nat) (L R : list Z) (n1 n2 : Z)
    (s : Z * Z * Z * list Z * Metrics) : outcome (Z * Z * Z * list Z * Metrics) :=
  while fuel
    (λ '(i, j, k, arr, m),
       mret (bool_decide (i < n1)%Z && bool_decide (j < n2)%Z, (i, j, k, arr, m)))
    (λ '(i, j, k, arr, m),
       a ← load L i; b ← load R j;
       let '(c, m) := compare_le_counted a b m in
       if c : bool then
         a ← load L i; arr ← store arr k a;
         mret ((i + 1)%Z, j, (k + 1)%Z, arr, count_swap m)
       else
         b ← load R j; arr ← store arr k b;
         mret (i, (j + 1)%Z, (k + 1)%Z, arr, count_swap m))
    s.

(** [while (i < n1)] *)
Definition merge_left (fuel : nat) (L : list Z) (n1 : Z)
    (s : Z * Z * Z * list Z * Metrics) : outcome (Z * Z * Z * list Z * Metrics) :=
  while fuel
    (λ '(i, j, k, arr, m), mret (bool_decide (i < n1)%Z, (i, j, k, arr, m)))
    (λ '(i, j, k, arr, m),
       a ← load L i; arr ← store arr k a;
       mret ((i + 1)%Z, j, (k + 1)%Z, arr, count_swap m))
    s.

(** [while (j < n2)] *)
Definition merge_right (fuel : nat) (R : list Z) (n2 : Z)
    (s : Z * Z * Z * list Z * Metrics) : outcome (Z * Z * Z * list Z * Metrics) :=
  while fuel
    (λ '(i, j, k, arr, m), mret (bool_decide (j < n2)%Z, (i, j, k, arr, m)))
    (λ '(i, j, k, arr, m),
       b ← load R j; arr ← store arr k b;
       mret (i, (j + 1)%Z, (k + 1)%Z, arr, count_swap m))
    s.

Definition merge (fuel : nat) (arr : list Z) (l mid r : Z) (m : Metrics)
    : outcome (list Z * Metrics) :=
  let n1 := (mid - l + 1)%Z in
  let n2 := (r - mid)%Z in
  L ← new_vector n1;
  R ← new_vector n2;
  L ← for_up (Z.to_nat n1) 0 (λ i L, a ← load arr (l + i); store L i a) L;
  R ← for_up (Z.to_nat n2) 0 (λ j R, a ← load arr (mid + 1 + j); store R j a) R;
  s ← merge_both fuel L R n1 n2 (0%Z, 0%Z, l, arr, m);
  s ← merge_left fuel L n1 s;
  '(i, j, k, arr, m) ← merge_right fuel R n2 s;
  mret (arr, m).

Fixpoint mergeSortHelper (fuel : nat) (arr : list Z) (l r : Z) (m : Metrics)
    : outcome (list Z * Metrics) :=
  if decide (l < r)%Z then
    match fuel with
    | 0 => OutOfFuel
    | S fuel' =>
      let m := enter m in
      let mid := (l + (r - l) `quot` 2)%Z in
      '(arr, m) ← mergeSortHelper fuel' arr l mid m;
      '(arr, m) ← mergeSortHelper fuel' arr (mid + 1) r m;
      '(arr, m) ← merge fuel arr l mid r m;
      mret (arr, leave m)
    end
  else mret (arr, m).

Definition mergeSort (fuel : nat) (arr : list Z) (m : Metrics)
    : outcome (list Z * Metrics) :=
  if decide (1 < length arr) then
    mergeSortHelper fuel arr 0 (Z.of_nat (length arr) - 1) m
  else mret (arr, m).

(** ** Heap sort *)

Fixpoint heapify (fuel : nat) (arr : list Z) (n i : Z) (m : Metrics)
    : outcome (list Z * Metrics) :=
  match fuel with
  | 0 => OutOfFuel
  | S fuel' =>
    let largest := i in
    let left := (2 * i + 1)%Z in
    let right := (2 * i + 2)%Z in
    '(largest, m) ←
      (if decide (left < n)%Z then
         a ← load arr largest; b ← load arr left;
         let '(c, m) := compare_counted a b m in
         mret (if c : bool then left else largest, m)
       else mret (largest, m));
    '(largest, m) ←
      (if decide (right < n)%Z then
         a ← load arr largest; b ← load arr right;
         let '(c, m) := compare_counted a b m in
         mret (if c : bool then right else largest, m)
       else mret (largest, m));
    if decide (largest ≠ i) then
      '(arr, m) ← swap_counted arr i largest m;
      heapify fuel' arr n largest m
    else mret (arr, m)
  end.

Definition heapSort (fuel : nat) (arr : list Z) (m : Metrics)
    : outcome (list Z * Metrics) :=
  let n := Z.of_nat (length arr) in
  s ← for_down (Z.to_nat (n `quot` 2)) (n `quot` 2 - 1)%Z
        (λ i '(arr, m), heapify fuel arr n i m) (arr, m);
  for_down (Z.to_nat (n - 1)) (n - 1)%Z
    (λ i '(arr, m),
       '(arr, m) ← swap_counted arr 0 i m;
       heapify fuel arr i 0 m) s.

(** ** Data sets *)

Section Data.

(** The generator [dataRng] and its distribution. *)
Variable Rng : Type.
Variable uniform : Rng → Z → Z → Z * Rng.

(** The body of the loop of the random swaps:
    [swap(arr[idx1], arr[idx2])] with two draws of [dist(0, n - 1)]. *)
Definition noise_body (n : Z) (s : list Z * Rng) : outcome (list Z * Rng) :=
  let '(arr, rng) := s in
  '(idx1, rng) ← draw Rng uniform rng 0 (n - 1);
  '(idx2, rng) ← draw Rng uniform rng 0 (n - 1);
  a ← load arr idx1; b ← load arr idx2;
  arr ← store arr idx1 b; arr ← store arr idx2 a;
  mret (arr, rng).

Definition generateAlmostSorted (n : Z) (rng : Rng) : outcome (list Z * Rng) :=
  arr ← new_vector n;
  arr ← for_up (Z.to_nat n) 0 (λ i arr, store arr i i) arr;
  let noise := Z.max 1 (n `quot` 100) in
  for_up (Z.to_nat noise) 0 (λ _, noise_body n) (arr, rng).

End Data.

(** [for (int i = 0; i < n; i++) arr[i] = i + 1;] *)
Definition generateSorted (n : Z) : outcome (list Z) :=
  arr ← new_vector n;
  for_up (Z.to_nat n) 0 (λ i arr, store arr i (i + 1)%Z) arr.

End QuickSort.

(** ** Vocabulary of the properties of the sorting functions *)

Section SortingVocabulary.

Import QuickSort.

(** The index expressions of the sorting functions on [arr], of which
    [2 * i + 2] in [heapify] is the greatest, are in the range of [int]:
    the exact arithmetic of the embedding is the arithmetic of the
    source. *)
Definition indices_fit (arr : list Z) : Prop :=
  (2 * Z.of_nat (length arr) ≤ Int.INT_MAX)%Z.

(** The element [arr[k]] of a vector, when [k] is an index of it. *)
Definition item (arr : list Z) (k : Z) : option Z :=
  if decide (0 ≤ k)%Z then arr !! Z.to_nat k else None.

(** [arr'] is [arr] outside the indices [l..r]. *)
Definition same_outside (l r : Z) (arr arr' : list Z) : Prop :=
  length arr' = length arr ∧
  ∀ k, ¬ (l ≤ k ≤ r)%Z → item arr' k = item arr k.

(** [arr'] is [arr] with the elements at the indices [l..r] permuted. *)
Definition permuted (l r : Z) (arr arr' : list Z) : Prop :=
  arr' ≡ₚ arr ∧ same_outside l r arr arr'.

(** Every element at the indices [l..r] satisfies [P]. *)
Definition all_in (l r : Z) (arr : list Z) (P : Z → Prop) : Prop :=
  ∀ k x, (l ≤ k ≤ r)%Z → item arr k = Some x → P x.

(** The elements at the indices [l..r] are in ascending order. *)
Definition sorted_in (l r : Z) (arr : list Z) : Prop :=
  ∀ i j x y, (l ≤ i ≤ j)%Z → (j ≤ r)%Z →
    item arr i = Some x → item arr j = Some y → (x ≤ y)%Z.

(** The counters of [m'] are those of [m] after some comparisons and
    swaps, at the same depth of the recursion. *)
Definition counted (m m' : Metrics) : Prop :=
  (m.(comparisons) ≤ m'.(comparisons))%Z ∧
  (m.(swaps) ≤ m'.(swaps))%Z ∧
  m'.(max_depth) = m.(max_depth) ∧
  m'.(current_depth) = m.(current_depth).

(** The invariant of [while (startPtr <= endPtr)]: the elements before
    [startPtr] are at most the pivot, the elements after [endPtr] are
    greater, and every element passed was compared once. *)
Definition partition_inv (l r pivot : Z) (arr0 : list Z) (m0 : Metrics)
    (st : Z * Z * list Z * Metrics) : Prop :=
  let '(s, e, arr, m) := st in
  (l + 1 ≤ s ≤ e + 1)%Z ∧ (e ≤ r)%Z ∧
  permuted (l + 1) r arr0 arr ∧
  all_in (l + 1) (s - 1) arr (λ x, x ≤ pivot)%Z ∧
  all_in (e + 1) r arr (λ x, pivot < x)%Z ∧
  counted m0 m ∧
  (2 * (m.(swaps) - m0.(swaps)) ≤ (s - l - 1) + (r - e))%Z ∧
  (m0.(comparisons) + (s - l - 1) + (r - e) ≤ m.(comparisons))%Z ∧
  (m.(comparisons) ≤ m0.(comparisons) + (s - l - 1) + (r - e) + 1)%Z ∧
  ((s ≤ e)%Z → m.(comparisons) = (m0.(comparisons) + (s - l - 1) + (r - e))%Z).

(** What [quicksort_TwoWay] asks of a pivot function, on the ranges of
    at most [N] elements of a vector whose indices fit: it returns an
    index of the range, it may permute the range, and it leaves the
    depth counters alone. *)
Definition pivot_ok {Rng : Type} (N : Z) (findPivot : PivotFunc Rng) : Prop :=
  ∀ arr l r m rng,
    indices_fit arr →
    (0 ≤ l < r)%Z → (r < Z.of_nat (length arr))%Z → (r - l + 1 ≤ N)%Z →
    ∃ i arr' m' rng',
      findPivot arr l r m rng = Returns (i, arr', m', rng') ∧
      (l ≤ i ≤ r)%Z ∧ permuted l r arr arr' ∧ counted m m'.

(** The counters after a sort of [n] elements that started at [m]: the
    depth is back, and the maximum depth grew by at most [n - 1]. *)
Definition depth_ok (n : Z) (m m' : Metrics) : Prop :=
  (m.(comparisons) ≤ m'.(comparisons))%Z ∧
  (m.(swaps) ≤ m'.(swaps))%Z ∧
  m'.(current_depth) = m.(current_depth) ∧
  (m.(max_depth) ≤ m'.(max_depth))%Z ∧
  (m'.(max_depth) ≤ Z.max m.(max_depth) (m.(current_depth) + Z.max 0 (n - 1)))%Z.

(** The invariant of [while (i <= gt)]: the elements before [lt] are
    smaller than the pivot, the elements of [lt..i-1] are equal to it,
    the elements after [gt] are greater, and every step made one or two
    comparisons. *)
Definition three_way_inv (l r pivot : Z) (arr0 : list Z) (m0 : Metrics)
    (st : Z * Z * Z * list Z * Metrics) : Prop :=
  let '(lt, gt, i, arr, m) := st in
  (l ≤ lt < i)%Z ∧ (i ≤ gt + 1)%Z ∧ (gt ≤ r)%Z ∧
  permuted l r arr0 arr ∧
  all_in l (lt - 1) arr (λ x, x < pivot)%Z ∧
  all_in lt (i - 1) arr (λ x, x = pivot) ∧
  all_in (gt + 1) r arr (λ x, pivot < x)%Z ∧
  counted m0 m ∧
  (m0.(comparisons) + (i - l - 1) + (r - gt) ≤ m.(comparisons))%Z ∧
  (m.(comparisons) ≤ m0.(comparisons) + 2 * ((i - l - 1) + (r - gt)))%Z.

(** The invariant of the inner loop: the elements after [j + 1] up to
    [i] are the elements that were at [j + 1 .. i - 1], all greater than
    the key; with the key at [j + 1] the vector is a permutation of the
    vector at the entry of the loop. *)
Definition shift_inv (l i key : Z) (arr : list Z) (m : Metrics)
    (st : Z * list Z * Metrics) : Prop :=
  let '(j, arr1, m1) := st in
  (l - 1 ≤ j ≤ i - 1)%Z ∧ length arr1 = length arr ∧
  (∀ k, (k ≤ j ∨ i < k)%Z → item arr1 k = item arr k) ∧
  (∀ k, (j + 2 ≤ k ≤ i)%Z → item arr1 k = item arr (k - 1)) ∧
  all_in (j + 1) (i - 1) arr (λ x, key < x)%Z ∧
  <[Z.to_nat (j + 1):=key]> arr1 ≡ₚ arr ∧
  counted m m1 ∧
  m1.(swaps) = (m.(swaps) + (i - 1 - j))%Z ∧
  (m.(comparisons) + (i - 1 - j) ≤ m1.(comparisons) ≤ m.(comparisons) + (i - 1 - j) + 1)%Z ∧
  ((j < l)%Z → m1.(comparisons) = (m.(comparisons) + (i - 1 - j))%Z).

(** The invariant of the three loops of [merge], on [(i, j, k, arr1)]:
    the output [arr1[l..k-1]] is sorted, it is a permutation of the
    elements taken so far from [L] and [R], and no element of it is
    greater than the next element of [L] or of [R]; outside [l..k-1] the
    vector is untouched. *)
Definition merge_loop_inv (l : Z) (L R arr : list Z) (st : Z * Z * Z * list Z) : Prop :=
  let '(i, j, k, arr1) := st in
  (0 ≤ i ≤ Z.of_nat (length L))%Z ∧ (0 ≤ j ≤ Z.of_nat (length R))%Z ∧
  k = (l + i + j)%Z ∧
  same_outside l (k - 1) arr arr1 ∧
  sorted_in l (k - 1) arr1 ∧
  all_in l (k - 1) arr1 (λ x, ∀ y, item L i = Some y → (x ≤ y)%Z) ∧
  all_in l (k - 1) arr1 (λ x, ∀ y, item R j = Some y → (x ≤ y)%Z) ∧
  take (Z.to_nat (k - l)) (drop (Z.to_nat l) arr1)
    ≡ₚ take (Z.to_nat i) L ++ take (Z.to_nat j) R.

(** The state of the loops of [merge]: the invariant, and one swap
    counted per element of the output. *)
Definition merge_state_ok (l : Z) (L R arr : list Z) (m : Metrics)
    (st : Z * Z * Z * list Z * Metrics) : Prop :=
  let '(i, j, k, arr1, m1) := st in
  merge_loop_inv l L R arr (i, j, k, arr1) ∧ counted m m1 ∧
  m1.(swaps) = (m.(swaps) + (k - l))%Z.

(** [d] is the depth of the recursion of the merge sort of [n]
    elements: [0] for one element, and at most the logarithm of [n]. *)
Definition log_depth (n d : Z) : Prop :=
  (n = 1 ∧ d = 0)%Z ∨ (2 ≤ n ∧ 1 ≤ d ∧ 2 ^ (d - 1) ≤ n - 1)%Z.

(** In the heap of the first [n] elements, the element at [k] is not
    smaller than its children. *)
Definition heap_at (n : Z) (arr : list Z) (k : Z) : Prop :=
  ∀ c x y, (c = 2 * k + 1 ∨ c = 2 * k + 2)%Z → (c < n)%Z →
    item arr k = Some x → item arr c = Some y → (y ≤ x)%Z.

(** The heap property from the index [lo] on. *)
Definition heap_from (lo n : Z) (arr : list Z) : Prop :=
  ∀ k, (lo ≤ k)%Z → heap_at n arr k.

(** The heap property from [lo] on but at [i], where the element may be
    too small; the parent of [i] is not smaller than the children of
    [i]. *)
Definition almost_heap (lo n i : Z) (arr : list Z) : Prop :=
  (∀ k, (lo ≤ k)%Z → k ≠ i → heap_at n arr k) ∧
  (∀ p c x y, (lo ≤ p)%Z → (i = 2 * p + 1 ∨ i = 2 * p + 2)%Z →
     (c = 2 * i + 1 ∨ c = 2 * i + 2)%Z → (c < n)%Z →
     item arr p = Some x → item arr c = Some y → (y ≤ x)%Z).

(** The elements at the indices [l..r] are in strictly ascending order. *)
Definition increasing_in (l r : Z) (arr : list Z) : Prop :=
  ∀ i j x y, (l ≤ i < j)%Z → (j ≤ r)%Z →
    item arr i = Some x → item arr j = Some y → (x < y)%Z.

End SortingVocabulary.

(** * Properties *)

(** ** Loops *)

Lemma for_loop_inv {St : Type} (P : nat → St → Prop) (body : nat → St → option St) :
  ∀ n i s,
    P i s →
    (∀ k s, i ≤ k < i + n → P k s → ∃ s', body k s = Some s' ∧ P (S k) s') →
    ∃ s', for_loop i n body s = Some s' ∧ P (i + n) s'.
Proof.
  induction n as [|n IH]; intros i s HP Hstep; simpl.
  - exists s. rewrite Nat.add_0_r. done.
  - destruct (Hstep i s) as (s1 & -> & HP1); [lia | done |]. simpl.
    destruct (IH (S i) s1) as (s2 & -> & HP2); [done | |].
    + intros k s' Hk. apply Hstep. lia.
    + exists s2. split; [done|]. by replace (i + S n) with (S i + n) by lia.
Qed.

Lemma for_loop_snoc {St : Type} (body : nat → St → option St) :
  ∀ n i s, for_loop i (S n) body s = for_loop i n body s ≫= body (i + n).
Proof.
  induction n as [|n IH]; intros i s.
  - simpl. rewrite Nat.add_0_r. by destruct (body i s).
  - change (for_loop i (S (S n)) body s)
      with (body i s ≫= for_loop (S i) (S n) body).
    change (for_loop i (S n) body s)
      with (body i s ≫= for_loop (S i) n body).
    destruct (body i s) as [s1|]; [|done].
    change (for_loop (S i) (S n) body s1 =
            for_loop (S i) n body s1 ≫= body (i + S n)).
    rewrite IH. by replace (S i + n) with (i + S n) by lia.
Qed.

(** ** Integer arithmetic without overflow *)

Lemma wrap_small z : (Int.INT_MIN ≤ z ≤ Int.INT_MAX)%Z → Int.wrap z = z.
Proof.
  unfold Int.wrap, Int.INT_MIN, Int.INT_MAX. intros H.
  rewrite Z.mod_small; lia.
Qed.

Lemma add_small a b :
  (0 ≤ a)%Z → (0 ≤ b)%Z → (a + b ≤ Int.INT_MAX)%Z → Int.add a b = (a + b)%Z.
Proof.
  intros. apply wrap_small. unfold Int.INT_MIN, Int.INT_MAX in *. lia.
Qed.

(** ** Vector accesses *)

Lemma vset_Some {A} (v : list A) i x :
  i < length v → vset v i x = Some (<[i:=x]> v).
Proof. intros. unfold vset. by rewrite decide_True. Qed.

Lemma vset_inv {A} (v v' : list A) i x :
  vset v i x = Some v' → i < length v ∧ v' = <[i:=x]> v.
Proof. unfold vset. case_decide; naive_solver. Qed.

Lemma erase_Some {A} (v : list A) i :
  i < length v → erase v i = Some (delete i v).
Proof. intros. unfold erase. by rewrite decide_True. Qed.

(** ** Sums over lists of vertices *)

Lemma sumZ_app f l1 l2 : sumZ f (l1 ++ l2) = (sumZ f l1 + sumZ f l2)%Z.
Proof. induction l1 as [|a l1 IH]; simpl; lia. Qed.

Lemma sumZ_perm f l1 l2 : l1 ≡ₚ l2 → sumZ f l1 = sumZ f l2.
Proof. induction 1; simpl; lia. Qed.

Lemma sumZ_ext f g l : (∀ a, a ∈ l → f a = g a) → sumZ f l = sumZ g l.
Proof.
  induction l as [|a l IH]; intros H; simpl; [done|].
  rewrite (H a), IH; [done| |]; intros; [apply H|]; set_solver.
Qed.

Lemma sumZ_nonneg f l : (∀ a, a ∈ l → (0 ≤ f a)%Z) → (0 ≤ sumZ f l)%Z.
Proof.
  induction l as [|a l IH]; intros H; simpl; [done|].
  assert (0 ≤ f a)%Z by (apply H; set_solver).
  assert (0 ≤ sumZ f l)%Z by (apply IH; intros; apply H; set_solver). lia.
Qed.

Lemma sumZ_le f g l : (∀ a, a ∈ l → (f a ≤ g a)%Z) → (sumZ f l ≤ sumZ g l)%Z.
Proof.
  induction l as [|a l IH]; intros H; simpl; [done|].
  assert (f a ≤ g a)%Z by (apply H; set_solver).
  assert (sumZ f l ≤ sumZ g l)%Z by (apply IH; intros; apply H; set_solver). lia.
Qed.

Lemma sumZ_plus f g l : sumZ (λ a, (f a + g a)%Z) l = (sumZ f l + sumZ g l)%Z.
Proof. induction l as [|a l IH]; simpl; lia. Qed.

Lemma sumZ_zero f l : (∀ a, a ∈ l → f a = 0%Z) → sumZ f l = 0%Z.
Proof.
  induction l as [|a l IH]; intros H; simpl; [done|].
  rewrite (H a), IH; [done| |]; intros; [apply H|]; set_solver.
Qed.

Lemma sumZ_fmap f (h : nat → nat) l : sumZ f (h <$> l) = sumZ (λ a, f (h a)) l.
Proof. induction l as [|a l IH]; csimpl; [done|]. by rewrite IH. Qed.

Lemma pairs_weight_perm W l1 l2 :
  (∀ a b, W a b = W b a) → l1 ≡ₚ l2 → pairs_weight W l1 = pairs_weight W l2.
Proof.
  intros Hsym. induction 1 as [|x l1 l2 Hp IH|x y l|l1 l2 l3 _ IH1 _ IH2]; simpl.
  - done.
  - by rewrite IH, (sumZ_perm _ _ _ Hp).
  - rewrite (Hsym y x). lia.
  - congruence.
Qed.

Lemma pairs_weight_ext W W' l :
  NoDup l → (∀ a b, a ∈ l → b ∈ l → a ≠ b → W a b = W' a b) →
  pairs_weight W l = pairs_weight W' l.
Proof.
  induction l as [|x l IH]; intros Hnd H; simpl; [done|].
  apply NoDup_cons in Hnd as [Hx Hnd].
  rewrite IH; [|done|intros; apply H; set_solver].
  f_equal. apply sumZ_ext. intros a Ha. apply H; set_solver.
Qed.

Lemma pairs_weight_fmap W (h : nat → nat) l :
  pairs_weight W (h <$> l) = pairs_weight (λ a b, W (h a) (h b)) l.
Proof.
  induction l as [|x l IH]; csimpl; [done|]. by rewrite IH, sumZ_fmap.
Qed.

Lemma pairs_weight_nonneg W l :
  NoDup l → (∀ a b, a ∈ l → b ∈ l → a ≠ b → (0 ≤ W a b)%Z) →
  (0 ≤ pairs_weight W l)%Z.
Proof.
  induction l as [|x l IH]; intros Hnd H; simpl; [done|].
  apply NoDup_cons in Hnd as [Hx Hnd].
  assert (0 ≤ pairs_weight W l)%Z by (apply IH; [done|intros; apply H; set_solver]).
  assert (0 ≤ sumZ (λ a, W a x) l)%Z.
  { apply sumZ_nonneg. intros a Ha. apply H; set_solver. }
  lia.
Qed.

Lemma pairs_weight_le W W' l :
  NoDup l → (∀ a b, a ∈ l → b ∈ l → a ≠ b → (W a b ≤ W' a b)%Z) →
  (pairs_weight W l ≤ pairs_weight W' l)%Z.
Proof.
  induction l as [|x l IH]; intros Hnd H; simpl; [done|].
  apply NoDup_cons in Hnd as [Hx Hnd].
  assert (pairs_weight W l ≤ pairs_weight W' l)%Z
    by (apply IH; [done|intros; apply H; set_solver]).
  assert (sumZ (λ a, W a x) l ≤ sumZ (λ a, W' a x) l)%Z.
  { apply sumZ_le. intros a Ha. apply H; set_solver. }
  lia.
Qed.

(** ** Matrices *)

Lemma get_Some n G i j :
  square n G → i < n → j < n → get G i j = Some (entry G i j).
Proof.
  intros [Hlen Hrow] Hi Hj. unfold entry, get.
  destruct (lookup_lt_is_Some_2 G i) as [row Hr]; [lia|].
  rewrite Hr. simpl.
  destruct (lookup_lt_is_Some_2 row j) as [x Hx]; [rewrite (Hrow i row Hr); lia|].
  by rewrite Hx.
Qed.

Lemma get_None_row n G i j : square n G → n ≤ i → get G i j = None.
Proof.
  intros [Hlen _] Hi. unfold get. rewrite (lookup_ge_None_2 G i); [done|lia].
Qed.

Lemma get_None_col n G i j : square n G → n ≤ j → get G i j = None.
Proof.
  intros [_ Hrow] Hj. unfold get. destruct (G !! i) as [row|] eqn:Hr; [|done].
  simpl. apply lookup_ge_None_2. rewrite (Hrow i row Hr). lia.
Qed.

Lemma entry_outside n G i j : square n G → n ≤ i ∨ n ≤ j → entry G i j = 0%Z.
Proof.
  intros Hsq [H|H]; unfold entry.
  - by rewrite (get_None_row n).
  - by rewrite (get_None_col n).
Qed.

Lemma set_spec n G i j x :
  square n G → i < n → j < n →
  ∃ G', set G i j x = Some G' ∧ square n G' ∧
        ∀ a b, get G' a b = if decide (a = i ∧ b = j) then Some x else get G a b.
Proof.
  intros [Hlen Hrow] Hi Hj. unfold set.
  destruct (lookup_lt_is_Some_2 G i) as [row Hr]; [lia|].
  rewrite Hr. simpl. pose proof (Hrow i row Hr) as Hl.
  rewrite vset_Some by lia. simpl. rewrite vset_Some by lia.
  eexists. split; [done|]. split.
  - split; [by rewrite length_insert|].
    intros a r Ha. destruct (decide (a = i)) as [->|Hne].
    + rewrite list_lookup_insert_eq in Ha by lia. simplify_eq.
      by rewrite length_insert.
    + rewrite list_lookup_insert_ne in Ha by done. eauto.
  - intros a b. unfold get. destruct (decide (a = i)) as [->|Hne].
    + rewrite list_lookup_insert_eq by lia. simpl. rewrite Hr. simpl.
      destruct (decide (b = j)) as [->|Hnb].
      * rewrite decide_True by done. apply list_lookup_insert_eq. lia.
      * rewrite decide_False by (by intros [??]). by apply list_lookup_insert_ne.
    + rewrite list_lookup_insert_ne by done.
      rewrite decide_False by (by intros [??]). done.
Qed.

(** ** The merge of [last] into [prev] *)

Lemma merge_body_inv n G s t k Gk :
  s < n → t < n → s ≠ t → k < n →
  merge_inv n G s t k Gk →
  ∃ G', merge_body s t k Gk = Some G' ∧ merge_inv n G s t (S k) G'.
Proof.
  intros Hs Ht Hst Hk (Hsq & Hother & Hrow). unfold merge_body.
  rewrite (get_Some n Gk s k), (get_Some n Gk t k) by done. simpl.
  destruct (set_spec n Gk s k (Int.add (entry Gk s k) (entry Gk t k)))
    as (G1 & -> & Hsq1 & Hg1); [done..|]. simpl.
  rewrite Hg1, decide_True by done. simpl.
  destruct (set_spec n G1 k s (Int.add (entry Gk s k) (entry Gk t k)))
    as (G2 & -> & Hsq2 & Hg2); [done..|].
  eexists. split; [done|]. split; [done|]. split.
  - intros a b Ha Hb. rewrite Hg2, decide_False by (intros [??]; done).
    rewrite Hg1, decide_False by (intros [??]; done). by apply Hother.
  - intros i Hi His Hit. simpl.
    destruct (Hrow i Hi His Hit) as [Hx Hy]. simpl in Hx, Hy.
    rewrite !Hg2, !Hg1.
    destruct (decide (i = k)) as [->|Hik].
    + rewrite (decide_True (P:=(k < S k))) by lia.
      rewrite (decide_False (P:=(s = k ∧ k = s))) by (intros [??]; done).
      rewrite (decide_True (P:=(s = s ∧ k = k))) by done.
      rewrite (decide_True (P:=(k = k ∧ s = s))) by done.
      rewrite decide_False in Hx by lia.
      assert (entry Gk s k = entry G s k) as -> by (unfold entry; by rewrite Hx).
      assert (entry Gk t k = entry G t k) as ->.
      { unfold entry. by rewrite Hother. }
      split; [done|]. by rewrite decide_True by lia.
    + rewrite (decide_False (P:=(s = k ∧ i = s))) by (intros [??]; done).
      rewrite (decide_False (P:=(s = s ∧ i = k))) by (intros [??]; done).
      rewrite (decide_False (P:=(i = k ∧ s = s))) by (intros [??]; done).
      rewrite (decide_False (P:=(i = s ∧ s = k))) by (intros [??]; done).
      rewrite Hx, Hy.
      repeat case_decide; (done || lia).
Qed.

Lemma merge_spec n G s t :
  square n G → s < n → t < n → s ≠ t →
  ∃ G1, merge G n s t = Some G1 ∧ square n G1 ∧
    (∀ a b, a ≠ s → b ≠ s → get G1 a b = get G a b) ∧
    (∀ i, i < n → i ≠ s → i ≠ t →
       get G1 s i = Some (Int.add (entry G s i) (entry G t i)) ∧
       get G1 i s = Some (Int.add (entry G s i) (entry G t i))).
Proof.
  intros Hsq Hs Ht Hst. unfold merge.
  destruct (for_loop_inv (merge_inv n G s t) (merge_body s t) n 0 G)
    as (G1 & HG1 & Hsq1 & Hother & Hrow).
  - split; [done|]. split; [done|]. intros i Hi His Hit. simpl.
    repeat case_decide; try lia; split; by apply (get_Some n).
  - intros k Gk Hk Hinv. apply (merge_body_inv n); [done..|lia|done].
  - exists G1. split; [done|]. split; [done|]. split; [done|].
    intros i Hi His Hit. specialize (Hrow i Hi His Hit). simpl in Hrow.
    repeat case_decide; (done || lia).
Qed.

(** ** The removal of the row and the column of [last] *)

Lemma rows_loop (f : list Z → option (list Z)) (g : list Z → list Z) (L : matrix) :
  (∀ i row, L !! i = Some row → f row = Some (g row)) →
  for_loop 0 (length L) (λ i G, row ← G !! i; row' ← f row; vset G i row') L
  = Some (g <$> L).
Proof.
  intros Hf.
  destruct (for_loop_inv
    (λ k (Gk : matrix), length Gk = length L ∧
       ∀ i, Gk !! i = if decide (i < k) then g <$> (L !! i) else L !! i)
    (λ i G, row ← G !! i; row' ← f row; vset G i row') (length L) 0 L)
    as (G' & -> & Hlen & HG').
  - split; [done|]. intros i. by rewrite decide_False by lia.
  - intros k Gk Hk [Hlen HGk].
    destruct (lookup_lt_is_Some_2 L k) as [row Hrow]; [lia|].
    pose proof (HGk k) as Hk'. rewrite decide_False, Hrow in Hk' by lia.
    rewrite Hk'. simpl. rewrite (Hf k row Hrow). simpl.
    rewrite vset_Some by lia. eexists. split; [done|].
    split; [by rewrite length_insert|].
    intros i. destruct (decide (i = k)) as [->|Hne].
    + rewrite list_lookup_insert_eq by lia.
      rewrite decide_True by lia. by rewrite Hrow.
    + rewrite list_lookup_insert_ne by done. rewrite HGk.
      repeat case_decide; (done || lia).
  - f_equal. apply list_eq. intros i. rewrite HG', list_lookup_fmap.
    case_decide; [done|].
    rewrite (lookup_ge_None_2 L i) by lia. done.
Qed.

Lemma linear_remove_spec n G t :
  square n G → t < n →
  Linear.remove_vertex G n t = Some (delete t (delete t <$> G)).
Proof.
  intros [Hlen Hrow] Ht. unfold Linear.remove_vertex.
  rewrite <- Hlen, (rows_loop (λ row, erase row t) (delete t)).
  - simpl. apply erase_Some. rewrite length_fmap. lia.
  - intros i row Hi. apply erase_Some. rewrite (Hrow i row Hi). done.
Qed.

Lemma pq_remove_spec n G t :
  square n G → t < n →
  PQ.remove_vertex G t = Some (delete t (delete t <$> G)).
Proof.
  intros [Hlen Hrow] Ht. unfold PQ.remove_vertex.
  rewrite erase_Some by lia. simpl.
  rewrite (rows_loop (λ row, erase row t) (delete t)).
  - by rewrite list_fmap_delete.
  - intros i row Hi. apply erase_Some.
    rewrite list_lookup_delete in Hi. rewrite (Hrow _ row Hi). done.
Qed.

Lemma removed_get (G : matrix) t i j :
  get (delete t (delete t <$> G)) i j = get G (up t i) (up t j).
Proof.
  unfold get, up. rewrite list_lookup_delete, list_lookup_fmap.
  destruct (G !! _) as [row|]; simpl; [|done].
  by rewrite list_lookup_delete.
Qed.

Lemma removed_square n (G : matrix) t :
  square n G → t < n → square (n - 1) (delete t (delete t <$> G)).
Proof.
  intros [Hlen Hrow] Ht. split.
  - rewrite length_delete, length_fmap; [lia|].
    rewrite list_lookup_fmap. apply fmap_is_Some, lookup_lt_is_Some_2. lia.
  - intros i row. rewrite list_lookup_delete, list_lookup_fmap.
    intros Hi. apply fmap_Some in Hi as (row0 & Hi & ->).
    rewrite length_delete; [by rewrite (Hrow _ _ Hi)|].
    apply lookup_lt_is_Some_2. rewrite (Hrow _ _ Hi). done.
Qed.

Lemma up_ne t i : up t i ≠ t.
Proof. unfold up. case_decide; lia. Qed.

Lemma up_lt n t i : t < n → i < n - 1 → up t i < n.
Proof. unfold up. case_decide; lia. Qed.

Lemma up_inj t i j : up t i = up t j → i = j.
Proof. unfold up. repeat case_decide; lia. Qed.

Lemma up_surj t a : a ≠ t → ∃ i, up t i = a ∧ (a < t → i = a) ∧ (t < a → i = a - 1).
Proof.
  intros Hne. destruct (decide (a < t)).
  - exists a. unfold up. rewrite decide_True by done. lia.
  - exists (a - 1). unfold up. rewrite decide_False by lia. lia.
Qed.

Lemma contract_spec n G s t :
  square n G → s < n → t < n → s ≠ t →
  ∃ G', (G1 ← merge G n s t; Linear.remove_vertex G1 n t) = Some G' ∧
        (G1 ← merge G n s t; PQ.remove_vertex G1 t) = Some G' ∧
        contracted n G s t G'.
Proof.
  intros Hsq Hs Ht Hst.
  destruct (merge_spec n G s t Hsq Hs Ht Hst) as (G1 & -> & Hsq1 & Hother & Hrow).
  simpl. rewrite (linear_remove_spec n), (pq_remove_spec n) by done.
  eexists. split; [done|]. split; [done|]. split; [by apply removed_square|].
  intros i j Hi Hj. unfold entry at 1 3 6. rewrite !removed_get.
  pose proof (up_ne t i). pose proof (up_ne t j).
  pose proof (up_lt n t i Ht Hi). pose proof (up_lt n t j Ht Hj).
  split.
  - intros Hsi Hsj. by rewrite Hother.
  - intros Hsi ->. destruct (Hrow (up t i)) as [-> ->]; done.
Qed.

(** ** Weights of pairs under a contraction *)

Lemma seq_up_perm n t : t < n → seq 0 n ≡ₚ t :: (up t <$> seq 0 (n - 1)).
Proof.
  intros Ht. apply NoDup_Permutation.
  - apply NoDup_seq.
  - apply NoDup_cons. split.
    + intros (i & Hi & _)%list_elem_of_fmap. by eapply up_ne.
    + apply NoDup_fmap_2; [|apply NoDup_seq]. intros i j. apply up_inj.
  - intros a. rewrite elem_of_seq, elem_of_cons, list_elem_of_fmap. split.
    + intros Ha. destruct (decide (a = t)) as [->|Hne]; [by left|right].
      destruct (up_surj t a Hne) as (i & Hi & Hlt & Hgt).
      exists i. split; [done|]. apply elem_of_seq. lia.
    + intros [->|(i & -> & Hi%elem_of_seq)]; [lia|].
      pose proof (up_lt n t i). lia.
Qed.

Lemma pairs_weight_contract (W W' : nat → nat → Z) n s t :
  s < n → t < n → s ≠ t →
  (∀ a b, W a b = W b a) → (∀ a b, W' a b = W' b a) →
  (∀ i j, i < n - 1 → j < n - 1 → i ≠ j → up t i ≠ s → up t j ≠ s →
     W' i j = W (up t i) (up t j)) →
  (∀ i j, i < n - 1 → j < n - 1 → up t i ≠ s → up t j = s →
     W' i j = (W (up t i) s + W (up t i) t)%Z) →
  pairs_weight W' (seq 0 (n - 1)) = (pairs_weight W (seq 0 n) - W s t)%Z.
Proof.
  intros Hs Ht Hst Hsym Hsym' Hother Hrow.
  destruct (up_surj t s Hst) as (s' & Hs' & Hlt & Hgt).
  assert (s' < n - 1) as Hs'n by lia.
  assert (s' ∈ seq 0 (n - 1)) as Hin by (apply elem_of_seq; lia).
  apply elem_of_Permutation in Hin as [R HR].
  assert (NoDup (s' :: R)) as [Hs'R HndR]%NoDup_cons.
  { rewrite <- HR. apply NoDup_seq. }
  assert (∀ a, a ∈ R → a < n - 1 ∧ up t a ≠ s) as HRin.
  { intros a Ha. split.
    - assert (a ∈ seq 0 (n - 1)) as Ha'%elem_of_seq by (rewrite HR; set_solver). lia.
    - intros Heq. rewrite <- Hs' in Heq. apply up_inj in Heq. by subst. }
  rewrite (pairs_weight_perm W' _ (s' :: R)) by done.
  rewrite (pairs_weight_perm W (seq 0 n) (t :: s :: (up t <$> R))); [|done|].
  2:{ rewrite (seq_up_perm n t Ht), HR. csimpl. by rewrite Hs'. }
  simpl. rewrite pairs_weight_fmap, !sumZ_fmap.
  rewrite (pairs_weight_ext W' (λ a b, W (up t a) (up t b)) R); [|done|].
  2:{ intros a b Ha Hb Hab. destruct (HRin a Ha), (HRin b Hb). by apply Hother. }
  rewrite (sumZ_ext (λ a, W' a s') (λ a, (W (up t a) s + W (up t a) t)%Z) R).
  2:{ intros a Ha. destruct (HRin a Ha). by apply Hrow. }
  rewrite sumZ_plus. lia.
Qed.

Lemma sublist_total n G (l : list nat) :
  square n G → NoDup l → (∀ a, a ∈ l → a < n) →
  ∃ k, seq 0 n ≡ₚ l ++ k.
Proof.
  intros Hsq Hnd Hin. apply submseteq_Permutation, NoDup_submseteq; [done|].
  intros x Hx. apply elem_of_seq. specialize (Hin x Hx). lia.
Qed.

Lemma wsum_bounds n G A i :
  graph_ok n G → NoDup (i :: A) → (∀ a, a ∈ i :: A → a < n) →
  (0 ≤ wsum G A i ≤ total_weight G)%Z.
Proof.
  intros (Hsq & Hsym & Hnn & Hfit) Hnd Hin.
  destruct (sublist_total n G (i :: A) Hsq Hnd Hin) as [k Hk].
  assert (NoDup (i :: A ++ k)) as Hnd'.
  { change (NoDup ((i :: A) ++ k)). rewrite <- Hk. apply NoDup_seq. }
  assert (∀ a, a ∈ i :: A ++ k → a < n) as Hin'.
  { intros a Ha. assert (a ∈ seq 0 n) as Ha'%elem_of_seq by (rewrite Hk; done). lia. }
  unfold total_weight. destruct Hsq as [-> _].
  rewrite (pairs_weight_perm _ _ _ Hsym Hk). simpl.
  apply NoDup_cons in Hnd' as [Hi Hnd'].
  assert (0 ≤ pairs_weight (entry G) (A ++ k))%Z.
  { apply pairs_weight_nonneg; [done|]. intros a b Ha Hb Hab.
    apply Hnn; [apply Hin'; set_solver..|done]. }
  rewrite sumZ_app. unfold wsum.
  assert (0 ≤ sumZ (λ a, entry G a i) A)%Z.
  { apply sumZ_nonneg. intros a Ha. apply Hnn; [apply Hin'; set_solver..|].
    intros ->. apply Hi. set_solver. }
  assert (0 ≤ sumZ (λ a, entry G a i) k)%Z.
  { apply sumZ_nonneg. intros a Ha. apply Hnn; [apply Hin'; set_solver..|].
    intros ->. apply Hi. set_solver. }
  lia.
Qed.

Lemma pair_sum_fits n G s t a :
  graph_ok n G → s < n → t < n → a < n → s ≠ t → a ≠ s → a ≠ t →
  Int.add (entry G s a) (entry G t a) = (entry G s a + entry G t a)%Z.
Proof.
  intros Hok Hs Ht Ha Hst Has Hat.
  pose proof (wsum_bounds n G [s; t] a Hok) as Hb.
  destruct Hok as (Hsq & Hsym & Hnn & Hfit).
  unfold wsum in Hb. simpl in Hb. unfold weights_fit in Hfit.
  apply add_small; [by apply Hnn..|].
  etrans; [|exact Hfit]. etrans; [|apply Hb].
  - lia.
  - repeat constructor; set_solver.
  - intros x Hx. set_unfold. naive_solver.
Qed.

Lemma crossing_sym G side a b :
  symmetric G → crossing G side a b = crossing G side b a.
Proof.
  intros Hsym. unfold crossing. rewrite (Hsym a b).
  repeat case_decide; congruence.
Qed.

Lemma contracted_entry n G s t G' i j :
  graph_ok n G → s < n → t < n → s ≠ t → contracted n G s t G' →
  i < n - 1 → j < n - 1 → i ≠ j →
  entry G' i j =
    if decide (up t i = s) then (entry G s (up t j) + entry G t (up t j))%Z
    else if decide (up t j = s) then (entry G s (up t i) + entry G t (up t i))%Z
    else entry G (up t i) (up t j).
Proof.
  intros Hok Hs Ht Hst [Hsq' Hc] Hi Hj Hij.
  pose proof (up_ne t i). pose proof (up_ne t j).
  pose proof (up_lt n t i Ht Hi). pose proof (up_lt n t j Ht Hj).
  assert (up t i ≠ up t j) by (intros ?%up_inj; done).
  destruct (decide (up t i = s)) as [Hi'|Hi'].
  - destruct (Hc j i Hj Hi) as [_ Hr]. destruct Hr as [_ ->]; [congruence|done|].
    apply (pair_sum_fits n); (done || congruence).
  - destruct (decide (up t j = s)) as [Hj'|Hj'].
    + destruct (Hc i j Hi Hj) as [_ Hr]. destruct Hr as [-> _]; [done..|].
      apply (pair_sum_fits n); (done || congruence).
    + destruct (Hc i j Hi Hj) as [Hr _]. by apply Hr.
Qed.

Lemma contracted_symmetric n G s t G' :
  square n G → symmetric G → contracted n G s t G' → symmetric G'.
Proof.
  intros Hsq Hsym [Hsq' Hc] i j.
  destruct (decide (i < n - 1)) as [Hi|Hi].
  2:{ rewrite !(entry_outside (n - 1)); (done || lia). }
  destruct (decide (j < n - 1)) as [Hj|Hj].
  2:{ rewrite !(entry_outside (n - 1)); (done || lia). }
  destruct (decide (i = j)) as [->|Hij]; [done|].
  assert (up t i ≠ up t j) by (intros ?%up_inj; done).
  destruct (decide (up t i = s)) as [Hi'|Hi'].
  - destruct (Hc j i Hj Hi) as [_ Hr]. destruct Hr as [-> ->]; (done || congruence).
  - destruct (decide (up t j = s)) as [Hj'|Hj'].
    + destruct (Hc i j Hi Hj) as [_ Hr]. destruct Hr as [-> ->]; done.
    + destruct (Hc i j Hi Hj) as [Hr _]. rewrite Hr by done.
      destruct (Hc j i Hj Hi) as [Hr' _]. rewrite Hr' by done. apply Hsym.
Qed.

Lemma cut_weight_contract n G s t G' side side' :
  graph_ok n G → s < n → t < n → s ≠ t → contracted n G s t G' →
  (∀ i, side' i = side (up t i)) → side s = side t →
  cut_weight G' side' = cut_weight G side.
Proof.
  intros Hok Hs Ht Hst Hc Hside Hst'.
  pose proof Hok as (Hsq & Hsym & Hnn & Hfit).
  pose proof (contracted_symmetric n G s t G' Hsq Hsym Hc) as Hsym'.
  unfold cut_weight. pose proof Hc as [Hsq' Hc'].
  pose proof Hsq as [-> _]. pose proof Hsq' as [-> _].
  assert (crossing G side s t = 0%Z) as Hz.
  { unfold crossing. by rewrite decide_True by done. }
  rewrite <- (Z.sub_0_r (pairs_weight (crossing G side) (seq 0 n))), <- Hz.
  apply pairs_weight_contract; [done|done|done| | | |].
  - intros. by apply crossing_sym.
  - intros. by apply crossing_sym.
  - intros i j Hi Hj Hij Hi' Hj'. unfold crossing. rewrite !Hside.
    rewrite (contracted_entry n G s t G') by done.
    by rewrite (decide_False (P:=(up t i = s))), (decide_False (P:=(up t j = s))) by done.
  - intros i j Hi Hj Hi' Hj'. unfold crossing. rewrite !Hside, Hj', <- Hst'.
    assert (i ≠ j) by (intros ->; done).
    rewrite (contracted_entry n G s t G') by done.
    rewrite (decide_False (P:=(up t i = s))), (decide_True (P:=(up t j = s))) by done.
    rewrite (Hsym (up t i) s), (Hsym (up t i) t).
    case_decide; lia.
Qed.

Lemma total_weight_contract n G s t G' :
  graph_ok n G → s < n → t < n → s ≠ t → contracted n G s t G' →
  total_weight G' = (total_weight G - entry G s t)%Z.
Proof.
  intros Hok Hs Ht Hst Hc.
  pose proof Hok as (Hsq & Hsym & Hnn & Hfit).
  pose proof (contracted_symmetric n G s t G' Hsq Hsym Hc) as Hsym'.
  unfold total_weight. pose proof Hc as [Hsq' Hc'].
  pose proof Hsq as [-> _]. pose proof Hsq' as [-> _].
  apply (pairs_weight_contract (entry G) (entry G') n s t); [done..| |].
  - intros i j Hi Hj Hij Hi' Hj'.
    rewrite (contracted_entry n G s t G') by done.
    by rewrite (decide_False (P:=(up t i = s))), (decide_False (P:=(up t j = s))) by done.
  - intros i j Hi Hj Hi' Hj'.
    assert (i ≠ j) by (intros ->; done).
    rewrite (contracted_entry n G s t G') by done.
    rewrite (decide_False (P:=(up t i = s))), (decide_True (P:=(up t j = s))) by done.
    by rewrite (Hsym (up t i) s), (Hsym (up t i) t).
Qed.

Lemma contracted_ok n G s t G' :
  graph_ok n G → s < n → t < n → s ≠ t → contracted n G s t G' →
  graph_ok (n - 1) G'.
Proof.
  intros Hok Hs Ht Hst Hc.
  pose proof Hok as (Hsq & Hsym & Hnn & Hfit).
  split; [apply Hc|]. split; [by eapply contracted_symmetric|]. split.
  - intros i j Hi Hj Hij.
    rewrite (contracted_entry n G s t G') by done.
    pose proof (up_ne t i). pose proof (up_ne t j).
    pose proof (up_lt n t i Ht Hi). pose proof (up_lt n t j Ht Hj).
    assert (up t i ≠ up t j) by (intros ?%up_inj; done).
    repeat case_decide.
    + assert (0 ≤ entry G s (up t j))%Z by (apply Hnn; (done || congruence)).
      assert (0 ≤ entry G t (up t j))%Z by (apply Hnn; (done || congruence)). lia.
    + assert (0 ≤ entry G s (up t i))%Z by (apply Hnn; (done || congruence)).
      assert (0 ≤ entry G t (up t i))%Z by (apply Hnn; (done || congruence)). lia.
    + by apply Hnn.
  - unfold weights_fit in *.
    rewrite (total_weight_contract n G s t G') by done.
    assert (0 ≤ entry G s t)%Z by by apply Hnn. lia.
Qed.

(** ** Maximum adjacency orders *)

Lemma ma_order_lt G n A : ma_order G n A → ∀ a, a ∈ A → a < n.
Proof. induction 1; intros a Ha; set_unfold; naive_solver. Qed.

Lemma ma_order_NoDup G n A : ma_order G n A → NoDup A.
Proof.
  induction 1; [apply NoDup_singleton|]. by apply NoDup_cons.
Qed.

Lemma crossing_nonneg n G side a b :
  graph_ok n G → a < n → b < n → a ≠ b → (0 ≤ crossing G side a b)%Z.
Proof.
  intros (_ & _ & Hnn & _) Ha Hb Hab. unfold crossing.
  case_decide; [done|]. by apply Hnn.
Qed.

(** The lemma of Stoer and Wagner: a vertex [x] outside a maximum
    adjacency order [A], on the other side than the last vertex of [A],
    is tied to [A] by at most the weight of the cut among [x :: A]. *)
Lemma ma_order_cut n G side A :
  graph_ok n G → ma_order G n A →
  ∀ x u, x < n → x ∉ A → head A = Some u → side x ≠ side u →
    (wsum G A x ≤ pairs_weight (crossing G side) (x :: A))%Z.
Proof.
  intros Hok. induction 1 as [v Hv|u A HA IH Hu HuA Hmax];
    intros x u0 Hx HxA Hhd Hside; simpl in Hhd; simplify_eq.
  - unfold wsum, crossing. simpl. rewrite decide_False by done. lia.
  - pose proof (ma_order_lt _ _ _ HA) as Hlt.
    pose proof (ma_order_NoDup _ _ _ HA) as Hnd.
    assert (x ≠ u0 ∧ x ∉ A) as [Hxu HxA'] by set_solver.
    assert (0 ≤ sumZ (λ a, crossing G side a x) A)%Z as Hcx.
    { apply sumZ_nonneg. intros a Ha. apply (crossing_nonneg n); auto.
      intros ->. done. }
    assert (0 ≤ sumZ (λ a, crossing G side a u0) A)%Z as Hcu.
    { apply sumZ_nonneg. intros a Ha. apply (crossing_nonneg n); auto.
      intros ->. done. }
    assert (crossing G side u0 x = entry G u0 x) as Hcr.
    { unfold crossing. rewrite decide_False; [done|]. congruence. }
    change (wsum G (u0 :: A) x) with (entry G u0 x + wsum G A x)%Z.
    change (pairs_weight (crossing G side) (x :: u0 :: A))
      with (crossing G side u0 x + sumZ (λ a, crossing G side a x) A
            + pairs_weight (crossing G side) (u0 :: A))%Z.
    destruct A as [|u' A']; [inversion HA|].
    destruct (decide (side u0 = side u')) as [Heq|Hne].
    + assert (wsum G (u' :: A') x
              ≤ pairs_weight (crossing G side) (x :: u' :: A'))%Z as IHx.
      { apply (IH x u'); [done..|]. congruence. }
      change (pairs_weight (crossing G side) (x :: u' :: A'))
        with (sumZ (λ a, crossing G side a x) (u' :: A')
              + pairs_weight (crossing G side) (u' :: A'))%Z in IHx.
      change (pairs_weight (crossing G side) (u0 :: u' :: A'))
        with (sumZ (λ a, crossing G side a u0) (u' :: A')
              + pairs_weight (crossing G side) (u' :: A'))%Z.
      lia.
    + assert (wsum G (u' :: A') u0
              ≤ pairs_weight (crossing G side) (u0 :: u' :: A'))%Z as IHu.
      { apply (IH u0 u'); done. }
      pose proof (Hmax x Hx HxA'). lia.
Qed.

Lemma alone_weight G t A :
  t ∉ A →
  pairs_weight (crossing G (alone t)) (t :: A) = wsum G A t.
Proof.
  intros Ht. simpl.
  assert (∀ B, t ∉ B → pairs_weight (crossing G (alone t)) B = 0%Z) as Hz.
  { induction B as [|b B IHB]; intros HB; simpl; [done|].
    rewrite IHB by set_solver. rewrite sumZ_zero; [done|].
    intros a Ha. unfold crossing, alone.
    rewrite decide_True; [done|].
    rewrite !bool_decide_eq_false_2; set_solver. }
  rewrite Hz by done. unfold wsum. rewrite Z.add_0_r.
  apply sumZ_ext. intros a Ha. unfold crossing, alone.
  rewrite decide_False; [done|].
  rewrite bool_decide_eq_false_2, bool_decide_eq_true_2; set_solver.
Qed.

(** The cut of the phase: the weight between the last vertex [t] of a
    complete maximum adjacency order and the other vertices is the weight
    of a proper cut and is at most the weight of every cut that separates
    the last two vertices [s] and [t]. *)
Lemma cut_of_the_phase n G t s A :
  graph_ok n G → ma_order G n (t :: s :: A) → t :: s :: A ≡ₚ seq 0 n →
  proper_cut n (alone t) ∧
  cut_weight G (alone t) = wsum G (s :: A) t ∧
  ∀ side, side s ≠ side t → (wsum G (s :: A) t ≤ cut_weight G side)%Z.
Proof.
  intros Hok Hma Hperm.
  pose proof Hok as (Hsq & Hsym & Hnn & Hfit). pose proof Hsq as [Hlen _].
  pose proof (ma_order_lt _ _ _ Hma) as Hlt.
  pose proof (ma_order_NoDup _ _ _ Hma) as [HtA Hnd]%NoDup_cons.
  split; [|split].
  - exists t, s. unfold alone.
    rewrite bool_decide_eq_true_2, bool_decide_eq_false_2 by set_solver.
    split_and!; (done || apply Hlt; set_solver).
  - unfold cut_weight. rewrite Hlen.
    rewrite <- (pairs_weight_perm _ _ _ (λ a b, crossing_sym G (alone t) a b Hsym) Hperm).
    by apply alone_weight.
  - intros side Hside. unfold cut_weight. rewrite Hlen.
    rewrite <- (pairs_weight_perm _ _ _ (λ a b, crossing_sym G side a b Hsym) Hperm).
    inversion Hma as [|? ? HA Ht HtA' Hmax]; simplify_eq.
    apply (ma_order_cut _ G side (s :: A) Hok HA t s); [apply Hlt; set_solver|done|done|congruence].
Qed.

(** ** The minimum cut and the contraction of the last two vertices *)

Lemma down_up t i : down t (up t i) = i.
Proof. unfold down, up. repeat case_decide; lia. Qed.

Lemma up_down t v : v ≠ t → up t (down t v) = v.
Proof. unfold down, up. repeat case_decide; lia. Qed.

Lemma down_lt n t v : t < n → v < n → v ≠ t → down t v < n - 1.
Proof. unfold down. case_decide; lia. Qed.

Lemma min_cut_two G s t w :
  square 2 G → s < 2 → t < 2 → s ≠ t →
  proper_cut 2 (alone t) → cut_weight G (alone t) = w →
  (∀ side, side s ≠ side t → (w ≤ cut_weight G side)%Z) →
  is_min_cut G w.
Proof.
  intros [Hlen _] Hs Ht Hst Hp Hw Hle. unfold is_min_cut. rewrite Hlen. split.
  - by exists (alone t).
  - intros side (i & j & Hi & Hj & Hti & Htj). apply Hle.
    assert (i ≠ j) by congruence.
    assert ((s = i ∧ t = j) ∨ (s = j ∧ t = i)) as [[-> ->]|[-> ->]] by lia;
      congruence.
Qed.

Lemma min_cut_contract n G s t G' w r' :
  graph_ok n G → s < n → t < n → s ≠ t → contracted n G s t G' →
  proper_cut n (alone t) → cut_weight G (alone t) = w →
  (∀ side, side s ≠ side t → (w ≤ cut_weight G side)%Z) →
  is_min_cut G' r' →
  is_min_cut G (Z.min w r').
Proof.
  intros Hok Hs Ht Hst Hc Hp Hw Hle [(side' & Hp' & Hr') Hmin'].
  pose proof Hok as ([Hlen _] & _). pose proof Hc as ([Hlen' _] & _).
  unfold is_min_cut. rewrite Hlen. rewrite Hlen' in Hp', Hmin'. split.
  - destruct (Z.min_spec w r') as [[_ ->]|[_ ->]]; [by exists (alone t)|].
    exists (λ v, if decide (v = t) then side' (down t s) else side' (down t v)).
    split.
    + destruct Hp' as (i & j & Hi & Hj & Hti & Htj).
      exists (up t i), (up t j).
      rewrite !decide_False, !down_up by apply up_ne.
      split_and!; (done || by apply up_lt).
    + rewrite <- Hr'. symmetry. apply (cut_weight_contract n G s t); [done..| |].
      * intros i. by rewrite decide_False, down_up by apply up_ne.
      * by rewrite decide_False, decide_True by done.
  - intros side Hside. destruct (decide (side s = side t)) as [Heq|Hne].
    + etrans; [apply Z.le_min_r|].
      rewrite <- (cut_weight_contract n G s t G' side (λ i, side (up t i)))
        by done.
      apply Hmin'. destruct Hside as (i & j & Hi & Hj & Hti & Htj).
      assert (∀ v b, v < n → side v = b → ∃ v', v' < n - 1 ∧ side (up t v') = b)
        as Hdown.
      { intros v b Hv Hb. destruct (decide (v = t)) as [->|Hvt].
        - exists (down t s). rewrite up_down by done.
          split; [by apply down_lt|congruence].
        - exists (down t v). rewrite up_down by done.
          split; [by apply down_lt|done]. }
      destruct (Hdown i true Hi Hti) as (i' & Hi' & Hti').
      destruct (Hdown j false Hj Htj) as (j' & Hj' & Htj').
      by exists i', j'.
    + etrans; [apply Z.le_min_l|]. by apply Hle.
Qed.

(** ** The phase of the linear scan engine *)

Lemma scan_spec n (added weight : list Z) :
  length added = n → length weight = n →
  (∃ i w, added !! i = Some 0%Z ∧ weight !! i = Some w ∧ (0 ≤ w)%Z) →
  ∃ u w, Linear.scan n added weight = Some (Some u, w) ∧
    added !! u = Some 0%Z ∧ weight !! u = Some w ∧
    ∀ i w', added !! i = Some 0%Z → weight !! i = Some w' → (w' ≤ w)%Z.
Proof.
  intros Hla Hlw (x & wx & Hax & Hwx & Hpos). unfold Linear.scan.
  destruct (for_loop_inv (scan_inv added weight) (Linear.scan_body added weight)
              n 0 (None, (-1)%Z)) as ([m maxval] & Hrun & Hle & Hge & Hm).
  - split; [intros; lia|]. done.
  - intros k [m maxval] Hk (Hle & Hge & Hm). unfold Linear.scan_body. simpl in *.
    destruct (lookup_lt_is_Some_2 weight k) as [w Hw]; [lia|].
    destruct (lookup_lt_is_Some_2 added k) as [a Ha]; [lia|].
    rewrite Hw, Ha. simpl.
    destruct (bool_decide (maxval < w)%Z && bool_decide (a = 0%Z)) eqn:Hc.
    + apply andb_prop in Hc as [Hlt%bool_decide_eq_true_1 ->%bool_decide_eq_true_1].
      eexists. split; [done|]. split; [|split; [simpl; lia|done]].
      intros i w' Hi Hai Hwi. simpl.
      destruct (decide (i = k)) as [->|Hne]; [by simplify_eq|].
      assert (w' ≤ maxval)%Z by (apply (Hle i); (done || lia)). lia.
    + eexists. split; [done|]. split; [|done].
      intros i w' Hi Hai Hwi. simpl.
      destruct (decide (i = k)) as [->|Hne]; [|apply (Hle i); (done || lia)].
      simplify_eq. apply andb_false_iff in Hc as [Hc|Hc].
      * apply bool_decide_eq_false_1 in Hc. lia.
      * by apply bool_decide_eq_false_1 in Hc.
  - simpl in *. destruct m as [u|].
    + exists u, maxval. destruct Hm. split_and!; [done..|].
      intros i w' Hai Hwi. apply (Hle i); [|done..].
      apply lookup_lt_Some in Hai. lia.
    + subst maxval. assert (wx ≤ -1)%Z; [|lia].
      apply (Hle x); [|done..]. apply lookup_lt_Some in Hax. lia.
Qed.

Lemma update_spec n G u (added weight : list Z) :
  square n G → u < n → length added = n → length weight = n →
  ∃ weight', for_loop 0 n (update_body G u added) weight = Some weight' ∧
    length weight' = n ∧
    ∀ i a w, added !! i = Some a → weight !! i = Some w →
      weight' !! i = Some (if decide (a = 0%Z) then Int.add w (entry G u i) else w).
Proof.
  intros Hsq Hu Hla Hlw.
  destruct (for_loop_inv
    (λ k (wk : list Z), length wk = n ∧
       ∀ i a w, added !! i = Some a → weight !! i = Some w →
         wk !! i = Some (if decide (i < k ∧ a = 0%Z)
                         then Int.add w (entry G u i) else w))
    (update_body G u added) n 0 weight) as (weight' & Hrun & Hlen & Hw').
  - split; [done|]. intros i a w Ha Hw. by rewrite decide_False by lia.
  - intros k wk Hk [Hlen Hwk]. unfold update_body.
    destruct (lookup_lt_is_Some_2 added k) as [a Ha]; [lia|].
    destruct (lookup_lt_is_Some_2 weight k) as [w Hw]; [lia|].
    rewrite Ha. simpl. case_bool_decide as Hz.
    + rewrite (Hwk k a w Ha Hw), decide_False by lia. simpl.
      rewrite (get_Some n) by (done || lia). simpl.
      rewrite vset_Some by lia. eexists. split; [done|].
      split; [by rewrite length_insert|].
      intros i a' w' Ha' Hw'. destruct (decide (i = k)) as [->|Hne].
      * simplify_eq. rewrite list_lookup_insert_eq by lia.
        by rewrite decide_True by (split; (done || lia)).
      * rewrite list_lookup_insert_ne by done. rewrite (Hwk i a' w' Ha' Hw').
        repeat case_decide; (done || lia).
    + eexists. split; [done|]. split; [done|].
      intros i a' w' Ha' Hw'. rewrite (Hwk i a' w' Ha' Hw').
      destruct (decide (i = k)) as [->|Hne].
      * simplify_eq. by rewrite !decide_False by (by intros [??] || done).
      * repeat case_decide; (done || lia).
  - exists weight'. split; [done|]. split; [done|].
    intros i a w Ha Hw. rewrite (Hw' i a w Ha Hw).
    apply lookup_lt_Some in Ha. repeat case_decide; (done || lia).
Qed.

Lemma exists_unadded n (A : list nat) :
  NoDup A → (∀ a, a ∈ A → a < n) → length A < n → ∃ x, x < n ∧ x ∉ A.
Proof.
  intros Hnd Hlt Hlen.
  destruct (decide (Forall (λ x, x ∈ A) (seq 0 n))) as [Hall|Hex].
  - rewrite Forall_forall in Hall.
    assert (seq 0 n ⊆+ A) as Hsub%submseteq_length.
    { apply NoDup_submseteq; [apply NoDup_seq|]. intros x Hx. by apply Hall. }
    rewrite length_seq in Hsub. lia.
  - apply not_Forall_Exists in Hex; [|apply _].
    apply Exists_exists in Hex as (x & Hx%elem_of_seq & HxA).
    exists x. split; [lia|done].
Qed.

Lemma wsum_cons G u A i : wsum G (u :: A) i = (entry G u i + wsum G A i)%Z.
Proof. done. Qed.

(** The sum [weight[i] + G[u][i]] of the update does not overflow. *)
Lemma update_fits n G u A i :
  graph_ok n G → NoDup (u :: A) → (∀ a, a ∈ u :: A → a < n) →
  i < n → i ∉ u :: A →
  Int.add (wsum G A i) (entry G u i) = wsum G (u :: A) i.
Proof.
  intros Hok Hnd Hlt Hi HiA.
  assert (NoDup (i :: u :: A)) as Hnd' by by apply NoDup_cons.
  assert (∀ a, a ∈ i :: u :: A → a < n) as Hlt'.
  { intros a [->|Ha]%elem_of_cons; [done|by apply Hlt]. }
  pose proof (wsum_bounds n G (u :: A) i Hok Hnd' Hlt') as Hb.
  assert (0 ≤ wsum G A i ≤ total_weight G)%Z as Hb'.
  { apply (wsum_bounds n); [done| |].
    - apply NoDup_cons in Hnd as [_ Hnd]. apply NoDup_cons. set_solver.
    - intros a Ha. apply Hlt'. set_solver. }
  destruct Hok as (_ & _ & Hnn & Hfit). unfold weights_fit in Hfit.
  rewrite wsum_cons in *.
  assert (0 ≤ entry G u i)%Z.
  { apply Hnn; [apply Hlt; set_solver|done|set_solver]. }
  rewrite add_small; lia.
Qed.

Lemma added_lookup n G A st i :
  phase_inv G n A st → i < n →
  (st.(added) !! i = Some 0%Z ↔ i ∉ A).
Proof.
  intros (_ & _ & _ & _ & _ & Hadd & _) Hi. rewrite (Hadd i Hi).
  case_decide; naive_solver.
Qed.

Lemma linear_add_vertex_inv n G A st :
  graph_ok n G → phase_inv G n A st → length A < n →
  ∃ st' u, Linear.add_vertex G n st = Some st' ∧ phase_inv G n (u :: A) st'.
Proof.
  intros Hok Hinv Hlen.
  pose proof Hinv as (Hma & Hhd & Hprev & Hla & Hlw & Hadd & Hw & Hlast).
  pose proof (ma_order_lt _ _ _ Hma) as Hlt.
  pose proof (ma_order_NoDup _ _ _ Hma) as Hnd.
  destruct (exists_unadded n A Hnd Hlt Hlen) as (x & Hx & HxA).
  destruct (scan_spec n st.(added) st.(weight) Hla Hlw)
    as (u & w & Hscan & Hau & Hwu & Hmax).
  { exists x, (wsum G A x). split; [by apply (added_lookup n G A)|].
    split; [by apply Hw|].
    apply (wsum_bounds n); [done|by apply NoDup_cons|].
    intros a [->|Ha]%elem_of_cons; auto. }
  assert (u < n) as Hu by (apply lookup_lt_Some in Hau; lia).
  assert (u ∉ A) as HuA by by apply (added_lookup n G A st).
  assert (w = wsum G A u) as -> by (rewrite (Hw u Hu HuA) in Hwu; congruence).
  destruct (update_spec n G u (<[u:=1%Z]> st.(added)) st.(weight))
    as (weight' & Hupd & Hlw' & Hw'); [apply Hok|done|by rewrite length_insert|done|].
  unfold Linear.add_vertex. rewrite Hscan. simpl.
  rewrite vset_Some by lia. simpl. rewrite Hupd. simpl.
  eexists _, u. split; [done|].
  assert (∀ i, i < n →
    <[u:=1%Z]> st.(added) !! i = Some (if decide (i ∈ u :: A) then 1 else 0)%Z)
    as Hadd'.
  { intros i Hi. destruct (decide (i = u)) as [->|Hne].
    - rewrite list_lookup_insert_eq by lia. by rewrite decide_True by set_solver.
    - rewrite list_lookup_insert_ne by done. rewrite (Hadd i Hi).
      repeat case_decide; (done || set_solver). }
  split_and!; simpl.
  - apply ma_next; [done..|]. intros y Hy HyA.
    apply (Hmax y); [by apply (added_lookup n G A)|by apply Hw].
  - done.
  - by rewrite Hhd.
  - by rewrite length_insert.
  - done.
  - done.
  - intros i Hi HiA.
    rewrite (Hw' i 0%Z (wsum G A i)); [|rewrite Hadd' by done; by rewrite decide_False|apply Hw; set_solver].
    rewrite decide_True by done. f_equal.
    apply (update_fits n); [done|by apply NoDup_cons| |done..].
    intros a [->|Ha]%elem_of_cons; auto.
  - intros t A' Heq HA'. simplify_eq.
    rewrite (Hw' t 1%Z (wsum G A' t)); [done| |by apply Hw].
    rewrite Hadd' by done. by rewrite decide_True by set_solver.
Qed.

Lemma linear_phase_init_inv n G :
  graph_ok n G → 1 ≤ n →
  ∃ st, Linear.phase_init G n = Some st ∧ phase_inv G n [0] st.
Proof.
  intros Hok Hn. pose proof Hok as (Hsq & Hsym & Hnn & Hfit).
  unfold Linear.phase_init, Linear.init_weights.
  rewrite vset_Some by (rewrite length_replicate; lia). simpl.
  destruct (for_loop_inv
    (λ k (wk : list Z), length wk = n ∧
       ∀ i, i < n → wk !! i = Some (if decide (i < k)
                                    then Int.add 0 (entry G i 0) else 0%Z))
    (λ i weight, w ← weight !! i; g ← get G i 0; vset weight i (Int.add w g))
    n 0 (replicate n 0%Z)) as (weight0 & -> & Hlen & Hw0).
  - split; [apply length_replicate|]. intros i Hi.
    rewrite decide_False by lia. by apply lookup_replicate_2.
  - intros k wk Hk [Hlen Hwk]. rewrite (Hwk k), decide_False by lia. simpl.
    rewrite (get_Some n) by (done || lia). simpl.
    rewrite vset_Some by lia. eexists. split; [done|].
    split; [by rewrite length_insert|]. intros i Hi.
    destruct (decide (i = k)) as [->|Hne].
    + rewrite list_lookup_insert_eq by lia. by rewrite decide_True by lia.
    + rewrite list_lookup_insert_ne by done. rewrite Hwk by done.
      repeat case_decide; (done || lia).
  - simpl. eexists. split; [done|]. split_and!; simpl.
    + by apply ma_start.
    + done.
    + done.
    + rewrite length_insert. apply length_replicate.
    + done.
    + intros i Hi. destruct (decide (i = 0)) as [->|Hne].
      * rewrite list_lookup_insert_eq by (rewrite length_replicate; lia).
        by rewrite decide_True by set_solver.
      * rewrite list_lookup_insert_ne by done.
        rewrite lookup_replicate_2 by done. by rewrite decide_False by set_solver.
    + intros i Hi Hi0. rewrite Hw0, decide_True by lia. f_equal.
      rewrite (Hsym i 0).
      etrans; [|apply (update_fits n G 0 [] i Hok)];
        [done|apply NoDup_singleton| |done..].
      intros a ->%list_elem_of_singleton. lia.
    + intros t A' ? HA'. by simplify_eq.
Qed.

Lemma linear_grow_inv n G k :
  graph_ok n G →
  ∀ A st, phase_inv G n A st → length A + k ≤ n →
  ∃ st' A', Linear.grow k G n st = Some st' ∧ phase_inv G n (A' ++ A) st' ∧
            length A' = k.
Proof.
  intros Hok. induction k as [|k IH]; intros A st Hinv Hlen; simpl.
  - by exists st, [].
  - destruct (linear_add_vertex_inv n G A st Hok Hinv) as (st1 & u & -> & Hinv1);
      [lia|]. simpl.
    destruct (IH (u :: A) st1 Hinv1) as (st' & A' & -> & Hinv' & HA'); [simpl; lia|].
    exists st', (A' ++ [u]). split; [done|].
    rewrite <- app_assoc. split; [done|]. rewrite length_app. simpl. lia.
Qed.

(** A complete order of a phase. *)
Lemma complete_order n G (L : list nat) :
  2 ≤ n → ma_order G n L → length L = n →
  ∃ t s A, L = t :: s :: A ∧ t :: s :: A ≡ₚ seq 0 n.
Proof.
  intros Hn Hma Hlen.
  destruct L as [|t [|s A]]; simpl in Hlen; [lia..|].
  exists t, s, A. split; [done|].
  apply submseteq_length_Permutation.
  - apply NoDup_submseteq; [by eapply ma_order_NoDup|].
    intros x Hx. apply elem_of_seq.
    pose proof (ma_order_lt _ _ _ Hma x Hx). lia.
  - rewrite length_seq. simpl. lia.
Qed.

Lemma linear_phase_spec n G :
  graph_ok n G → 2 ≤ n →
  ∃ st s t A, Linear.phase G n = Some st ∧
    st.(prev) = Some s ∧ st.(last) = t ∧
    ma_order G n (t :: s :: A) ∧ t :: s :: A ≡ₚ seq 0 n ∧
    st.(weight) !! t = Some (wsum G (s :: A) t).
Proof.
  intros Hok Hn. unfold Linear.phase.
  destruct (linear_phase_init_inv n G Hok) as (st0 & -> & Hinv0); [lia|]. simpl.
  destruct (linear_grow_inv n G (n - 1) Hok [0] st0 Hinv0) as (st & A' & -> & Hinv & HA');
    [simpl; lia|].
  pose proof Hinv as (Hma & Hhd & Hprev & _ & _ & _ & _ & Hlast).
  destruct (complete_order n G (A' ++ [0]) Hn Hma) as (t & s & A & Heq & Hperm).
  { rewrite length_app. simpl. lia. }
  rewrite Heq in *. simpl in Hhd, Hprev. simplify_eq.
  exists st, s, (last st), A. split_and!; [done..|].
  by apply (Hlast (last st) (s :: A)).
Qed.

(** ** Correctness of the linear scan engine *)

Lemma crossing_le n G side a b :
  graph_ok n G → a < n → b < n → a ≠ b →
  (crossing G side a b ≤ entry G a b)%Z.
Proof.
  intros (_ & _ & Hnn & _) Ha Hb Hab. unfold crossing.
  case_decide; [by apply Hnn|done].
Qed.

Lemma cut_weight_bounds n G side :
  graph_ok n G → (0 ≤ cut_weight G side ≤ Int.INT_MAX)%Z.
Proof.
  intros Hok. pose proof Hok as ([Hlen _] & _ & _ & Hfit).
  unfold cut_weight, weights_fit, total_weight in *. rewrite Hlen in *. split.
  - apply pairs_weight_nonneg; [apply NoDup_seq|].
    intros a b Ha%elem_of_seq Hb%elem_of_seq Hab.
    apply (crossing_nonneg n); (done || lia).
  - etrans; [|exact Hfit]. apply pairs_weight_le; [apply NoDup_seq|].
    intros a b Ha%elem_of_seq Hb%elem_of_seq Hab.
    apply (crossing_le n); (done || lia).
Qed.

Lemma min_cut_bounds n G r :
  graph_ok n G → is_min_cut G r → (0 ≤ r ≤ Int.INT_MAX)%Z.
Proof.
  intros Hok [(side & _ & <-) _]. by apply (cut_weight_bounds n).
Qed.

Lemma min_cut_unique G r1 r2 : is_min_cut G r1 → is_min_cut G r2 → r1 = r2.
Proof.
  intros [(side1 & Hp1 & Hw1) Hmin1] [(side2 & Hp2 & Hw2) Hmin2].
  pose proof (Hmin1 side2 Hp2). pose proof (Hmin2 side1 Hp1). lia.
Qed.

Lemma last_two n G t s A :
  ma_order G n (t :: s :: A) → s < n ∧ t < n ∧ s ≠ t.
Proof.
  intros Hma. pose proof (ma_order_lt _ _ _ Hma) as Hlt.
  pose proof (ma_order_NoDup _ _ _ Hma) as [Ht _]%NoDup_cons.
  split_and!; [apply Hlt; set_solver..|set_solver].
Qed.

Lemma linear_sw_loop_correct n :
  ∀ G, graph_ok n G → 2 ≤ n →
  ∃ r Gf, is_min_cut G r ∧
    ∀ mincut, Linear.sw_loop n G mincut = Some (Z.min mincut r, Gf).
Proof.
  induction n as [|n IH]; intros G Hok Hn; [lia|].
  destruct (linear_phase_spec (S n) G Hok Hn)
    as (st & s & t & A & Hphase & Hprev & Hlast & Hma & Hperm & Hw).
  destruct (last_two _ _ _ _ _ Hma) as (Hs & Ht & Hst).
  destruct (contract_spec (S n) G s t) as (G' & HG' & _ & Hc); [apply Hok|done..|].
  destruct (cut_of_the_phase (S n) G t s A Hok Hma Hperm) as (Hp & Hcw & Hle).
  pose proof (contracted_ok (S n) G s t G' Hok Hs Ht Hst Hc) as Hok'.
  replace (S n - 1) with n in Hok' by lia.
  assert (∀ mincut, Linear.sw_loop (S n) G mincut
            = Linear.sw_loop n G' (Z.min mincut (wsum G (s :: A) t))) as Hstep.
  { intros mincut. simpl. rewrite decide_True by lia.
    rewrite Hphase. simpl. rewrite Hlast, Hw. simpl.
    unfold Linear.contract. rewrite Hprev, Hlast. simpl.
    simpl in HG'. by rewrite HG'. }
  destruct (decide (n = 1)) as [->|Hn1].
  - exists (wsum G (s :: A) t), G'. split.
    + apply (min_cut_two G s t); [apply Hok|done..].
    + intros mincut. by rewrite Hstep.
  - destruct (IH G' Hok') as (r' & Gf & Hmin' & Hrun); [lia|].
    exists (Z.min (wsum G (s :: A) t) r'), Gf. split.
    + apply (min_cut_contract (S n) G s t G'); done.
    + intros mincut. by rewrite Hstep, Hrun, Z.min_assoc.
Qed.

Lemma linear_correct n G :
  graph_ok n G → 2 ≤ n →
  ∃ r Gf, Linear.stoer_wagner G = Some (r, Gf) ∧ is_min_cut G r.
Proof.
  intros Hok Hn.
  destruct (linear_sw_loop_correct n G Hok Hn) as (r & Gf & Hmin & Hrun).
  exists r, Gf. split; [|done]. unfold Linear.stoer_wagner.
  pose proof (min_cut_bounds n G r Hok Hmin).
  pose proof Hok as ([Hlen _] & _). rewrite Hlen, Hrun.
  by rewrite Z.min_r by lia.
Qed.

(** ** The phase of the priority queue engine *)

Lemma push_elem x pq z : z ∈ PQ.push x pq ↔ z = x ∨ z ∈ pq.
Proof.
  induction pq as [|y pq IH]; simpl.
  - set_solver.
  - case_decide; [set_solver|]. rewrite !elem_of_cons, IH. naive_solver.
Qed.

Lemma push_sorted x pq :
  StronglySorted pair_ge pq → StronglySorted pair_ge (PQ.push x pq).
Proof.
  induction pq as [|y pq IH]; intros Hs; simpl.
  - repeat constructor.
  - apply StronglySorted_inv in Hs as [Hs Hy]. case_decide as Hlt.
    + constructor; [by constructor|]. constructor.
      * unfold pair_ge, PQ.pair_lt in *. lia.
      * eapply Forall_impl; [exact Hy|]. intros z Hz.
        unfold pair_ge, PQ.pair_lt in *. lia.
    + constructor; [by apply IH|].
      apply Forall_forall. intros z [->|Hz]%push_elem; [done|].
      rewrite Forall_forall in Hy. by apply Hy.
Qed.

Lemma pop_valid_spec n G A (added : list Z) :
  (∀ i, i < n → added !! i = Some (if decide (i ∈ A) then 1 else 0)%Z) →
  (∃ x, x < n ∧ x ∉ A) →
  ∀ pq, queue_inv G n A pq →
  ∃ u pq', PQ.pop_valid added pq = Some (Some u, pq') ∧
    u < n ∧ (u ∉ A) ∧
    (∀ x, x < n → x ∉ A → (wsum G A x ≤ wsum G A u)%Z) ∧
    StronglySorted pair_ge pq' ∧ (∀ z, z ∈ pq' → z ∈ pq).
Proof.
  intros Hadd (x & Hx & HxA).
  induction pq as [|[w v] pq IH]; intros (Hs & Hrange & Hmem & Hstale).
  - specialize (Hmem x Hx HxA). set_solver.
  - apply StronglySorted_inv in Hs as [Hs Hhd]. rewrite Forall_forall in Hhd.
    assert (v < n) as Hv by (apply (Hrange w); rewrite elem_of_cons; by left).
    simpl. rewrite (Hadd v Hv). simpl. destruct (decide (v ∈ A)) as [HvA|HvA].
    + rewrite bool_decide_eq_false_2 by done.
      destruct IH as (u & pq' & -> & Hu & HuA & Hmax & Hs' & Hsub).
      { split; [done|]. split.
        { intros w0 v0 Hin. apply (Hrange w0 v0). rewrite elem_of_cons. by right. }
        split.
        - intros i Hi HiA. specialize (Hmem i Hi HiA).
          apply elem_of_cons in Hmem as [Heq|]; [|done]. by simplify_eq.
        - intros w' v' Hin. apply Hstale. rewrite elem_of_cons. by right. }
      exists u, pq'. split_and!; [done..|]. intros z Hz.
      rewrite elem_of_cons. right. by apply Hsub.
    + rewrite bool_decide_eq_true_2 by done.
      exists v, pq. split_and!; [done..| |done|intros z Hz; rewrite elem_of_cons; by right].
      assert (∀ y, y < n → y ∉ A → (wsum G A y ≤ w)%Z) as Hle.
      { intros y Hy HyA. specialize (Hmem y Hy HyA).
        apply elem_of_cons in Hmem as [Heq|Hin]; [simplify_eq; lia|].
        specialize (Hhd _ Hin). unfold pair_ge, PQ.pair_lt in Hhd. simpl in Hhd. lia. }
      assert (w ≤ wsum G A v)%Z by (apply Hstale; [rewrite elem_of_cons; by left|done]).
      intros y Hy HyA. specialize (Hle y Hy HyA). lia.
Qed.

Lemma update_push_spec n G u (added weight : list Z) (pq : PQ.queue) :
  square n G → u < n → length added = n → length weight = n →
  StronglySorted pair_ge pq →
  ∃ s, for_loop 0 n (PQ.update_push_body G u added) (weight, pq) = Some s ∧
    length s.1 = n ∧
    (∀ i a w, added !! i = Some a → weight !! i = Some w →
      s.1 !! i = Some (if decide (a = 0%Z) then Int.add w (entry G u i) else w)) ∧
    StronglySorted pair_ge s.2 ∧
    (∀ z, z ∈ s.2 ↔ z ∈ pq ∨
       ∃ i w, added !! i = Some 0%Z ∧ weight !! i = Some w ∧
              z = (Int.add w (entry G u i), i)).
Proof.
  intros Hsq Hu Hla Hlw Hs.
  destruct (for_loop_inv
    (λ k (s : list Z * PQ.queue), length s.1 = n ∧
       (∀ i a w, added !! i = Some a → weight !! i = Some w →
         s.1 !! i = Some (if decide (i < k ∧ a = 0%Z)
                          then Int.add w (entry G u i) else w)) ∧
       StronglySorted pair_ge s.2 ∧
       (∀ z, z ∈ s.2 ↔ z ∈ pq ∨
          ∃ i w, i < k ∧ added !! i = Some 0%Z ∧ weight !! i = Some w ∧
                 z = (Int.add w (entry G u i), i)))
    (PQ.update_push_body G u added) n 0 (weight, pq))
    as ([weight' pq'] & Hrun & Hlen & Hw' & Hs' & Hq').
  - split; [done|]. split; [|split; [done|]].
    + intros i a w Ha Hw. by rewrite decide_False by lia.
    + intros z. split; [by left|]. intros [|(i & w & ? & _)]; [done|lia].
  - intros k [wk qk] Hk (Hlen & Hwk & Hsk & Hqk). simpl in *.
    unfold PQ.update_push_body. simpl.
    destruct (lookup_lt_is_Some_2 added k) as [a Ha]; [lia|].
    destruct (lookup_lt_is_Some_2 weight k) as [w Hw]; [lia|].
    rewrite Ha. simpl. case_bool_decide as Hz.
    + rewrite (Hwk k a w Ha Hw), decide_False by lia. simpl.
      rewrite (get_Some n) by (done || lia). simpl.
      rewrite vset_Some by lia. simpl. eexists. split; [done|]. simpl.
      split; [by rewrite length_insert|]. split; [|split; [by apply push_sorted|]].
      * intros i a' w' Ha' Hw'. destruct (decide (i = k)) as [->|Hne].
        -- simplify_eq. rewrite list_lookup_insert_eq by lia.
           by rewrite decide_True by (split; (done || lia)).
        -- rewrite list_lookup_insert_ne by done. rewrite (Hwk i a' w' Ha' Hw').
           repeat case_decide; (done || lia).
      * intros z. rewrite push_elem, Hqk. subst a. split.
        -- intros [->|[?|(i & w' & ? & ? & ? & ?)]]; [|by left|].
           ++ right. exists k, w. split_and!; (done || lia).
           ++ right. exists i, w'. split_and!; (done || lia).
        -- intros [?|(i & w' & Hi & Hai & Hwi & ->)]; [by right; left|].
           destruct (decide (i = k)) as [->|Hne]; [left; by simplify_eq|].
           right; right. exists i, w'. split_and!; (done || lia).
    + eexists. split; [done|]. simpl. split; [done|]. split; [|split; [done|]].
      * intros i a' w' Ha' Hw'. rewrite (Hwk i a' w' Ha' Hw').
        destruct (decide (i = k)) as [->|Hne].
        -- simplify_eq. by rewrite !decide_False by (by intros [??] || done).
        -- repeat case_decide; (done || lia).
      * intros z. rewrite Hqk. split.
        -- intros [?|(i & w' & ? & ? & ? & ?)]; [by left|].
           right. exists i, w'. split_and!; (done || lia).
        -- intros [?|(i & w' & Hi & Hai & Hwi & ->)]; [by left|].
           right. exists i, w'. split_and!; [|done..].
           destruct (decide (i = k)) as [->|Hne]; [congruence|lia].
  - exists (weight', pq'). simpl in *. split; [done|]. split; [done|].
    split; [|split; [done|]].
    + intros i a w Ha Hw. rewrite (Hw' i a w Ha Hw).
      apply lookup_lt_Some in Ha. repeat case_decide; (done || lia).
    + intros z. rewrite Hq'. split.
      * intros [?|(i & w' & ? & ? & ? & ?)]; [by left|]. right. by exists i, w'.
      * intros [?|(i & w' & Hai & Hwi & ->)]; [by left|]. right.
        exists i, w'. split_and!; [|done..]. apply lookup_lt_Some in Hai. lia.
Qed.

Lemma wsum_mono n G u A i :
  graph_ok n G → u < n → i < n → i ≠ u → (wsum G A i ≤ wsum G (u :: A) i)%Z.
Proof.
  intros (_ & _ & Hnn & _) Hu Hi Hiu. rewrite wsum_cons.
  assert (0 ≤ entry G u i)%Z by by apply Hnn. lia.
Qed.

Lemma pq_grow_step n G A st pq :
  graph_ok n G → phase_inv G n A st → queue_inv G n A pq → length A < n →
  ∃ u pq1 s,
    PQ.pop_valid st.(added) pq = Some (Some u, pq1) ∧
    for_loop 0 n (PQ.update_push_body G u (<[u:=1%Z]> st.(added)))
      (st.(weight), pq1) = Some s ∧
    phase_inv G n (u :: A)
      {| added := <[u:=1%Z]> st.(added); weight := s.1;
         prev := Some st.(last); last := u |} ∧
    queue_inv G n (u :: A) s.2.
Proof.
  intros Hok Hinv Hq Hlen.
  pose proof Hinv as (Hma & Hhd & Hprev & Hla & Hlw & Hadd & Hw & Hlast).
  pose proof (ma_order_lt _ _ _ Hma) as Hlt.
  pose proof (ma_order_NoDup _ _ _ Hma) as Hnd.
  destruct (pop_valid_spec n G A st.(added) Hadd (exists_unadded n A Hnd Hlt Hlen)
              pq Hq) as (u & pq1 & Hpop & Hu & HuA & Hmax & Hs1 & Hsub).
  destruct (update_push_spec n G u (<[u:=1%Z]> st.(added)) st.(weight) pq1)
    as (s & Hupd & Hlw' & Hw' & Hs' & Hq');
    [apply Hok|done|by rewrite length_insert|done..|].
  exists u, pq1, s. split; [done|]. split; [done|].
  assert (∀ i, i < n →
    <[u:=1%Z]> st.(added) !! i = Some (if decide (i ∈ u :: A) then 1 else 0)%Z)
    as Hadd'.
  { intros i Hi. destruct (decide (i = u)) as [->|Hne].
    - rewrite list_lookup_insert_eq by lia. by rewrite decide_True by set_solver.
    - rewrite list_lookup_insert_ne by done. rewrite (Hadd i Hi).
      repeat case_decide; (done || set_solver). }
  assert (NoDup (u :: A)) as Hnd' by by apply NoDup_cons.
  assert (∀ a, a ∈ u :: A → a < n) as Hlt'.
  { intros a [->|Ha]%elem_of_cons; auto. }
  assert (∀ i, i < n → i ∉ u :: A → s.1 !! i = Some (wsum G (u :: A) i)) as Hnew.
  { intros i Hi HiA.
    rewrite (Hw' i 0%Z (wsum G A i));
      [|rewrite Hadd' by done; by rewrite decide_False|apply Hw; set_solver].
    rewrite decide_True by done. f_equal. by apply (update_fits n). }
  split.
  - split_and!; simpl; [by apply ma_next|done|by rewrite Hhd|
      by rewrite length_insert|done|done|done|].
    intros t A' Heq HA'. injection Heq as <- <-.
    rewrite (Hw' u 1%Z (wsum G A u)); [done| |by apply Hw].
    rewrite Hadd' by done. by rewrite decide_True by set_solver.
  - destruct Hq as (_ & Hrange & _ & Hstale). split_and!; [done| | |].
    + intros w v [Hin|(i & w' & Hai & Hwi & [= -> ->])]%Hq'.
      * by apply (Hrange w), Hsub.
      * apply lookup_lt_Some in Hwi. lia.
    + intros i Hi HiA. apply Hq'. right. exists i, (wsum G A i).
      split_and!.
      * rewrite Hadd' by done. by rewrite decide_False.
      * apply Hw; set_solver.
      * f_equal. symmetry. by apply (update_fits n).
    + intros w v [Hin|(i & w' & Hai & Hwi & [= -> ->])]%Hq' HvA.
      * assert (v < n) by by apply (Hrange w), Hsub.
        etrans; [apply Hstale; [by apply Hsub|set_solver]|].
        apply (wsum_mono n); [done..|set_solver].
      * assert (i < n) as Hi by (apply lookup_lt_Some in Hwi; lia).
        rewrite (Hw i Hi) in Hwi by set_solver. injection Hwi as <-.
        by rewrite (update_fits n).
Qed.

Lemma pq_grow_inv n G k :
  graph_ok n G →
  ∀ A st pq, phase_inv G n A st → queue_inv G n A pq → length A + k ≤ n →
  ∃ st' pq' A', PQ.grow k G n st pq = Some (st', pq', 0) ∧
    phase_inv G n (A' ++ A) st' ∧ length A' = k.
Proof.
  intros Hok. induction k as [|k IH]; intros A st pq Hinv Hq Hlen; simpl.
  - by exists st, pq, [].
  - destruct (pq_grow_step n G A st pq Hok Hinv Hq)
      as (u & pq1 & [weight1 pq2] & -> & Hupd & Hinv1 & Hq1); [lia|].
    simpl in Hinv1, Hq1 |- *.
    rewrite vset_Some by (destruct Hinv as (Hma & _ & _ & -> & _);
      pose proof (ma_order_lt _ _ _ (proj1 Hinv1) u); set_solver).
    simpl. rewrite Hupd. simpl.
    destruct (IH (u :: A) _ _ Hinv1 Hq1) as (st' & pq' & A' & -> & Hinv' & HA');
      [simpl; lia|].
    exists st', pq', (A' ++ [u]). split; [done|].
    rewrite <- app_assoc. split; [done|]. rewrite length_app. simpl. lia.
Qed.

Lemma pq_phase_init_inv n G :
  graph_ok n G → 1 ≤ n →
  ∃ st pq, PQ.phase_init G n = Some (st, pq) ∧
    phase_inv G n [0] st ∧ queue_inv G n [0] pq.
Proof.
  intros Hok Hn. pose proof Hok as (Hsq & Hsym & Hnn & Hfit).
  unfold PQ.phase_init.
  rewrite vset_Some by (rewrite length_replicate; lia). simpl.
  destruct (for_loop_inv
    (λ k (s : list Z * PQ.queue), length s.1 = n ∧
       (∀ i, i < n → s.1 !! i = Some (if decide (0 < i < k)
                                      then Int.add 0 (entry G 0 i) else 0%Z)) ∧
       StronglySorted pair_ge s.2 ∧
       (∀ z, z ∈ s.2 ↔ ∃ i, 0 < i < k ∧ z = (Int.add 0 (entry G 0 i), i)))
    (PQ.init_body G) n 0 (replicate n 0%Z, []))
    as ([weight0 pq0] & -> & Hlen & Hw0 & Hs0 & Hq0); simpl in *.
  - split; [apply length_replicate|]. split; [|split; [constructor|]].
    + intros i Hi. rewrite decide_False by lia. by apply lookup_replicate_2.
    + intros z. split; [by intros ?%elem_of_nil|]. intros (i & ? & _). lia.
  - intros k [wk qk] Hk (Hlen & Hwk & Hsk & Hqk). simpl in *.
    unfold PQ.init_body. simpl. case_decide as Hk0.
    + rewrite (Hwk k), decide_False by lia. simpl.
      rewrite (get_Some n) by (done || lia). simpl.
      rewrite vset_Some by lia. simpl. eexists. split; [done|]. simpl.
      split; [by rewrite length_insert|]. split; [|split; [by apply push_sorted|]].
      * intros i Hi. destruct (decide (i = k)) as [->|Hne].
        -- rewrite list_lookup_insert_eq by lia. by rewrite decide_True by lia.
        -- rewrite list_lookup_insert_ne by done. rewrite Hwk by done.
           repeat case_decide; (done || lia).
      * intros z. rewrite push_elem, Hqk. split.
        -- intros [->|(i & ? & ->)]; [exists k|exists i]; split; (done || lia).
        -- intros (i & ? & ->). destruct (decide (i = k)) as [->|Hne]; [by left|].
           right. exists i. split; (done || lia).
    + assert (k = 0) as -> by lia. eexists. split; [done|]. simpl.
      split; [done|]. split; [|split; [done|]].
      * intros i Hi. rewrite Hwk by done. repeat case_decide; (done || lia).
      * intros z. rewrite Hqk. split; intros (i & ? & ->); lia.
  - assert (∀ i, 0 < i < n → Int.add 0 (entry G 0 i) = wsum G [0] i) as Hfits.
    { intros i Hi.
      etrans; [|apply (update_fits n G 0 [] i Hok)];
        [done|apply NoDup_singleton| |lia|rewrite list_elem_of_singleton; lia].
      intros a ->%list_elem_of_singleton. lia. }
    eexists _, _. split; [done|]. split.
    + split_and!; simpl.
      * by apply ma_start.
      * done.
      * done.
      * rewrite length_insert. apply length_replicate.
      * done.
      * intros i Hi. destruct (decide (i = 0)) as [->|Hne].
        -- rewrite list_lookup_insert_eq by (rewrite length_replicate; lia).
           by rewrite decide_True by (by apply list_elem_of_singleton).
        -- rewrite list_lookup_insert_ne by done.
           rewrite lookup_replicate_2 by done.
           by rewrite decide_False by (by rewrite list_elem_of_singleton).
      * intros i Hi Hi0. rewrite Hw0 by done.
        assert (i ≠ 0) by (by rewrite list_elem_of_singleton in Hi0).
        rewrite decide_True by lia. f_equal. apply Hfits. lia.
      * intros t A' ? HA'. by simplify_eq.
    + split_and!; [done| | |].
      * intros w v (i & ? & [= -> ->])%Hq0. lia.
      * intros i Hi Hi0.
        assert (i ≠ 0) by (by rewrite list_elem_of_singleton in Hi0).
        apply Hq0. exists i. split; [lia|]. f_equal. symmetry. apply Hfits. lia.
      * intros w v (i & ? & [= -> ->])%Hq0 _. by rewrite Hfits.
Qed.

Lemma pq_phase_spec n G :
  graph_ok n G → 2 ≤ n →
  ∃ st pq s t A, PQ.phase G n = Some (st, pq, 0) ∧
    st.(prev) = Some s ∧ st.(last) = t ∧
    ma_order G n (t :: s :: A) ∧ t :: s :: A ≡ₚ seq 0 n ∧
    st.(weight) !! t = Some (wsum G (s :: A) t).
Proof.
  intros Hok Hn. unfold PQ.phase.
  destruct (pq_phase_init_inv n G Hok) as (st0 & pq0 & -> & Hinv0 & Hq0); [lia|].
  simpl.
  destruct (pq_grow_inv n G (n - 1) Hok [0] st0 pq0 Hinv0 Hq0)
    as (st & pq & A' & -> & Hinv & HA'); [simpl; lia|].
  pose proof Hinv as (Hma & Hhd & Hprev & _ & _ & _ & _ & Hlast).
  destruct (complete_order n G (A' ++ [0]) Hn Hma) as (t & s & A & Heq & Hperm).
  { rewrite length_app. simpl. lia. }
  rewrite Heq in *. simpl in Hhd, Hprev. simplify_eq.
  exists st, pq, s, (last st), A. split_and!; [done..|].
  by apply (Hlast (last st) (s :: A)).
Qed.

Lemma pq_sw_loop_correct n :
  ∀ G, graph_ok n G → 2 ≤ n →
  ∃ r, is_min_cut G r ∧
    ∀ mincut, PQ.sw_loop n G mincut = Some (Z.min mincut r).
Proof.
  induction n as [|n IH]; intros G Hok Hn; [lia|].
  destruct (pq_phase_spec (S n) G Hok Hn)
    as (st & pq & s & t & A & Hphase & Hprev & Hlast & Hma & Hperm & Hw).
  destruct (last_two _ _ _ _ _ Hma) as (Hs & Ht & Hst).
  destruct (contract_spec (S n) G s t) as (G' & _ & HG' & Hc); [apply Hok|done..|].
  destruct (cut_of_the_phase (S n) G t s A Hok Hma Hperm) as (Hp & Hcw & Hle).
  pose proof (contracted_ok (S n) G s t G' Hok Hs Ht Hst Hc) as Hok'.
  replace (S n - 1) with n in Hok' by lia.
  assert (∀ mincut, PQ.sw_loop (S n) G mincut
            = PQ.sw_loop n G' (Z.min mincut (wsum G (s :: A) t))) as Hstep.
  { intros mincut. simpl. rewrite decide_True by lia.
    rewrite Hphase. simpl. rewrite Hlast, Hw. simpl. rewrite Hprev.
    destruct (merge G (S n) s t) as [G1|]; [|done]. simpl in HG'.
    simpl. by rewrite HG'. }
  destruct (decide (n = 1)) as [->|Hn1].
  - exists (wsum G (s :: A) t). split.
    + apply (min_cut_two G s t); [apply Hok|done..].
    + intros mincut. by rewrite Hstep.
  - destruct (IH G' Hok') as (r' & Hmin' & Hrun); [lia|].
    exists (Z.min (wsum G (s :: A) t) r'). split.
    + apply (min_cut_contract (S n) G s t G'); done.
    + intros mincut. by rewrite Hstep, Hrun, Z.min_assoc.
Qed.

Lemma pq_correct n G :
  graph_ok n G → 2 ≤ n →
  ∃ r, PQ.stoer_wagner G = Some (r, G) ∧ is_min_cut G r.
Proof.
  intros Hok Hn.
  destruct (pq_sw_loop_correct n G Hok Hn) as (r & Hmin & Hrun).
  exists r. split; [|done]. unfold PQ.stoer_wagner.
  pose proof (min_cut_bounds n G r Hok Hmin).
  pose proof Hok as ([Hlen _] & _). rewrite Hlen, Hrun. simpl.
  by rewrite Z.min_r by lia.
Qed.

(** ** Weight matrices of the data model *)

Lemma graph_ok_intro G :
  square (length G) G → symmetric G → nonneg G → weights_fit G →
  graph_ok (length G) G.
Proof. intros Hsq Hsym Hnn Hfit. split_and!; [done..| |done]. intros. apply Hnn. Qed.

Lemma K3_square : square (length K3) K3.
Proof.
  split; [done|]. intros i row Hi.
  repeat (destruct i as [|i]; simplify_eq/=; try done).
Qed.

Lemma K3_symmetric : symmetric K3.
Proof.
  intros i j. do 4 (try destruct i as [|i]); do 4 (try destruct j as [|j]); done.
Qed.

Lemma K3_nonneg : nonneg K3.
Proof.
  intros i j. do 4 (try destruct i as [|i]); do 4 (try destruct j as [|j]); done.
Qed.

Lemma K3_fits : weights_fit K3.
Proof. by vm_compute. Qed.

Lemma K3_ok : graph_ok (length K3) K3.
Proof.
  apply graph_ok_intro; [apply K3_square|apply K3_symmetric|apply K3_nonneg|
                         apply K3_fits].
Qed.

(** ** Graphs of three and four vertices *)

(** A matrix given entry by entry is square, symmetric, not negative. *)
Ltac small_matrix :=
  first
    [ split; [reflexivity|]; intros i row Hi;
      repeat (destruct i as [|i]; simplify_eq/=; try done)
    | intros i j; do 5 (try destruct i as [|i]); do 5 (try destruct j as [|j]);
      done ].

(** A bound on every proper cut of a graph of at most four vertices, by
    cases on the sides of its vertices. *)
Ltac small_cuts side Hp :=
  let i := fresh "i" in let j := fresh "j" in
  destruct Hp as (i & j & Hi & Hj & Hti & Htj);
  unfold cut_weight; simpl in Hi, Hj |- *; unfold crossing;
  destruct (side 0) eqn:?, (side 1) eqn:?, (side 2) eqn:?, (side 3) eqn:?;
  first
    [ by vm_compute
    | exfalso;
      do 4 (try destruct i as [|i]); do 4 (try destruct j as [|j]);
      first [lia | congruence] ].

Lemma heavy_triangle_min_cut : is_min_cut heavy_triangle 2.
Proof.
  split.
  - exists (alone 0). split; [|reflexivity].
    exists 0, 1. split_and!; (done || simpl; lia).
  - intros side Hp. small_cuts side Hp.
Qed.

Lemma heavy_edge_min_cut : is_min_cut heavy_edge 1.
Proof.
  split.
  - exists (alone 1). split; [|reflexivity].
    exists 1, 0. split_and!; (done || simpl; lia).
  - intros side Hp. small_cuts side Hp.
Qed.

Lemma heavy_clique_min_cut : is_min_cut heavy_clique 4.
Proof.
  split.
  - exists (alone 0). split; [|reflexivity].
    exists 0, 1. split_and!; (done || simpl; lia).
  - intros side Hp. small_cuts side Hp.
Qed.

(** ** The two deterministic engines *)

(** C1: on every symmetric non-negative weight matrix with at least two
    vertices whose total weight fits in an [int], the linear scan engine
    and the priority queue engine return the same minimum cut value
    (connected or not, whatever the order in which they break ties). *)
Theorem engines_agree (G : matrix) :
  2 ≤ length G → square (length G) G → symmetric G → nonneg G → weights_fit G →
  ∃ r Gl, Linear.stoer_wagner G = Some (r, Gl) ∧
          PQ.stoer_wagner G = Some (r, G).
Proof.
  intros Hn Hsq Hsym Hnn Hfit.
  pose proof (graph_ok_intro G Hsq Hsym Hnn Hfit) as Hok.
  destruct (linear_correct _ G Hok Hn) as (r & Gl & Hl & Hmin).
  destruct (pq_correct _ G Hok Hn) as (r' & Hp & Hmin').
  exists r, Gl. split; [done|].
  by rewrite (min_cut_unique G r r').
Qed.

Lemma engines_agree_witness :
  (2 ≤ length K3 ∧ square (length K3) K3 ∧ symmetric K3 ∧ nonneg K3 ∧
   weights_fit K3) ∧
  ∃ r Gl, Linear.stoer_wagner K3 = Some (r, Gl) ∧
          PQ.stoer_wagner K3 = Some (r, K3).
Proof.
  split.
  - split_and!; [simpl; lia|apply K3_square|apply K3_symmetric|
                 apply K3_nonneg|apply K3_fits].
  - apply (engines_agree K3);
      [simpl; lia|apply K3_square|apply K3_symmetric|apply K3_nonneg|apply K3_fits].
Defined.

(** C1, without the bound on the total weight, fails.  On [heavy_edge], a
    connected graph (its minimum cut is 1) whose total weight is
    [INT_MAX + 2], both engines return and their values differ: the
    linear scan returns 1 and the priority queue [INT_MIN], a sum that
    wrapped around.  On [heavy_triangle] the scan of the linear engine
    finds no vertex of weight above -1 (it then writes [added[-1]]),
    and the priority queue engine returns [INT_MIN]. *)
Lemma engines_disagree_on_overflow :
  (2 ≤ length heavy_edge ∧ square (length heavy_edge) heavy_edge ∧
   symmetric heavy_edge ∧ nonneg heavy_edge ∧ is_min_cut heavy_edge 1) ∧
  total_weight heavy_edge = (Int.INT_MAX + 2)%Z ∧
  fst <$> Linear.stoer_wagner heavy_edge = Some 1%Z ∧
  PQ.stoer_wagner heavy_edge = Some (Int.INT_MIN, heavy_edge) ∧
  ((∃ r Gl, Linear.stoer_wagner heavy_edge = Some (r, Gl) ∧
            PQ.stoer_wagner heavy_edge = Some (r, heavy_edge)) → False) ∧
  (2 ≤ length heavy_triangle ∧ square (length heavy_triangle) heavy_triangle ∧
   symmetric heavy_triangle ∧ nonneg heavy_triangle ∧
   is_min_cut heavy_triangle 2) ∧
  Linear.stoer_wagner heavy_triangle = None ∧
  PQ.stoer_wagner heavy_triangle = Some (Int.INT_MIN, heavy_triangle).
Proof.
  split_and!; try by vm_compute.
  - simpl; lia.
  - small_matrix.
  - small_matrix.
  - small_matrix.
  - apply heavy_edge_min_cut.
  - intros (r & Gl & Hl & Hp). vm_compute in Hl, Hp. congruence.
  - simpl; lia.
  - small_matrix.
  - small_matrix.
  - small_matrix.
  - apply heavy_triangle_min_cut.
Qed.

(** On the triangle the two engines add the vertices in different
    orders: the scan takes the first vertex of greatest weight, the queue
    the greatest pair. *)
Example tie_orders_disagree :
  (last <$> Linear.phase K3 3) = Some 2 ∧
  (λ r, last r.1.1) <$> PQ.phase K3 3 = Some 1.
Proof. by vm_compute. Qed.

(** On the graph [five_edges] the lightest cuts, vertex 0 or vertex 2
    alone, weigh 4, and both engines return 4. *)
Example five_edges_cut :
  fst <$> Linear.stoer_wagner five_edges = Some 4%Z ∧
  fst <$> PQ.stoer_wagner five_edges = Some 4%Z ∧
  cut_weight five_edges (alone 0) = 4%Z ∧
  cut_weight five_edges (alone 2) = 4%Z.
Proof. by vm_compute. Qed.

(** C4: with fewer than two vertices the deterministic engine returns
    [INT_MAX]; on a symmetric non-negative weight matrix with at least two
    vertices whose total weight fits in an [int] it returns the global
    minimum cut weight, which is not negative. *)
Theorem stoer_wagner_min_cut (G : matrix) :
  (length G < 2 →
     Linear.stoer_wagner G = Some (Int.INT_MAX, G) ∧
     PQ.stoer_wagner G = Some (Int.INT_MAX, G)) ∧
  (2 ≤ length G → square (length G) G → symmetric G → nonneg G → weights_fit G →
     ∃ r Gf, Linear.stoer_wagner G = Some (r, Gf) ∧
             PQ.stoer_wagner G = Some (r, G) ∧
             is_min_cut G r ∧ (0 ≤ r)%Z).
Proof.
  split.
  - intros Hn. unfold Linear.stoer_wagner, PQ.stoer_wagner.
    destruct (length G) as [|[|n]]; [done..|lia].
  - intros Hn Hsq Hsym Hnn Hfit.
    pose proof (graph_ok_intro G Hsq Hsym Hnn Hfit) as Hok.
    destruct (linear_correct _ G Hok Hn) as (r & Gl & Hl & Hmin).
    destruct (pq_correct _ G Hok Hn) as (r' & Hp & Hmin').
    exists r, Gl. split_and!; [done| |done|].
    + by rewrite (min_cut_unique G r r').
    + by destruct (min_cut_bounds _ G r Hok Hmin).
Qed.

Lemma stoer_wagner_min_cut_witness :
  (Linear.stoer_wagner [[5%Z]] = Some (Int.INT_MAX, [[5%Z]]) ∧
   PQ.stoer_wagner [[5%Z]] = Some (Int.INT_MAX, [[5%Z]])) ∧
  ∃ r Gf, Linear.stoer_wagner K3 = Some (r, Gf) ∧
          PQ.stoer_wagner K3 = Some (r, K3) ∧
          is_min_cut K3 r ∧ (0 ≤ r)%Z.
Proof.
  split.
  - apply (stoer_wagner_min_cut [[5%Z]]). simpl. lia.
  - apply (stoer_wagner_min_cut K3);
      [simpl; lia|apply K3_square|apply K3_symmetric|apply K3_nonneg|apply K3_fits].
Defined.

(** C4, without the bound on the total weight, fails.  On [heavy_clique],
    whose minimum cut is 4, both engines return 0: the cut of the first
    phase, a weight [2 + INT_MAX + INT_MAX], wraps around to 0.  On [heavy_triangle], whose minimum cut
    is 2, the linear scan engine has no result (its scan finds no vertex
    and it writes [added[-1]]) and the priority queue engine returns the
    negative value [INT_MIN]. *)
Lemma min_cut_missed_on_overflow :
  (2 ≤ length heavy_clique ∧ square (length heavy_clique) heavy_clique ∧
   symmetric heavy_clique ∧ nonneg heavy_clique ∧ is_min_cut heavy_clique 4) ∧
  fst <$> Linear.stoer_wagner heavy_clique = Some 0%Z ∧
  PQ.stoer_wagner heavy_clique = Some (0%Z, heavy_clique) ∧
  (2 ≤ length heavy_triangle ∧ square (length heavy_triangle) heavy_triangle ∧
   symmetric heavy_triangle ∧ nonneg heavy_triangle ∧
   is_min_cut heavy_triangle 2) ∧
  Linear.stoer_wagner heavy_triangle = None ∧
  PQ.stoer_wagner heavy_triangle = Some (Int.INT_MIN, heavy_triangle) ∧
  (Int.INT_MIN < 0)%Z.
Proof.
  split_and!; try by vm_compute.
  - simpl; lia.
  - small_matrix.
  - small_matrix.
  - small_matrix.
  - apply heavy_clique_min_cut.
  - simpl; lia.
  - small_matrix.
  - small_matrix.
  - small_matrix.
  - apply heavy_triangle_min_cut.
Qed.





(** C6: in a phase on a symmetric matrix whose weights between distinct
    vertices are not negative and fit (the matrix the engine receives and
    every contracted matrix of its run), after the initialization
    ([k = 0]) and after each of the [k] vertex additions, the vertices
    marked in [added] are the [k + 1] distinct vertices of a list [A],
    and [weight[i]] is, for every vertex [i] not yet added, the sum of
    the weights of the edges from [i] to the vertices of [A], each
    counted once. *)
Theorem weight_invariant (G : matrix) (k : nat) :
  graph_ok (length G) G → 1 ≤ length G → k ≤ length G - 1 →
  ∃ st A,
    (st0 ← Linear.phase_init G (length G); Linear.grow k G (length G) st0) = Some st ∧
    length A = S k ∧ NoDup A ∧ (∀ a, a ∈ A → a < length G) ∧
    (∀ i, i < length G →
       st.(added) !! i = Some (if decide (i ∈ A) then 1 else 0)%Z) ∧
    (∀ i, i < length G → i ∉ A →
       st.(weight) !! i = Some (sumZ (λ a, entry G i a) A)).
Proof.
  intros Hok Hn Hk. pose proof Hok as (_ & Hsym & _).
  destruct (linear_phase_init_inv _ G Hok Hn) as (st0 & -> & Hinv0). simpl.
  destruct (linear_grow_inv _ G k Hok [0] st0 Hinv0) as (st & A' & -> & Hinv & HA');
    [simpl; lia|].
  exists st, (A' ++ [0]). split; [done|].
  split; [rewrite length_app; simpl; lia|].
  destruct Hinv as (Hma & _ & _ & _ & _ & Hadd & Hw & _).
  split; [by eapply ma_order_NoDup|].
  split; [by eapply ma_order_lt|].
  split; [done|].
  intros i Hi HiA. rewrite (Hw i Hi HiA). f_equal.
  apply sumZ_ext. intros a _. apply Hsym.
Qed.

Lemma weight_invariant_witness :
  (graph_ok (length K3) K3 ∧ 1 ≤ length K3 ∧ 1 ≤ length K3 - 1) ∧
  ∃ st A,
    (st0 ← Linear.phase_init K3 (length K3); Linear.grow 1 K3 (length K3) st0) = Some st ∧
    length A = 2 ∧ NoDup A ∧ (∀ a, a ∈ A → a < length K3) ∧
    (∀ i, i < length K3 →
       st.(added) !! i = Some (if decide (i ∈ A) then 1 else 0)%Z) ∧
    (∀ i, i < length K3 → i ∉ A →
       st.(weight) !! i = Some (sumZ (λ a, entry K3 i a) A)).
Proof.
  split.
  - split_and!; [apply K3_ok|simpl; lia|simpl; lia].
  - apply (weight_invariant K3 1); [apply K3_ok|simpl; lia|simpl; lia].
Defined.

(** C6, without the bound on the total weight, fails.  On [heavy_star],
    after the initialization and the addition of vertex 1, the vertex 2
    is not added and [weight[2]] is [INT_MIN], while the weights of the
    edges from 2 to the added vertices 0 and 1 sum to 2147483648. *)
Lemma weight_wraps_on_overflow :
  (square 3 heavy_star ∧ symmetric heavy_star ∧ nonneg heavy_star) ∧
  ∃ st, (st0 ← Linear.phase_init heavy_star 3; Linear.grow 1 heavy_star 3 st0)
          = Some st ∧
        st.(added) = [1; 1; 0]%Z ∧
        st.(weight) !! 2 = Some Int.INT_MIN ∧
        sumZ (λ a, entry heavy_star 2 a) [1; 0] = 2147483648%Z.
Proof.
  split; [split_and!; small_matrix|].
  eexists. split; [by vm_compute|]. by vm_compute.
Qed.

(** The same invariant in the priority queue engine. *)
Lemma pq_weight_invariant (G : matrix) (k : nat) :
  graph_ok (length G) G → 1 ≤ length G → k ≤ length G - 1 →
  ∃ st pq A,
    (s ← PQ.phase_init G (length G); PQ.grow k G (length G) s.1 s.2)
      = Some (st, pq, 0) ∧
    length A = S k ∧ NoDup A ∧ (∀ a, a ∈ A → a < length G) ∧
    (∀ i, i < length G →
       st.(added) !! i = Some (if decide (i ∈ A) then 1 else 0)%Z) ∧
    (∀ i, i < length G → i ∉ A →
       st.(weight) !! i = Some (sumZ (λ a, entry G i a) A)).
Proof.
  intros Hok Hn Hk. pose proof Hok as (_ & Hsym & _).
  destruct (pq_phase_init_inv _ G Hok Hn) as (st0 & pq0 & -> & Hinv0 & Hq0). simpl.
  destruct (pq_grow_inv _ G k Hok [0] st0 pq0 Hinv0 Hq0)
    as (st & pq & A' & -> & Hinv & HA'); [simpl; lia|].
  exists st, pq, (A' ++ [0]). split; [done|].
  split; [rewrite length_app; simpl; lia|].
  destruct Hinv as (Hma & _ & _ & _ & _ & Hadd & Hw & _).
  split; [by eapply ma_order_NoDup|].
  split; [by eapply ma_order_lt|].
  split; [done|].
  intros i Hi HiA. rewrite (Hw i Hi HiA). f_equal.
  apply sumZ_ext. intros a _. apply Hsym.
Qed.

(** C8: the linear scan engine works on the matrix of its caller: after
    the call on a graph of two vertices the matrix of the caller is a
    1x1 matrix; the priority queue engine leaves the matrix as it was. *)
Theorem linear_overwrites_caller_matrix :
  Linear.stoer_wagner [[0; 1]; [1; 0]]%Z = Some (1%Z, [[1%Z]]) ∧
  PQ.stoer_wagner [[0; 1]; [1; 0]]%Z = Some (1%Z, [[0; 1]; [1; 0]]%Z).
Proof. by vm_compute. Qed.

(** ** Union-find *)

Lemma reach_lt p i r d : reach p i r d → i < length p ∧ r < length p ∧ p !! r = Some r.
Proof.
  induction 1 as [i Hi|i j r d Hi Hne Hr IH].
  - apply lookup_lt_Some in Hi as Hlt. done.
  - apply lookup_lt_Some in Hi. naive_solver.
Qed.

Lemma reach_det p i r d : reach p i r d → ∀ r' d', reach p i r' d' → r = r' ∧ d = d'.
Proof.
  induction 1 as [i Hi|i j r d Hi Hne Hr IH]; intros r' d' Hr'.
  - inversion Hr'; simplify_eq; done.
  - inversion Hr' as [|? j' ? d0 Hi' Hne' Hr0]; simplify_eq.
    destruct (IH _ _ Hr0). by subst.
Qed.

Lemma root_of_det p i r r' : root_of p i r → root_of p i r' → r = r'.
Proof. intros [d Hr] [d' Hr']. by destruct (reach_det _ _ _ _ Hr _ _ Hr'). Qed.

Lemma root_of_root p r : p !! r = Some r → root_of p r r.
Proof. exists 0. by constructor. Qed.

Lemma elem_of_roots p r : r ∈ roots p ↔ p !! r = Some r.
Proof.
  unfold roots. rewrite list_elem_of_filter, elem_of_seq. split; [naive_solver|].
  intros Hr. split; [done|]. apply lookup_lt_Some in Hr. lia.
Qed.

Lemma NoDup_roots p : NoDup (roots p).
Proof. apply NoDup_filter, NoDup_seq. Qed.

Lemma roots_nonempty p k i : forest p k → i < length p → 1 ≤ length (roots p).
Proof.
  intros Hf Hi. destruct (Hf i Hi) as (r & d & Hr & _).
  apply reach_lt in Hr as (_ & _ & Hr%elem_of_roots).
  destruct (roots p); [by apply elem_of_nil in Hr|simpl; lia].
Qed.

Lemma find_rec_spec p i r d :
  reach p i r d → ∀ fuel, d < fuel →
  ∃ p', DSU.find_rec fuel p i = Some (p', r) ∧ compressed p p' r.
Proof.
  induction 1 as [i Hi|i j r d Hi Hne Hr IH]; intros fuel Hfuel;
    (destruct fuel as [|fuel]; [lia|]); simpl; rewrite Hi; simpl.
  - rewrite decide_True by done. exists p. split; [done|]. split; [done|]. by left.
  - rewrite decide_False by done.
    destruct (IH fuel) as (p1 & -> & Hlen & Hch); [lia|]. simpl.
    apply lookup_lt_Some in Hi as Hlt.
    rewrite vset_Some by lia. simpl.
    rewrite list_lookup_insert_eq by lia. simpl.
    eexists. split; [done|]. split; [by rewrite length_insert|].
    intros x. destruct (decide (x = i)) as [->|Hx].
    + right. rewrite list_lookup_insert_eq by lia. split; [done|].
      split; [rewrite Hi; congruence|]. exists (S d). by econstructor.
    + rewrite list_lookup_insert_ne by done. apply Hch.
Qed.

Lemma compressed_root p p' r0 r :
  compressed p p' r0 → p !! r = Some r → p' !! r = Some r.
Proof. intros [_ Hch] Hr. destruct (Hch r) as [->|(_ & ? & _)]; done. Qed.

Lemma compressed_reach p p' r0 :
  compressed p p' r0 →
  ∀ i r d, reach p i r d → ∃ d', d' ≤ d ∧ reach p' i r d'.
Proof.
  intros Hc. induction 1 as [i Hi|i j r d Hi Hne Hr IH].
  - exists 0. split; [done|]. constructor. by eapply compressed_root.
  - destruct IH as (d' & Hd' & Hr').
    pose proof Hc as [_ Hch]. destruct (Hch i) as [Hsame|(Hnew & _ & Hroot)].
    + exists (S d'). split; [lia|]. econstructor; [by rewrite Hsame|done..].
    + assert (r0 = r) as ->.
      { eapply root_of_det; [done|]. exists (S d). by econstructor. }
      apply reach_lt in Hr as (_ & _ & Hrr).
      assert (r ≠ i) by (intros ->; congruence).
      exists 1. split; [lia|]. econstructor; [done..|].
      constructor. by eapply compressed_root.
Qed.

Lemma compressed_roots p p' r0 : compressed p p' r0 → roots p' = roots p.
Proof.
  intros Hc. unfold roots. destruct Hc as [Hlen Hch]. rewrite Hlen.
  apply list_filter_iff. intros x. split; intros Hx.
  - destruct (Hch x) as [<-|(Hnew & Hne & Hroot)]; [done|].
    rewrite Hnew in Hx. simplify_eq.
    destruct Hroot as [d Hr]. by apply reach_lt in Hr as (_ & _ & ?).
  - eapply compressed_root; [|done]. by split.
Qed.

Lemma forest_root_of p k i : forest p k → i < length p → ∃ r, root_of p i r.
Proof. intros Hf Hi. destruct (Hf i Hi) as (r & d & Hr & _). by exists r, d. Qed.

Lemma compressed_root_of p p' r0 k i r :
  compressed p p' r0 → forest p k → i < length p →
  (root_of p' i r ↔ root_of p i r).
Proof.
  intros Hc Hf Hi. destruct (forest_root_of p k i Hf Hi) as [r1 [d1 Hr1]].
  destruct (compressed_reach p p' r0 Hc i r1 d1 Hr1) as (d' & _ & Hr').
  split; intros Hr.
  - rewrite (root_of_det _ _ _ _ Hr (ex_intro _ d' Hr')). by exists d1.
  - rewrite (root_of_det _ _ _ _ Hr (ex_intro _ d1 Hr1)). by exists d'.
Qed.

Lemma find_spec V side d i :
  dsu_inv V side d → i < V →
  ∃ d' r, DSU.find d i = Some (d', r) ∧ dsu_inv V side d' ∧
    d'.(rank) = d.(rank) ∧ roots d'.(parent) = roots d.(parent) ∧
    root_of d.(parent) i r ∧ r < V ∧
    (∀ x r', root_of d'.(parent) x r' ↔ root_of d.(parent) x r').
Proof.
  intros (Hlp & Hlr & Hf & Hside) Hi.
  destruct (Hf i) as (r & dep & Hr & Hdep); [lia|].
  pose proof (roots_nonempty _ _ i Hf) as Hne.
  destruct (find_rec_spec _ i r dep Hr (length d.(parent))) as (p' & Hfind & Hc);
    [lia|].
  unfold DSU.find. rewrite Hfind. simpl. eexists _, r. split; [done|].
  pose proof (compressed_roots _ _ _ Hc) as Hroots.
  assert (∀ x r', root_of p' x r' ↔ root_of d.(parent) x r') as Hiff.
  { intros x r'. destruct (decide (x < V)) as [Hx|Hx].
    - apply (compressed_root_of _ _ r _ _ _ Hc Hf). lia.
    - destruct Hc as [Hlen _].
      split; intros [dx Hrx]; apply reach_lt in Hrx; lia. }
  assert (r < V) as HrV by (apply reach_lt in Hr; lia).
  split_and!; simpl; [|done|done|by exists dep|done|done].
  pose proof Hc as [Hlen Hch].
  split_and!; simpl; [lia|done| |].
  - rewrite Hroots. intros x Hx. rewrite Hlen in Hx.
    destruct (Hf x Hx) as (rx & dx & Hrx & Hdx).
    destruct (compressed_reach _ p' r Hc x rx dx Hrx) as (d' & Hd' & Hr').
    exists rx, d'. split; [done|lia].
  - intros x r' Hroot. by apply Hside, Hiff.
Qed.

Lemma link_reach_other p a b i r d :
  p !! a = Some a → reach p i r d → r ≠ a → reach (<[a:=b]> p) i r d.
Proof.
  intros Ha. induction 1 as [i Hi|i j r d Hi Hne Hr IH]; intros Hra.
  - constructor. by rewrite list_lookup_insert_ne.
  - econstructor; [|done|by apply IH].
    rewrite list_lookup_insert_ne; [done|]. intros ->. congruence.
Qed.

Lemma link_reach_linked p a b i d :
  p !! a = Some a → p !! b = Some b → a ≠ b →
  reach p i a d → reach (<[a:=b]> p) i b (S d).
Proof.
  intros Ha Hb Hab Hr. remember a as a' eqn:Heq in Hr.
  induction Hr as [i Hi|i j r d Hi Hne Hr IH]; subst.
  - econstructor; [|by apply not_eq_sym|].
    + apply list_lookup_insert_eq. by apply lookup_lt_Some in Ha.
    + constructor. by rewrite list_lookup_insert_ne.
  - econstructor; [|done|by apply IH].
    rewrite list_lookup_insert_ne; [done|]. intros ->. congruence.
Qed.

Lemma link_root_of p a b i r :
  p !! a = Some a → p !! b = Some b → a ≠ b → root_of p i r →
  root_of (<[a:=b]> p) i (if decide (r = a) then b else r).
Proof.
  intros Ha Hb Hab [d Hr]. case_decide as Hra.
  - subst r. exists (S d). by apply link_reach_linked.
  - exists d. by apply link_reach_other.
Qed.

Lemma link_roots p a b :
  p !! a = Some a → a ≠ b → roots p ≡ₚ a :: roots (<[a:=b]> p).
Proof.
  intros Ha Hab. apply lookup_lt_Some in Ha as Hlt.
  apply NoDup_Permutation.
  - apply NoDup_roots.
  - apply NoDup_cons. split; [|apply NoDup_roots].
    rewrite elem_of_roots, list_lookup_insert_eq by done. congruence.
  - intros x. rewrite elem_of_cons, !elem_of_roots.
    destruct (decide (x = a)) as [->|Hne].
    + naive_solver.
    + rewrite list_lookup_insert_ne by done. naive_solver.
Qed.

Lemma roots_length_le p : length (roots p) ≤ length p.
Proof.
  unfold roots. etrans; [apply length_filter|]. by rewrite length_seq.
Qed.

Lemma link_inv V side d a b rank' :
  dsu_inv V side d → d.(parent) !! a = Some a → d.(parent) !! b = Some b →
  a ≠ b → side a = side b → length rank' = V →
  dsu_inv V side {| rank := rank'; parent := <[a:=b]> d.(parent) |} ∧
  S (length (roots (<[a:=b]> d.(parent)))) = length (roots d.(parent)).
Proof.
  intros (Hlp & Hlr & Hf & Hside) Ha Hb Hab Hsab Hlr'.
  pose proof (link_roots _ a b Ha Hab) as Hperm.
  apply Permutation_length in Hperm. simpl in Hperm.
  pose proof (roots_length_le d.(parent)).
  split; [|done]. split_and!; simpl; [by rewrite length_insert|done| |].
  - intros i Hi. rewrite length_insert in Hi.
    destruct (Hf i Hi) as (r & dep & Hr & Hdep).
    destruct (decide (r = a)) as [->|Hra].
    + exists b, (S dep). split; [by apply link_reach_linked|]. lia.
    + exists r, dep. split; [by apply link_reach_other|]. lia.
  - intros i r Hroot.
    assert (i < length d.(parent)) as Hi.
    { destruct Hroot as [dep Hr]. apply reach_lt in Hr as (Hi & _).
      by rewrite length_insert in Hi. }
    destruct (forest_root_of _ _ i Hf Hi) as [r0 Hr0].
    pose proof (link_root_of _ a b i r0 Ha Hb Hab Hr0) as Hnew.
    rewrite (root_of_det _ _ _ _ Hroot Hnew).
    case_decide; [subst r0; rewrite <- Hsab|]; by apply Hside.
Qed.

Lemma same_refl_root p u r : root_of p u r → same p u r.
Proof.
  intros Hr. exists r. split; [done|].
  destruct Hr as [d Hr]. apply reach_lt in Hr as (_ & _ & Hrr).
  by apply root_of_root.
Qed.

Lemma same_sym p u v : same p u v → same p v u.
Proof. intros (r & ? & ?). by exists r. Qed.

Lemma same_trans p u v w : same p u v → same p v w → same p u w.
Proof.
  intros (r & Hu & Hv) (r' & Hv' & Hw).
  rewrite <- (root_of_det _ _ _ _ Hv Hv') in Hw. by exists r.
Qed.

Lemma link_same p a b u v :
  p !! a = Some a → p !! b = Some b → a ≠ b →
  same p u v → same (<[a:=b]> p) u v.
Proof.
  intros Ha Hb Hab (r & Hu & Hv).
  exists (if decide (r = a) then b else r). split; by apply link_root_of.
Qed.

Lemma link_same_roots p a b :
  p !! a = Some a → p !! b = Some b → a ≠ b → same (<[a:=b]> p) a b.
Proof.
  intros Ha Hb Hab. exists b. split.
  - pose proof (link_root_of p a b a a Ha Hb Hab (root_of_root _ _ Ha)) as H.
    by rewrite decide_True in H.
  - pose proof (link_root_of p a b b b Ha Hb Hab (root_of_root _ _ Hb)) as H.
    by rewrite decide_False in H by done.
Qed.

(** [unionSets] on two distinct roots. *)
Lemma union_roots_spec V side d a b :
  dsu_inv V side d → d.(parent) !! a = Some a → d.(parent) !! b = Some b →
  a ≠ b → side a = side b →
  ∃ d', DSU.unionSets d a b = Some d' ∧ dsu_inv V side d' ∧
    S (length (roots d'.(parent))) = length (roots d.(parent)) ∧
    same d'.(parent) a b ∧
    (∀ u v, same d.(parent) u v → same d'.(parent) u v).
Proof.
  intros Hinv Ha Hb Hab Hsab.
  pose proof Hinv as (Hlp & Hlr & Hf & Hside).
  assert (a < V) as HaV by (apply lookup_lt_Some in Ha; lia).
  assert (b < V) as HbV by (apply lookup_lt_Some in Hb; lia).
  destruct (find_spec V side d a Hinv HaV)
    as (d1 & ra & Hfa & Hinv1 & Hrk1 & Hroots1 & Hra & _ & Hiff1).
  rewrite (root_of_det _ _ _ _ Hra (root_of_root _ _ Ha)) in *. clear Hra.
  destruct (find_spec V side d1 b Hinv1 HbV)
    as (d2 & rb & Hfb & Hinv2 & Hrk2 & Hroots2 & Hrb & _ & Hiff2).
  assert (rb = b) as ->.
  { apply Hiff1 in Hrb. by eapply root_of_det, root_of_root. }
  assert (∀ x, d2.(parent) !! x = Some x ↔ d.(parent) !! x = Some x) as Hrt.
  { intros x. by rewrite <- !elem_of_roots, Hroots2, Hroots1. }
  assert (∀ u v, same d.(parent) u v → same d2.(parent) u v) as Hsame.
  { intros u v (r & Hu & Hv). exists r. split; by apply Hiff2, Hiff1. }
  pose proof Hinv2 as (Hlp2 & Hlr2 & _).
  unfold DSU.unionSets. rewrite Hfa. simpl. rewrite Hfb. simpl.
  rewrite decide_False by done.
  destruct (lookup_lt_is_Some_2 d2.(rank) a) as [rka Hrka]; [lia|].
  destruct (lookup_lt_is_Some_2 d2.(rank) b) as [rkb Hrkb]; [lia|].
  rewrite Hrka, Hrkb. simpl.
  apply Hrt in Ha as Ha2. apply Hrt in Hb as Hb2.
  repeat case_decide.
  - rewrite vset_Some by lia. simpl. eexists. split; [done|].
    destruct (link_inv V side d2 a b d2.(rank) Hinv2 Ha2 Hb2) as [Hi' Hc]; [done..|].
    split_and!; simpl; [done|by rewrite <- Hroots1, <- Hroots2|
                        by apply link_same_roots|].
    intros u v Huv. apply link_same; auto.
  - rewrite vset_Some by lia. simpl. eexists. split; [done|].
    destruct (link_inv V side d2 b a d2.(rank) Hinv2 Hb2 Ha2) as [Hi' Hc]; [done..|].
    split_and!; simpl; [done|by rewrite <- Hroots1, <- Hroots2|
                        by apply same_sym, link_same_roots|].
    intros u v Huv. apply link_same; auto.
  - rewrite vset_Some by lia. simpl.
    rewrite vset_Some by lia. simpl. eexists. split; [done|].
    destruct (link_inv V side d2 b a (<[a:=Int.add rka 1]> d2.(rank)) Hinv2 Hb2 Ha2)
      as [Hi' Hc]; [done..|by rewrite length_insert|].
    split_and!; simpl; [done|by rewrite <- Hroots1, <- Hroots2|
                        by apply same_sym, link_same_roots|].
    intros u v Huv. apply link_same; auto.
Qed.

Lemma filter_all {A} (P : A → Prop) `{∀ x, Decision (P x)} (l : list A) :
  Forall P l → filter P l = l.
Proof.
  induction 1 as [|x l Hx Hl IH]; [done|]. by rewrite filter_cons_True, IH.
Qed.

Lemma make_inv V side : dsu_inv V side (DSU.make V) ∧ roots (seq 0 V) = seq 0 V.
Proof.
  assert (roots (seq 0 V) = seq 0 V) as Hroots.
  { unfold roots. rewrite length_seq. apply filter_all, Forall_forall.
    intros i Hi%elem_of_seq. apply lookup_seq. lia. }
  split; [|done]. split_and!; simpl.
  - apply length_seq.
  - apply length_replicate.
  - rewrite Hroots, length_seq. intros i Hi. rewrite length_seq in Hi.
    exists i, 0. split; [|lia]. constructor. apply lookup_seq. lia.
  - intros i r [d Hr]. inversion Hr as [? Hi|? j ? ? Hi Hne]; [done|].
    apply lookup_seq in Hi. lia.
Qed.

Lemma find_same (d d' : DisjointUnionSets) :
  (∀ x r', root_of d'.(parent) x r' ↔ root_of d.(parent) x r') →
  ∀ u v, same d'.(parent) u v ↔ same d.(parent) u v.
Proof.
  intros Hiff u v. split; intros (r0 & Hu & Hv); exists r0; split; by apply Hiff.
Qed.

(** With at most two components left, two vertices on one side of a
    proper cut that no component crosses are in the same component. *)
Lemma two_components V side d u v :
  dsu_inv V side d → length (roots d.(parent)) ≤ 2 → proper_cut V side →
  u < V → v < V → side u = side v → same d.(parent) u v.
Proof.
  intros (Hlp & Hlr & Hf & Hside) Hlen (i & j & Hi & Hj & Hti & Htj) Hu Hv Huv.
  destruct (forest_root_of _ _ u Hf) as [ru Hru]; [lia|].
  destruct (forest_root_of _ _ v Hf) as [rv Hrv]; [lia|].
  destruct (decide (ru = rv)) as [->|Hne]; [by exists rv|].
  assert (∃ b, b < V ∧ side b ≠ side u) as (b & Hb & Hbu).
  { destruct (side u) eqn:E; [exists j|exists i]; split; (done || congruence). }
  destruct (forest_root_of _ _ b Hf) as [rb Hrb]; [lia|].
  pose proof (Hside _ _ Hru). pose proof (Hside _ _ Hrv). pose proof (Hside _ _ Hrb).
  assert ([ru; rv; rb] ⊆+ roots d.(parent)) as Hsub%submseteq_length.
  { apply NoDup_submseteq.
    - repeat constructor; set_unfold; naive_solver congruence.
    - intros x Hx. apply elem_of_roots.
      assert (∀ y r, root_of d.(parent) y r → d.(parent) !! r = Some r) as Hrt.
      { intros y r [dy Hy]. by apply reach_lt in Hy as (_ & _ & ?). }
      set_unfold. destruct Hx as [->|[->|[->|[]]]]; eauto. }
  simpl in Hsub. lia.
Qed.

Lemma contract_edges_spec V side :
  ∀ es d vertices,
    dsu_inv V side d → vertices = Z.of_nat (length (roots d.(parent))) →
    Forall (λ e : edge, e.1 < V ∧ e.2 < V ∧ side e.1 = side e.2) es →
    ∃ d' vertices',
      KargerOpt.contract_edges es d vertices = Some (d', vertices') ∧
      dsu_inv V side d' ∧
      vertices' = Z.of_nat (length (roots d'.(parent))) ∧
      (∀ u v, same d.(parent) u v → same d'.(parent) u v) ∧
      ((vertices' ≤ 2)%Z ∨ Forall (λ e : edge, same d'.(parent) e.1 e.2) es).
Proof.
  induction es as [|[u v] es IH]; intros d vertices Hinv Hvert Hes; simpl.
  - exists d, vertices. split_and!; [done..|]. by right.
  - apply Forall_cons in Hes as [(Hu & Hv & Huv) Hes]. simpl in *.
    case_decide as Hle.
    { exists d, vertices. split_and!; [done..|]. by left. }
    destruct (find_spec V side d u Hinv Hu)
      as (d1 & ru & -> & Hinv1 & _ & Hroots1 & Hru & HruV & Hiff1).
    simpl.
    destruct (find_spec V side d1 v Hinv1 Hv)
      as (d2 & rv & -> & Hinv2 & _ & Hroots2 & Hrv & HrvV & Hiff2).
    simpl.
    assert (∀ a b, same d.(parent) a b → same d2.(parent) a b) as Hsame.
    { intros a b Hab. by apply (find_same d1 d2 Hiff2), (find_same d d1 Hiff1). }
    assert (root_of d2.(parent) u ru) as Hru2 by by apply Hiff2, Hiff1.
    assert (root_of d2.(parent) v rv) as Hrv2 by by apply Hiff2.
    case_decide as Hne.
    + assert (∀ y r, root_of d2.(parent) y r → d2.(parent) !! r = Some r) as Hrt.
      { intros y r [dy Hy]. by apply reach_lt in Hy as (_ & _ & ?). }
      pose proof Hinv2 as (_ & _ & _ & Hside2).
      destruct (union_roots_spec V side d2 ru rv Hinv2)
        as (d3 & -> & Hinv3 & Hcount & Hlinked & Hsame3); [by eapply Hrt..|done| |].
      { by rewrite (Hside2 _ _ Hru2), (Hside2 _ _ Hrv2). }
      simpl.
      destruct (IH d3 (vertices - 1)%Z Hinv3) as (d' & vertices' & -> & Hinv' & Hvert' & Hsame' & Hend);
        [rewrite Hroots2, Hroots1 in Hcount; lia|done|].
      exists d', vertices'. split_and!; [done..| |].
      * intros a b Hab. by apply Hsame', Hsame3, Hsame.
      * destruct Hend as [?|Hall]; [by left|right].
        apply Forall_cons. split; [|done]. simpl. apply Hsame'.
        eapply same_trans; [apply Hsame3, same_refl_root, Hru2|].
        eapply same_trans; [exact Hlinked|].
        apply same_sym, Hsame3, same_refl_root, Hrv2.
    + subst rv.
      destruct (IH d2 vertices Hinv2) as (d' & vertices' & -> & Hinv' & Hvert' & Hsame' & Hend);
        [by rewrite Hroots2, Hroots1|done|].
      exists d', vertices'. split_and!; [done..| |].
      * intros a b Hab. by apply Hsame', Hsame.
      * destruct Hend as [?|Hall]; [by left|right].
        apply Forall_cons. split; [|done]. simpl. apply Hsame'. by exists ru.
Qed.

(** ** A trial of the shuffle based engine *)

Lemma count_cut_spec V side d (edges : list edge) :
  dsu_inv V side d → edges_ok V side edges →
  ∃ c, count_cut (length edges) edges d = Some c ∧
       (Forall (λ e : edge, same d.(parent) e.1 e.2) edges → c = 0%Z).
Proof.
  intros Hinv Hes. unfold count_cut.
  destruct (for_loop_inv
    (λ (k : nat) (s : DisjointUnionSets * Z), dsu_inv V side s.1 ∧
       (∀ u v, same d.(parent) u v → same s.1.(parent) u v) ∧
       (Forall (λ e : edge, same d.(parent) e.1 e.2) edges → s.2 = 0%Z))
    (count_body edges) (length edges) 0 (d, 0%Z))
    as ([d' c] & -> & _ & _ & Hc); simpl in *.
  - done.
  - intros k [dk c] Hk (Hinvk & Hsame & Hc). simpl in *. unfold count_body.
    destruct (lookup_lt_is_Some_2 edges k) as [[u v] He]; [lia|].
    rewrite He. simpl.
    pose proof (Forall_lookup_1 _ _ _ _ Hes He) as (Hu & Hv & _). simpl in *.
    destruct (find_spec V side dk u Hinvk Hu)
      as (d1 & ru & -> & Hinv1 & _ & _ & Hru & _ & Hiff1). simpl.
    destruct (find_spec V side d1 v Hinv1 Hv)
      as (d2 & rv & -> & Hinv2 & _ & _ & Hrv & _ & Hiff2). simpl.
    assert (∀ a b, same d.(parent) a b → same d2.(parent) a b) as Hsame2.
    { intros a b Hab.
      by apply (find_same d1 d2 Hiff2), (find_same dk d1 Hiff1), Hsame. }
    case_decide as Hne.
    + eexists. split; [done|]. simpl. split_and!; [done..|].
      intros Hall. exfalso. apply Hne.
      pose proof (Forall_lookup_1 _ _ _ _ Hall He) as Huv. simpl in Huv.
      apply Hsame in Huv as (r & Hur & Hvr).
      rewrite (root_of_det _ _ _ _ Hru Hur).
      apply Hiff1 in Hrv. by rewrite (root_of_det _ _ _ _ Hrv Hvr).
    + eexists. split; [done|]. simpl. by split_and!.
  - by exists c.
Qed.

Lemma opt_trial_spec V side (es : list edge) :
  edges_ok V side es →
  ∃ c, KargerOpt.karger_min_cut_trial V (length es) es = Some c ∧
       (proper_cut V side → c = 0%Z).
Proof.
  intros Hes. unfold KargerOpt.karger_min_cut_trial.
  destruct (make_inv V side) as [Hinv0 Hroots0].
  destruct (contract_edges_spec V side es (DSU.make V) (Z.of_nat V) Hinv0)
    as (d' & vertices' & -> & Hinv' & Hvert' & _ & Hend);
    [simpl; by rewrite Hroots0, length_seq|done|].
  simpl. destruct (count_cut_spec V side d' es Hinv' Hes) as (c & -> & Hc).
  exists c. split; [done|]. intros Hp. apply Hc.
  destruct Hend as [Hle|Hall]; [|done].
  eapply Forall_impl; [exact Hes|]. intros [u v] (Hu & Hv & Huv). simpl in *.
  apply (two_components V side); (done || lia).
Qed.

(** ** The edge list of a matrix *)

Lemma row_edges_snoc G i js j :
  row_edges G i (js ++ [j]) =
  row_edges G i js ++ (if decide (get G i j = Some 1%Z) then [(i, j)] else []).
Proof.
  unfold row_edges. rewrite filter_app, fmap_app. f_equal.
  rewrite filter_cons, filter_nil. by case_decide.
Qed.

Lemma build_edges_spec n G :
  square n G → build_edges G n = Some (unit_edges G n).
Proof.
  intros Hsq. unfold build_edges.
  destruct (for_loop_inv
    (λ (k : nat) (es : list edge),
       es = (i ← seq 0 k; row_edges G i (seq (S i) (n - S i))))
    (λ i edges,
      for_loop (S i) (n - S i) (λ j edges,
        g ← get G i j;
        if bool_decide (g = 1%Z) then Some (edges ++ [(i, j)]) else Some edges)
        edges) n 0 []) as (es & -> & ->); [done| |done].
  intros i es0 Hi ->.
  destruct (for_loop_inv
    (λ (k : nat) (es : list edge),
       es = (i ← seq 0 i; row_edges G i (seq (S i) (n - S i)))
            ++ row_edges G i (seq (S i) (k - S i)))
    (λ j edges,
        g ← get G i j;
        if bool_decide (g = 1%Z) then Some (edges ++ [(i, j)]) else Some edges)
    (n - S i) (S i) (i ← seq 0 i; row_edges G i (seq (S i) (n - S i))))
    as (es & -> & ->).
  - rewrite Nat.sub_diag. simpl. unfold row_edges. simpl. by rewrite app_nil_r.
  - intros j es Hj ->.
    replace (S j - S i) with (S (j - S i)) by lia.
    rewrite seq_S, row_edges_snoc. replace (S i + (j - S i)) with j by lia.
    rewrite !(get_Some n) by (done || lia). cbn [mbind option_bind].
    case_bool_decide as Hg; [rewrite decide_True by congruence
                            |rewrite decide_False by congruence];
      (eexists; split; [done|]).
    + by rewrite app_assoc.
    + by rewrite app_nil_r.
  - eexists. split; [done|].
    replace (S i + (n - S i) - S i) with (n - S i) by lia.
    rewrite seq_S, bind_app. simpl. by rewrite app_nil_r.
Qed.

Lemma elem_of_unit_edges n G i j :
  square n G →
  (i, j) ∈ unit_edges G n ↔ i < j < n ∧ entry G i j = 1%Z.
Proof.
  intros Hsq. unfold unit_edges, row_edges.
  rewrite list_elem_of_bind. split.
  - intros (i' & Hin & Hi'%elem_of_seq).
    apply list_elem_of_fmap in Hin as (j' & [= -> ->] & Hj).
    apply list_elem_of_filter in Hj as [Hg Hj%elem_of_seq].
    split; [lia|]. unfold entry. by rewrite Hg.
  - intros [Hij Hg]. exists i. split; [|apply elem_of_seq; lia].
    apply list_elem_of_fmap. exists j. split; [done|].
    apply list_elem_of_filter. split; [|apply elem_of_seq; lia].
    rewrite (get_Some n) by (done || lia). by rewrite Hg.
Qed.

Lemma NoDup_unit_edges n G : NoDup (unit_edges G n).
Proof.
  unfold unit_edges. apply NoDup_bind; [| |apply NoDup_seq].
  - intros i1 i2 [a b] _ _ (? & [= -> ->] & _)%list_elem_of_fmap
                          (? & [= -> ->] & _)%list_elem_of_fmap. done.
  - intros i _. unfold row_edges. apply NoDup_fmap_2; [by intros ?? [= ->]|].
    apply NoDup_filter, NoDup_seq.
Qed.

Lemma unit_edges_ok n G side :
  square n G → (∀ i j, side i ≠ side j → entry G i j = 0%Z) →
  edges_ok n side (unit_edges G n).
Proof.
  intros Hsq Hside. apply Forall_forall. intros [i j] [Hij Hg]%(elem_of_unit_edges n); [|done].
  simpl. split_and!; [lia..|].
  destruct (decide (side i = side j)) as [|Hne]; [done|].
  rewrite (Hside i j Hne) in Hg. done.
Qed.

Lemma unit_edges_small G : length G < 2 → unit_edges G (length G) = [].
Proof. intros Hn. destruct (length G) as [|[|n]]; [done..|lia]. Qed.


(** ** The driver of the shuffle based engine *)

Section OptDriver.

Variable Rng : Type.
Variable shuffle : Rng → list edge → list edge * Rng.
Hypothesis shuffle_perm : ∀ g l, (shuffle g l).1 ≡ₚ l.

Lemma opt_trials_spec V side (es0 : list edge) (n : nat) (g : Rng) :
  edges_ok V side es0 →
  ∃ s, for_loop 0 n (KargerOpt.trial_body Rng shuffle V (length es0))
         (es0, g, Int.INT_MAX) = Some s ∧
       s.1.1 ≡ₚ es0 ∧
       (proper_cut V side → s.2 = if decide (n = 0) then Int.INT_MAX else 0%Z).
Proof.
  intros Hes.
  destruct (for_loop_inv
    (λ (k : nat) (s : list edge * Rng * Z),
       s.1.1 ≡ₚ es0 ∧
       (proper_cut V side → s.2 = if decide (k = 0) then Int.INT_MAX else 0%Z))
    (KargerOpt.trial_body Rng shuffle V (length es0)) n 0 (es0, g, Int.INT_MAX))
    as (s & Hs & HP); [done| |by exists s].
  intros k [[es gk] mc] _ (Hperm & Hmc). simpl in *.
  unfold KargerOpt.trial_body.
  pose proof (shuffle_perm gk es) as Hsh.
  destruct (shuffle gk es) as [es' gk']. simpl in Hsh.
  assert (edges_ok V side es') as Hok.
  { unfold edges_ok. by rewrite Hsh, Hperm. }
  assert (length es0 = length es') as ->.
  { by rewrite Hsh, Hperm. }
  destruct (opt_trial_spec V side _ Hok) as (c & -> & Hc). simpl.
  eexists. split; [done|]. simpl. split.
  - by rewrite Hsh.
  - intros Hp. rewrite (Hc Hp), (Hmc Hp).
    unfold Int.INT_MAX. repeat case_decide; (done || lia).
Qed.

(** The minimum kept by the driver does not increase with one more
    trial. *)
Lemma opt_one_more_trial V side (es0 : list edge) (n : nat) (g : Rng) :
  edges_ok V side es0 →
  ∃ s s',
    for_loop 0 n (KargerOpt.trial_body Rng shuffle V (length es0))
      (es0, g, Int.INT_MAX) = Some s ∧
    for_loop 0 (S n) (KargerOpt.trial_body Rng shuffle V (length es0))
      (es0, g, Int.INT_MAX) = Some s' ∧
    (s'.2 ≤ s.2)%Z.
Proof.
  intros Hes.
  destruct (opt_trials_spec V side es0 n g Hes) as (s & Hs & _).
  destruct (opt_trials_spec V side es0 (S n) g Hes) as (s' & Hs' & _).
  exists s, s'. split; [done|]. split; [done|].
  rewrite for_loop_snoc, Hs in Hs'. simpl in Hs'.
  unfold KargerOpt.trial_body in Hs'. destruct s as [[es gn] mc].
  destruct (shuffle gn es) as [es' gn'].
  destruct (KargerOpt.karger_min_cut_trial _ _ _) as [c|]; [|done].
  simpl in Hs'. injection Hs' as <-. simpl. case_decide; lia.
Qed.

End OptDriver.

Lemma reverse_shuffle_perm g l : (reverse_shuffle g l).1 ≡ₚ l.
Proof. apply reverse_Permutation. Qed.

(** ** The driver of the rejection sampling engine *)

Lemma ver_trials_snoc Rng rand fuel V E (edges : list edge) :
  ∀ n s,
    KargerVer.trials_loop Rng rand fuel (S n) V E edges s =
    match KargerVer.trials_loop Rng rand fuel n V E edges s with
    | Returns s' => KargerVer.trials_loop Rng rand fuel 1 V E edges s'
    | Undefined => Undefined
    | OutOfFuel => OutOfFuel
    end.
Proof.
  induction n as [|n IH]; intros s; [done|].
  change (KargerVer.trials_loop Rng rand fuel (S (S n)) V E edges s) with
    (match KargerVer.karger_min_cut_trial Rng rand fuel V E edges s.1 with
     | Returns (cut_size, g) =>
       KargerVer.trials_loop Rng rand fuel (S n) V E edges
         (g, if decide (cut_size < s.2)%Z then cut_size else s.2)
     | Undefined => Undefined
     | OutOfFuel => OutOfFuel
     end).
  change (KargerVer.trials_loop Rng rand fuel (S n) V E edges s) with
    (match KargerVer.karger_min_cut_trial Rng rand fuel V E edges s.1 with
     | Returns (cut_size, g) =>
       KargerVer.trials_loop Rng rand fuel n V E edges
         (g, if decide (cut_size < s.2)%Z then cut_size else s.2)
     | Undefined => Undefined
     | OutOfFuel => OutOfFuel
     end).
  destruct (KargerVer.karger_min_cut_trial Rng rand fuel V E edges s.1)
    as [[c g1]| |]; [|done..].
  apply IH.
Qed.

(** ** The randomized engines *)

(** C9: for the same graph and the same random draws, the minimum that
    the driver returns after [trials + 1] trials is at most the minimum
    after the first [trials] of them, in the shuffle based engine, where
    both runs return, and in the rejection sampling engine whenever the
    longer run returns. *)
Theorem more_trials_not_worse (Rng : Type)
    (shuffle : Rng → list edge → list edge * Rng) (G : matrix) (trials : Z) (g : Rng) :
  (∀ g l, (shuffle g l).1 ≡ₚ l) → square (length G) G →
  (∃ r r',
     KargerOpt.karger_min_cut Rng shuffle G trials g = Some r ∧
     KargerOpt.karger_min_cut Rng shuffle G (trials + 1) g = Some r' ∧
     (r' ≤ r)%Z) ∧
  (∀ Rng' (rand : Rng' → Z * Rng') fuel g' r',
     KargerVer.karger_min_cut Rng' rand fuel G (trials + 1) g' = Returns r' →
     ∃ r, KargerVer.karger_min_cut Rng' rand fuel G trials g' = Returns r ∧
          (r' ≤ r)%Z).
Proof.
  intros Hsh Hsq.
  assert (edges_ok (length G) (λ _, true) (unit_edges G (length G))) as Hes
    by by apply unit_edges_ok.
  destruct (decide (0 ≤ trials)%Z) as [Htr|Htr].
  - replace (Z.to_nat (trials + 1)) with (S (Z.to_nat trials)) by lia. split.
    + unfold KargerOpt.karger_min_cut. rewrite (build_edges_spec _ G Hsq). simpl.
      replace (Z.to_nat (trials + 1)) with (S (Z.to_nat trials)) by lia.
      destruct (opt_one_more_trial Rng shuffle Hsh (length G) (λ _, true)
                  (unit_edges G (length G)) (Z.to_nat trials) g Hes)
        as ([[es gn] mc] & [[es' gn'] mc'] & -> & -> & Hle).
      by exists mc, mc'.
    + intros Rng' rand fuel g' r'. unfold KargerVer.karger_min_cut.
      rewrite (build_edges_spec _ G Hsq).
      replace (Z.to_nat (trials + 1)) with (S (Z.to_nat trials)) by lia.
      rewrite ver_trials_snoc.
      destruct (KargerVer.trials_loop _ _ _ (Z.to_nat trials) _ _ _ _)
        as [[gn mc]| |]; [|done..].
      simpl.
      destruct (KargerVer.karger_min_cut_trial _ _ _ _ _ _ _) as [[c g1]| |];
        [|done..].
      intros [= <-]. exists mc. split; [done|]. case_decide; lia.
  - split.
    + unfold KargerOpt.karger_min_cut. rewrite (build_edges_spec _ G Hsq). simpl.
      replace (Z.to_nat (trials + 1)) with 0 by lia.
      replace (Z.to_nat trials) with 0 by lia. simpl. by eexists _, _.
    + intros Rng' rand fuel g' r'. unfold KargerVer.karger_min_cut.
      rewrite (build_edges_spec _ G Hsq).
      replace (Z.to_nat (trials + 1)) with 0 by lia.
      replace (Z.to_nat trials) with 0 by lia. simpl.
      intros [= <-]. by eexists.
Qed.

Lemma more_trials_not_worse_witness :
  ((∀ g l, (reverse_shuffle g l).1 ≡ₚ l) ∧ square (length K3) K3) ∧
  (∃ r r',
     KargerOpt.karger_min_cut nat reverse_shuffle K3 2 0 = Some r ∧
     KargerOpt.karger_min_cut nat reverse_shuffle K3 (2 + 1) 0 = Some r' ∧
     (r' ≤ r)%Z) ∧
  (∀ Rng' (rand : Rng' → Z * Rng') fuel g' r',
     KargerVer.karger_min_cut Rng' rand fuel K3 (2 + 1) g' = Returns r' →
     ∃ r, KargerVer.karger_min_cut Rng' rand fuel K3 2 g' = Returns r ∧
          (r' ≤ r)%Z).
Proof.
  split.
  - split; [apply reverse_shuffle_perm|apply K3_square].
  - apply (more_trials_not_worse nat reverse_shuffle K3 2 0);
      [apply reverse_shuffle_perm|apply K3_square].
Defined.

(** C10: the edge list that the randomized engines build from a square
    matrix has no duplicates and consists of the pairs [(i, j)], [i < j],
    whose entry [G[i][j]] is 1; an entry with another value gives no
    edge. *)
Theorem edge_list_unit_entries (G : matrix) :
  square (length G) G →
  ∃ edges, build_edges G (length G) = Some edges ∧ NoDup edges ∧
    ∀ i j, (i, j) ∈ edges ↔ i < j < length G ∧ entry G i j = 1%Z.
Proof.
  intros Hsq. exists (unit_edges G (length G)).
  split; [by apply build_edges_spec|]. split; [apply NoDup_unit_edges|].
  intros i j. by apply elem_of_unit_edges.
Qed.

Lemma edge_list_unit_entries_witness :
  square (length K3) K3 ∧
  ∃ edges, build_edges K3 (length K3) = Some edges ∧ NoDup edges ∧
    ∀ i j, (i, j) ∈ edges ↔ i < j < length K3 ∧ entry K3 i j = 1%Z.
Proof.
  split; [apply K3_square|]. apply (edge_list_unit_entries K3), K3_square.
Defined.

(** An edge of weight 2 is not in the edge list, and the randomized
    engine sees the two vertices as not connected. *)
Example weight_two_ignored :
  build_edges [[0; 2]; [2; 0]]%Z 2 = Some [] ∧
  build_edges [[0; 1]; [1; 0]]%Z 2 = Some [(0, 1)].
Proof. by vm_compute. Qed.

(** In [three_components] every draw of the rejection sampling loop
    picks the edge 0-1, whose endpoints are merged by the first step;
    every later step finds a self-loop and leaves the state as it is. *)
Lemma ver_first_step Rng (rand : Rng → Z * Rng) g :
  KargerVer.contract_step Rng rand 1 [(0, 1)] (DSU.make 4, 4%Z, g)
  = Some (contracted_once, 3%Z, (rand g).2).
Proof.
  unfold KargerVer.contract_step. destruct (rand g) as [r g1].
  rewrite decide_False by done.
  change (Z.of_nat 1) with 1%Z. rewrite Z.rem_1_r. reflexivity.
Qed.

Lemma ver_next_step Rng (rand : Rng → Z * Rng) g :
  KargerVer.contract_step Rng rand 1 [(0, 1)] (contracted_once, 3%Z, g)
  = Some (contracted_once, 3%Z, (rand g).2).
Proof.
  unfold KargerVer.contract_step. destruct (rand g) as [r g1].
  rewrite decide_False by done.
  change (Z.of_nat 1) with 1%Z. rewrite Z.rem_1_r. reflexivity.
Qed.

Lemma ver_stuck Rng (rand : Rng → Z * Rng) fuel :
  ∀ g, KargerVer.contract_loop Rng rand fuel 1 [(0, 1)] (contracted_once, 3%Z, g)
       = OutOfFuel.
Proof.
  induction fuel as [|fuel IH]; intros g; [done|].
  change (KargerVer.contract_loop Rng rand (S fuel) 1 [(0, 1)] (contracted_once, 3%Z, g))
    with (match KargerVer.contract_step Rng rand 1 [(0, 1)] (contracted_once, 3%Z, g) with
          | None => Undefined
          | Some s' => KargerVer.contract_loop Rng rand fuel 1 [(0, 1)] s'
          end).
  rewrite ver_next_step. apply IH.
Qed.

Lemma ver_diverges Rng (rand : Rng → Z * Rng) fuel g :
  KargerVer.contract_loop Rng rand fuel 1 [(0, 1)] (DSU.make 4, 4%Z, g) = OutOfFuel.
Proof.
  destruct fuel as [|fuel]; [done|].
  change (KargerVer.contract_loop Rng rand (S fuel) 1 [(0, 1)] (DSU.make 4, 4%Z, g))
    with (match KargerVer.contract_step Rng rand 1 [(0, 1)] (DSU.make 4, 4%Z, g) with
          | None => Undefined
          | Some s' => KargerVer.contract_loop Rng rand fuel 1 [(0, 1)] s'
          end).
  rewrite ver_first_step. apply ver_stuck.
Qed.

(** C2: on the graph [three_components], which passes the validation, a
    trial of the rejection sampling engine never returns: whatever the
    random draws and however long it runs, its loop is still running;
    so is the driver with one trial. *)
Theorem rejection_sampling_diverges Rng (rand : Rng → Z * Rng) (fuel : nat) (g : Rng) :
  KargerVer.karger_min_cut_trial Rng rand fuel 4 1 [(0, 1)] g = OutOfFuel ∧
  KargerVer.karger_min_cut Rng rand fuel three_components 1 g = OutOfFuel.
Proof.
  assert (KargerVer.karger_min_cut_trial Rng rand fuel 4 1 [(0, 1)] g = OutOfFuel) as H.
  { unfold KargerVer.karger_min_cut_trial.
    change (Z.of_nat 4) with 4%Z. by rewrite ver_diverges. }
  split; [done|]. unfold KargerVer.karger_min_cut.
  change (build_edges three_components (length three_components))
    with (Some [(0, 1)]).
  change (Z.to_nat 1) with 1. cbn [length KargerVer.trials_loop fst].
  change (length three_components) with 4. by rewrite H.
Qed.

(** The shuffle based trial returns on every edge list with endpoints
    among the vertices, whatever the number of components. *)
Lemma opt_trial_returns V (es : list edge) :
  Forall (λ e : edge, e.1 < V ∧ e.2 < V) es →
  ∃ c, KargerOpt.karger_min_cut_trial V (length es) es = Some c.
Proof.
  intros Hes. destruct (opt_trial_spec V (λ _, true) es) as (c & Hc & _); [|by exists c].
  eapply Forall_impl; [exact Hes|]. intros e [??]. done.
Qed.

(** *** Degenerate graphs *)

Lemma opt_trials_no_edges Rng (shuffle : Rng → list edge → list edge * Rng) V n g :
  (∀ g l, (shuffle g l).1 ≡ₚ l) →
  ∃ s, for_loop 0 n (KargerOpt.trial_body Rng shuffle V 0) ([], g, Int.INT_MAX)
         = Some s ∧
       s.2 = if decide (n = 0) then Int.INT_MAX else 0%Z.
Proof.
  intros Hsh.
  destruct (for_loop_inv
    (λ (k : nat) (s : list edge * Rng * Z),
       s.1.1 = [] ∧ s.2 = if decide (k = 0) then Int.INT_MAX else 0%Z)
    (KargerOpt.trial_body Rng shuffle V 0) n 0 ([], g, Int.INT_MAX))
    as (s & Hs & _ & HP); [done| |by exists s].
  intros k [[es gk] mc] _ [Hes Hmc]. simpl in *. subst es.
  unfold KargerOpt.trial_body.
  pose proof (Hsh gk []) as Hnil%Permutation_nil_r.
  destruct (shuffle gk []) as [es' gk']. simpl in Hnil. subst es'. simpl.
  eexists. split; [done|]. simpl. split; [done|]. rewrite Hmc.
  unfold Int.INT_MAX. repeat case_decide; (done || lia).
Qed.

Lemma ver_trials_no_edges Rng (rand : Rng → Z * Rng) fuel V n :
  V ≤ 2 → ∀ g mc, mc = Int.INT_MAX ∨ mc = 0%Z →
  KargerVer.trials_loop Rng rand fuel n V 0 [] (g, mc)
  = Returns (g, if decide (n = 0) then mc else 0%Z).
Proof.
  intros HV. induction n as [|n IH]; intros g mc Hmc; [done|].
  assert (KargerVer.karger_min_cut_trial Rng rand fuel V 0 [] g = Returns (0%Z, g))
    as Htrial.
  { unfold KargerVer.karger_min_cut_trial.
    destruct fuel; simpl; by rewrite decide_False by lia. }
  simpl. rewrite Htrial. simpl.
  rewrite IH; [|destruct Hmc as [->| ->]; by vm_compute; auto].
  f_equal. f_equal. destruct Hmc as [->| ->]; unfold Int.INT_MAX;
    repeat case_decide; (done || lia).
Qed.

(** C3, as the code has it: on a graph with fewer than two vertices or
    without an edge of weight 1 the shuffle based entry point returns 0
    when it runs a trial ([INT_MAX] when [trials ≤ 0]), and so does the
    rejection sampling entry point on at most two vertices: the
    degenerate graph is given the cut value 0. *)
Theorem degenerate_graph_cut_zero (Rng : Type)
    (shuffle : Rng → list edge → list edge * Rng) (G : matrix) (trials : Z) (g : Rng) :
  (∀ g l, (shuffle g l).1 ≡ₚ l) → square (length G) G →
  length G < 2 ∨ unit_edges G (length G) = [] →
  KargerOpt.karger_min_cut Rng shuffle G trials g
    = Some (if decide (1 ≤ trials)%Z then 0%Z else Int.INT_MAX) ∧
  (length G ≤ 2 →
   ∀ Rng' (rand : Rng' → Z * Rng') fuel g',
     KargerVer.karger_min_cut Rng' rand fuel G trials g'
     = Returns (if decide (1 ≤ trials)%Z then 0%Z else Int.INT_MAX)).
Proof.
  intros Hsh Hsq Hdeg.
  assert (unit_edges G (length G) = []) as Hnil.
  { destruct Hdeg as [?|?]; [by apply unit_edges_small|done]. }
  split.
  - unfold KargerOpt.karger_min_cut. rewrite (build_edges_spec _ G Hsq), Hnil. simpl.
    destruct (opt_trials_no_edges Rng shuffle (length G) (Z.to_nat trials) g Hsh)
      as ([[es gn] mc] & -> & Hs). simpl in Hs |- *. rewrite Hs. f_equal.
    repeat case_decide; (done || lia).
  - intros HV Rng' rand fuel g'. unfold KargerVer.karger_min_cut.
    rewrite (build_edges_spec _ G Hsq), Hnil. simpl.
    rewrite ver_trials_no_edges by (done || by left). simpl. f_equal.
    repeat case_decide; (done || lia).
Qed.

Lemma degenerate_graph_cut_zero_witness :
  ((∀ g l, (reverse_shuffle g l).1 ≡ₚ l) ∧ square (length two_isolated) two_isolated ∧
   (length two_isolated < 2 ∨ unit_edges two_isolated (length two_isolated) = [])) ∧
  KargerOpt.karger_min_cut nat reverse_shuffle two_isolated 3 0
    = Some (if decide (1 ≤ 3)%Z then 0%Z else Int.INT_MAX) ∧
  (length two_isolated ≤ 2 →
   ∀ Rng' (rand : Rng' → Z * Rng') fuel g',
     KargerVer.karger_min_cut Rng' rand fuel two_isolated 3 g'
     = Returns (if decide (1 ≤ 3)%Z then 0%Z else Int.INT_MAX)).
Proof.
  assert (square (length two_isolated) two_isolated) as Hsq.
  { split; [done|]. intros i row Hi.
    repeat (destruct i as [|i]; simplify_eq/=; try done). }
  split.
  - split_and!; [apply reverse_shuffle_perm|done|by right].
  - apply (degenerate_graph_cut_zero nat reverse_shuffle two_isolated 3 0);
      [apply reverse_shuffle_perm|done|by right].
Defined.

(** C3, as it is stated, fails: on the graph with one vertex, and on two
    vertices without an edge, the randomized entry points return the cut
    value 0, the value they return on a graph with two components, and
    no other outcome. *)
Lemma degenerate_graph_reported_as_zero :
  KargerOpt.karger_min_cut nat reverse_shuffle [[0%Z]] 1 0 = Some 0%Z ∧
  KargerOpt.karger_min_cut nat reverse_shuffle two_isolated 1 0 = Some 0%Z ∧
  KargerVer.karger_min_cut nat counter_rand 0 [[0%Z]] 1 0 = Returns 0%Z ∧
  KargerOpt.karger_min_cut nat reverse_shuffle three_components 1 0 = Some 0%Z.
Proof. by vm_compute. Qed.

(** *** Graphs with two components *)

Lemma ver_contract_step_spec Rng (rand : Rng → Z * Rng) V side (edges : list edge)
    (s s' : DisjointUnionSets * Z * Rng) :
  dsu_inv V side s.1.1 →
  s.1.2 = Z.of_nat (length (roots s.1.1.(parent))) →
  edges_ok V side edges →
  KargerVer.contract_step Rng rand (length edges) edges s = Some s' →
  dsu_inv V side s'.1.1 ∧
  s'.1.2 = Z.of_nat (length (roots s'.1.1.(parent))).
Proof.
  destruct s as [[d vertices] g]. simpl. intros Hinv Hvert Hes.
  unfold KargerVer.contract_step. destruct (rand g) as [draw g1].
  case_decide as HE; [done|].
  destruct (edges !! _) as [[u v]|] eqn:He; [|done]. simpl.
  pose proof (Forall_lookup_1 _ _ _ _ Hes He) as (Hu & Hv & Huv). simpl in *.
  destruct (find_spec V side d u Hinv Hu)
    as (d1 & ru & -> & Hinv1 & _ & Hroots1 & Hru & HruV & Hiff1). simpl.
  destruct (find_spec V side d1 v Hinv1 Hv)
    as (d2 & rv & -> & Hinv2 & _ & Hroots2 & Hrv & HrvV & Hiff2). simpl.
  case_decide as Heq.
  - intros [= <-]. simpl. split; [done|]. by rewrite Hroots2, Hroots1.
  - assert (root_of d2.(parent) u ru) as Hru2 by by apply Hiff2, Hiff1.
    assert (root_of d2.(parent) v rv) as Hrv2 by by apply Hiff2.
    assert (∀ y r, root_of d2.(parent) y r → d2.(parent) !! r = Some r) as Hrt.
    { intros y r [dy Hy]. by apply reach_lt in Hy as (_ & _ & ?). }
    pose proof Hinv2 as (_ & _ & _ & Hside2).
    destruct (union_roots_spec V side d2 ru rv Hinv2)
      as (d3 & -> & Hinv3 & Hcount & _); [by eapply Hrt..|done| |].
    { by rewrite (Hside2 _ _ Hru2), (Hside2 _ _ Hrv2). }
    simpl. intros [= <-]. simpl. split; [done|].
    rewrite Hroots2, Hroots1 in Hcount. lia.
Qed.












(** * Further properties of the minimum cut programs *)

(** ** The union-find structure, as its callers see it *)

Lemma find_rec_in_range fuel p i p' r :
  DSU.find_rec fuel p i = Some (p', r) → i < length p ∧ p' !! i = Some r.
Proof.
  destruct fuel as [|fuel]; [done|]. simpl.
  destruct (p !! i) as [q|] eqn:Hi; [|done]. simpl.
  apply lookup_lt_Some in Hi as Hlt.
  case_decide as Hq.
  - intros [= <- <-]. by subst q.
  - destruct (DSU.find_rec fuel p q) as [[p1 r1]|]; [|done]. simpl.
    intros H. split; [done|].
    destruct (vset p1 i r1) as [p2|] eqn:Hset; [|done]. simpl in H.
    destruct (p2 !! i) as [r2|] eqn:H2; [|done]. simpl in H. by simplify_eq.
Qed.

Lemma find_in_range d i d' r :
  DSU.find d i = Some (d', r) → i < length d.(parent) ∧ d'.(parent) !! i = Some r.
Proof.
  unfold DSU.find.
  destruct (DSU.find_rec _ _ i) as [[p' r']|] eqn:Hf; [|done]. simpl.
  intros [= <- <-]. simpl. by eapply find_rec_in_range.
Qed.

(** [unionSets] on any two vertices: the two sets get the common
    representative [w], one of their two representatives, and every
    other vertex keeps its representative. *)
Lemma union_spec V side d x y :
  dsu_inv V side d → x < V → y < V → side x = side y →
  ∃ d' rx ry w, DSU.unionSets d x y = Some d' ∧ dsu_inv V side d' ∧
    root_of d.(parent) x rx ∧ root_of d.(parent) y ry ∧ (w = rx ∨ w = ry) ∧
    length (roots d'.(parent)) + (if decide (rx = ry) then 0 else 1)
      = length (roots d.(parent)) ∧
    (∀ u r, root_of d.(parent) u r →
       root_of d'.(parent) u (if decide (r = rx ∨ r = ry) then w else r)).
Proof.
  intros Hinv Hx Hy Hxy.
  destruct (find_spec V side d x Hinv Hx)
    as (d1 & rx & Hfx & Hinv1 & Hrk1 & Hroots1 & Hrx & HrxV & Hiff1).
  destruct (find_spec V side d1 y Hinv1 Hy)
    as (d2 & ry & Hfy & Hinv2 & Hrk2 & Hroots2 & Hry & HryV & Hiff2).
  apply Hiff1 in Hry.
  assert (∀ u r, root_of d2.(parent) u r ↔ root_of d.(parent) u r) as Hiff.
  { intros u r. by rewrite Hiff2, Hiff1. }
  assert (d2.(parent) !! rx = Some rx) as Ha2.
  { destruct Hrx as [k Hk]. apply reach_lt in Hk as (_ & _ & Hk).
    apply elem_of_roots. rewrite Hroots2, Hroots1. by apply elem_of_roots. }
  assert (d2.(parent) !! ry = Some ry) as Hb2.
  { destruct Hry as [k Hk]. apply reach_lt in Hk as (_ & _ & Hk).
    apply elem_of_roots. rewrite Hroots2, Hroots1. by apply elem_of_roots. }
  pose proof Hinv as (_ & _ & _ & Hside).
  assert (side rx = side ry) as Hsab.
  { by rewrite (Hside _ _ Hrx), (Hside _ _ Hry). }
  pose proof Hinv2 as (Hlp2 & Hlr2 & _).
  unfold DSU.unionSets. rewrite Hfx. simpl. rewrite Hfy. simpl.
  case_decide as Heq.
  { exists d2, rx, ry, rx. split_and!; [done..|by left| |].
    - rewrite Hroots2, Hroots1, decide_True by done. lia.
    - intros u r Hr. apply Hiff. case_decide as Hc; [|done].
      destruct Hc; by subst. }
  destruct (lookup_lt_is_Some_2 d2.(rank) rx) as [rka Hrka]; [lia|].
  destruct (lookup_lt_is_Some_2 d2.(rank) ry) as [rkb Hrkb]; [lia|].
  rewrite Hrka, Hrkb. simpl.
  repeat case_decide.
  - rewrite vset_Some by lia. simpl. eexists _, rx, ry, ry.
    destruct (link_inv V side d2 rx ry d2.(rank) Hinv2 Ha2 Hb2) as [Hi' Hc]; [done..|].
    split_and!; simpl; [done..|by right|rewrite <- Hroots1, <- Hroots2, decide_False by done; simpl; lia|].
    intros u r Hr%Hiff.
    pose proof (link_root_of _ rx ry u r Ha2 Hb2 Heq Hr) as Hnew.
    repeat case_decide; naive_solver.
  - rewrite vset_Some by lia. simpl. eexists _, rx, ry, rx.
    destruct (link_inv V side d2 ry rx d2.(rank) Hinv2 Hb2 Ha2) as [Hi' Hc]; [done..|].
    split_and!; simpl; [done..|by left|rewrite <- Hroots1, <- Hroots2, decide_False by done; simpl; lia|].
    intros u r Hr%Hiff.
    pose proof (link_root_of _ ry rx u r Hb2 Ha2 (not_eq_sym Heq) Hr) as Hnew.
    repeat case_decide; naive_solver.
  - rewrite vset_Some by lia. simpl.
    rewrite vset_Some by lia. simpl. eexists _, rx, ry, rx.
    destruct (link_inv V side d2 ry rx (<[rx:=Int.add rka 1]> d2.(rank)) Hinv2 Hb2 Ha2)
      as [Hi' Hc]; [done..|by rewrite length_insert|].
    split_and!; simpl; [done..|by left|rewrite <- Hroots1, <- Hroots2, decide_False by done; simpl; lia|].
    intros u r Hr%Hiff.
    pose proof (link_root_of _ ry rx u r Hb2 Ha2 (not_eq_sym Heq) Hr) as Hnew.
    repeat case_decide; naive_solver.
Qed.

Lemma built_inv V d : built V d → dsu_inv V one_side d.
Proof.
  induction 1 as [|d i d' r _ IH Hf|d x y d' _ IH Hu].
  - apply make_inv.
  - pose proof IH as (Hlp & _).
    apply find_in_range in Hf as Hi. rewrite Hlp in Hi.
    destruct (find_spec V one_side d i IH) as (d1 & r1 & Hf1 & Hinv1 & _); [lia|].
    by simplify_eq.
  - pose proof IH as (Hlp & _).
    assert (x < V ∧ y < V) as [Hx Hy].
    { unfold DSU.unionSets in Hu.
      destruct (DSU.find d x) as [[d1 rx]|] eqn:Hfx; [|done]. simpl in Hu.
      destruct (DSU.find d1 y) as [[d2 ry]|] eqn:Hfy; [|done].
      apply find_in_range in Hfx as Hx. rewrite Hlp in Hx.
      destruct (find_spec V one_side d x IH) as (d1' & r1 & Hf1 & (Hlp1 & _) & _); [lia|].
      simplify_eq. apply find_in_range in Hfy. lia. }
    destruct (union_spec V one_side d x y IH Hx Hy) as (d1 & ? & ? & ? & Hu1 & Hinv1 & _);
      [done|].
    by simplify_eq.
Qed.

Lemma built_length V d : built V d → length d.(parent) = V ∧ length d.(rank) = V.
Proof. intros (? & ? & _)%built_inv. done. Qed.

Lemma find_out_of_range d i : length d.(parent) ≤ i → DSU.find d i = None.
Proof.
  intros Hi. destruct (DSU.find d i) as [[d' r]|] eqn:Hf; [|done].
  apply find_in_range in Hf. lia.
Qed.

Lemma find_rec_fixed fuel p i r :
  p !! i = Some r → p !! r = Some r → (if decide (i = r) then 1 else 2) ≤ fuel →
  DSU.find_rec fuel p i = Some (p, r).
Proof.
  intros Hi Hr Hfuel. destruct fuel as [|fuel]; [destruct (decide (i = r)); lia|].
  simpl. rewrite Hi. simpl. destruct (decide (r = i)) as [->|Hri]; [done|].
  rewrite decide_False in Hfuel by done.
  destruct fuel as [|fuel]; [lia|]. simpl. rewrite Hr. simpl.
  rewrite decide_True by done. simpl.
  apply lookup_lt_Some in Hi as Hlt.
  rewrite vset_Some by done. simpl.
  rewrite list_insert_id by done. by rewrite Hi.
Qed.

Lemma same_in_range p u v : same p u v → u < length p ∧ v < length p.
Proof.
  intros (r & [du Hu] & [dv Hv]).
  apply reach_lt in Hu. apply reach_lt in Hv. lia.
Qed.

(** X1: [find] on a union-find structure that the constructor, [find]
    and [unionSets] have built over [V] elements.  For [i < V] it returns
    the representative [r] of the set of [i], the root that the parent
    links reach from [i]; it leaves the ranks and the sets as they were,
    and [i] is a child of [r] afterwards (path compression).  For
    [i >= V] it reads outside the vector. *)
Theorem find_returns_representative V (d : DisjointUnionSets) (i : nat) :
  built V d →
  (i < V →
   ∃ d' r, DSU.find d i = Some (d', r) ∧
     root_of d.(parent) i r ∧ r < V ∧
     d'.(rank) = d.(rank) ∧ length d'.(parent) = V ∧
     d'.(parent) !! i = Some r ∧ d'.(parent) !! r = Some r ∧
     (∀ u x, root_of d'.(parent) u x ↔ root_of d.(parent) u x)) ∧
  (V ≤ i → DSU.find d i = None).
Proof.
  intros Hb. pose proof (built_inv V d Hb) as Hinv.
  pose proof Hinv as (Hlp & _). split.
  - intros Hi.
    destruct (find_spec V one_side d i Hinv Hi)
      as (d' & r & Hf & (Hlp' & _) & Hrk & Hroots & Hr & HrV & Hiff).
    exists d', r. split_and!; try done.
    + by apply find_in_range in Hf as [_ ?].
    + apply elem_of_roots. rewrite Hroots. apply elem_of_roots.
      destruct Hr as [k Hk]. by apply reach_lt in Hk as (_ & _ & ?).
  - intros Hi. apply find_out_of_range. lia.
Qed.

(** X2: a second [find] is the identity: once [find] has returned [r]
    for [i], [find] of [i] and [find] of [r] return [r] again and change
    nothing. *)
Theorem find_again_changes_nothing V (d d' : DisjointUnionSets) (i r : nat) :
  built V d → DSU.find d i = Some (d', r) →
  DSU.find d' i = Some (d', r) ∧ DSU.find d' r = Some (d', r).
Proof.
  intros Hb Hf. pose proof (built_inv V d Hb) as Hinv.
  pose proof Hinv as (Hlp & _).
  apply find_in_range in Hf as Hi. destruct Hi as [Hi Hir]. rewrite Hlp in Hi.
  destruct (find_spec V one_side d i Hinv Hi)
    as (d1 & r1 & Hf1 & (Hlp' & _) & Hrk & Hroots & Hr & HrV & Hiff).
  simplify_eq.
  assert (d'.(parent) !! r = Some r) as Hrr.
  { apply elem_of_roots. rewrite Hroots. apply elem_of_roots.
    destruct Hr as [k Hk]. by apply reach_lt in Hk as (_ & _ & ?). }
  unfold DSU.find. destruct d' as [rk' p']. simpl in *.
  rewrite (find_rec_fixed _ p' i r), (find_rec_fixed _ p' r r); try done.
  - rewrite decide_True by done. lia.
  - case_decide; lia.
Qed.

(** X3: [unionSets] of [x] and [y], both below [V], merges the set of
    [x] and the set of [y] and changes no other set: two elements are in
    the same set afterwards when they were before, or when one was with
    [x] and the other with [y].  The number of sets goes down by one when
    [x] and [y] were in different sets and stays otherwise. *)
Theorem unionSets_merges_two_sets V (d : DisjointUnionSets) (x y : nat) :
  built V d → x < V → y < V →
  ∃ d', DSU.unionSets d x y = Some d' ∧
    length d'.(parent) = V ∧
    (∀ u v, same d'.(parent) u v ↔
       same d.(parent) u v ∨
       (same d.(parent) u x ∧ same d.(parent) v y) ∨
       (same d.(parent) u y ∧ same d.(parent) v x)) ∧
    (same d.(parent) x y → length (roots d'.(parent)) = length (roots d.(parent))) ∧
    (¬ same d.(parent) x y →
       S (length (roots d'.(parent))) = length (roots d.(parent))).
Proof.
  intros Hb Hx Hy. pose proof (built_inv V d Hb) as Hinv.
  destruct (union_spec V one_side d x y Hinv Hx Hy)
    as (d' & rx & ry & w & Hu & Hinv' & Hrx & Hry & Hw & Hcount & Hmap); [done|].
  exists d'. split; [done|].
  pose proof Hinv as (Hlp & _ & Hf & _). pose proof Hinv' as (Hlp' & _ & Hf' & _).
  split; [done|]. split_and!.
  - intros u v. split.
    + intros Huv. pose proof (same_in_range _ _ _ Huv) as [Hu' Hv'].
      destruct Huv as (r' & Hur' & Hvr').
      destruct (forest_root_of _ _ u Hf) as [ru Hru]; [lia|].
      destruct (forest_root_of _ _ v Hf) as [rv Hrv]; [lia|].
      pose proof (root_of_det _ _ _ _ Hur' (Hmap _ _ Hru)) as Eu.
      pose proof (root_of_det _ _ _ _ Hvr' (Hmap _ _ Hrv)) as Ev.
      destruct (decide (ru = rv)) as [->|Hne]; [left; by exists rv|]. right.
      assert ((ru = rx ∨ ru = ry) ∧ (rv = rx ∨ rv = ry)) as [Hcu Hcv].
      { repeat case_decide; naive_solver. }
      destruct Hcu as [-> | ->], Hcv as [-> | ->]; try done.
      * left. split; [by exists rx|by exists ry].
      * right. split; [by exists ry|by exists rx].
    + intros [(r & Hur & Hvr)|[[(r1 & Hu1 & Hx1) (r2 & Hv2 & Hy2)]|
                                [(r1 & Hu1 & Hy1) (r2 & Hv2 & Hx2)]]].
      * eexists. split; by apply Hmap.
      * pose proof (root_of_det _ _ _ _ Hx1 Hrx). pose proof (root_of_det _ _ _ _ Hy2 Hry).
        subst. exists w. apply Hmap in Hu1, Hv2.
        rewrite decide_True in Hu1 by auto. by rewrite decide_True in Hv2 by auto.
      * pose proof (root_of_det _ _ _ _ Hy1 Hry). pose proof (root_of_det _ _ _ _ Hx2 Hrx).
        subst. exists w. apply Hmap in Hu1, Hv2.
        rewrite decide_True in Hu1 by auto. by rewrite decide_True in Hv2 by auto.
  - intros (r & Hxr & Hyr).
    pose proof (root_of_det _ _ _ _ Hxr Hrx). pose proof (root_of_det _ _ _ _ Hyr Hry).
    subst. rewrite decide_True in Hcount by done. lia.
  - intros Hns. rewrite decide_False in Hcount; [lia|].
    intros ->. apply Hns. by exists ry.
Qed.

(** ** The cut that a trial returns *)

Lemma contract_edges_lower :
  ∀ es d vertices d' vertices',
    KargerOpt.contract_edges es d vertices = Some (d', vertices') →
    (2 ≤ vertices)%Z → (2 ≤ vertices')%Z.
Proof.
  induction es as [|[u v] es IH]; intros d vertices d' vertices'; simpl.
  - by intros [= <- <-].
  - case_decide as Hle; [by intros [= <- <-]|].
    destruct (DSU.find d u) as [[d1 ru]|]; [|done]. simpl.
    destruct (DSU.find d1 v) as [[d2 rv]|]; [|done]. simpl.
    case_decide.
    + destruct (DSU.unionSets d2 ru rv) as [d3|]; [|done]. simpl.
      intros Hrun _. eapply IH; [exact Hrun|lia].
    + intros Hrun ?. by eapply IH.
Qed.

Lemma count_cut_exact V side d (es : list edge) (P : edge → Prop)
    `{∀ e, Decision (P e)} :
  dsu_inv V side d → Forall (λ e : edge, e.1 < V ∧ e.2 < V) es →
  (Z.of_nat (length es) ≤ Int.INT_MAX)%Z →
  (∀ e, e ∈ es → (P e ↔ ¬ same d.(parent) e.1 e.2)) →
  count_cut (length es) es d = Some (Z.of_nat (length (filter P es))).
Proof.
  intros Hinv Hes Hfit HP. unfold count_cut.
  destruct (for_loop_inv
    (λ (k : nat) (s : DisjointUnionSets * Z), dsu_inv V side s.1 ∧
       (∀ u r, root_of s.1.(parent) u r ↔ root_of d.(parent) u r) ∧
       s.2 = Z.of_nat (length (filter P (take k es))))
    (count_body es) (length es) 0 (d, 0%Z))
    as ([d' c] & -> & _ & _ & Hc); simpl in *.
  - done.
  - intros k [dk c] Hk (Hinvk & Hiffk & Hc). simpl in *. unfold count_body.
    destruct (lookup_lt_is_Some_2 es k) as [[u v] He]; [lia|].
    rewrite He. simpl.
    pose proof (Forall_lookup_1 _ _ _ _ Hes He) as (Hu & Hv). simpl in *.
    destruct (find_spec V side dk u Hinvk Hu)
      as (d1 & ru & -> & Hinv1 & _ & _ & Hru & _ & Hiff1). simpl.
    destruct (find_spec V side d1 v Hinv1 Hv)
      as (d2 & rv & -> & Hinv2 & _ & _ & Hrv & _ & Hiff2). simpl.
    apply Hiffk in Hru. apply Hiff1, Hiffk in Hrv.
    assert (∀ a r, root_of d2.(parent) a r ↔ root_of d.(parent) a r) as Hiff.
    { intros a r. by rewrite Hiff2, Hiff1, Hiffk. }
    rewrite (take_S_r _ _ _ He), filter_app, length_app.
    pose proof (length_filter P (take k es)) as Hle. rewrite length_take in Hle.
    assert (P (u, v) ↔ ru ≠ rv) as HPe.
    { rewrite (HP (u, v)) by (by eapply list_elem_of_lookup_2). simpl. split.
      - intros Hns ->. apply Hns. by exists rv.
      - intros Hne (r & Hur & Hvr). apply Hne.
        by rewrite (root_of_det _ _ _ _ Hru Hur), (root_of_det _ _ _ _ Hrv Hvr). }
    case_decide as Hne.
    + eexists. split; [done|]. simpl. split_and!; [done..|].
      rewrite filter_cons_True by by apply HPe. simpl.
      rewrite Hc. unfold Int.add. rewrite wrap_small; unfold Int.INT_MIN, Int.INT_MAX in *; lia.
    + eexists. split; [done|]. simpl. split_and!; [done..|].
      rewrite filter_cons_False by (rewrite HPe; by intros ?). simpl. lia.
  - by rewrite firstn_all in Hc; subst.
Qed.

Lemma side_of_spec V side d r u ru :
  dsu_inv V side d → root_of d.(parent) u ru →
  side_of d r u = bool_decide (ru = r).
Proof.
  intros Hinv Hru. unfold side_of.
  assert (u < V) as Hu.
  { destruct Hru as [k Hk]. apply reach_lt in Hk. destruct Hinv as (<- & _). lia. }
  destruct (find_spec V side d u Hinv Hu) as (d1 & r1 & -> & _ & _ & _ & Hr1 & _).
  by rewrite (root_of_det _ _ _ _ Hr1 Hru).
Qed.

(** With two representatives or more, the set of one of them is a side
    of a proper cut; the edges between different sets are the edges
    across it when there are two sets, or when no edge joins two sets. *)
Lemma components_cut V side d (es : list edge) :
  dsu_inv V side d → 2 ≤ length (roots d.(parent)) →
  Forall (λ e : edge, e.1 < V ∧ e.2 < V) es →
  length (roots d.(parent)) ≤ 2 ∨ Forall (λ e : edge, same d.(parent) e.1 e.2) es →
  ∃ r, proper_cut V (side_of d r) ∧
    ∀ e, e ∈ es →
      (side_of d r e.1 ≠ side_of d r e.2 ↔ ¬ same d.(parent) e.1 e.2).
Proof.
  intros Hinv Hlen Hes Hend. pose proof Hinv as (Hlp & _ & Hf & _).
  destruct (roots d.(parent)) as [|r1 [|r2 rest]] eqn:Hroots; simpl in Hlen; [lia..|].
  assert (d.(parent) !! r1 = Some r1) as Hr1.
  { apply elem_of_roots. rewrite Hroots. set_solver. }
  assert (d.(parent) !! r2 = Some r2) as Hr2.
  { apply elem_of_roots. rewrite Hroots. set_solver. }
  assert (r1 ≠ r2) as Hne.
  { pose proof (NoDup_roots d.(parent)) as Hnd. rewrite Hroots in Hnd.
    apply NoDup_cons in Hnd as [Hnd _]. set_solver. }
  exists r1. split.
  - exists r1, r2. apply lookup_lt_Some in Hr1 as ?. apply lookup_lt_Some in Hr2 as ?.
    split_and!; [lia..| |].
    + rewrite (side_of_spec V side d r1 r1 r1 Hinv) by by apply root_of_root.
      by apply bool_decide_eq_true.
    + rewrite (side_of_spec V side d r1 r2 r2 Hinv) by by apply root_of_root.
      apply bool_decide_eq_false. congruence.
  - intros [u v] He. simpl.
    pose proof (proj1 (Forall_forall _ _) Hes _ He) as [Hu Hv]. simpl in *.
    destruct (forest_root_of _ _ u Hf) as [ru Hru]; [lia|].
    destruct (forest_root_of _ _ v Hf) as [rv Hrv]; [lia|].
    rewrite (side_of_spec V side d r1 u ru Hinv Hru).
    rewrite (side_of_spec V side d r1 v rv Hinv Hrv).
    split.
    + intros Hs (r & Hur & Hvr). apply Hs.
      by rewrite (root_of_det _ _ _ _ Hru Hur), (root_of_det _ _ _ _ Hrv Hvr).
    + intros Hns. destruct Hend as [Hle|Hall].
      * simpl in Hle. destruct rest; [|simpl in Hle; lia].
        assert (ru ∈ [r1; r2]) as Hru'.
        { rewrite <- Hroots. apply elem_of_roots.
          destruct Hru as [k Hk]. by apply reach_lt in Hk as (_ & _ & ?). }
        assert (rv ∈ [r1; r2]) as Hrv'.
        { rewrite <- Hroots. apply elem_of_roots.
          destruct Hrv as [k Hk]. by apply reach_lt in Hk as (_ & _ & ?). }
        assert (ru ≠ rv) as Hd.
        { intros ->. apply Hns. by exists rv. }
        set_unfold. repeat case_bool_decide; naive_solver.
      * exfalso. apply Hns. by apply (proj1 (Forall_forall _ _) Hall (u, v)).
Qed.

(** A trial of the shuffle based engine on two vertices or more returns
    the number of edges across a proper cut. *)
Lemma opt_trial_cut V (es : list edge) :
  2 ≤ V → Forall (λ e : edge, e.1 < V ∧ e.2 < V) es →
  (Z.of_nat (length es) ≤ Int.INT_MAX)%Z →
  ∃ c side, KargerOpt.karger_min_cut_trial V (length es) es = Some c ∧
    proper_cut V side ∧ c = cut_edges side es.
Proof.
  intros HV Hes Hfit. unfold KargerOpt.karger_min_cut_trial.
  destruct (make_inv V one_side) as [Hinv0 Hroots0].
  assert (edges_ok V one_side es) as Hok.
  { eapply Forall_impl; [exact Hes|]. by intros e [??]. }
  destruct (contract_edges_spec V one_side es (DSU.make V) (Z.of_nat V) Hinv0)
    as (d' & vertices' & Hrun & Hinv' & Hvert' & _ & Hend);
    [simpl; by rewrite Hroots0, length_seq|done|].
  pose proof (contract_edges_lower _ _ _ _ _ Hrun) as Hlow.
  rewrite Hrun. simpl.
  destruct (components_cut V one_side d' es Hinv') as (r & Hp & HP); [lia|done| |].
  { destruct Hend as [?|?]; [left; lia|by right]. }
  rewrite (count_cut_exact V one_side d' es
             (λ e, side_of d' r e.1 ≠ side_of d' r e.2)) by done.
  by eexists _, (side_of d' r).
Qed.

Lemma cut_edges_perm side (es es' : list edge) :
  es ≡ₚ es' → cut_edges side es = cut_edges side es'.
Proof. intros Hp. unfold cut_edges. by rewrite Hp. Qed.

Lemma cut_edges_bounds side (es : list edge) :
  (0 ≤ cut_edges side es ≤ Z.of_nat (length es))%Z.
Proof.
  unfold cut_edges.
  pose proof (length_filter (λ e : edge, side e.1 ≠ side e.2) es). lia.
Qed.

(** ** Graphs without weights *)

Lemma row_edges_sum n G (W : nat → nat → Z) (Q : edge → Prop)
    `{∀ e, Decision (Q e)} i (js : list nat) :
  square n G → i < n → (∀ j, j ∈ js → i < j < n) →
  (∀ i j, i < j < n →
     W j i = if decide (entry G i j = 1%Z ∧ Q (i, j)) then 1%Z else 0%Z) →
  sumZ (λ a, W a i) js = Z.of_nat (length (filter Q (row_edges G i js))).
Proof.
  intros Hsq Hi Hjs HW. induction js as [|j js IH]; [done|].
  assert (i < j < n) as Hj by (apply Hjs; set_solver).
  unfold row_edges in *. simpl. rewrite IH by set_solver. rewrite HW by done.
  rewrite filter_cons, (get_Some n) by (done || lia).
  destruct (decide (Some (entry G i j) = Some 1%Z)) as [[= He]|He].
  - rewrite fmap_cons, filter_cons. simpl.
    destruct (decide (Q (i, j))) as [HQ|HQ].
    + rewrite decide_True by done. simpl. lia.
    + rewrite decide_False by tauto. lia.
  - rewrite decide_False; [lia|]. intros [? _]. apply He. by f_equal.
Qed.

Lemma pairs_unit_edges n G (W : nat → nat → Z) (Q : edge → Prop)
    `{∀ e, Decision (Q e)} :
  square n G →
  (∀ i j, i < j < n →
     W j i = if decide (entry G i j = 1%Z ∧ Q (i, j)) then 1%Z else 0%Z) →
  pairs_weight W (seq 0 n) = Z.of_nat (length (filter Q (unit_edges G n))).
Proof.
  intros Hsq HW. unfold unit_edges.
  assert (∀ k i, i + k = n →
    pairs_weight W (seq i k) =
    Z.of_nat (length (filter Q
      (i' ← seq i k; row_edges G i' (seq (S i') (n - S i')))))) as Hgen.
  { induction k as [|k IH]; intros i Hik; [done|].
    rewrite <- cons_seq. csimpl. rewrite filter_app, length_app, Nat2Z.inj_add.
    rewrite <- (IH (S i)) by lia. f_equal.
    replace (n - S i) with k by lia.
    apply (row_edges_sum n); [done|lia| |done].
    intros j Hj%elem_of_seq. lia. }
  by apply Hgen.
Qed.

Lemma cut_weight_unit n G side :
  square n G → symmetric G → unit_graph G →
  cut_weight G side = cut_edges side (unit_edges G n).
Proof.
  intros Hsq Hsym Hu. unfold cut_weight, cut_edges.
  pose proof Hsq as [-> _].
  apply (pairs_unit_edges n G); [done|].
  intros i j Hij. unfold crossing. rewrite (Hsym j i). simpl.
  destruct (Hu i j) as [-> | ->]; repeat case_decide; naive_solver.
Qed.

Lemma total_weight_unit n G :
  square n G → symmetric G → unit_graph G →
  total_weight G = Z.of_nat (length (unit_edges G n)).
Proof.
  intros Hsq Hsym Hu. unfold total_weight.
  pose proof Hsq as [-> _].
  rewrite (pairs_unit_edges n G (entry G) (λ _, True)); [|done|].
  - f_equal. f_equal. apply filter_all, Forall_forall. done.
  - intros i j Hij. rewrite (Hsym j i).
    destruct (Hu i j) as [-> | ->]; repeat case_decide; naive_solver.
Qed.

Lemma unit_edges_range n G :
  square n G → Forall (λ e : edge, e.1 < n ∧ e.2 < n) (unit_edges G n).
Proof.
  intros Hsq. apply Forall_forall. intros [i j] He.
  apply (elem_of_unit_edges n G i j Hsq) in He. simpl. lia.
Qed.

(** ** The cut that the shuffle based driver returns *)

Section OptCut.

Variable Rng : Type.
Variable shuffle : Rng → list edge → list edge * Rng.
Hypothesis shuffle_perm : ∀ g l, (shuffle g l).1 ≡ₚ l.

Lemma opt_trials_cut V (es0 : list edge) (n : nat) (g : Rng) :
  2 ≤ V → Forall (λ e : edge, e.1 < V ∧ e.2 < V) es0 →
  (Z.of_nat (length es0) ≤ Int.INT_MAX)%Z →
  ∃ s, for_loop 0 n (KargerOpt.trial_body Rng shuffle V (length es0))
         (es0, g, Int.INT_MAX) = Some s ∧
       (n = 0 → s.2 = Int.INT_MAX) ∧
       (1 ≤ n → ∃ side, proper_cut V side ∧ s.2 = cut_edges side es0).
Proof.
  intros HV Hes Hfit.
  destruct (for_loop_inv
    (λ (k : nat) (s : list edge * Rng * Z),
       s.1.1 ≡ₚ es0 ∧ (k = 0 → s.2 = Int.INT_MAX) ∧
       (1 ≤ k → ∃ side, proper_cut V side ∧ s.2 = cut_edges side es0))
    (KargerOpt.trial_body Rng shuffle V (length es0)) n 0 (es0, g, Int.INT_MAX))
    as (s & Hs & _ & HP); [split_and!; [done|done|lia]| |by exists s].
  intros k [[es gk] mc] _ (Hperm & Hmc0 & Hmc). simpl in *.
  unfold KargerOpt.trial_body.
  pose proof (shuffle_perm gk es) as Hsh.
  destruct (shuffle gk es) as [es' gk']. simpl in Hsh.
  assert (es' ≡ₚ es0) as Hperm' by by rewrite Hsh.
  assert (length es0 = length es') as Hlen by by rewrite Hperm'.
  rewrite Hlen.
  destruct (opt_trial_cut V es') as (c & side & -> & Hp & Hc); [done| |lia|].
  { by rewrite Hperm'. }
  simpl. eexists. split; [done|]. simpl. split_and!; [done|lia|].
  intros _. rewrite (cut_edges_perm side es' es0 Hperm') in Hc.
  case_decide as Hlt; [by exists side|].
  destruct (decide (k = 0)) as [->|Hk]; [|apply Hmc; lia].
  exists side. split; [done|]. rewrite Hmc0 in * by done.
  pose proof (cut_edges_bounds side es0). lia.
Qed.

End OptCut.

(** ** The cut that a trial of the rejection sampling engine returns *)

Lemma ver_contract_step_lower Rng (rand : Rng → Z * Rng) E (edges : list edge)
    (s s' : DisjointUnionSets * Z * Rng) :
  KargerVer.contract_step Rng rand E edges s = Some s' →
  (s.1.2 - 1 ≤ s'.1.2)%Z.
Proof.
  destruct s as [[d vertices] g]. unfold KargerVer.contract_step.
  destruct (rand g) as [draw g1]. case_decide; [done|].
  destruct (edges !! _) as [[u v]|]; [|done]. simpl.
  destruct (DSU.find d u) as [[d1 ru]|]; [|done]. simpl.
  destruct (DSU.find d1 v) as [[d2 rv]|]; [|done]. simpl.
  case_decide.
  - intros [= <-]. simpl. lia.
  - destruct (DSU.unionSets d2 ru rv) as [d3|]; [|done]. simpl.
    intros [= <-]. simpl. lia.
Qed.

Lemma ver_contract_loop_lower Rng (rand : Rng → Z * Rng) E (edges : list edge) fuel :
  ∀ s s' : DisjointUnionSets * Z * Rng,
    KargerVer.contract_loop Rng rand fuel E edges s = Returns s' →
    (2 ≤ s.1.2)%Z → (2 ≤ s'.1.2)%Z.
Proof.
  induction fuel as [|fuel IH]; intros s s'; simpl.
  - case_decide; [done|]. by intros [= <-] ?.
  - case_decide as Hlt; [|by intros [= <-] ?].
    destruct (KargerVer.contract_step _ _ _ _ _) as [s1|] eqn:Hstep; [|done].
    apply ver_contract_step_lower in Hstep. intros Hrun _.
    apply IH in Hrun; [done|lia].
Qed.

Lemma ver_contract_loop_count Rng (rand : Rng → Z * Rng) V side (edges : list edge) fuel :
  edges_ok V side edges →
  ∀ s s' : DisjointUnionSets * Z * Rng,
    dsu_inv V side s.1.1 →
    s.1.2 = Z.of_nat (length (roots s.1.1.(parent))) →
    KargerVer.contract_loop Rng rand fuel (length edges) edges s = Returns s' →
    dsu_inv V side s'.1.1 ∧ s'.1.2 = Z.of_nat (length (roots s'.1.1.(parent))) ∧
    (s'.1.2 ≤ 2)%Z.
Proof.
  intros Hes. induction fuel as [|fuel IH]; intros s s' Hinv Hvert; simpl.
  - case_decide; [done|]. intros [= <-]. split_and!; [done..|lia].
  - case_decide; [|intros [= <-]; split_and!; [done..|lia]].
    destruct (KargerVer.contract_step _ _ _ _ _) as [s1|] eqn:Hstep; [|done].
    destruct (ver_contract_step_spec _ _ V side edges s s1 Hinv Hvert Hes Hstep).
    by apply IH.
Qed.

(** A trial of the rejection sampling engine on two vertices or more
    that returns, returns the number of edges across a proper cut. *)
Lemma ver_trial_cut Rng (rand : Rng → Z * Rng) V (es : list edge) fuel g r :
  2 ≤ V → Forall (λ e : edge, e.1 < V ∧ e.2 < V) es →
  (Z.of_nat (length es) ≤ Int.INT_MAX)%Z →
  KargerVer.karger_min_cut_trial Rng rand fuel V (length es) es g = Returns r →
  ∃ side, proper_cut V side ∧ r.1 = cut_edges side es.
Proof.
  intros HV Hes Hfit. unfold KargerVer.karger_min_cut_trial.
  destruct (KargerVer.contract_loop _ _ _ _ _ _) as [[[d vertices] g1]| |] eqn:Hloop;
    [|done..].
  destruct (make_inv V one_side) as [Hinv0 Hroots0].
  assert (edges_ok V one_side es) as Hok.
  { eapply Forall_impl; [exact Hes|]. by intros e [??]. }
  assert (Z.of_nat V = Z.of_nat (length (roots (DSU.make V).(parent)))) as Hv0.
  { simpl. by rewrite Hroots0, length_seq. }
  destruct (ver_contract_loop_count Rng rand V one_side es fuel Hok
              (DSU.make V, Z.of_nat V, g) (d, vertices, g1) Hinv0 Hv0 Hloop)
    as (Hinv & Hvert & Hle). simpl in Hinv, Hvert, Hle.
  pose proof (ver_contract_loop_lower _ _ _ _ _ _ _ Hloop) as Hlow. simpl in Hlow.
  destruct (components_cut V one_side d es Hinv) as (r0 & Hp & HP); [lia|done|left; lia|].
  rewrite (count_cut_exact V one_side d es
             (λ e, side_of d r0 e.1 ≠ side_of d r0 e.2)) by done.
  intros [= <-]. by exists (side_of d r0).
Qed.

Lemma ver_trials_cut Rng (rand : Rng → Z * Rng) V (es : list edge) fuel :
  2 ≤ V → Forall (λ e : edge, e.1 < V ∧ e.2 < V) es →
  (Z.of_nat (length es) ≤ Int.INT_MAX)%Z →
  ∀ n g mc r,
    mc = Int.INT_MAX ∨ (∃ side, proper_cut V side ∧ mc = cut_edges side es) →
    KargerVer.trials_loop Rng rand fuel n V (length es) es (g, mc) = Returns r →
    (n = 0 → r.2 = mc) ∧
    (1 ≤ n → ∃ side, proper_cut V side ∧ r.2 = cut_edges side es).
Proof.
  intros HV Hes Hfit. induction n as [|n IH]; intros g mc r Hmc; simpl.
  - intros [= <-]. split; [done|lia].
  - destruct (KargerVer.karger_min_cut_trial _ _ _ _ _ _ _) as [[c g1]| |] eqn:Ht;
      [|done..].
    destruct (ver_trial_cut _ _ V es fuel g (c, g1) HV Hes Hfit Ht) as (side & Hp & Hc).
    simpl in Hc.
    assert (∃ side', proper_cut V side' ∧
              (if decide (c < mc)%Z then c else mc) = cut_edges side' es) as Hnew.
    { case_decide as Hlt; [by exists side|].
      destruct Hmc as [->|?]; [|done]. exists side. split; [done|].
      pose proof (cut_edges_bounds side es). lia. }
    intros Hr. apply IH in Hr as [H0 H1]; [|by right]. split; [lia|]. intros _.
    destruct n as [|n]; [|apply H1; lia]. by rewrite H0.
Qed.

Lemma unit_graph_nonneg G : unit_graph G → nonneg G.
Proof. intros Hu i j. destruct (Hu i j) as [-> | ->]; lia. Qed.

Lemma K3_unit : unit_graph K3.
Proof.
  intros i j. do 4 (try destruct i as [|i]); do 4 (try destruct j as [|j]); auto.
Qed.

(** The drivers on a graph without weights: the result is the weight of
    a proper cut. *)
Lemma opt_returns_cut Rng (shuffle : Rng → list edge → list edge * Rng)
    (G : matrix) (trials : Z) (g : Rng) :
  (∀ g l, (shuffle g l).1 ≡ₚ l) →
  2 ≤ length G → square (length G) G → symmetric G → unit_graph G →
  weights_fit G → (1 ≤ trials)%Z →
  ∃ c side, KargerOpt.karger_min_cut Rng shuffle G trials g = Some c ∧
    proper_cut (length G) side ∧ cut_weight G side = c.
Proof.
  intros Hsh Hn Hsq Hsym Hu Hfit Htr.
  unfold KargerOpt.karger_min_cut. rewrite (build_edges_spec _ G Hsq). simpl.
  unfold weights_fit in Hfit. rewrite (total_weight_unit _ G Hsq Hsym Hu) in Hfit.
  destruct (opt_trials_cut Rng shuffle Hsh (length G) (unit_edges G (length G))
              (Z.to_nat trials) g Hn (unit_edges_range _ G Hsq) Hfit)
    as ([[es gn] mc] & -> & _ & Hcut).
  destruct Hcut as (side & Hp & Hmc); [lia|]. simpl in *.
  exists mc, side. split_and!; [done..|].
  by rewrite (cut_weight_unit _ G side Hsq Hsym Hu).
Qed.

Lemma ver_returns_cut Rng (rand : Rng → Z * Rng) fuel
    (G : matrix) (trials : Z) (g : Rng) c :
  2 ≤ length G → square (length G) G → symmetric G → unit_graph G →
  weights_fit G → (1 ≤ trials)%Z →
  KargerVer.karger_min_cut Rng rand fuel G trials g = Returns c →
  ∃ side, proper_cut (length G) side ∧ cut_weight G side = c.
Proof.
  intros Hn Hsq Hsym Hu Hfit Htr.
  unfold KargerVer.karger_min_cut. rewrite (build_edges_spec _ G Hsq).
  unfold weights_fit in Hfit. rewrite (total_weight_unit _ G Hsq Hsym Hu) in Hfit.
  destruct (KargerVer.trials_loop _ _ _ _ _ _ _ _) as [[gn mc]| |] eqn:Hloop; [|done..].
  intros [= <-].
  destruct (ver_trials_cut Rng rand (length G) (unit_edges G (length G)) fuel Hn
              (unit_edges_range _ G Hsq) Hfit (Z.to_nat trials) g Int.INT_MAX (gn, mc))
    as [_ Hcut]; [by left|done|].
  destruct Hcut as (side & Hp & Hmc); [lia|]. simpl in *.
  exists side. split; [done|].
  by rewrite (cut_weight_unit _ G side Hsq Hsym Hu).
Qed.

(** X5: a trial of the shuffle based engine on [V >= 2] vertices and a
    list of edges between them returns the number of the edges of the
    list that cross a proper cut, a number between 0 and the length of
    the list. *)
Theorem trial_counts_a_proper_cut (V : nat) (shuffled_edges : list edge) :
  2 ≤ V → Forall (λ e : edge, e.1 < V ∧ e.2 < V) shuffled_edges →
  (Z.of_nat (length shuffled_edges) ≤ Int.INT_MAX)%Z →
  ∃ cutedges side,
    KargerOpt.karger_min_cut_trial V (length shuffled_edges) shuffled_edges
      = Some cutedges ∧
    proper_cut V side ∧ cutedges = cut_edges side shuffled_edges ∧
    (0 ≤ cutedges ≤ Z.of_nat (length shuffled_edges))%Z.
Proof.
  intros HV Hes Hfit.
  destruct (opt_trial_cut V shuffled_edges HV Hes Hfit) as (c & side & Hrun & Hp & ->).
  eexists _, side. split_and!; [done..|apply cut_edges_bounds|apply cut_edges_bounds].
Qed.

Lemma trial_counts_a_proper_cut_witness :
  (2 ≤ 3 ∧ Forall (λ e : edge, e.1 < 3 ∧ e.2 < 3) [(0, 1); (1, 2); (0, 2)] ∧
   (Z.of_nat (length [(0, 1); (1, 2); (0, 2)]) ≤ Int.INT_MAX)%Z) ∧
  ∃ cutedges side,
    KargerOpt.karger_min_cut_trial 3 (length [(0, 1); (1, 2); (0, 2)])
      [(0, 1); (1, 2); (0, 2)] = Some cutedges ∧
    proper_cut 3 side ∧ cutedges = cut_edges side [(0, 1); (1, 2); (0, 2)] ∧
    (0 ≤ cutedges ≤ Z.of_nat (length [(0, 1); (1, 2); (0, 2)]))%Z.
Proof.
  assert (Forall (λ e : edge, e.1 < 3 ∧ e.2 < 3) [(0, 1); (1, 2); (0, 2)]) as Hes.
  { repeat constructor; simpl; lia. }
  split.
  - split_and!; [lia|done|by vm_compute].
  - apply (trial_counts_a_proper_cut 3 [(0, 1); (1, 2); (0, 2)]);
      [lia|done|by vm_compute].
Defined.

(** X6: on a symmetric matrix of zeros and ones with two vertices or
    more, the value of [karger_min_cut] is the weight of a proper cut of
    the graph: the shuffle based engine returns such a value for every
    number of trials [>= 1], and so does the rejection sampling engine
    whenever it returns. *)
Theorem randomized_result_is_a_cut (Rng : Type)
    (shuffle : Rng → list edge → list edge * Rng) (G : matrix) (trials : Z) (g : Rng) :
  (∀ g l, (shuffle g l).1 ≡ₚ l) →
  2 ≤ length G → square (length G) G → symmetric G → unit_graph G →
  weights_fit G → (1 ≤ trials)%Z →
  (∃ c side, KargerOpt.karger_min_cut Rng shuffle G trials g = Some c ∧
     proper_cut (length G) side ∧ cut_weight G side = c) ∧
  (∀ Rng' (rand : Rng' → Z * Rng') fuel g' c,
     KargerVer.karger_min_cut Rng' rand fuel G trials g' = Returns c →
     ∃ side, proper_cut (length G) side ∧ cut_weight G side = c).
Proof.
  intros Hsh Hn Hsq Hsym Hu Hfit Htr. split.
  - by apply opt_returns_cut.
  - intros Rng' rand fuel g' c. by apply ver_returns_cut.
Qed.

Lemma randomized_result_is_a_cut_witness :
  ((∀ g l, (reverse_shuffle g l).1 ≡ₚ l) ∧
   2 ≤ length K3 ∧ square (length K3) K3 ∧ symmetric K3 ∧ unit_graph K3 ∧
   weights_fit K3 ∧ (1 ≤ 4)%Z) ∧
  (∃ c side, KargerOpt.karger_min_cut nat reverse_shuffle K3 4 0 = Some c ∧
     proper_cut (length K3) side ∧ cut_weight K3 side = c) ∧
  (∀ Rng' (rand : Rng' → Z * Rng') fuel g' c,
     KargerVer.karger_min_cut Rng' rand fuel K3 4 g' = Returns c →
     ∃ side, proper_cut (length K3) side ∧ cut_weight K3 side = c).
Proof.
  split.
  - split_and!; [apply reverse_shuffle_perm|simpl; lia|apply K3_square|
                 apply K3_symmetric|apply K3_unit|apply K3_fits|lia].
  - apply (randomized_result_is_a_cut nat reverse_shuffle K3 4 0);
      [apply reverse_shuffle_perm|simpl; lia|apply K3_square|
       apply K3_symmetric|apply K3_unit|apply K3_fits|lia].
Defined.

(** X7: on a symmetric matrix of zeros and ones with two vertices or
    more, the randomized engines never report less than the exact
    minimum cut: the two Stoer-Wagner engines return the same value [r],
    the shuffle based engine returns some [c >= r], and every value that
    the rejection sampling engine returns is [>= r]. *)
Theorem randomized_not_below_exact (Rng : Type)
    (shuffle : Rng → list edge → list edge * Rng) (G : matrix) (trials : Z) (g : Rng) :
  (∀ g l, (shuffle g l).1 ≡ₚ l) →
  2 ≤ length G → square (length G) G → symmetric G → unit_graph G →
  weights_fit G → (1 ≤ trials)%Z →
  ∃ r Gf c,
    Linear.stoer_wagner G = Some (r, Gf) ∧
    PQ.stoer_wagner G = Some (r, G) ∧
    KargerOpt.karger_min_cut Rng shuffle G trials g = Some c ∧
    (r ≤ c)%Z ∧
    (∀ Rng' (rand : Rng' → Z * Rng') fuel g' c',
       KargerVer.karger_min_cut Rng' rand fuel G trials g' = Returns c' →
       (r ≤ c')%Z).
Proof.
  intros Hsh Hn Hsq Hsym Hu Hfit Htr.
  pose proof (graph_ok_intro G Hsq Hsym (unit_graph_nonneg G Hu) Hfit) as Hok.
  destruct (linear_correct _ G Hok Hn) as (r & Gf & Hl & Hmin).
  destruct (pq_correct _ G Hok Hn) as (r' & Hq & Hmin').
  rewrite <- (min_cut_unique G r r' Hmin Hmin') in Hq.
  destruct (opt_returns_cut Rng shuffle G trials g Hsh Hn Hsq Hsym Hu Hfit Htr)
    as (c & side & Hk & Hp & Hc).
  exists r, Gf, c. split_and!; [done..| |].
  - rewrite <- Hc. by apply Hmin.
  - intros Rng' rand fuel g' c' Hv.
    destruct (ver_returns_cut Rng' rand fuel G trials g' c' Hn Hsq Hsym Hu Hfit Htr Hv)
      as (side' & Hp' & <-).
    by apply Hmin.
Qed.

Lemma randomized_not_below_exact_witness :
  ((∀ g l, (reverse_shuffle g l).1 ≡ₚ l) ∧
   2 ≤ length K3 ∧ square (length K3) K3 ∧ symmetric K3 ∧ unit_graph K3 ∧
   weights_fit K3 ∧ (1 ≤ 4)%Z) ∧
  ∃ r Gf c,
    Linear.stoer_wagner K3 = Some (r, Gf) ∧
    PQ.stoer_wagner K3 = Some (r, K3) ∧
    KargerOpt.karger_min_cut nat reverse_shuffle K3 4 0 = Some c ∧
    (r ≤ c)%Z ∧
    (∀ Rng' (rand : Rng' → Z * Rng') fuel g' c',
       KargerVer.karger_min_cut Rng' rand fuel K3 4 g' = Returns c' →
       (r ≤ c')%Z).
Proof.
  split.
  - split_and!; [apply reverse_shuffle_perm|simpl; lia|apply K3_square|
                 apply K3_symmetric|apply K3_unit|apply K3_fits|lia].
  - apply (randomized_not_below_exact nat reverse_shuffle K3 4 0);
      [apply reverse_shuffle_perm|simpl; lia|apply K3_square|
       apply K3_symmetric|apply K3_unit|apply K3_fits|lia].
Defined.

Lemma two_levels_built : built 4 two_levels.
Proof.
  apply (built_union 4 {| rank := [1; 0; 1; 0]%Z; parent := [0; 0; 2; 2] |} 0 2);
    [|reflexivity].
  apply (built_union 4 {| rank := [1; 0; 0; 0]%Z; parent := [0; 0; 2; 3] |} 2 3);
    [|reflexivity].
  apply (built_union 4 (DSU.make 4) 0 1); [|reflexivity].
  constructor.
Qed.

(** In [two_levels] the path of vertex 3 to its root 0 goes through
    vertex 2, and [find] links 3 to the root; 7 is not a vertex. *)
Lemma find_returns_representative_witness :
  (built 4 two_levels ∧ two_levels.(parent) !! 3 = Some 2 ∧
   two_levels.(parent) !! 2 = Some 0) ∧
  (∃ d' r, DSU.find two_levels 3 = Some (d', r) ∧
     root_of two_levels.(parent) 3 r ∧ r < 4 ∧
     d'.(rank) = two_levels.(rank) ∧ length d'.(parent) = 4 ∧
     d'.(parent) !! 3 = Some r ∧ d'.(parent) !! r = Some r ∧
     (∀ u x, root_of d'.(parent) u x ↔ root_of two_levels.(parent) u x)) ∧
  DSU.find two_levels 7 = None.
Proof.
  split; [split_and!; [apply two_levels_built|reflexivity|reflexivity]|]. split.
  - apply (proj1 (find_returns_representative 4 two_levels 3 two_levels_built)). lia.
  - apply (proj2 (find_returns_representative 4 two_levels 7 two_levels_built)). lia.
Defined.

(** [find(3)] on [two_levels] compresses the path of vertex 3; the
    second [find(3)], and [find] of the root, leave the compressed
    structure as it is. *)
Lemma find_again_changes_nothing_witness :
  (built 4 two_levels ∧
   DSU.find two_levels 3 = Some (two_levels_compressed, 0) ∧
   two_levels_compressed ≠ two_levels) ∧
  DSU.find two_levels_compressed 3 = Some (two_levels_compressed, 0) ∧
  DSU.find two_levels_compressed 0 = Some (two_levels_compressed, 0).
Proof.
  split; [split_and!; [apply two_levels_built|reflexivity|discriminate]|].
  apply (find_again_changes_nothing 4 two_levels two_levels_compressed 3 0);
    [apply two_levels_built|reflexivity].
Defined.

Lemma unionSets_merges_two_sets_witness :
  (built 3 (DSU.make 3) ∧ 0 < 3 ∧ 1 < 3) ∧
  ∃ d', DSU.unionSets (DSU.make 3) 0 1 = Some d' ∧
    length d'.(parent) = 3 ∧
    (∀ u v, same d'.(parent) u v ↔
       same (DSU.make 3).(parent) u v ∨
       (same (DSU.make 3).(parent) u 0 ∧ same (DSU.make 3).(parent) v 1) ∨
       (same (DSU.make 3).(parent) u 1 ∧ same (DSU.make 3).(parent) v 0)) ∧
    (same (DSU.make 3).(parent) 0 1 →
       length (roots d'.(parent)) = length (roots (DSU.make 3).(parent))) ∧
    (¬ same (DSU.make 3).(parent) 0 1 →
       S (length (roots d'.(parent))) = length (roots (DSU.make 3).(parent))).
Proof.
  split; [split_and!; [constructor|lia|lia]|].
  apply (unionSets_merges_two_sets 3 (DSU.make 3) 0 1); [constructor|lia|lia].
Defined.

(** ** The rejection sampling trial without an edge *)

(** X8: on a graph with three vertices or more and no edge, the trial
    of the rejection sampling engine computes [rand() % E] with [E = 0]:
    the trial is undefined, and so is [karger_min_cut] for every number
    of trials [>= 1]; it returns no value. *)
Theorem rejection_sampling_without_edges (Rng : Type) (rand : Rng → Z * Rng)
    (fuel : nat) (G : matrix) (trials : Z) (g : Rng) :
  square (length G) G → 3 ≤ length G → unit_edges G (length G) = [] →
  (1 ≤ trials)%Z →
  KargerVer.karger_min_cut_trial Rng rand (S fuel) (length G) 0 [] g = Undefined ∧
  KargerVer.karger_min_cut Rng rand (S fuel) G trials g = Undefined ∧
  (∀ c, KargerVer.karger_min_cut Rng rand 0 G trials g ≠ Returns c).
Proof.
  intros Hsq Hn Hnil Htr.
  assert (∀ f g, KargerVer.karger_min_cut_trial Rng rand f (length G) 0 [] g
                 = if f is 0 then OutOfFuel else Undefined) as Htrial.
  { intros f g0. unfold KargerVer.karger_min_cut_trial.
    destruct f as [|f]; simpl; rewrite decide_True by lia; [done|].
    unfold KargerVer.contract_step. by destruct (rand g0). }
  assert (∀ f n s, KargerVer.trials_loop Rng rand f (S n) (length G) 0 [] s
                   = if f is 0 then OutOfFuel else Undefined) as Hloop.
  { intros f n s.
    change (KargerVer.trials_loop Rng rand f (S n) (length G) 0 [] s)
      with (match KargerVer.karger_min_cut_trial Rng rand f (length G) 0 [] s.1 with
            | Returns (cut_size, g1) =>
              KargerVer.trials_loop Rng rand f n (length G) 0 []
                (g1, if decide (cut_size < s.2)%Z then cut_size else s.2)
            | Undefined => Undefined
            | OutOfFuel => OutOfFuel
            end).
    rewrite Htrial. by destruct f. }
  split; [apply Htrial|].
  unfold KargerVer.karger_min_cut. rewrite (build_edges_spec _ G Hsq), Hnil.
  destruct (Z.to_nat trials) as [|n] eqn:Hnat; [lia|]. simpl length.
  rewrite !Hloop. done.
Qed.

Lemma rejection_sampling_without_edges_witness :
  (square (length four_isolated) four_isolated ∧ 3 ≤ length four_isolated ∧
   unit_edges four_isolated (length four_isolated) = [] ∧ (1 ≤ 2)%Z) ∧
  KargerVer.karger_min_cut_trial nat counter_rand (S 5) (length four_isolated) 0 [] 0
    = Undefined ∧
  KargerVer.karger_min_cut nat counter_rand (S 5) four_isolated 2 0 = Undefined ∧
  (∀ c, KargerVer.karger_min_cut nat counter_rand 0 four_isolated 2 0 ≠ Returns c).
Proof.
  assert (square (length four_isolated) four_isolated) as Hsq.
  { split; [done|]. intros i row Hi.
    repeat (destruct i as [|i]; simplify_eq/=; try done). }
  split.
  - split_and!; [done|simpl; lia|done|lia].
  - apply (rejection_sampling_without_edges nat counter_rand 5 four_isolated 2 0);
      [done|simpl; lia|done|lia].
Defined.

(** ** The priority queue engine on any square matrix *)

Lemma pop_valid_total n A (added : list Z) :
  (∀ i, i < n → added !! i = Some (if decide (i ∈ A) then 1 else 0)%Z) →
  (∃ x, x < n ∧ x ∉ A) →
  ∀ pq : PQ.queue,
    (∀ z : Z * nat, z ∈ pq → z.2 < n) → (∀ i, i < n → i ∉ A → ∃ w, (w, i) ∈ pq) →
    ∃ u pq', PQ.pop_valid added pq = Some (Some u, pq') ∧
      u < n ∧ (u ∉ A) ∧
      (∀ z : Z * nat, z ∈ pq' → z.2 < n) ∧
      (∀ i, i < n → i ∉ u :: A → ∃ w, (w, i) ∈ pq').
Proof.
  intros Hadd (x & Hx & HxA).
  induction pq as [|[w v] pq IH]; intros Hrange Hmem.
  - destruct (Hmem x Hx HxA) as [w Hw]. by apply elem_of_nil in Hw.
  - assert (v < n) as Hv by (apply (Hrange (w, v)); rewrite elem_of_cons; by left).
    simpl. rewrite (Hadd v Hv). simpl. destruct (decide (v ∈ A)) as [HvA|HvA].
    + rewrite bool_decide_eq_false_2 by done. apply IH.
      * intros z Hz. apply Hrange. rewrite elem_of_cons. by right.
      * intros i Hi HiA. destruct (Hmem i Hi HiA) as [w' Hw'].
        apply elem_of_cons in Hw' as [Heq|Hin]; [by simplify_eq|by exists w'].
    + rewrite bool_decide_eq_true_2 by done.
      exists v, pq. split_and!; [done..| |].
      * intros z Hz. apply Hrange. rewrite elem_of_cons. by right.
      * intros i Hi HiA. destruct (Hmem i Hi) as [w' Hw']; [set_solver|].
        apply elem_of_cons in Hw' as [Heq|Hin]; [|by exists w'].
        simplify_eq. set_solver.
Qed.

Lemma update_push_total n G u (added weight : list Z) (pq : PQ.queue) :
  square n G → u < n → length added = n → length weight = n →
  ∃ s, for_loop 0 n (PQ.update_push_body G u added) (weight, pq) = Some s ∧
    length s.1 = n ∧
    (∀ z : Z * nat, z ∈ s.2 → z ∈ pq ∨ z.2 < n) ∧
    (∀ z, z ∈ pq → z ∈ s.2).
Proof.
  intros Hsq Hu Hla Hlw.
  destruct (for_loop_inv
    (λ (k : nat) (s : list Z * PQ.queue), length s.1 = n ∧
       (∀ z : Z * nat, z ∈ s.2 → z ∈ pq ∨ z.2 < n) ∧ (∀ z, z ∈ pq → z ∈ s.2))
    (PQ.update_push_body G u added) n 0 (weight, pq))
    as (s & Hrun & HP); [split_and!; auto| |by exists s].
  intros k [wk qk] Hk (Hlen & Hsub & Hsup). simpl in *.
  unfold PQ.update_push_body.
  destruct (lookup_lt_is_Some_2 added k) as [a Ha]; [lia|].
  destruct (lookup_lt_is_Some_2 wk k) as [w Hw]; [lia|].
  rewrite Ha. simpl. case_bool_decide.
  - rewrite Hw. simpl. rewrite (get_Some n) by (done || lia). simpl.
    rewrite vset_Some by lia. simpl. eexists. split; [done|]. simpl.
    split_and!; [by rewrite length_insert| |].
    + intros z [->|Hz]%push_elem; [right; simpl; lia|by apply Hsub].
    + intros z Hz. apply push_elem. right. by apply Hsup.
  - eexists. split; [done|]. by split_and!.
Qed.

Lemma pq_grow_total n G k :
  square n G →
  ∀ A st pq, pq_state_ok n A st pq → length A + k ≤ n →
  ∃ st' pq' A', PQ.grow k G n st pq = Some (st', pq', 0) ∧
    pq_state_ok n (A' ++ A) st' pq' ∧ length A' = k.
Proof.
  intros Hsq. induction k as [|k IH]; intros A st pq Hok Hlen; simpl.
  - by exists st, pq, [].
  - destruct Hok as (Hnd & Hlt & Hhd & Hprev & Hla & Hlw & Hadd & Hrange & Hmem).
    destruct (pop_valid_total n A st.(added) Hadd) with (pq := pq)
      as (u & pq1 & -> & Hu & HuA & Hrange1 & Hmem1); [|done..|].
    { apply exists_unadded; (done || lia). }
    simpl. rewrite vset_Some by lia. simpl.
    destruct (update_push_total n G u (<[u:=1%Z]> st.(added)) st.(weight) pq1)
      as ([weight' pq2] & -> & Hlw' & Hsub & Hsup);
      [done|done|by rewrite length_insert|done|].
    simpl in *.
    destruct (IH (u :: A)
      {| added := <[u:=1%Z]> st.(added); weight := weight';
         prev := Some st.(last); last := u |} pq2)
      as (st' & pq' & A' & -> & Hok' & HA'); [|simpl; lia|].
    { split_and!; simpl.
      - by apply NoDup_cons.
      - intros a [->|Ha]%elem_of_cons; auto.
      - done.
      - by rewrite Hhd.
      - by rewrite length_insert.
      - done.
      - intros i Hi. destruct (decide (i = u)) as [->|Hne].
        + rewrite list_lookup_insert_eq by lia. by rewrite decide_True by set_solver.
        + rewrite list_lookup_insert_ne by done. rewrite Hadd by done.
          destruct (decide (i ∈ A)).
          * by rewrite decide_True by set_solver.
          * by rewrite decide_False by set_solver.
      - intros z Hz. destruct (Hsub z Hz); auto.
      - intros i Hi HiA. destruct (Hmem1 i Hi HiA) as [w Hw]. exists w. by apply Hsup. }
    exists st', pq', (A' ++ [u]). split; [done|].
    rewrite <- app_assoc. split; [done|]. rewrite length_app. simpl. lia.
Qed.

Lemma pq_phase_init_total n G :
  square n G → 1 ≤ n →
  ∃ st pq, PQ.phase_init G n = Some (st, pq) ∧ pq_state_ok n [0] st pq.
Proof.
  intros Hsq Hn. unfold PQ.phase_init.
  rewrite vset_Some by (rewrite length_replicate; lia). simpl.
  destruct (for_loop_inv
    (λ (k : nat) (s : list Z * PQ.queue), length s.1 = n ∧
       (∀ z : Z * nat, z ∈ s.2 → z.2 < n) ∧
       (∀ i, i < k → i ≠ 0 → ∃ w, (w, i) ∈ s.2))
    (PQ.init_body G) n 0 (replicate n 0%Z, []))
    as ([weight0 pq] & -> & Hlen & Hrange & Hmem); simpl in *.
  - split_and!; [apply length_replicate|by intros z ?%elem_of_nil|lia].
  - intros k [wk qk] Hk (Hlen & Hrange & Hmem). simpl in *. unfold PQ.init_body.
    case_decide as Hk0.
    + destruct (lookup_lt_is_Some_2 wk k) as [w Hw]; [lia|]. rewrite Hw. simpl.
      rewrite (get_Some n) by (done || lia). simpl.
      rewrite vset_Some by lia. simpl. eexists. split; [done|]. simpl.
      split_and!; [by rewrite length_insert| |].
      * intros z [->|Hz]%push_elem; [simpl; lia|by apply Hrange].
      * intros i Hi Hi0. destruct (decide (i = k)) as [->|Hne].
        -- eexists. apply push_elem. by left.
        -- destruct (Hmem i) as [w' Hw']; [lia|done|]. exists w'.
           apply push_elem. by right.
    + eexists. split; [done|]. simpl. split_and!; [done..|].
      intros i Hi Hi0. apply Hmem; [lia|done].
  - eexists _, _. split; [done|]. split_and!; simpl.
    + apply NoDup_singleton.
    + intros a ->%list_elem_of_singleton. lia.
    + done.
    + done.
    + rewrite length_insert. apply length_replicate.
    + done.
    + intros i Hi. destruct (decide (i = 0)) as [->|Hne].
      * rewrite list_lookup_insert_eq by (rewrite length_replicate; lia).
        by rewrite decide_True by set_solver.
      * rewrite list_lookup_insert_ne by done.
        rewrite lookup_replicate_2 by done. by rewrite decide_False by set_solver.
    + done.
    + intros i Hi HiA. apply Hmem; [done|]. set_solver.
Qed.

Lemma pq_phase_total n G :
  square n G → 2 ≤ n →
  ∃ st pq s, PQ.phase G n = Some (st, pq, 0) ∧
    st.(prev) = Some s ∧ s < n ∧ st.(last) < n ∧ s ≠ st.(last) ∧
    length st.(weight) = n.
Proof.
  intros Hsq Hn. unfold PQ.phase.
  destruct (pq_phase_init_total n G Hsq) as (st0 & pq0 & -> & Hok0); [lia|]. simpl.
  destruct (pq_grow_total n G (n - 1) Hsq [0] st0 pq0 Hok0)
    as (st & pq & A' & -> & Hok & HA'); [simpl; lia|].
  destruct Hok as (Hnd & Hlt & Hhd & Hprev & _ & Hlw & _).
  destruct A' as [|t A']; simpl in HA'; [lia|].
  simpl in Hhd, Hprev, Hlt, Hnd. injection Hhd as ->.
  destruct (A' ++ [0]) as [|s B] eqn:HB.
  { by destruct A'. }
  simpl in Hprev. exists st, pq, s. split_and!; [done..| | | |done].
  - apply Hlt. rewrite !elem_of_cons. auto.
  - apply Hlt. rewrite !elem_of_cons. auto.
  - apply NoDup_cons in Hnd as [Hnd _]. intros ->. apply Hnd.
    rewrite elem_of_cons. auto.
Qed.

Lemma merge_total n G s t :
  square n G → s < n → t < n →
  ∃ G1, merge G n s t = Some G1 ∧ square n G1.
Proof.
  intros Hsq Hs Ht. unfold merge.
  apply (for_loop_inv (λ _ Gk, square n Gk)); [done|].
  intros k Gk Hk Hsqk. unfold merge_body.
  rewrite !(get_Some n) by (done || lia). simpl.
  destruct (set_spec n Gk s k (Int.add (entry Gk s k) (entry Gk t k)))
    as (G1 & -> & Hsq1 & _); [done|lia..|]. simpl.
  rewrite (get_Some n) by (done || lia). simpl.
  destruct (set_spec n G1 k s (entry G1 s k)) as (G2 & -> & Hsq2 & _); [done|lia..|].
  by exists G2.
Qed.

Lemma pq_sw_loop_total n :
  ∀ G, square n G → ∀ mincut, ∃ r, PQ.sw_loop n G mincut = Some r.
Proof.
  induction n as [|n IH]; intros G Hsq mincut; simpl; [by eexists|].
  case_decide as Hn; [|by eexists].
  destruct (pq_phase_total (S n) G Hsq) as (st & pq & s & -> & Hprev & Hs & Ht & Hst & Hlw);
    [lia|].
  simpl.
  destruct (lookup_lt_is_Some_2 st.(weight) st.(last)) as [w ->]; [lia|]. simpl.
  rewrite Hprev.
  destruct (merge_total (S n) G s st.(last) Hsq Hs Ht) as (G1 & -> & Hsq1). simpl.
  rewrite (pq_remove_spec (S n)) by done. simpl.
  apply IH.
  pose proof (removed_square (S n) G1 st.(last) Hsq1 Ht) as Hsq'.
  by replace (S n - 1) with n in Hsq' by lia.
Qed.

(** X9: the priority queue engine returns on every square matrix,
    whatever the weights (negative or overflowing ones included), and
    leaves the matrix of its caller as it was; on two vertices or more a
    phase adds every vertex (its loop ends with [unadded = 0], the third
    component of the result of [PQ.phase], and never by the [break] on
    an empty queue) and ends with two distinct vertices [prev] and
    [last].  Nothing is said of the queue the phase leaves: it may hold
    stale entries. *)
Theorem priority_queue_engine_total (G_mat : matrix) :
  square (length G_mat) G_mat →
  (∃ mincut, PQ.stoer_wagner G_mat = Some (mincut, G_mat)) ∧
  (2 ≤ length G_mat →
   ∃ st pq p, PQ.phase G_mat (length G_mat) = Some (st, pq, 0) ∧
     st.(prev) = Some p ∧ p ≠ st.(last)).
Proof.
  intros Hsq. split.
  - unfold PQ.stoer_wagner.
    destruct (pq_sw_loop_total _ G_mat Hsq Int.INT_MAX) as [r ->]. by exists r.
  - intros Hn.
    destruct (pq_phase_total _ G_mat Hsq Hn) as (st & pq & s & ? & ? & _ & _ & ? & _).
    by exists st, pq, s.
Qed.

(** ** The matrix that the linear scan engine leaves *)

Lemma linear_sw_loop_final n :
  ∀ G, graph_ok n G → 1 ≤ n →
  ∀ mincut r Gf, Linear.sw_loop n G mincut = Some (r, Gf) → square 1 Gf.
Proof.
  induction n as [|n IH]; intros G Hok Hn mincut r Gf; [lia|].
  destruct (decide (n = 0)) as [->|Hn0].
  - simpl. intros [= <- <-]. apply Hok.
  - destruct (linear_phase_spec (S n) G Hok)
      as (st & s & t & A & Hphase & Hprev & Hlast & Hma & Hperm & Hw); [lia|].
    destruct (last_two _ _ _ _ _ Hma) as (Hs & Ht & Hst).
    destruct (contract_spec (S n) G s t) as (G' & HG' & _ & Hc); [apply Hok|done..|].
    pose proof (contracted_ok (S n) G s t G' Hok Hs Ht Hst Hc) as Hok'.
    replace (S n - 1) with n in Hok' by lia.
    simpl. rewrite decide_True by lia.
    rewrite Hphase. simpl. rewrite Hlast, Hw. simpl.
    unfold Linear.contract. rewrite Hprev, Hlast. simpl.
    simpl in HG'. rewrite HG'. simpl.
    apply IH; [done|lia].
Qed.

(** X10: on a graph with two vertices or more, the linear scan engine
    leaves a matrix with a single vertex in the variable of its caller:
    the graph is consumed by the contractions. *)
Theorem linear_engine_leaves_one_vertex (G : matrix) :
  2 ≤ length G → square (length G) G → symmetric G → nonneg G → weights_fit G →
  ∃ mincut Gf, Linear.stoer_wagner G = Some (mincut, Gf) ∧
    square 1 Gf ∧ length Gf < length G.
Proof.
  intros Hn Hsq Hsym Hnn Hfit.
  pose proof (graph_ok_intro G Hsq Hsym Hnn Hfit) as Hok.
  destruct (linear_correct _ G Hok Hn) as (r & Gf & Hl & _).
  exists r, Gf. split; [done|].
  pose proof (linear_sw_loop_final _ G Hok) as Hfin.
  unfold Linear.stoer_wagner in Hl.
  apply Hfin in Hl as Hsq1; [|lia]. split; [done|].
  destruct Hsq1 as [-> _]. lia.
Qed.

Lemma linear_engine_leaves_one_vertex_witness :
  (2 ≤ length K3 ∧ square (length K3) K3 ∧ symmetric K3 ∧ nonneg K3 ∧
   weights_fit K3) ∧
  ∃ mincut Gf, Linear.stoer_wagner K3 = Some (mincut, Gf) ∧
    square 1 Gf ∧ length Gf < length K3.
Proof.
  split.
  - split_and!; [simpl; lia|apply K3_square|apply K3_symmetric|
                 apply K3_nonneg|apply K3_fits].
  - apply (linear_engine_leaves_one_vertex K3);
      [simpl; lia|apply K3_square|apply K3_symmetric|apply K3_nonneg|apply K3_fits].
Defined.

(** ** The linear scan engine on negative weights *)

Lemma init_weights_spec n G :
  square n G →
  ∃ weight0, Linear.init_weights G n (replicate n 0%Z) = Some weight0 ∧
    length weight0 = n ∧
    ∀ i, i < n → weight0 !! i = Some (Int.add 0 (entry G i 0)).
Proof.
  intros Hsq. unfold Linear.init_weights.
  destruct (for_loop_inv
    (λ k (wk : list Z), length wk = n ∧
       ∀ i, i < n → wk !! i = Some (if decide (i < k)
                                    then Int.add 0 (entry G i 0) else 0%Z))
    (λ i weight, w ← weight !! i; g ← get G i 0; vset weight i (Int.add w g))
    n 0 (replicate n 0%Z)) as (weight0 & -> & Hlen & Hw0).
  - split; [apply length_replicate|]. intros i Hi.
    rewrite decide_False by lia. by apply lookup_replicate_2.
  - intros k wk Hk [Hlen Hwk]. rewrite (Hwk k), decide_False by lia. simpl.
    rewrite (get_Some n) by (done || lia). simpl.
    rewrite vset_Some by lia. eexists. split; [done|].
    split; [by rewrite length_insert|]. intros i Hi.
    destruct (decide (i = k)) as [->|Hne].
    + rewrite list_lookup_insert_eq by lia. by rewrite decide_True by lia.
    + rewrite list_lookup_insert_ne by done. rewrite Hwk by done.
      repeat case_decide; (done || lia).
  - exists weight0. split; [done|]. split; [done|]. intros i Hi.
    rewrite Hw0 by done. simpl. by rewrite decide_True by lia.
Qed.

Lemma scan_none n (added weight : list Z) :
  length added = n → length weight = n →
  (∀ i a w, added !! i = Some a → weight !! i = Some w → a = 0%Z → (w ≤ -1)%Z) →
  Linear.scan n added weight = Some (None, (-1)%Z).
Proof.
  intros Hla Hlw Hneg. unfold Linear.scan.
  destruct (for_loop_inv (λ (k : nat) (s : option nat * Z), s = (None, (-1)%Z))
              (Linear.scan_body added weight) n 0 (None, (-1)%Z))
    as (s & -> & ->); [done| |done].
  intros k s Hk ->. unfold Linear.scan_body.
  destruct (lookup_lt_is_Some_2 weight k) as [w Hw]; [lia|].
  destruct (lookup_lt_is_Some_2 added k) as [a Ha]; [lia|].
  rewrite Hw, Ha. simpl. eexists. split; [|done].
  case_bool_decide as Hlt; [|done]. case_bool_decide as Ha0; [|done].
  pose proof (Hneg k a w Ha Hw Ha0). lia.
Qed.

(** X11: on a matrix with two vertices or more whose entries
    [G[i][0]], [i > 0], are all negative, the scan of the linear scan
    engine finds no vertex ([maxval] starts at -1) and the engine writes
    [added[-1]], outside the vector; the priority queue engine returns a
    value on the same matrix. *)
Theorem linear_engine_negative_weights (G : matrix) :
  2 ≤ length G → square (length G) G →
  (∀ i, 0 < i < length G → (Int.INT_MIN ≤ entry G i 0 < 0)%Z) →
  Linear.stoer_wagner G = None ∧
  ∃ mincut, PQ.stoer_wagner G = Some (mincut, G).
Proof.
  intros Hn Hsq Hneg. split.
  - unfold Linear.stoer_wagner.
    destruct (length G) as [|[|n]] eqn:Hlen; [lia..|].
    change (Linear.sw_loop (S (S n)) G Int.INT_MAX) with
      (if decide (1 < S (S n)) then
         st ← Linear.phase G (S (S n));
         w ← st.(weight) !! st.(last);
         G ← Linear.contract G (S (S n)) st;
         Linear.sw_loop (S n) G (Z.min Int.INT_MAX w)
       else Some (Int.INT_MAX, G)).
    rewrite decide_True by lia.
    assert (Linear.phase G (S (S n)) = None) as ->; [|done].
    unfold Linear.phase, Linear.phase_init.
    rewrite vset_Some by (rewrite length_replicate; lia). simpl.
    destruct (init_weights_spec (S (S n)) G Hsq) as (weight0 & Hinit & Hlw & Hw0).
    simpl in Hinit. rewrite Hinit. simpl.
    unfold Linear.add_vertex. simpl.
    rewrite (scan_none (S (S n)));
      [done|simpl; by rewrite ?length_insert, ?length_replicate|done|].
    intros i a w Ha Hw ->.
    destruct (decide (i = 0)) as [->|Hi0]; [done|].
    apply lookup_lt_Some in Hw as Hi. rewrite Hlw in Hi.
    rewrite Hw0 in Hw by done. injection Hw as <-.
    specialize (Hneg i). unfold Int.add.
    rewrite wrap_small; unfold Int.INT_MIN, Int.INT_MAX in *; lia.
  - destruct (pq_sw_loop_total _ G Hsq Int.INT_MAX) as [r Hr].
    exists r. unfold PQ.stoer_wagner. by rewrite Hr.
Qed.

Lemma linear_engine_negative_weights_witness :
  (2 ≤ length negative_edge ∧ square (length negative_edge) negative_edge ∧
   (∀ i, 0 < i < length negative_edge →
      (Int.INT_MIN ≤ entry negative_edge i 0 < 0)%Z)) ∧
  Linear.stoer_wagner negative_edge = None ∧
  ∃ mincut, PQ.stoer_wagner negative_edge = Some (mincut, negative_edge).
Proof.
  assert (square (length negative_edge) negative_edge) as Hsq.
  { split; [done|]. intros i row Hi.
    repeat (destruct i as [|i]; simplify_eq/=; try done). }
  assert (∀ i, 0 < i < length negative_edge →
            (Int.INT_MIN ≤ entry negative_edge i 0 < 0)%Z) as Hneg.
  { intros i Hi. simpl in Hi. assert (i = 1) as -> by lia. by vm_compute. }
  split.
  - split_and!; [simpl; lia|done|done].
  - apply (linear_engine_negative_weights negative_edge); [simpl; lia|done|done].
Defined.

Lemma priority_queue_engine_total_witness :
  square (length K3) K3 ∧
  (∃ mincut, PQ.stoer_wagner K3 = Some (mincut, K3)) ∧
  (2 ≤ length K3 →
   ∃ st pq p, PQ.phase K3 (length K3) = Some (st, pq, 0) ∧
     st.(prev) = Some p ∧ p ≠ st.(last)).
Proof.
  split; [apply K3_square|].
  apply (priority_queue_engine_total K3), K3_square.
Defined.

(** ** The graph that [main] reads *)

Lemma zero_matrix_square V : square V (zero_matrix V).
Proof.
  split; [apply length_replicate|].
  intros i row [-> _]%lookup_replicate. apply length_replicate.
Qed.

Lemma zero_matrix_entry V i j : entry (zero_matrix V) i j = 0%Z.
Proof.
  unfold entry, get, zero_matrix.
  destruct (replicate V (replicate V 0%Z) !! i) as [row|] eqn:Hi; [|done]. simpl.
  apply lookup_replicate in Hi as [-> _].
  destruct (replicate V 0%Z !! j) as [x|] eqn:Hj; [|done].
  by apply lookup_replicate in Hj as [-> _].
Qed.

Lemma store_edge_spec V G src dst weight :
  square V G → endpoints_ok V (src, dst, weight) →
  ∃ G', store_edge G (src, dst, weight) = Some G' ∧ square V G' ∧
    ∀ i j, i < V → j < V →
      entry G' i j = if decide (joins i j (src, dst, weight)) then weight
                     else entry G i j.
Proof.
  intros Hsq [Hs Hd]. simpl in *. unfold store_edge.
  rewrite decide_True by lia.
  destruct (set_spec V G (Z.to_nat src) (Z.to_nat dst) weight)
    as (G1 & -> & Hsq1 & Hg1); [done|lia..|]. simpl.
  destruct (set_spec V G1 (Z.to_nat dst) (Z.to_nat src) weight)
    as (G2 & -> & Hsq2 & Hg2); [done|lia..|].
  exists G2. split; [done|]. split; [done|]. intros i j Hi Hj.
  unfold entry. rewrite Hg2, Hg1. unfold joins. simpl.
  repeat case_decide; try done; exfalso; lia.
Qed.

Lemma store_edges_spec V input :
  Forall (endpoints_ok V) input →
  ∀ G, square V G →
  ∃ G', store_edges G input = Some G' ∧ square V G' ∧
    ∀ i j, i < V → j < V →
      entry G' i j = match list.last (filter (joins i j) input) with
                     | Some e => e.2
                     | None => entry G i j
                     end.
Proof.
  induction 1 as [|[[src dst] weight] input He _ IH]; intros G Hsq.
  - by exists G.
  - destruct (store_edge_spec V G src dst weight Hsq He) as (G1 & HG1 & Hsq1 & Hent1).
    destruct (IH G1 Hsq1) as (G' & HG' & Hsq' & Hent').
    exists G'. cbn [store_edges]. rewrite HG1. simpl. split; [done|]. split; [done|].
    intros i j Hi Hj. rewrite Hent', Hent1 by done.
    rewrite filter_cons. case_decide.
    + rewrite last_cons. by destruct (list.last _).
    + done.
Qed.

Lemma store_edge_outside V G e :
  square V G → ¬ endpoints_ok V e → store_edge G e = None.
Proof.
  intros Hsq Hno. destruct e as [[src dst] weight]. unfold store_edge.
  case_decide as Hpos; [|done].
  unfold endpoints_ok in Hno. simpl in Hno.
  destruct (decide (Z.to_nat src < V ∧ Z.to_nat dst < V)) as [[??]|Hout]; [lia|].
  destruct (set G (Z.to_nat src) (Z.to_nat dst) weight) as [G1|] eqn:Hset; [|done].
  exfalso. apply Hout. unfold set in Hset.
  destruct (G !! Z.to_nat src) as [row|] eqn:Hrow; [|done]. simpl in Hset.
  apply lookup_lt_Some in Hrow as Hlt.
  destruct Hsq as [Hlen Hrows]. apply Hrows in Hrow.
  destruct (vset row (Z.to_nat dst) weight) as [row'|] eqn:Hv; [|done].
  apply vset_inv in Hv as [? _]. lia.
Qed.

Lemma store_edges_outside V input :
  Exists (λ e, ¬ endpoints_ok V e) input →
  ∀ G, square V G → store_edges G input = None.
Proof.
  induction input as [|e input IH]; intros Hex G Hsq.
  - by apply Exists_nil in Hex.
  - simpl. destruct (decide (endpoints_ok V e)) as [He|He].
    + destruct e as [[src dst] weight].
      destruct (store_edge_spec V G src dst weight Hsq He) as (G1 & -> & Hsq1 & _).
      simpl. apply IH; [|done]. by apply Exists_cons in Hex as [?|?].
    + by rewrite (store_edge_outside V).
Qed.

Lemma joins_sym i j e : joins i j e ↔ joins j i e.
Proof. unfold joins. tauto. Qed.

(** X12: the matrix that [main] builds from the edges read, in
    stoer_wagner.cpp and stoer_wagner_pq.cpp.  When every endpoint is a
    vertex, the matrix is square and symmetric, and [G[i][j]] is the
    weight of the last edge read that joins [i] and [j] in either
    direction, 0 when there is none: parallel edges are not added up.
    An endpoint that is no vertex makes [main] write outside the
    matrix. *)
Theorem main_stores_symmetric_matrix (V : nat) (input : list (Z * Z * Z)) :
  (Forall (endpoints_ok V) input →
   ∃ G, read_weighted_graph V input = Some G ∧ square V G ∧ symmetric G ∧
     ∀ i j, i < V → j < V →
       entry G i j = match list.last (filter (joins i j) input) with
                     | Some e => e.2
                     | None => 0%Z
                     end) ∧
  (Exists (λ e, ¬ endpoints_ok V e) input → read_weighted_graph V input = None).
Proof.
  split.
  - intros Hin.
    destruct (store_edges_spec V input Hin (zero_matrix V) (zero_matrix_square V))
      as (G & HG & Hsq & Hent).
    assert (∀ i j, i < V → j < V →
              entry G i j = match list.last (filter (joins i j) input) with
                            | Some e => e.2
                            | None => 0%Z
                            end) as Hent0.
    { intros i j Hi Hj. rewrite Hent by done. by rewrite zero_matrix_entry. }
    exists G. split_and!; [done..| |done].
    intros i j. destruct (decide (i < V ∧ j < V)) as [[Hi Hj]|Hout].
    + rewrite !Hent0 by done.
      by rewrite (list_filter_iff (joins i j) (joins j i)) by apply joins_sym.
    + rewrite !(entry_outside V) by (done || lia). done.
  - intros Hex. by apply (store_edges_outside V), zero_matrix_square.
Qed.

Lemma read_graph_entry V (input : list (Z * Z)) G i j :
  Forall (λ p : Z * Z, (0 ≤ p.1 < Z.of_nat V)%Z ∧ (0 ≤ p.2 < Z.of_nat V)%Z) input →
  read_graph V input = Some G →
  square V G ∧
  (i < V → j < V →
   entry G i j = if decide ((Z.of_nat i, Z.of_nat j) ∈ input ∨
                            (Z.of_nat j, Z.of_nat i) ∈ input)
                 then 1%Z else 0%Z).
Proof.
  intros Hin Hread. unfold read_graph in Hread.
  destruct (store_edges_spec V ((λ p : Z * Z, (p.1, p.2, 1%Z)) <$> input))
    with (G := zero_matrix V) as (G' & HG' & Hsq & Hent).
  { apply Forall_fmap. eapply Forall_impl; [exact Hin|]. by intros [a b] ?. }
  { apply zero_matrix_square. }
  rewrite HG' in Hread. injection Hread as ->. split; [done|]. intros Hi Hj.
  rewrite Hent, zero_matrix_entry by done.
  destruct (list.last _) as [[[a b] w]|] eqn:Hlast.
  - apply last_Some_elem_of, list_elem_of_filter in Hlast as [Hj' Hel].
    apply list_elem_of_fmap in Hel as ([a' b'] & [= -> -> ->] & Hel).
    simpl. rewrite decide_True; [done|].
    destruct Hj' as [[??]|[??]]; simpl in *; subst; auto.
  - apply last_None in Hlast. rewrite decide_False; [done|].
    intros Hor.
    assert (∃ e, e ∈ ((λ p : Z * Z, (p.1, p.2, 1%Z)) <$> input) ∧ joins i j e)
      as (e & He & Hje).
    { destruct Hor as [Hel|Hel]; eexists; (split; [apply list_elem_of_fmap; eexists;
        split; [done|exact Hel]|]); [by left|by right]. }
    assert (e ∈ filter (joins i j) ((λ p : Z * Z, (p.1, p.2, 1%Z)) <$> input)) as Hf
      by by apply list_elem_of_filter.
    rewrite Hlast in Hf. by apply elem_of_nil in Hf.
Qed.

(** X13: the graph that [main] builds in kargercppver.cpp and
    kargercppopt.cpp, and the edge list that [karger_min_cut] makes of
    it.  The matrix is square, symmetric, of zeros and ones; the list
    has no duplicates and holds [(i, j)], [i < j], exactly when an edge
    between [i] and [j] was read in either direction: parallel edges
    count once and self-loops are dropped. *)
Theorem main_edge_list_has_no_duplicates (V : nat) (input : list (Z * Z)) :
  Forall (λ p : Z * Z, (0 ≤ p.1 < Z.of_nat V)%Z ∧ (0 ≤ p.2 < Z.of_nat V)%Z) input →
  ∃ G edges, read_graph V input = Some G ∧
    square V G ∧ symmetric G ∧ unit_graph G ∧
    build_edges G V = Some edges ∧ NoDup edges ∧
    (∀ i j, (i, j) ∈ edges ↔
       i < j < V ∧ ((Z.of_nat i, Z.of_nat j) ∈ input ∨
                    (Z.of_nat j, Z.of_nat i) ∈ input)) ∧
    length edges ≤ length input.
Proof.
  intros Hin.
  destruct (store_edges_spec V ((λ p : Z * Z, (p.1, p.2, 1%Z)) <$> input))
    with (G := zero_matrix V) as (G & HG & Hsq & _).
  { apply Forall_fmap. eapply Forall_impl; [exact Hin|]. by intros [a b] ?. }
  { apply zero_matrix_square. }
  assert (∀ i j, i < V → j < V →
            entry G i j = if decide ((Z.of_nat i, Z.of_nat j) ∈ input ∨
                                     (Z.of_nat j, Z.of_nat i) ∈ input)
                          then 1%Z else 0%Z) as Hent.
  { intros i j. by apply (read_graph_entry V input G i j Hin). }
  assert (∀ i j, (i, j) ∈ unit_edges G V ↔
            i < j < V ∧ ((Z.of_nat i, Z.of_nat j) ∈ input ∨
                         (Z.of_nat j, Z.of_nat i) ∈ input)) as Hmem.
  { intros i j. rewrite (elem_of_unit_edges V G i j Hsq). split.
    - intros [Hij He]. split; [done|]. rewrite Hent in He by lia.
      by case_decide.
    - intros [Hij Hor]. split; [done|]. rewrite Hent by lia.
      by rewrite decide_True. }
  exists G, (unit_edges G V). split_and!; [done|done| | |by apply build_edges_spec|
                                           apply NoDup_unit_edges|done|].
  - intros i j. destruct (decide (i < V ∧ j < V)) as [[Hi Hj]|Hout].
    + rewrite !Hent by done. repeat case_decide; tauto.
    + rewrite !(entry_outside V) by (done || lia). done.
  - intros i j. destruct (decide (i < V ∧ j < V)) as [[Hi Hj]|Hout].
    + rewrite Hent by done. case_decide; auto.
    + left. apply (entry_outside V); [done|lia].
  - rewrite <- (length_fmap
      (λ p : Z * Z, (Z.to_nat (Z.min p.1 p.2), Z.to_nat (Z.max p.1 p.2))) input).
    apply submseteq_length, NoDup_submseteq; [apply NoDup_unit_edges|].
    intros [i j] [Hij Hor]%Hmem. apply list_elem_of_fmap.
    destruct Hor as [Hel|Hel]; eexists; (split; [|exact Hel]); simpl; f_equal; lia.
Qed.

Lemma main_edge_list_has_no_duplicates_witness :
  Forall (λ p : Z * Z, (0 ≤ p.1 < Z.of_nat 3)%Z ∧ (0 ≤ p.2 < Z.of_nat 3)%Z)
    [(0, 1); (1, 0); (2, 2); (0, 1)]%Z ∧
  ∃ G edges, read_graph 3 [(0, 1); (1, 0); (2, 2); (0, 1)]%Z = Some G ∧
    square 3 G ∧ symmetric G ∧ unit_graph G ∧
    build_edges G 3 = Some edges ∧ NoDup edges ∧
    (∀ i j, (i, j) ∈ edges ↔
       i < j < 3 ∧ ((Z.of_nat i, Z.of_nat j) ∈ [(0, 1); (1, 0); (2, 2); (0, 1)]%Z ∨
                    (Z.of_nat j, Z.of_nat i) ∈ [(0, 1); (1, 0); (2, 2); (0, 1)]%Z)) ∧
    length edges ≤ length [(0, 1); (1, 0); (2, 2); (0, 1)]%Z.
Proof.
  assert (Forall (λ p : Z * Z, (0 ≤ p.1 < Z.of_nat 3)%Z ∧ (0 ≤ p.2 < Z.of_nat 3)%Z)
            [(0, 1); (1, 0); (2, 2); (0, 1)]%Z) as Hin.
  { repeat constructor; simpl; lia. }
  split; [done|].
  by apply (main_edge_list_has_no_duplicates 3 [(0, 1); (1, 0); (2, 2); (0, 1)]%Z).
Defined.

Example main_keeps_one_of_parallel_edges :
  read_graph 3 [(0, 1); (1, 0); (2, 2); (0, 1)]%Z
    = Some [[0; 1; 0]; [1; 0; 0]; [0; 0; 1]]%Z ∧
  build_edges [[0; 1; 0]; [1; 0; 0]; [0; 0; 1]]%Z 3 = Some [(0, 1)] ∧
  read_weighted_graph 2 [(0, 1, 5); (1, 0, 7)]%Z = Some [[0; 7]; [7; 0]]%Z.
Proof. by vm_compute. Qed.

(** ** Union by rank *)

Lemma find_compressed V side d i d' r :
  dsu_inv V side d → DSU.find d i = Some (d', r) →
  compressed d.(parent) d'.(parent) r ∧ d'.(rank) = d.(rank).
Proof.
  intros Hinv Hf. pose proof Hinv as (Hlp & _ & Hfo & _).
  apply find_in_range in Hf as Hi. destruct Hi as [Hi _].
  destruct (Hfo i Hi) as (r0 & dep & Hr & Hdep).
  pose proof (roots_nonempty _ _ i Hfo Hi) as Hne.
  destruct (find_rec_spec _ i r0 dep Hr (length d.(parent))) as (p' & Hfind & Hc);
    [lia|].
  unfold DSU.find in Hf. rewrite Hfind in Hf. simpl in Hf.
  injection Hf as <- <-. done.
Qed.

Lemma members_bound V (p : list nat) (l : list nat) r :
  length p = V → NoDup l → (∀ x, x ∈ l → root_of p x r) → length l ≤ V.
Proof.
  intros Hlp Hnd Hl. trans (length (seq 0 V)); [|by rewrite length_seq].
  apply submseteq_length, NoDup_submseteq; [done|].
  intros x [k Hk%reach_lt]%Hl. apply elem_of_seq. lia.
Qed.

Lemma rank_along_path (d : DisjointUnionSets) i r dep :
  length d.(rank) = length d.(parent) → rank_inv d →
  reach d.(parent) i r dep →
  ∀ ki kr, d.(rank) !! i = Some ki → d.(rank) !! r = Some kr →
  (ki + Z.of_nat dep ≤ kr)%Z.
Proof.
  intros Hlen (_ & Hup & _).
  induction 1 as [i Hi|i j r dep Hi Hne Hr IH]; intros ki kr Hki Hkr.
  - simplify_eq. lia.
  - apply lookup_lt_Some in Hi as Hlt.
    apply reach_lt in Hr as Hj. destruct Hj as (Hj & _).
    destruct (lookup_lt_is_Some_2 d.(rank) j) as [kj Hkj]; [lia|].
    pose proof (Hup i j ki kj Hi Hne Hki Hkj).
    pose proof (IH kj kr Hkj Hkr). lia.
Qed.

Lemma compressed_rank_inv V side (d d' : DisjointUnionSets) r0 :
  dsu_inv V side d → rank_inv d →
  compressed d.(parent) d'.(parent) r0 → d'.(rank) = d.(rank) →
  rank_inv d'.
Proof.
  intros Hinv Hrk Hc Hrank. pose proof Hinv as (Hlp & Hlr & Hfo & _).
  pose proof Hrk as (Hpos & Hup & Hsize).
  pose proof Hc as [Hlen Hch]. unfold rank_inv. rewrite Hrank. split_and!.
  - done.
  - intros x p kx kp Hx Hne Hkx Hkp.
    destruct (Hch x) as [Heq|(Hnew & Hnr & [dep Hreach])].
    + rewrite Heq in Hx. by eapply Hup.
    + rewrite Hnew in Hx. injection Hx as <-.
      pose proof (rank_along_path d x r0 dep) as Hpath.
      specialize (Hpath ltac:(lia) Hrk Hreach kx kp Hkx Hkp).
      destruct dep as [|dep]; [|lia].
      inversion Hreach. congruence.
  - intros r k Hr Hk.
    assert (d.(parent) !! r = Some r) as Hr0.
    { apply elem_of_roots. rewrite <- (compressed_roots _ _ _ Hc).
      by apply elem_of_roots. }
    destruct (Hsize r k Hr0 Hk) as (l & Hnd & Hl & Hpow).
    exists l. split_and!; [done| |done].
    intros x Hx. specialize (Hl x Hx).
    apply (compressed_root_of _ _ r0 _ x r Hc Hfo); [|done].
    destruct Hl as [dep Hd]. by apply reach_lt in Hd as (? & _).
Qed.

Lemma link_members (p : list nat) a b la lb :
  p !! a = Some a → p !! b = Some b → a ≠ b →
  NoDup la → (∀ x, x ∈ la → root_of p x a) →
  NoDup lb → (∀ x, x ∈ lb → root_of p x b) →
  NoDup (la ++ lb) ∧ ∀ x, x ∈ la ++ lb → root_of (<[a:=b]> p) x b.
Proof.
  intros Ha Hb Hab Hnda Hla Hndb Hlb. split.
  - apply NoDup_app. split_and!; [done| |done].
    intros x Hxa Hxb. apply Hab.
    by apply (root_of_det p x); [apply Hla|apply Hlb].
  - intros x [Hx|Hx]%elem_of_app.
    + pose proof (link_root_of p a b x a Ha Hb Hab (Hla x Hx)) as H.
      by rewrite decide_True in H.
    + pose proof (link_root_of p a b x b Ha Hb Hab (Hlb x Hx)) as H.
      by rewrite decide_False in H by done.
Qed.

(** The link of the representative [a] under the representative [b],
    with the ranks [rank'] that [unionSets] stores. *)
Lemma link_rank_inv V side (d : DisjointUnionSets) a b ka kb rank' :
  dsu_inv V side d → rank_inv d →
  d.(parent) !! a = Some a → d.(parent) !! b = Some b → a ≠ b →
  d.(rank) !! a = Some ka → d.(rank) !! b = Some kb →
  (rank' = d.(rank) ∧ (ka < kb)%Z) ∨
  (rank' = <[b:=(kb + 1)%Z]> d.(rank) ∧ ka = kb) →
  rank_inv {| rank := rank'; parent := <[a:=b]> d.(parent) |}.
Proof.
  intros Hinv Hrk Ha Hb Hab Hka Hkb Hcase.
  pose proof Hinv as (Hlp & Hlr & Hfo & _).
  pose proof Hrk as (Hpos & Hup & Hsize).
  apply lookup_lt_Some in Ha as HaV. apply lookup_lt_Some in Hb as HbV.
  assert (∀ x k, rank' !! x = Some k →
            if decide (x = b) then (kb ≤ k ≤ kb + 1)%Z ∧ (ka < k)%Z
            else d.(rank) !! x = Some k) as Hrank'.
  { intros x k Hk. destruct Hcase as [[-> ?]|[-> ->]].
    - case_decide; [|done]. simplify_eq. lia.
    - destruct (decide (x = b)) as [->|Hne].
      + rewrite list_lookup_insert_eq in Hk by lia. simplify_eq. lia.
      + by rewrite list_lookup_insert_ne in Hk by done. }
  assert (∀ k, rank' !! b = Some k → (kb ≤ k)%Z ∧
            (2 ^ k ≤ 2 ^ ka + 2 ^ kb)%Z) as Hpowb.
  { intros k Hk. pose proof (Hpos _ _ Hka). pose proof (Hpos _ _ Hkb).
    destruct Hcase as [[-> ?]|[-> ->]].
    - simplify_eq. split; [lia|]. assert (0 < 2 ^ ka)%Z by (apply Z.pow_pos_nonneg; lia).
      lia.
    - rewrite list_lookup_insert_eq in Hk by lia. simplify_eq.
      split; [lia|]. rewrite Z.pow_add_r by lia. lia. }
  split_and!; simpl.
  - intros x k Hk. apply Hrank' in Hk. case_decide.
    + pose proof (Hpos _ _ Hkb). lia.
    + by eapply Hpos.
  - intros x p kx kp Hx Hne Hkx Hkp.
    apply Hrank' in Hkx, Hkp.
    destruct (decide (x = a)) as [->|Hxa].
    + rewrite list_lookup_insert_eq in Hx by lia. injection Hx as <-.
      rewrite decide_True in Hkp by done. rewrite decide_False in Hkx by done.
      simplify_eq. lia.
    + rewrite list_lookup_insert_ne in Hx by done.
      assert (x ≠ b) as Hxb by (intros ->; congruence).
      rewrite decide_False in Hkx by done.
      case_decide as Hpb.
      * subst p. pose proof (Hup x b kx kb Hx Hne Hkx Hkb). lia.
      * by eapply Hup.
  - intros r k Hr Hk.
    assert (r ≠ a) as Hra.
    { intros ->. rewrite list_lookup_insert_eq in Hr by lia. congruence. }
    rewrite list_lookup_insert_ne in Hr by done.
    destruct (decide (r = b)) as [->|Hrb].
    + destruct (Hsize a ka Ha Hka) as (la & Hnda & Hla & Hpa).
      destruct (Hsize b kb Hb Hkb) as (lb & Hndb & Hlb & Hpb).
      destruct (link_members d.(parent) a b la lb) as [Hnd Hl]; [done..|].
      exists (la ++ lb). split_and!; [done..|].
      rewrite length_app. destruct (Hpowb k Hk). lia.
    + apply Hrank' in Hk. rewrite decide_False in Hk by done.
      destruct (Hsize r k Hr Hk) as (l & Hnd & Hl & Hp).
      exists l. split_and!; [done| |done].
      intros x Hx. pose proof (link_root_of _ a b x r Ha Hb Hab (Hl x Hx)) as H.
      by rewrite decide_False in H by done.
Qed.

Lemma pow2_small k : (0 ≤ k)%Z → (2 ^ k ≤ Int.INT_MAX)%Z → (k + 1 ≤ Int.INT_MAX)%Z.
Proof.
  intros Hk Hpow. unfold Int.INT_MAX in *.
  destruct (decide (k < 31)%Z); [lia|].
  assert (2 ^ 31 ≤ 2 ^ k)%Z by (apply Z.pow_le_mono_r; lia). lia.
Qed.

Lemma find_rank_inv V side d i d' r :
  dsu_inv V side d → rank_inv d → DSU.find d i = Some (d', r) →
  dsu_inv V side d' ∧ rank_inv d' ∧ d'.(parent) !! r = Some r ∧ r < V.
Proof.
  intros Hinv Hrk Hf. pose proof Hinv as (Hlp & _).
  apply find_in_range in Hf as Hi. destruct Hi as [Hi _]. rewrite Hlp in Hi.
  destruct (find_compressed V side d i d' r Hinv Hf) as [Hc Hrank].
  destruct (find_spec V side d i Hinv Hi)
    as (d1 & r1 & Hf1 & Hinv1 & _ & Hroots & Hr & HrV & _).
  assert (d1 = d' ∧ r1 = r) as [-> ->] by (split; congruence).
  split_and!; [done|by apply (compressed_rank_inv V side d d' r)| |done].
  apply elem_of_roots. rewrite Hroots. apply elem_of_roots.
  destruct Hr as [k Hk]. by apply reach_lt in Hk as (_ & _ & ?).
Qed.

Lemma union_rank_inv V side d x y d' :
  (Z.of_nat V ≤ Int.INT_MAX)%Z →
  dsu_inv V side d → rank_inv d → DSU.unionSets d x y = Some d' → rank_inv d'.
Proof.
  intros HV Hinv Hrk. unfold DSU.unionSets.
  destruct (DSU.find d x) as [[d1 rx]|] eqn:Hfx; [|done]. simpl.
  destruct (find_rank_inv V side d x d1 rx Hinv Hrk Hfx) as (Hinv1 & Hrk1 & Hrx1 & HrxV).
  destruct (DSU.find d1 y) as [[d2 ry]|] eqn:Hfy; [|done]. simpl.
  destruct (find_rank_inv V side d1 y d2 ry Hinv1 Hrk1 Hfy) as (Hinv2 & Hrk2 & Hry2 & HryV).
  assert (d2.(parent) !! rx = Some rx) as Hrx2.
  { destruct (find_compressed V side d1 y d2 ry Hinv1 Hfy) as [Hc _].
    by eapply compressed_root. }
  case_decide as Heq; [by intros [= <-]|].
  pose proof Hinv2 as (Hlp2 & Hlr2 & _).
  destruct (d2.(rank) !! rx) as [kx|] eqn:Hkx; [|done].
  destruct (d2.(rank) !! ry) as [ky|] eqn:Hky; [|done]. simpl.
  repeat case_decide.
  - rewrite vset_Some by lia. simpl. intros [= <-].
    apply (link_rank_inv V side d2 rx ry kx ky); auto.
  - rewrite vset_Some by lia. simpl. intros [= <-].
    apply (link_rank_inv V side d2 ry rx ky kx); auto.
  - rewrite vset_Some by lia. simpl. rewrite vset_Some by lia. simpl. intros [= <-].
    apply (link_rank_inv V side d2 ry rx ky kx); auto.
    right. split; [|lia]. f_equal. unfold Int.add.
    pose proof Hrk2 as (Hpos & _ & Hsize).
    destruct (Hsize rx kx Hrx2 Hkx) as (l & Hnd & Hl & Hpow).
    pose proof (members_bound V _ l rx Hlp2 Hnd Hl).
    pose proof (Hpos _ _ Hkx).
    pose proof (pow2_small kx). 
    rewrite wrap_small; unfold Int.INT_MIN, Int.INT_MAX in *; lia.
Qed.

Lemma make_rank_inv V : rank_inv (DSU.make V).
Proof.
  split_and!; simpl.
  - by intros x k [-> _]%lookup_replicate.
  - intros x p kx kp Hx%lookup_seq Hne. lia.
  - intros r k Hr [-> _]%lookup_replicate. exists [r]. split_and!.
    + apply NoDup_singleton.
    + intros x ->%list_elem_of_singleton. by apply root_of_root.
    + simpl. lia.
Qed.

Lemma built_rank_inv V d :
  (Z.of_nat V ≤ Int.INT_MAX)%Z → built V d → rank_inv d.
Proof.
  intros HV. induction 1 as [|d i d' r Hb IH Hf|d x y d' Hb IH Hu].
  - apply make_rank_inv.
  - by destruct (find_rank_inv V one_side d i d' r (built_inv V d Hb) IH Hf) as (_ & ? & _).
  - by apply (union_rank_inv V one_side d x y d' HV (built_inv V d Hb)).
Qed.

(** X4: union by rank keeps the trees shallow.  In every union-find
    structure built over [V] elements, a rank [k] satisfies [0 <= k] and
    [2 ^ k <= V], and a path of [dep] parent links to a root satisfies
    [2 ^ dep <= V]: [find] follows at most [log2 V] links. *)
Theorem union_by_rank_bounds_the_depth V (d : DisjointUnionSets) :
  built V d → (Z.of_nat V ≤ Int.INT_MAX)%Z →
  (∀ x k, d.(rank) !! x = Some k → (0 ≤ k)%Z ∧ (2 ^ k ≤ Z.of_nat V)%Z) ∧
  (∀ i r dep, reach d.(parent) i r dep → (2 ^ Z.of_nat dep ≤ Z.of_nat V)%Z).
Proof.
  intros Hb HV. pose proof (built_inv V d Hb) as Hinv.
  pose proof (built_rank_inv V d HV Hb) as Hrk.
  pose proof Hinv as (Hlp & Hlr & Hfo & _).
  pose proof Hrk as (Hpos & _ & Hsize).
  assert (∀ r k, d.(parent) !! r = Some r → d.(rank) !! r = Some k →
            (2 ^ k ≤ Z.of_nat V)%Z) as Hroot.
  { intros r k Hr Hk. destruct (Hsize r k Hr Hk) as (l & Hnd & Hl & Hpow).
    pose proof (members_bound V _ l r Hlp Hnd Hl). lia. }
  assert (∀ i r dep ki, reach d.(parent) i r dep → d.(rank) !! i = Some ki →
            (2 ^ (ki + Z.of_nat dep) ≤ Z.of_nat V)%Z) as Hpath.
  { intros i r dep ki Hreach Hki.
    apply reach_lt in Hreach as Hr. destruct Hr as (_ & HrV & Hrr).
    destruct (lookup_lt_is_Some_2 d.(rank) r) as [kr Hkr]; [lia|].
    pose proof (rank_along_path d i r dep ltac:(lia) Hrk Hreach ki kr Hki Hkr).
    pose proof (Hpos _ _ Hki).
    etrans; [|by eapply Hroot]. apply Z.pow_le_mono_r; lia. }
  split.
  - intros x k Hk. split; [by eapply Hpos|].
    apply lookup_lt_Some in Hk as Hx.
    destruct (Hfo x) as (r & dep & Hreach & _); [lia|].
    pose proof (Hpath x r dep k Hreach Hk). pose proof (Hpos _ _ Hk).
    etrans; [|done]. apply Z.pow_le_mono_r; lia.
  - intros i r dep Hreach.
    apply reach_lt in Hreach as Hi. destruct Hi as (Hi & _).
    destruct (lookup_lt_is_Some_2 d.(rank) i) as [ki Hki]; [lia|].
    pose proof (Hpath i r dep ki Hreach Hki). pose proof (Hpos _ _ Hki).
    etrans; [|done]. apply Z.pow_le_mono_r; lia.
Qed.

(** [two_levels] is what three unions by rank build on four vertices:
    its root has rank 2 and its deepest vertex is at depth 2, and
    [2 ^ 2 = 4] is the number of the vertices. *)
Lemma union_by_rank_bounds_the_depth_witness :
  (built 4 two_levels ∧ (Z.of_nat 4 ≤ Int.INT_MAX)%Z ∧
   two_levels.(rank) !! 0 = Some 2%Z ∧ reach two_levels.(parent) 3 0 2) ∧
  (∀ x k, two_levels.(rank) !! x = Some k → (0 ≤ k)%Z ∧ (2 ^ k ≤ Z.of_nat 4)%Z) ∧
  (∀ i r dep, reach two_levels.(parent) i r dep →
     (2 ^ Z.of_nat dep ≤ Z.of_nat 4)%Z).
Proof.
  split.
  - split_and!; [apply two_levels_built|by vm_compute|reflexivity|].
    apply (reach_step _ 3 2); [reflexivity|lia|].
    apply (reach_step _ 2 0); [reflexivity|lia|].
    by apply reach_root.
  - apply (union_by_rank_bounds_the_depth 4 two_levels);
      [apply two_levels_built|by vm_compute].
Defined.

(** * Properties of the sorting benchmark *)

Import QuickSort.

(** ** The monad of outcomes and its loops *)

Lemma bind_Returns {A B} (a : A) (f : A → outcome B) : (Returns a ≫= f) = f a.
Proof. done. Qed.

Lemma while_unfold {St} fuel (cond : St → outcome (bool * St)) body s :
  while fuel cond body s =
  ('(c, s) ← cond s;
   if c : bool then
     match fuel with
     | 0 => OutOfFuel
     | S fuel' => s ← body s; while fuel' cond body s
     end
   else mret s).
Proof. by destruct fuel. Qed.

Lemma while_rule {St} (I Q : St → Prop) (μ : St → nat)
    (cond : St → outcome (bool * St)) (body : St → outcome St) :
  (∀ s, I s → ∃ c s1, cond s = Returns (c, s1) ∧
     if c : bool then ∃ s2, body s1 = Returns s2 ∧ I s2 ∧ μ s2 < μ s else Q s1) →
  ∀ fuel s, I s → μ s ≤ fuel → ∃ s', while fuel cond body s = Returns s' ∧ Q s'.
Proof.
  intros Hstep. induction fuel as [|fuel IH]; intros s HI Hμ;
    rewrite while_unfold; destruct (Hstep s HI) as (c & s1 & -> & Hc);
    rewrite bind_Returns; destruct c.
  - destruct Hc as (s2 & _ & _ & ?). lia.
  - by exists s1.
  - destruct Hc as (s2 & -> & HI2 & Hlt). rewrite bind_Returns. apply IH; [done|lia].
  - by exists s1.
Qed.

(** The rule of [while] for the loop of the goal. *)
Ltac while_rule_with I Q μ H :=
  match goal with
  | |- context [while _ ?c ?b _] => assert (H := while_rule I Q μ c b)
  end.

Lemma for_up_rule {St} (I : Z → St → Prop) (body : Z → St → outcome St) :
  ∀ n i0 s,
    I i0 s →
    (∀ i s, (i0 ≤ i < i0 + Z.of_nat n)%Z → I i s →
       ∃ s', body i s = Returns s' ∧ I (i + 1)%Z s') →
    ∃ s', for_up n i0 body s = Returns s' ∧ I (i0 + Z.of_nat n)%Z s'.
Proof.
  induction n as [|n IH]; intros i0 s HI Hbody; cbn [for_up].
  - exists s. split; [done|]. by replace (i0 + Z.of_nat 0)%Z with i0 by lia.
  - destruct (Hbody i0 s) as (s1 & -> & HI1); [lia|done|]. rewrite bind_Returns.
    destruct (IH (i0 + 1)%Z s1 HI1) as (s' & -> & HI').
    { intros i s2 Hi. apply Hbody. lia. }
    exists s'. split; [done|].
    by replace (i0 + Z.of_nat (S n))%Z with (i0 + 1 + Z.of_nat n)%Z by lia.
Qed.

Lemma for_down_rule {St} (I : Z → St → Prop) (body : Z → St → outcome St) :
  ∀ n i0 s,
    I i0 s →
    (∀ i s, (i0 - Z.of_nat n < i ≤ i0)%Z → I i s →
       ∃ s', body i s = Returns s' ∧ I (i - 1)%Z s') →
    ∃ s', for_down n i0 body s = Returns s' ∧ I (i0 - Z.of_nat n)%Z s'.
Proof.
  induction n as [|n IH]; intros i0 s HI Hbody; cbn [for_down].
  - exists s. split; [done|]. by replace (i0 - Z.of_nat 0)%Z with i0 by lia.
  - destruct (Hbody i0 s) as (s1 & -> & HI1); [lia|done|]. rewrite bind_Returns.
    destruct (IH (i0 - 1)%Z s1 HI1) as (s' & -> & HI').
    { intros i s2 Hi. apply Hbody. lia. }
    exists s'. split; [done|].
    by replace (i0 - Z.of_nat (S n))%Z with (i0 - 1 - Z.of_nat n)%Z by lia.
Qed.

(** ** Vector accesses *)

Lemma item_lt arr k x : item arr k = Some x → (0 ≤ k < Z.of_nat (length arr))%Z.
Proof.
  unfold item. case_decide; [|done]. intros ?%lookup_lt_Some. lia.
Qed.

Lemma item_is_Some arr k : (0 ≤ k < Z.of_nat (length arr))%Z → is_Some (item arr k).
Proof.
  intros Hk. unfold item. rewrite decide_True by lia.
  apply lookup_lt_is_Some. lia.
Qed.

Lemma load_item arr k x : item arr k = Some x → load arr k = Returns x.
Proof. unfold item, load. case_decide; [|done]. by intros ->. Qed.

Lemma store_Returns arr k x :
  (0 ≤ k < Z.of_nat (length arr))%Z →
  store arr k x = Returns (<[Z.to_nat k:=x]> arr).
Proof. intros Hk. unfold store. by rewrite decide_True. Qed.

Lemma item_insert arr i x k :
  (0 ≤ i < Z.of_nat (length arr))%Z →
  item (<[Z.to_nat i:=x]> arr) k = if decide (k = i) then Some x else item arr k.
Proof.
  intros Hi. unfold item. case_decide as Hk.
  - case_decide as Heq.
    + subst. apply list_lookup_insert_eq. lia.
    + apply list_lookup_insert_ne. lia.
  - case_decide; [lia|done].
Qed.

Lemma item_nat arr (k : nat) : item arr (Z.of_nat k) = arr !! k.
Proof. unfold item. rewrite decide_True by lia. by rewrite Nat2Z.id. Qed.

Lemma item_ext arr arr' :
  length arr' = length arr → (∀ k, item arr' k = item arr k) → arr' = arr.
Proof.
  intros Hlen Hk. apply list_eq. intros i. by rewrite <- !item_nat.
Qed.

(** ** Permutations of a range *)

Lemma same_outside_refl l r arr : same_outside l r arr arr.
Proof. done. Qed.

Lemma permuted_refl l r arr : permuted l r arr arr.
Proof. done. Qed.

Lemma permuted_trans l r arr1 arr2 arr3 :
  permuted l r arr1 arr2 → permuted l r arr2 arr3 → permuted l r arr1 arr3.
Proof.
  intros [Hp1 [Hl1 Ho1]] [Hp2 [Hl2 Ho2]]. split; [by rewrite Hp2|].
  split; [congruence|]. intros k Hk. by rewrite Ho2, Ho1.
Qed.

Lemma permuted_weaken l r l' r' arr arr' :
  (l ≤ l')%Z → (r' ≤ r)%Z → permuted l' r' arr arr' → permuted l r arr arr'.
Proof.
  intros Hl Hr [Hp [Hlen Ho]]. split; [done|]. split; [done|].
  intros k Hk. apply Ho. lia.
Qed.

Lemma permuted_length l r arr arr' : permuted l r arr arr' → length arr' = length arr.
Proof. by intros [_ [? _]]. Qed.

Lemma permuted_swap l r arr i j x y :
  (l ≤ i ≤ r)%Z → (l ≤ j ≤ r)%Z →
  item arr i = Some x → item arr j = Some y →
  permuted l r arr (<[Z.to_nat j:=x]> (<[Z.to_nat i:=y]> arr)).
Proof.
  intros Hi Hj Hx Hy. apply item_lt in Hx as Hil. apply item_lt in Hy as Hjl.
  split.
  - apply Permutation_insert_swap.
    + unfold item in Hx. by rewrite decide_True in Hx by lia.
    + unfold item in Hy. by rewrite decide_True in Hy by lia.
  - split; [by rewrite !length_insert|]. intros k Hk.
    rewrite !item_insert by (rewrite ?length_insert; lia).
    repeat case_decide; (done || lia).
Qed.

(** The elements of the range, as a list. *)
Lemma range_split (l r : nat) (arr : list Z) :
  l ≤ S r → S r ≤ length arr →
  arr = take l arr ++ take (S r - l) (drop l arr) ++ drop (S r) arr.
Proof.
  intros Hl Hr. rewrite <- (take_drop l arr) at 1. f_equal.
  rewrite <- (take_drop (S r - l) (drop l arr)) at 1. f_equal.
  rewrite drop_drop. f_equal. lia.
Qed.

Lemma permuted_range (l r : nat) arr arr' :
  l ≤ S r → S r ≤ length arr →
  permuted (Z.of_nat l) (Z.of_nat r) arr arr' →
  take (S r - l) (drop l arr') ≡ₚ take (S r - l) (drop l arr).
Proof.
  intros Hl Hr [Hp [Hlen Ho]].
  assert (take l arr' = take l arr) as Htake.
  { apply list_eq. intros i. rewrite !lookup_take.
    case_decide; [|done]. rewrite <- !item_nat. apply Ho. lia. }
  assert (drop (S r) arr' = drop (S r) arr) as Hdrop.
  { apply list_eq. intros i. rewrite !lookup_drop.
    rewrite <- !item_nat. apply Ho. lia. }
  assert (take l arr ++ take (S r - l) (drop l arr') ++ drop (S r) arr
          ≡ₚ take l arr ++ take (S r - l) (drop l arr) ++ drop (S r) arr) as Hp'.
  { rewrite <- (range_split l r arr Hl Hr). rewrite <- Htake, <- Hdrop.
    by rewrite <- (range_split l r arr') by lia. }
  by apply Permutation_app_inv_l, Permutation_app_inv_r in Hp'.
Qed.

Lemma elem_of_range (l r : nat) (arr : list Z) x :
  x ∈ take (S r - l) (drop l arr) ↔
  ∃ k, (Z.of_nat l ≤ k ≤ Z.of_nat r)%Z ∧ item arr k = Some x.
Proof.
  rewrite list_elem_of_lookup. split.
  - intros [i Hi]. rewrite lookup_take in Hi. case_decide; [|done].
    rewrite lookup_drop in Hi. exists (Z.of_nat (l + i)). split; [lia|].
    by rewrite item_nat.
  - intros (k & Hk & Hx). exists (Z.to_nat k - l).
    rewrite lookup_take, decide_True by lia. rewrite lookup_drop.
    unfold item in Hx. rewrite decide_True in Hx by lia.
    by replace (l + (Z.to_nat k - l)) with (Z.to_nat k) by lia.
Qed.

(** The elements of the permuted range are those of the range. *)
Lemma permuted_elem l r arr arr' k x :
  permuted l r arr arr' → (l ≤ k ≤ r)%Z → item arr' k = Some x →
  ∃ k', (l ≤ k' ≤ r)%Z ∧ item arr k' = Some x.
Proof.
  intros Hp Hk Hx. apply item_lt in Hx as Hkl.
  rewrite (permuted_length _ _ _ _ Hp) in Hkl.
  set (l0 := Z.to_nat (Z.max 0 l)).
  set (r0 := Z.to_nat (Z.min r (Z.of_nat (length arr) - 1))).
  assert (permuted (Z.of_nat l0) (Z.of_nat r0) arr arr') as Hp0.
  { destruct Hp as [Hperm [Hlen Ho]]. split; [done|]. split; [done|].
    intros i Hi. destruct (decide (0 ≤ i < Z.of_nat (length arr))%Z) as [Hin|Hout].
    - apply Ho. lia.
    - unfold item. case_decide; [|done].
      rewrite !lookup_ge_None_2; (done || lia). }
  pose proof (permuted_range l0 r0 arr arr' ltac:(lia) ltac:(lia) Hp0) as Hseg.
  assert (x ∈ take (S r0 - l0) (drop l0 arr')) as Hin.
  { apply elem_of_range. exists k. split; [lia|done]. }
  rewrite Hseg in Hin. apply elem_of_range in Hin as (k' & Hk' & Hx').
  exists k'. split; [lia|done].
Qed.

Lemma all_in_permuted l r l' r' arr arr' P :
  (l ≤ l')%Z → (r' ≤ r)%Z →
  permuted l' r' arr arr' → all_in l r arr P → all_in l r arr' P.
Proof.
  intros Hl Hr Hp Hall k x Hk Hx.
  destruct (decide (l' ≤ k ≤ r')%Z) as [Hin|Hout].
  - destruct (permuted_elem _ _ _ _ _ _ Hp Hin Hx) as (k' & Hk' & Hx').
    apply (Hall k' x); [lia|done].
  - destruct Hp as [_ [_ Ho]]. rewrite Ho in Hx by done. by apply (Hall k x).
Qed.

Lemma sorted_whole arr :
  sorted_in 0 (Z.of_nat (length arr) - 1) arr → StronglySorted Z.le arr.
Proof.
  intros Hs.
  assert (∀ i j x y, i ≤ j → arr !! i = Some x → arr !! j = Some y → (x ≤ y)%Z) as Hn.
  { intros i j x y Hij Hx Hy. apply lookup_lt_Some in Hy as Hj.
    apply (Hs (Z.of_nat i) (Z.of_nat j)); rewrite ?item_nat; (done || lia). }
  clear Hs. induction arr as [|a arr IH]; [constructor|].
  constructor.
  - apply IH. intros i j x y Hij Hx Hy. apply (Hn (S i) (S j)); (done || lia).
  - apply Forall_forall. intros y [j Hy]%list_elem_of_lookup.
    apply (Hn 0 (S j)); (done || lia).
Qed.

(** ** Counters *)

Lemma counted_refl m : counted m m.
Proof. unfold counted. lia. Qed.

Lemma counted_trans m1 m2 m3 : counted m1 m2 → counted m2 m3 → counted m1 m3.
Proof. unfold counted. intros (?&?&?&?) (?&?&?&?). split_and!; (lia || congruence). Qed.

Lemma counted_comparison m : counted m (count_comparison m).
Proof. unfold counted. simpl. lia. Qed.

Lemma counted_swap m : counted m (count_swap m).
Proof. unfold counted. simpl. lia. Qed.

Lemma swap_counted_spec l r arr i j m x y :
  (l ≤ i ≤ r)%Z → (l ≤ j ≤ r)%Z →
  item arr i = Some x → item arr j = Some y →
  ∃ arr', swap_counted arr i j m = Returns (arr', count_swap m) ∧
    permuted l r arr arr' ∧
    item arr' i = Some y ∧ item arr' j = Some x ∧
    ∀ k, k ≠ i → k ≠ j → item arr' k = item arr k.
Proof.
  intros Hi Hj Hx Hy. apply item_lt in Hx as Hil. apply item_lt in Hy as Hjl.
  unfold swap_counted. case_decide as Hne.
  - rewrite (load_item _ _ _ Hx), bind_Returns, (load_item _ _ _ Hy), bind_Returns.
    rewrite store_Returns, bind_Returns by done.
    rewrite store_Returns, bind_Returns by (rewrite length_insert; lia).
    eexists. split; [done|]. split_and!.
    + by apply permuted_swap.
    + rewrite !item_insert by (rewrite ?length_insert; lia).
      by rewrite decide_False, decide_True by done.
    + rewrite !item_insert by (rewrite ?length_insert; lia).
      by rewrite decide_True by done.
    + intros k Hki Hkj. rewrite !item_insert by (rewrite ?length_insert; lia).
      by rewrite !decide_False by done.
  - subst j. assert (x = y) as -> by congruence.
    exists arr. split; [done|]. by split_and!.
Qed.

(** The routine goals of the loops. *)
Ltac fin :=
  first
    [ done
    | lia
    | apply counted_refl
    | eapply counted_trans;
        [eassumption|first [apply counted_comparison|apply counted_swap]]
    | simpl in *; lia ].

(** ** The two-way partition *)

Lemma skip_small_spec fuel pivot arr s e m :
  (0 ≤ s)%Z → (e < Z.of_nat (length arr))%Z → (s ≤ e + 1)%Z →
  Z.to_nat (e + 1 - s) ≤ fuel →
  ∃ s' m', skip_small fuel pivot (s, e, arr, m) = Returns (s', e, arr, m') ∧
    (s ≤ s' ≤ e + 1)%Z ∧ all_in s (s' - 1) arr (λ x, x ≤ pivot)%Z ∧
    counted m m' ∧ m'.(swaps) = m.(swaps) ∧
    if decide (s' ≤ e)%Z then
      (∃ a, item arr s' = Some a ∧ (pivot < a)%Z) ∧
      m'.(comparisons) = (m.(comparisons) + (s' - s) + 1)%Z
    else m'.(comparisons) = (m.(comparisons) + (s' - s))%Z.
Proof.
  intros Hs He Hse Hfuel. unfold skip_small.
  while_rule_with
    (λ st : Z * Z * list Z * Metrics, let '(s1, e1, arr1, m1) := st in
       e1 = e ∧ arr1 = arr ∧ (s ≤ s1 ≤ e + 1)%Z ∧
       all_in s (s1 - 1) arr (λ x, x ≤ pivot)%Z ∧
       counted m m1 ∧ m1.(swaps) = m.(swaps) ∧
       m1.(comparisons) = (m.(comparisons) + (s1 - s))%Z)
    (λ st : Z * Z * list Z * Metrics, let '(s1, e1, arr1, m1) := st in
       e1 = e ∧ arr1 = arr ∧ (s ≤ s1 ≤ e + 1)%Z ∧
       all_in s (s1 - 1) arr (λ x, x ≤ pivot)%Z ∧
       counted m m1 ∧ m1.(swaps) = m.(swaps) ∧
       if decide (s1 ≤ e)%Z then
         (∃ a, item arr s1 = Some a ∧ (pivot < a)%Z) ∧
         m1.(comparisons) = (m.(comparisons) + (s1 - s) + 1)%Z
       else m1.(comparisons) = (m.(comparisons) + (s1 - s))%Z)
    (λ st : Z * Z * list Z * Metrics, Z.to_nat (e + 1 - st.1.1.1)) Hw.
  destruct Hw with (fuel := fuel) (s := (s, e, arr, m))
    as ([[[s' e'] arr'] m'] & Hrun & -> & -> & HQ).
  - intros [[[s1 e1] arr1] m1] (-> & -> & Hs1 & Hall & Hcnt & Hsw & Hcmp).
    case_decide as Hle.
    + destruct (item_is_Some arr s1) as [a Ha]; [lia|].
      rewrite (load_item _ _ _ Ha), bind_Returns.
      unfold compare_le_counted. case_bool_decide as Hc.
      * eexists true, _. split; [done|]. eexists. split; [done|]. simpl.
        split_and!; try fin.
        intros k x Hk Hx. destruct (decide (k = s1)) as [->|Hne].
        -- by simplify_eq.
        -- apply (Hall k); [lia|done].
      * eexists false, _. split; [done|]. simpl.
        split_and!; try fin.
        rewrite decide_True by done. split; [|simpl; lia].
        exists a. split; [done|lia].
    + eexists false, _. split; [done|]. simpl.
      split_and!; try fin. by rewrite decide_False by done.
  - simpl. split_and!; try fin. intros k x Hk. lia.
  - done.
  - exists s', m'. destruct HQ as (? & ? & ? & ? & ?). split_and!; fin.
Qed.

Lemma skip_large_spec fuel pivot arr s e m :
  (0 ≤ s)%Z → (e < Z.of_nat (length arr))%Z → (s ≤ e + 1)%Z →
  Z.to_nat (e + 1 - s) ≤ fuel →
  ∃ e' m', skip_large fuel pivot (s, e, arr, m) = Returns (s, e', arr, m') ∧
    (s - 1 ≤ e' ≤ e)%Z ∧ all_in (e' + 1) e arr (λ x, pivot < x)%Z ∧
    counted m m' ∧ m'.(swaps) = m.(swaps) ∧
    if decide (s ≤ e')%Z then
      (∃ a, item arr e' = Some a ∧ (a ≤ pivot)%Z) ∧
      m'.(comparisons) = (m.(comparisons) + (e - e') + 1)%Z
    else m'.(comparisons) = (m.(comparisons) + (e - e'))%Z.
Proof.
  intros Hs He Hse Hfuel. unfold skip_large.
  while_rule_with
    (λ st : Z * Z * list Z * Metrics, let '(s1, e1, arr1, m1) := st in
       s1 = s ∧ arr1 = arr ∧ (s - 1 ≤ e1 ≤ e)%Z ∧
       all_in (e1 + 1) e arr (λ x, pivot < x)%Z ∧
       counted m m1 ∧ m1.(swaps) = m.(swaps) ∧
       m1.(comparisons) = (m.(comparisons) + (e - e1))%Z)
    (λ st : Z * Z * list Z * Metrics, let '(s1, e1, arr1, m1) := st in
       s1 = s ∧ arr1 = arr ∧ (s - 1 ≤ e1 ≤ e)%Z ∧
       all_in (e1 + 1) e arr (λ x, pivot < x)%Z ∧
       counted m m1 ∧ m1.(swaps) = m.(swaps) ∧
       if decide (s ≤ e1)%Z then
         (∃ a, item arr e1 = Some a ∧ (a ≤ pivot)%Z) ∧
         m1.(comparisons) = (m.(comparisons) + (e - e1) + 1)%Z
       else m1.(comparisons) = (m.(comparisons) + (e - e1))%Z)
    (λ st : Z * Z * list Z * Metrics, Z.to_nat (st.1.1.2 + 1 - s)) Hw.
  destruct Hw with (fuel := fuel) (s := (s, e, arr, m))
    as ([[[s' e'] arr'] m'] & Hrun & -> & -> & HQ).
  - intros [[[s1 e1] arr1] m1] (-> & -> & He1 & Hall & Hcnt & Hsw & Hcmp).
    case_decide as Hle.
    + destruct (item_is_Some arr e1) as [a Ha]; [lia|].
      rewrite (load_item _ _ _ Ha), bind_Returns.
      unfold compare_counted. case_bool_decide as Hc.
      * eexists true, _. split; [done|]. eexists. split; [done|]. simpl.
        split_and!; try fin.
        intros k x Hk Hx. destruct (decide (k = e1)) as [->|Hne].
        -- by simplify_eq.
        -- apply (Hall k); [lia|done].
      * eexists false, _. split; [done|]. simpl.
        split_and!; try fin.
        rewrite decide_True by done. split; [|simpl; lia].
        exists a. split; [done|lia].
    + eexists false, _. split; [done|]. simpl.
      split_and!; try fin. by rewrite decide_False by done.
  - simpl. split_and!; try fin. intros k x Hk. lia.
  - simpl. lia.
  - exists e', m'. destruct HQ as (? & ? & ? & ? & ?). split_and!; fin.
Qed.

Lemma partition_step_spec fuel l r pivot arr0 m0 s e arr m :
  (0 ≤ l)%Z → (r < Z.of_nat (length arr0))%Z → Z.to_nat (r - l) ≤ fuel →
  partition_inv l r pivot arr0 m0 (s, e, arr, m) → (s ≤ e)%Z →
  ∃ st', partition_step fuel pivot (s, e, arr, m) = Returns st' ∧
    partition_inv l r pivot arr0 m0 st' ∧
    Z.to_nat (st'.1.1.2 + 1 - st'.1.1.1) < Z.to_nat (e + 1 - s).
Proof.
  intros Hl Hr Hfuel (Hs & He & Hperm & Hleft & Hright & Hcnt & Hsw & Hlo & Hhi & Heq) Hse.
  pose proof (permuted_length _ _ _ _ Hperm) as Hlen.
  unfold partition_step.
  destruct (skip_small_spec fuel pivot arr s e m) as (s1 & m1 & -> & Hs1 & Hall1 & Hcnt1 & Hsw1 & Hc1);
    [lia..|].
  rewrite bind_Returns.
  destruct (skip_large_spec fuel pivot arr s1 e m1) as (e1 & m2 & -> & He1 & Hall2 & Hcnt2 & Hsw2 & Hc2);
    [lia..|].
  rewrite bind_Returns. specialize (Heq Hse).
  assert (all_in (l + 1) (s1 - 1) arr (λ x, x ≤ pivot)%Z) as Hleft1.
  { intros k x Hk Hx. destruct (decide (k < s)%Z).
    - apply (Hleft k); [lia|done].
    - apply (Hall1 k); [lia|done]. }
  assert (all_in (e1 + 1) r arr (λ x, pivot < x)%Z) as Hright1.
  { intros k x Hk Hx. destruct (decide (e < k)%Z).
    - apply (Hright k); [lia|done].
    - apply (Hall2 k); [lia|done]. }
  destruct (decide (s1 < e1)%Z) as [Hlt|Hlt].
  - rewrite decide_True in Hc1 by lia. rewrite decide_True in Hc2 by lia.
    destruct Hc1 as [(a & Ha & Hpa) Hcmp1]. destruct Hc2 as [(b & Hb & Hbp) Hcmp2].
    destruct (swap_counted_spec (l + 1) r arr s1 e1 m2 a b) as (arr' & -> & Hp' & Hs1' & He1' & Hoth);
      [lia|lia|done|done|].
    rewrite bind_Returns. eexists. split; [done|]. simpl. split; [|lia].
    split_and!; try fin.
    + by eapply permuted_trans.
    + intros k x Hk Hx. destruct (decide (k = s1)) as [->|Hne].
      * simplify_eq. lia.
      * rewrite Hoth in Hx by lia. apply (Hleft1 k); [lia|done].
    + intros k x Hk Hx. destruct (decide (k = e1)) as [->|Hne].
      * simplify_eq. lia.
      * rewrite Hoth in Hx by lia. apply (Hright1 k); [lia|done].
    + eapply counted_trans; [|apply counted_swap].
      eapply counted_trans; [|exact Hcnt2]. by eapply counted_trans.
  - assert (s1 = e1 + 1)%Z as ->.
    { destruct (decide (s1 = e1)) as [->|]; [|lia].
      rewrite decide_True in Hc1 by lia. rewrite decide_True in Hc2 by lia.
      destruct Hc1 as [(a & Ha & Hpa) _]. destruct Hc2 as [(b & Hb & Hbp) _].
      simplify_eq. lia. }
    rewrite decide_False in Hc2 by lia.
    eexists. split; [done|]. simpl. split; [|lia].
    assert (counted m0 m2) as Hcnt'.
    { eapply counted_trans; [|exact Hcnt2]. by eapply counted_trans. }
    split_and!; try fin.
    + case_decide; lia.
    + case_decide; lia.
Qed.

Lemma partition_TwoWay_spec fuel arr l r m pivot :
  (0 ≤ l ≤ r)%Z → (r < Z.of_nat (length arr))%Z → item arr l = Some pivot →
  Z.to_nat (r - l) ≤ fuel →
  ∃ p arr' m', partition_TwoWay fuel arr l r m = Returns (p, arr', m') ∧
    (l ≤ p ≤ r)%Z ∧ permuted l r arr arr' ∧ item arr' p = Some pivot ∧
    all_in l (p - 1) arr' (λ x, x ≤ pivot)%Z ∧
    all_in (p + 1) r arr' (λ x, pivot < x)%Z ∧
    counted m m' ∧
    (r - l ≤ m'.(comparisons) - m.(comparisons) ≤ r - l + 1)%Z ∧
    (1 ≤ m'.(swaps) - m.(swaps))%Z ∧
    (2 * (m'.(swaps) - m.(swaps)) ≤ r - l + 2)%Z.
Proof.
  intros Hl Hr Hpivot Hfuel. unfold partition_TwoWay.
  rewrite (load_item _ _ _ Hpivot), bind_Returns.
  while_rule_with
    (partition_inv l r pivot arr m)
    (λ st : Z * Z * list Z * Metrics,
       partition_inv l r pivot arr m st ∧ (st.1.1.2 < st.1.1.1)%Z)
    (λ st : Z * Z * list Z * Metrics, Z.to_nat (st.1.1.2 + 1 - st.1.1.1)) Hw.
  destruct Hw with (fuel := fuel) (s := ((l + 1)%Z, r, arr, m))
    as ([[[s e] arr1] m1] & -> & Hinv & Hexit).
  - intros [[[s e] arr1] m1] Hinv. eexists _, _. split; [done|].
    case_bool_decide as Hse.
    + destruct (partition_step_spec fuel l r pivot arr m s e arr1 m1) as (st' & Hst & Hinv' & Hμ);
        [lia|lia|done|done|done|].
      exists st'. by split_and!.
    + split; [done|]. simpl. lia.
  - unfold partition_inv. split_and!; try fin.
    + intros k x Hk. lia.
    + intros k x Hk. lia.
  - simpl. lia.
  - rewrite bind_Returns. simpl in Hexit.
    destruct Hinv as (Hs & He & Hperm & Hleft & Hright & Hcnt & Hsw & Hlo & Hhi & _).
    assert (s = e + 1)%Z as -> by lia.
    pose proof (permuted_length _ _ _ _ Hperm) as Hlen.
    assert (item arr1 l = Some pivot) as Hpl.
    { destruct Hperm as [_ [_ Ho]]. rewrite Ho by lia. done. }
    destruct (item_is_Some arr1 e) as [b Hb]; [lia|].
    destruct (swap_counted_spec l r arr1 l e m1 pivot b) as (arr' & -> & Hp' & Hl' & He' & Hoth);
      [lia|lia|done|done|].
    rewrite bind_Returns. eexists e, arr', _. split; [done|].
    pose proof Hcnt as (Hcmp & Hswp & _).
    split_and!; try fin.
    + eapply permuted_trans; [|exact Hp'].
      eapply permuted_weaken; [| |exact Hperm]; lia.
    + intros k x Hk Hx. destruct (decide (k = l)) as [->|Hne].
      * rewrite Hl' in Hx. injection Hx as <-.
        apply (Hleft e); [lia|done].
      * rewrite Hoth in Hx by lia. apply (Hleft k); [lia|done].
    + intros k x Hk Hx. rewrite Hoth in Hx by lia. apply (Hright k); [lia|done].
Qed.

(** ** Quicksort *)

Lemma sorted_in_empty l r arr : (r ≤ l)%Z → sorted_in l r arr.
Proof.
  intros Hrl i j x y Hij Hj Hx Hy. assert (i = j) as -> by lia.
  assert (x = y) as -> by congruence. lia.
Qed.

Lemma sorted_in_same l r arr arr' :
  (∀ k, (l ≤ k ≤ r)%Z → item arr' k = item arr k) →
  sorted_in l r arr → sorted_in l r arr'.
Proof.
  intros Hsame Hs i j x y Hij Hj Hx Hy.
  rewrite Hsame in Hx, Hy by lia. by apply (Hs i j).
Qed.

Lemma sorted_join l r p pivot arr :
  (l ≤ p ≤ r)%Z → item arr p = Some pivot →
  sorted_in l (p - 1) arr → sorted_in (p + 1) r arr →
  all_in l (p - 1) arr (λ x, x ≤ pivot)%Z →
  all_in (p + 1) r arr (λ x, pivot ≤ x)%Z →
  sorted_in l r arr.
Proof.
  intros Hp Hpiv Hsl Hsr Hl Hr i j x y Hij Hj Hx Hy.
  destruct (decide (j < p)%Z); [apply (Hsl i j); (done || lia)|].
  destruct (decide (p < i)%Z); [apply (Hsr i j); (done || lia)|].
  assert (x ≤ pivot)%Z.
  { destruct (decide (i = p)) as [->|]; [simplify_eq; lia|].
    apply (Hl i); [lia|done]. }
  assert (pivot ≤ y)%Z.
  { destruct (decide (j = p)) as [->|]; [simplify_eq; lia|].
    apply (Hr j); [lia|done]. }
  lia.
Qed.

Lemma all_in_weaken l r arr (P P' : Z → Prop) :
  (∀ x, P x → P' x) → all_in l r arr P → all_in l r arr P'.
Proof. intros HP Hall k x Hk Hx. by eapply HP, Hall. Qed.

Lemma all_in_outside l r l' r' arr arr' P :
  (r < l' ∨ r' < l)%Z →
  permuted l' r' arr arr' → all_in l r arr P → all_in l r arr' P.
Proof.
  intros Hd [_ [_ Ho]] Hall k x Hk Hx. rewrite Ho in Hx by lia. by apply (Hall k).
Qed.

Lemma depth_ok_enter n1 n2 n m ma m1 mb m2 :
  (n1 ≤ n - 1)%Z → (n2 ≤ n - 1)%Z → (2 ≤ n)%Z →
  counted (enter m) ma → depth_ok n1 ma m1 → counted m1 mb →
  depth_ok n2 mb m2 → depth_ok n m (leave m2).
Proof.
  intros Hn1 Hn2 Hn (Ha1 & Ha2 & Ha3 & Ha4) (Hb1 & Hb2 & Hb3 & Hb4 & Hb5)
    (Hc1 & Hc2 & Hc3 & Hc4) (Hd1 & Hd2 & Hd3 & Hd4 & Hd5).
  unfold depth_ok, enter in *. simpl in *.
  destruct (decide (max_depth m < current_depth m + 1)%Z); split_and!; lia.
Qed.

Section QuickSortTwoWay.

Context {Rng : Type}.
Variable findPivot : PivotFunc Rng.
Variable N : Z.
Hypothesis findPivot_ok : pivot_ok N findPivot.

Lemma quicksort_TwoWay_spec fuel :
  ∀ arr l r m rng,
    indices_fit arr →
    (0 ≤ l)%Z → (r < Z.of_nat (length arr))%Z → (r - l + 1 ≤ N)%Z →
    Z.to_nat (r - l) ≤ fuel →
    ∃ arr' m' rng',
      quicksort_TwoWay Rng fuel findPivot arr l r m rng = Returns (arr', m', rng') ∧
      permuted l r arr arr' ∧ sorted_in l r arr' ∧ depth_ok (r - l + 1) m m'.
Proof.
  induction fuel as [|fuel IH]; intros arr l r m rng Hfit Hl Hr HN Hfuel.
  - exists arr, m, rng. simpl. rewrite decide_True by lia.
    split_and!; [done|apply permuted_refl|apply sorted_in_empty; lia|].
    unfold depth_ok. lia.
  - cbn [quicksort_TwoWay]. case_decide as Hrl.
    { exists arr, m, rng. split_and!; [done|apply permuted_refl|by apply sorted_in_empty|].
      unfold depth_ok. lia. }
    destruct (findPivot_ok arr l r (enter m) rng) as (i & arr1 & m1 & rng1 & -> & Hi & Hp1 & Hc1);
      [done|lia..|].
    rewrite bind_Returns.
    pose proof (permuted_length _ _ _ _ Hp1) as Hlen1.
    destruct (item_is_Some arr1 l) as [x Hx]; [lia|].
    destruct (item_is_Some arr1 i) as [pivot Hpiv]; [lia|].
    destruct (swap_counted_spec l r arr1 l i m1 x pivot) as (arr2 & -> & Hp2 & Hl2 & _);
      [lia|lia|done|done|].
    rewrite bind_Returns.
    pose proof (permuted_length _ _ _ _ Hp2) as Hlen2.
    destruct (partition_TwoWay_spec (S fuel) arr2 l r (count_swap m1) pivot)
      as (p & arr3 & m3 & -> & Hp & Hp3 & Hpiv3 & Hleft & Hright & Hc3 & _);
      [lia|lia|done|lia|].
    rewrite bind_Returns.
    pose proof (permuted_length _ _ _ _ Hp3) as Hlen3.
    destruct (IH arr3 l (p - 1)%Z m3 rng1) as (arr4 & m4 & rng4 & -> & Hp4 & Hs4 & Hd4);
      [unfold indices_fit in *; lia|lia..|].
    rewrite bind_Returns.
    pose proof (permuted_length _ _ _ _ Hp4) as Hlen4.
    destruct (IH arr4 (p + 1)%Z r m4 rng4) as (arr5 & m5 & rng5 & -> & Hp5 & Hs5 & Hd5);
      [unfold indices_fit in *; lia|lia..|].
    rewrite bind_Returns.
    exists arr5, (leave m5), rng5. split_and!; [done| | |].
    + eapply permuted_trans; [exact Hp1|]. eapply permuted_trans; [exact Hp2|].
      eapply permuted_trans; [exact Hp3|].
      eapply permuted_trans; (eapply permuted_weaken; [| |eassumption]; lia).
    + apply (sorted_join l r p pivot); [done| | |done| |].
      * destruct Hp5 as [_ [_ Ho5]]. destruct Hp4 as [_ [_ Ho4]].
        by rewrite Ho5, Ho4 by lia.
      * apply (sorted_in_same _ _ arr4); [|done].
        intros k Hk. destruct Hp5 as [_ [_ Ho5]]. apply Ho5. lia.
      * apply (all_in_outside l (p - 1) (p + 1) r arr4); [lia|done|].
        apply (all_in_permuted l (p - 1) l (p - 1) arr3); [lia..|done|done].
      * apply (all_in_permuted (p + 1) r (p + 1) r arr4); [lia..|done|].
        apply (all_in_outside (p + 1) r l (p - 1) arr3); [lia|done|].
        eapply all_in_weaken; [|exact Hright]. simpl. lia.
    + apply (depth_ok_enter (p - 1 - l + 1) (r - (p + 1) + 1) (r - l + 1) m m3 m4 m4 m5);
        [lia|lia|lia| |done|apply counted_refl|done].
      eapply counted_trans; [exact Hc1|].
      eapply counted_trans; [apply counted_swap|exact Hc3].
Qed.

End QuickSortTwoWay.

(** ** Pivot functions *)

Lemma median_index_spec (a b c : Z) (ia ib ic : Z) :
  let i := median_index (bool_decide (a < b)%Z) (bool_decide (b < c)%Z)
             (bool_decide (a < c)%Z) ia ib ic in
  let v := (a + b + c - Z.min a (Z.min b c) - Z.max a (Z.max b c))%Z in
  (i = ia ∧ v = a) ∨ (i = ib ∧ v = b) ∨ (i = ic ∧ v = c).
Proof.
  unfold median_index.
  repeat case_bool_decide; simpl; lia.
Qed.

Lemma findPivot_Naive_ok Rng N : pivot_ok N (findPivot_Naive Rng).
Proof.
  intros arr l r m rng Hfit Hl Hr HN. exists l, arr, m, rng.
  split_and!; [done|lia|lia|apply permuted_refl|apply counted_refl].
Qed.

Lemma quot2_range l r : (0 ≤ l ≤ r)%Z → (l ≤ l + (r - l) `quot` 2 ≤ r)%Z.
Proof.
  intros Hl. rewrite Z.quot_div_nonneg by lia.
  pose proof (Z.div_pos (r - l) 2). pose proof (Z.div_le_upper_bound (r - l) 2 (r - l)).
  lia.
Qed.

Lemma findPivot_MedianOfThree_spec Rng arr l r m (rng : Rng) :
  (0 ≤ l ≤ r)%Z → (r < Z.of_nat (length arr))%Z →
  ∃ a b c i,
    item arr l = Some a ∧ item arr (l + (r - l) `quot` 2) = Some b ∧
    item arr r = Some c ∧
    findPivot_MedianOfThree Rng arr l r m rng
      = Returns (i, arr, count_comparison (count_comparison (count_comparison m)), rng) ∧
    (i = l ∨ i = (l + (r - l) `quot` 2)%Z ∨ i = r) ∧
    item arr i = Some (a + b + c - Z.min a (Z.min b c) - Z.max a (Z.max b c))%Z.
Proof.
  intros Hl Hr. pose proof (quot2_range l r Hl) as Hmid.
  destruct (item_is_Some arr l) as [a Ha]; [lia|].
  destruct (item_is_Some arr (l + (r - l) `quot` 2)) as [b Hb]; [lia|].
  destruct (item_is_Some arr r) as [c Hc]; [lia|].
  exists a, b, c. eexists. split_and!; [done..| | |].
  - unfold findPivot_MedianOfThree.
    rewrite (load_item _ _ _ Ha), bind_Returns, (load_item _ _ _ Hb), bind_Returns,
      (load_item _ _ _ Hc), bind_Returns. done.
  - destruct (median_index_spec a b c l (l + (r - l) `quot` 2) r)
      as [[-> _]|[[-> _]|[-> _]]]; auto.
  - destruct (median_index_spec a b c l (l + (r - l) `quot` 2) r)
      as [[-> ->]|[[-> ->]|[-> ->]]]; auto.
Qed.

Lemma findPivot_MedianOfThree_ok Rng N : pivot_ok N (findPivot_MedianOfThree Rng).
Proof.
  intros arr l r m rng Hfit Hl Hr HN.
  destruct (findPivot_MedianOfThree_spec Rng arr l r m rng)
    as (a & b & c & i & _ & _ & _ & -> & Hi & _); [lia..|].
  pose proof (quot2_range l r ltac:(lia)).
  eexists i, arr, _, rng. split_and!; [done|destruct Hi as [->|[->| ->]]; lia..| |].
  - apply permuted_refl.
  - eapply counted_trans; [|apply counted_comparison].
    eapply counted_trans; [|apply counted_comparison]. apply counted_comparison.
Qed.

Section Randomized.

Context {Rng : Type}.
Variable uniform : Rng → Z → Z → Z * Rng.
Hypothesis uniform_range :
  ∀ rng l r, (l ≤ r)%Z → (l ≤ (uniform rng l r).1 ≤ r)%Z.

Lemma draw_spec rng l r :
  (l ≤ r)%Z →
  ∃ i rng', draw Rng uniform rng l r = Returns (i, rng') ∧ (l ≤ i ≤ r)%Z.
Proof.
  intros Hlr. unfold draw. rewrite decide_True by done.
  pose proof (uniform_range rng l r Hlr).
  destruct (uniform rng l r) as [i rng']. by exists i, rng'.
Qed.

Lemma findPivot_Randomized_ok N : pivot_ok N (findPivot_Randomized Rng uniform).
Proof.
  intros arr l r m rng Hfit Hl Hr HN. unfold findPivot_Randomized.
  destruct (draw_spec rng l r) as (i & rng' & -> & Hi); [lia|].
  rewrite bind_Returns. exists i, arr, m, rng'.
  split_and!; [done|lia|lia|apply permuted_refl|apply counted_refl].
Qed.

Lemma findPivot_RandomizedMedianOfThree_ok N :
  pivot_ok N (findPivot_RandomizedMedianOfThree Rng uniform).
Proof.
  intros arr l r m rng Hfit Hl Hr HN. unfold findPivot_RandomizedMedianOfThree.
  destruct (draw_spec rng l r) as (i1 & rng1 & -> & Hi1); [lia|]. rewrite bind_Returns.
  destruct (draw_spec rng1 l r) as (i2 & rng2 & -> & Hi2); [lia|]. rewrite bind_Returns.
  destruct (draw_spec rng2 l r) as (i3 & rng3 & -> & Hi3); [lia|]. rewrite bind_Returns.
  destruct (item_is_Some arr i1) as [a Ha]; [lia|].
  destruct (item_is_Some arr i2) as [b Hb]; [lia|].
  destruct (item_is_Some arr i3) as [c Hc]; [lia|].
  rewrite (load_item _ _ _ Ha), bind_Returns, (load_item _ _ _ Hb), bind_Returns,
    (load_item _ _ _ Hc), bind_Returns.
  eexists _, arr, _, rng3. split; [done|].
  split_and!.
  - destruct (median_index_spec a b c i1 i2 i3) as [[-> _]|[[-> _]|[-> _]]]; lia.
  - destruct (median_index_spec a b c i1 i2 i3) as [[-> _]|[[-> _]|[-> _]]]; lia.
  - apply permuted_refl.
  - eapply counted_trans; [|apply counted_comparison].
    eapply counted_trans; [|apply counted_comparison]. apply counted_comparison.
Qed.

End Randomized.

(** ** The three-way partition *)

Lemma three_way_step_spec l r pivot arr0 m0 lt gt i arr m :
  (0 ≤ l)%Z → (r < Z.of_nat (length arr0))%Z →
  three_way_inv l r pivot arr0 m0 (lt, gt, i, arr, m) → (i ≤ gt)%Z →
  ∃ st', three_way_step pivot (lt, gt, i, arr, m) = Returns st' ∧
    three_way_inv l r pivot arr0 m0 st' ∧
    Z.to_nat (st'.1.1.1.2 + 1 - st'.1.1.2) < Z.to_nat (gt + 1 - i).
Proof.
  intros Hl Hr (Hlt & Hi & Hgt & Hperm & Hless & Heq & Hgreater & Hcnt & Hlo & Hhi) Hle.
  pose proof (permuted_length _ _ _ _ Hperm) as Hlen.
  unfold three_way_step.
  destruct (item_is_Some arr i) as [a Ha]; [lia|].
  destruct (item_is_Some arr lt) as [b Hb]; [lia|].
  destruct (item_is_Some arr gt) as [c Hc]; [lia|].
  assert (b = pivot) as -> by (apply (Heq lt); [lia|done]).
  rewrite (load_item _ _ _ Ha), bind_Returns.
  unfold compare_counted. case_bool_decide as Hap.
  - destruct (swap_counted_spec l r arr lt i (count_comparison m) pivot a)
      as (arr' & -> & Hp' & Hlt' & Hi' & Hoth); [lia|lia|done|done|].
    rewrite bind_Returns. eexists. split; [done|]. simpl. split; [|lia].
    pose proof Hcnt as (? & ? & ? & ?).
    split_and!; try fin.
    + by eapply permuted_trans.
    + intros k x Hk Hx. destruct (decide (k = lt)) as [->|Hne].
      * simplify_eq. lia.
      * rewrite Hoth in Hx by lia. apply (Hless k); [lia|done].
    + intros k x Hk Hx. destruct (decide (k = i)) as [->|Hne].
      * by simplify_eq.
      * rewrite Hoth in Hx by lia. apply (Heq k); [lia|done].
    + intros k x Hk Hx. rewrite Hoth in Hx by lia. apply (Hgreater k); [lia|done].
    + eapply counted_trans; [|apply counted_swap].
      eapply counted_trans; [exact Hcnt|apply counted_comparison].
  - rewrite bind_Returns. case_bool_decide as Hpa.
    + destruct (swap_counted_spec l r arr i gt (count_comparison (count_comparison m)) a c)
        as (arr' & -> & Hp' & Hi' & Hgt' & Hoth); [lia|lia|done|done|].
      rewrite bind_Returns. eexists. split; [done|]. simpl. split; [|lia].
      pose proof Hcnt as (? & ? & ? & ?).
      split_and!; try fin.
      * by eapply permuted_trans.
      * intros k x Hk Hx. rewrite Hoth in Hx by lia. apply (Hless k); [lia|done].
      * intros k x Hk Hx. rewrite Hoth in Hx by lia. apply (Heq k); [lia|done].
      * intros k x Hk Hx. destruct (decide (k = gt)) as [->|Hne].
        -- simplify_eq. lia.
        -- rewrite Hoth in Hx by lia. apply (Hgreater k); [lia|done].
      * eapply counted_trans; [|apply counted_swap].
        eapply counted_trans; [|apply counted_comparison].
        eapply counted_trans; [exact Hcnt|apply counted_comparison].
    + eexists. split; [done|]. simpl. split; [|lia].
      pose proof Hcnt as (? & ? & ? & ?).
      split_and!; try fin.
      * intros k x Hk Hx. destruct (decide (k = i)) as [->|Hne].
        -- simplify_eq. lia.
        -- apply (Heq k); [lia|done].
      * eapply counted_trans; [|apply counted_comparison].
        eapply counted_trans; [exact Hcnt|apply counted_comparison].
Qed.

Lemma partition_ThreeWay_spec fuel arr l r m pivot :
  (0 ≤ l ≤ r)%Z → (r < Z.of_nat (length arr))%Z → item arr l = Some pivot →
  Z.to_nat (r - l) ≤ fuel →
  ∃ lt gt arr' m', partition_ThreeWay fuel arr l r m = Returns (lt, gt, arr', m') ∧
    (l ≤ lt ≤ gt)%Z ∧ (gt ≤ r)%Z ∧ permuted l r arr arr' ∧
    all_in l (lt - 1) arr' (λ x, x < pivot)%Z ∧
    all_in lt gt arr' (λ x, x = pivot) ∧
    all_in (gt + 1) r arr' (λ x, pivot < x)%Z ∧
    counted m m' ∧
    (r - l ≤ m'.(comparisons) - m.(comparisons) ≤ 2 * (r - l))%Z.
Proof.
  intros Hl Hr Hpivot Hfuel. unfold partition_ThreeWay.
  rewrite (load_item _ _ _ Hpivot), bind_Returns.
  while_rule_with
    (three_way_inv l r pivot arr m)
    (λ st : Z * Z * Z * list Z * Metrics,
       three_way_inv l r pivot arr m st ∧ (st.1.1.1.2 < st.1.1.2)%Z)
    (λ st : Z * Z * Z * list Z * Metrics, Z.to_nat (st.1.1.1.2 + 1 - st.1.1.2)) Hw.
  destruct Hw with (fuel := fuel) (s := (l, r, (l + 1)%Z, arr, m))
    as ([[[[lt gt] i] arr1] m1] & -> & Hinv & Hexit).
  - intros [[[[lt gt] i] arr1] m1] Hinv. eexists _, _. split; [done|].
    case_bool_decide as Hle.
    + destruct (three_way_step_spec l r pivot arr m lt gt i arr1 m1) as (st' & Hst & Hinv' & Hμ);
        [lia|lia|done|done|].
      exists st'. by split_and!.
    + split; [done|]. simpl. lia.
  - unfold three_way_inv. split_and!; try fin.
    + intros k x Hk. lia.
    + intros k x Hk Hx. assert (k = l) as -> by lia. congruence.
    + intros k x Hk. lia.
  - simpl. lia.
  - rewrite bind_Returns. simpl in Hexit.
    destruct Hinv as (Hlt & Hi & Hgt & Hperm & Hless & Heq & Hgreater & Hcnt & Hlo & Hhi).
    assert (i = gt + 1)%Z as -> by lia.
    exists lt, gt, arr1, m1. split_and!; try fin.
    by replace (gt + 1 - 1)%Z with gt in Heq by lia.
Qed.

(** ** Three-way quicksort *)

Lemma sorted_join3 l r lt gt pivot arr :
  (l ≤ lt ≤ gt)%Z → (gt ≤ r)%Z →
  sorted_in l (lt - 1) arr → sorted_in (gt + 1) r arr →
  all_in l (lt - 1) arr (λ x, x < pivot)%Z →
  all_in lt gt arr (λ x, x = pivot) →
  all_in (gt + 1) r arr (λ x, pivot < x)%Z →
  sorted_in l r arr.
Proof.
  intros Hlt Hgt Hsl Hsr Hl Hm Hr i j x y Hij Hj Hx Hy.
  destruct (decide (j < lt)%Z); [apply (Hsl i j); (done || lia)|].
  destruct (decide (gt < i)%Z); [apply (Hsr i j); (done || lia)|].
  assert (x ≤ pivot)%Z.
  { destruct (decide (i < lt)%Z).
    - pose proof (Hl i x ltac:(lia) Hx). simpl in *. lia.
    - pose proof (Hm i x ltac:(lia) Hx). simpl in *. lia. }
  assert (pivot ≤ y)%Z.
  { destruct (decide (gt < j)%Z).
    - pose proof (Hr j y ltac:(lia) Hy). simpl in *. lia.
    - pose proof (Hm j y ltac:(lia) Hy). simpl in *. lia. }
  lia.
Qed.

Lemma quicksort_ThreeWay_spec fuel :
  ∀ arr l r m,
    (0 ≤ l)%Z → (r < Z.of_nat (length arr))%Z → Z.to_nat (r - l) ≤ fuel →
    ∃ arr' m',
      quicksort_ThreeWay fuel arr l r m = Returns (arr', m') ∧
      permuted l r arr arr' ∧ sorted_in l r arr' ∧ depth_ok (r - l + 1) m m'.
Proof.
  induction fuel as [|fuel IH]; intros arr l r m Hl Hr Hfuel.
  - exists arr, m. simpl. rewrite decide_True by lia.
    split_and!; [done|apply permuted_refl|apply sorted_in_empty; lia|].
    unfold depth_ok. lia.
  - cbn [quicksort_ThreeWay]. case_decide as Hrl.
    { exists arr, m. split_and!; [done|apply permuted_refl|by apply sorted_in_empty|].
      unfold depth_ok. lia. }
    destruct (item_is_Some arr l) as [pivot Hpiv]; [lia|].
    destruct (partition_ThreeWay_spec (S fuel) arr l r (enter m) pivot)
      as (lt & gt & arr1 & m1 & -> & Hlt & Hgt & Hp1 & Hless & Heq & Hgreater & Hc1 & _);
      [lia|lia|done|lia|].
    rewrite bind_Returns.
    pose proof (permuted_length _ _ _ _ Hp1) as Hlen1.
    destruct (IH arr1 l (lt - 1)%Z m1) as (arr2 & m2 & -> & Hp2 & Hs2 & Hd2); [lia..|].
    rewrite bind_Returns.
    pose proof (permuted_length _ _ _ _ Hp2) as Hlen2.
    destruct (IH arr2 (gt + 1)%Z r m2) as (arr3 & m3 & -> & Hp3 & Hs3 & Hd3); [lia..|].
    rewrite bind_Returns.
    exists arr3, (leave m3). split_and!; [done| | |].
    + eapply permuted_trans; [exact Hp1|].
      eapply permuted_trans; (eapply permuted_weaken; [| |eassumption]; lia).
    + apply (sorted_join3 l r lt gt pivot); [done|done| |done| | |].
      * apply (sorted_in_same _ _ arr2); [|done].
        intros k Hk. destruct Hp3 as [_ [_ Ho3]]. apply Ho3. lia.
      * apply (all_in_outside l (lt - 1) (gt + 1) r arr2); [lia|done|].
        apply (all_in_permuted l (lt - 1) l (lt - 1) arr1); [lia..|done|done].
      * apply (all_in_outside lt gt (gt + 1) r arr2); [lia|done|].
        apply (all_in_outside lt gt l (lt - 1) arr1); [lia|done|done].
      * apply (all_in_permuted (gt + 1) r (gt + 1) r arr2); [lia..|done|].
        apply (all_in_outside (gt + 1) r l (lt - 1) arr1); [lia|done|done].
    + apply (depth_ok_enter (lt - 1 - l + 1) (r - (gt + 1) + 1) (r - l + 1) m m1 m2 m2 m3);
        [lia|lia|lia|done|done|apply counted_refl|done].
Qed.

(** ** The insertion sort of the groups of five *)

Lemma insert_shift arr1 (j : Z) key a :
  (0 ≤ j)%Z → (j + 1 < Z.of_nat (length arr1))%Z → item arr1 j = Some a →
  <[Z.to_nat (j - 1 + 1):=key]> (<[Z.to_nat (j + 1):=a]> arr1)
  ≡ₚ <[Z.to_nat (j + 1):=key]> arr1.
Proof.
  intros Hj Hlen Ha. unfold item in Ha. rewrite decide_True in Ha by lia.
  replace (Z.to_nat (j - 1 + 1)) with (Z.to_nat j) by lia.
  replace (Z.to_nat (j + 1)) with (S (Z.to_nat j)) by lia.
  set (n := Z.to_nat j) in *.
  pose proof (Permutation_insert_swap (<[S n:=key]> arr1) n (S n) a key) as Hp.
  rewrite list_lookup_insert_ne in Hp by lia.
  rewrite list_lookup_insert_eq in Hp by lia.
  specialize (Hp Ha eq_refl).
  rewrite (list_insert_insert_ne _ n (S n) key key) in Hp by lia.
  rewrite list_insert_insert_eq in Hp.
  by rewrite (list_insert_insert_ne _ (S n) n) in Hp by lia.
Qed.

Lemma shift_greater_spec fuel l i key arr m :
  (0 ≤ l ≤ i)%Z → (i < Z.of_nat (length arr))%Z → item arr i = Some key →
  Z.to_nat (i - l) ≤ fuel →
  ∃ j arr1 m1, shift_greater fuel l key ((i - 1)%Z, arr, m) = Returns (j, arr1, m1) ∧
    shift_inv l i key arr m (j, arr1, m1) ∧
    ((l ≤ j)%Z → (∃ a, item arr j = Some a ∧ (a ≤ key)%Z) ∧
       m1.(comparisons) = (m.(comparisons) + (i - 1 - j) + 1)%Z).
Proof.
  intros Hl Hi Hkey Hfuel. unfold shift_greater.
  while_rule_with
    (λ st : Z * list Z * Metrics,
       shift_inv l i key arr m st ∧
       st.2.(comparisons) = (m.(comparisons) + (i - 1 - st.1.1))%Z)
    (λ st : Z * list Z * Metrics,
       shift_inv l i key arr m st ∧
       ((l ≤ st.1.1)%Z → (∃ a, item arr st.1.1 = Some a ∧ (a ≤ key)%Z) ∧
          st.2.(comparisons) = (m.(comparisons) + (i - 1 - st.1.1) + 1)%Z))
    (λ st : Z * list Z * Metrics, Z.to_nat (st.1.1 - l + 1)) Hw.
  destruct Hw with (fuel := fuel) (s := ((i - 1)%Z, arr, m))
    as ([[j arr1] m1] & -> & Hinv & Hstop).
  - intros [[j arr1] m1]
      [(Hj & Hlen & Hlow & Hhigh & Hgt & Hperm & Hcnt & Hsw & Hcmp & Hcmpl) Hcmpeq].
    simpl in Hcmpeq.
    case_decide as Hle.
    + destruct (item_is_Some arr j) as [a Ha]; [lia|].
      assert (item arr1 j = Some a) as Ha1 by (rewrite Hlow by lia; done).
      rewrite (load_item _ _ _ Ha1), bind_Returns.
      unfold compare_counted. case_bool_decide as Hc.
      * eexists true, _. split; [done|]. cbv beta iota.
        rewrite (load_item _ _ _ Ha1), bind_Returns.
        rewrite store_Returns, bind_Returns by lia.
        eexists. split; [done|]. simpl. split; [|lia].
        split; [|lia].
        split_and!; try fin.
        -- by rewrite length_insert.
        -- intros k Hk. rewrite item_insert by lia.
           rewrite decide_False by lia. apply Hlow. lia.
        -- intros k Hk. rewrite item_insert by lia.
           case_decide as Hkj.
           ++ subst k. by replace (j + 1 - 1)%Z with j by lia.
           ++ apply Hhigh. lia.
        -- intros k x Hk Hx. destruct (decide (k = j)) as [->|Hne].
           ++ simplify_eq. lia.
           ++ apply (Hgt k); [lia|done].
        -- rewrite insert_shift; [done|lia|lia|done].
        -- eapply counted_trans; [|apply counted_swap].
           eapply counted_trans; [exact Hcnt|apply counted_comparison].
      * eexists false, _. split; [done|]. simpl. split.
        -- split_and!; try fin.
        -- intros _. split; [|lia]. exists a. split; [done|lia].
    + eexists false, _. split; [done|]. simpl. split.
      * split_and!; try fin.
      * intros ?. lia.
  - simpl. split; [|lia]. split_and!; try fin.
    + intros k x Hk. lia.
    + replace (i - 1 + 1)%Z with i by lia. rewrite list_insert_id; [done|].
      unfold item in Hkey. by rewrite decide_True in Hkey by lia.
  - simpl. lia.
  - by exists j, arr1, m1.
Qed.

Lemma insert_body_spec fuel l i arr m :
  (0 ≤ l < i)%Z → (i < Z.of_nat (length arr))%Z → sorted_in l (i - 1) arr →
  Z.to_nat (i - l) ≤ fuel →
  ∃ arr' m', insert_body fuel l i (arr, m) = Returns (arr', m') ∧
    permuted l i arr arr' ∧ sorted_in l i arr' ∧ counted m m' ∧
    (1 ≤ m'.(comparisons) - m.(comparisons) ≤ i - l)%Z ∧
    (m'.(swaps) - m.(swaps) ≤ m'.(comparisons) - m.(comparisons))%Z.
Proof.
  intros Hl Hi Hsorted Hfuel. unfold insert_body.
  destruct (item_is_Some arr i) as [key Hkey]; [lia|].
  rewrite (load_item _ _ _ Hkey), bind_Returns.
  destruct (shift_greater_spec fuel l i key arr m) as (j & arr1 & m1 & -> & Hinv & Hstop);
    [lia|done|done|done|].
  destruct Hinv as (Hj & Hlen & Hlow & Hhigh & Hgt & Hperm & Hcnt & Hsw & Hcmp & Hcmpl).
  rewrite bind_Returns, store_Returns, bind_Returns by lia.
  eexists _, _. split; [done|].
  assert (∀ k, item (<[Z.to_nat (j + 1):=key]> arr1) k =
    if decide (k = j + 1)%Z then Some key
    else if decide (j + 2 ≤ k ≤ i)%Z then item arr (k - 1) else item arr k) as Hitem.
  { intros k. rewrite item_insert by lia. case_decide; [done|].
    case_decide; [by apply Hhigh|]. apply Hlow. lia. }
  assert (m1.(comparisons) =
    m.(comparisons) + (i - 1 - j) + (if decide (l ≤ j)%Z then 1 else 0))%Z as Hcmpx.
  { case_decide as Hlj.
    - by destruct Hstop as [_ ?].
    - rewrite Hcmpl by lia. lia. }
  assert (m1.(comparisons) - m.(comparisons) ≤ i - l)%Z by (case_decide; lia).
  assert (1 ≤ m1.(comparisons) - m.(comparisons))%Z by (case_decide; lia).
  clear Hcmpx.
  split_and!; try (done || lia).
  - split; [done|]. split; [by rewrite length_insert|].
    intros k Hk. rewrite Hitem. by rewrite !decide_False by lia.
  - assert (∀ k x, item (<[Z.to_nat (j + 1):=key]> arr1) k = Some x →
      (k ≤ j ∧ item arr k = Some x)%Z ∨ (k = j + 1 ∧ x = key)%Z ∨
      (j + 2 ≤ k ≤ i ∧ item arr (k - 1) = Some x)%Z ∨ (i < k)%Z) as Hval.
    { intros k x. rewrite Hitem. repeat case_decide.
      - intros [= <-]. right. left. done.
      - intros ?. right. right. left. done.
      - intros ?. destruct (decide (k ≤ j)%Z); [by left|]. right. right. right. lia. }
    intros a b x y Hab Hb Hx Hy.
    destruct (Hval a x Hx) as [[? Hx']|[[? ->]|[[? Hx']|?]]];
      destruct (Hval b y Hy) as [[? Hy']|[[? ->]|[[? Hy']|?]]]; try lia.
    + apply (Hsorted a b); (done || lia).
    + destruct Hstop as [(c & Hc & Hck) _]; [lia|].
      trans c; [|done]. apply (Hsorted a j); (done || lia).
    + apply (Hsorted a (b - 1)%Z); (done || lia).
    + apply Z.lt_le_incl. apply (Hgt (b - 1)%Z); [lia|done].
    + apply (Hsorted (a - 1)%Z (b - 1)%Z); (done || lia).
Qed.

Lemma sort5_MoM_spec fuel arr l r m :
  (0 ≤ l ≤ r)%Z → (r < Z.of_nat (length arr))%Z → Z.to_nat (r - l) ≤ fuel →
  ∃ arr' m', sort5_MoM fuel arr l r m = Returns (arr', m') ∧
    permuted l r arr arr' ∧ sorted_in l r arr' ∧ counted m m' ∧
    (r - l ≤ m'.(comparisons) - m.(comparisons))%Z ∧
    (2 * (m'.(comparisons) - m.(comparisons)) ≤ (r - l) * (r - l + 1))%Z ∧
    (m'.(swaps) - m.(swaps) ≤ m'.(comparisons) - m.(comparisons))%Z.
Proof.
  intros Hl Hr Hfuel. unfold sort5_MoM.
  destruct (for_up_rule
    (λ i (st : list Z * Metrics),
       permuted l r arr st.1 ∧ sorted_in l (i - 1) st.1 ∧ counted m st.2 ∧
       (i - 1 - l ≤ st.2.(comparisons) - m.(comparisons))%Z ∧
       (2 * (st.2.(comparisons) - m.(comparisons)) ≤ (i - 1 - l) * (i - l))%Z ∧
       (st.2.(swaps) - m.(swaps) ≤ st.2.(comparisons) - m.(comparisons))%Z)
    (insert_body fuel l) (Z.to_nat (r - l)) (l + 1)%Z (arr, m))
    as ([arr' m'] & -> & Hp & Hs & Hc & Hlo & Hhi & Hsw).
  - simpl. split_and!; try fin.
    intros i j x y Hij Hj Hx Hy. assert (i = j) as -> by lia. simplify_eq. done.
  - intros i [arr1 m1] Hi (Hp & Hs & Hc & Hlo & Hhi & Hsw).
    simpl in Hp, Hs, Hc, Hlo, Hhi, Hsw.
    pose proof (permuted_length _ _ _ _ Hp) as Hlen.
    destruct (insert_body_spec fuel l i arr1 m1) as (arr2 & m2 & -> & Hp2 & Hs2 & Hc2 & Hcmp2 & Hsw2);
      [lia|lia|done|lia|].
    eexists. split; [done|]. simpl.
    replace (i + 1 - 1)%Z with i by lia.
    split_and!; try fin.
    + eapply permuted_trans; [exact Hp|].
      eapply permuted_weaken; [| |exact Hp2]; lia.
    + by eapply counted_trans.
  - simpl in *. exists arr', m'. split; [done|].
    replace (l + 1 + Z.of_nat (Z.to_nat (r - l)) - 1)%Z with r in * by lia.
    replace (l + 1 + Z.of_nat (Z.to_nat (r - l)) - l)%Z with (r - l + 1)%Z in * by lia.
    split_and!; try fin.
Qed.

(** ** Median of medians *)

Lemma groups_range n :
  (6 ≤ n)%Z → (2 ≤ (n + 4) `quot` 5 < n)%Z ∧
  ∀ i, (0 ≤ i < (n + 4) `quot` 5)%Z → (5 * i ≤ n - 1)%Z.
Proof.
  intros Hn. rewrite Z.quot_div_nonneg by lia.
  pose proof (Z.div_mod (n + 4) 5 ltac:(lia)).
  pose proof (Z.mod_pos_bound (n + 4) 5 ltac:(lia)).
  split; [lia|]. intros i Hi. lia.
Qed.

Lemma group_body_spec fuel l r i arr m :
  (0 ≤ l)%Z → (r < Z.of_nat (length arr))%Z → (0 ≤ i)%Z → (l + 5 * i ≤ r)%Z →
  4 ≤ fuel →
  ∃ arr' m', group_body fuel l r i (arr, m) = Returns (arr', m') ∧
    permuted l r arr arr' ∧ counted m m'.
Proof.
  intros Hl Hr Hi Hir Hfuel. unfold group_body.
  set (subL := (l + i * 5)%Z). set (subR := Z.min (subL + 4) r).
  destruct (sort5_MoM_spec fuel arr subL subR m) as (arr1 & m1 & -> & Hp1 & _ & Hc1 & _);
    [lia..|].
  rewrite bind_Returns.
  pose proof (permuted_length _ _ _ _ Hp1) as Hlen.
  pose proof (quot2_range subL subR ltac:(lia)) as Hmid.
  destruct (item_is_Some arr1 (l + i)) as [a Ha]; [lia|].
  destruct (item_is_Some arr1 (subL + (subR - subL) `quot` 2)) as [b Hb]; [lia|].
  destruct (swap_counted_spec l r arr1 (l + i) (subL + (subR - subL) `quot` 2) m1 a b)
    as (arr2 & -> & Hp2 & _); [lia|lia|done|done|].
  eexists _, _. split; [done|]. split.
  - eapply permuted_trans; [|exact Hp2].
    eapply permuted_weaken; [| |exact Hp1]; lia.
  - eapply counted_trans; [exact Hc1|apply counted_swap].
Qed.

Lemma momSelect_spec fuel :
  ∀ arr l r k m,
    (0 ≤ l ≤ r)%Z → (r < Z.of_nat (length arr))%Z → (0 ≤ k ≤ r - l)%Z →
    (r - l + 1 ≤ Z.of_nat fuel)%Z →
    ∃ p arr' m', momSelect fuel arr l r k m = Returns (p, arr', m') ∧
      (l ≤ p ≤ r)%Z ∧ permuted l r arr arr' ∧ counted m m' ∧
      ((r - l + 1 ≤ 5)%Z → p = (l + k)%Z ∧ sorted_in l r arr').
Proof.
  induction fuel as [|fuel IH]; intros arr l r k m Hl Hr Hk Hfuel; [lia|].
  cbn [momSelect]. case_decide as Hn.
  - destruct (sort5_MoM_spec (S fuel) arr l r m) as (arr1 & m1 & -> & Hp1 & Hs1 & Hc1 & _);
      [lia..|].
    rewrite bind_Returns. eexists _, _, _. split; [done|]. split_and!; try fin.
  - destruct (groups_range (r - l + 1)) as [Hng Hgroup]; [lia|].
    set (numGroups := ((r - l + 1 + 4) `quot` 5)%Z) in *.
    destruct (for_up_rule
      (λ (i : Z) (st : list Z * Metrics), permuted l r arr st.1 ∧ counted m st.2)
      (group_body (S fuel) l r) (Z.to_nat numGroups) 0%Z (arr, m))
      as ([arr1 m1] & -> & Hp1 & Hc1).
    + split; [apply permuted_refl|apply counted_refl].
    + intros i [arr1 m1] Hi [Hp1 Hc1]. simpl in Hp1, Hc1.
      pose proof (permuted_length _ _ _ _ Hp1) as Hlen.
      destruct (group_body_spec (S fuel) l r i arr1 m1) as (arr2 & m2 & -> & Hp2 & Hc2);
        [lia|lia|lia| |lia|].
      { specialize (Hgroup i). lia. }
      eexists. split; [done|]. simpl. split.
      * by eapply permuted_trans.
      * by eapply counted_trans.
    + rewrite bind_Returns. simpl in Hp1, Hc1.
      pose proof (permuted_length _ _ _ _ Hp1) as Hlen.
      pose proof (quot2_range 0 (numGroups - 1) ltac:(lia)) as Hmid.
      rewrite Z.add_0_l, Z.sub_0_r in Hmid.
      destruct (IH arr1 l (l + numGroups - 1)%Z ((numGroups - 1) `quot` 2)%Z m1)
        as (p & arr2 & m2 & -> & Hp & Hp2 & Hc2 & _); [lia..|].
      exists p, arr2, m2. split; [done|]. split_and!; try fin.
      * eapply permuted_trans; [exact Hp1|].
        eapply permuted_weaken; [| |exact Hp2]; lia.
      * by eapply counted_trans.
Qed.

Lemma findPivot_MoM_ok Rng fuel N :
  (N ≤ Z.of_nat fuel)%Z → pivot_ok N (findPivot_MoM Rng fuel).
Proof.
  intros HN arr l r m rng Hfit Hl Hr Hn. unfold findPivot_MoM.
  pose proof (quot2_range 0 (r - l) ltac:(lia)) as Hmid.
  rewrite Z.add_0_l, Z.sub_0_r in Hmid.
  replace (r - l + 1 - 1)%Z with (r - l)%Z by lia.
  destruct (momSelect_spec fuel arr l r ((r - l) `quot` 2)%Z m)
    as (p & arr' & m' & -> & Hp & Hperm & Hc & _); [lia..|].
  rewrite bind_Returns. by exists p, arr', m', rng.
Qed.

(** ** Merge sort *)

Lemma permuted_from_range (l r : nat) arr arr' :
  l ≤ S r → S r ≤ length arr →
  same_outside (Z.of_nat l) (Z.of_nat r) arr arr' →
  take (S r - l) (drop l arr') ≡ₚ take (S r - l) (drop l arr) →
  permuted (Z.of_nat l) (Z.of_nat r) arr arr'.
Proof.
  intros Hl Hr [Hlen Ho] Hseg. split; [|done].
  assert (take l arr' = take l arr) as Htake.
  { apply list_eq. intros i. rewrite !lookup_take.
    case_decide; [|done]. rewrite <- !item_nat. apply Ho. lia. }
  assert (drop (S r) arr' = drop (S r) arr) as Hdrop.
  { apply list_eq. intros i. rewrite !lookup_drop.
    rewrite <- !item_nat. apply Ho. lia. }
  rewrite (range_split l r arr Hl Hr).
  rewrite (range_split l r arr') by lia.
  by rewrite Htake, Hdrop, Hseg.
Qed.

Lemma copy_spec arr (off n : Z) :
  (0 ≤ off)%Z → (0 ≤ n)%Z → (off + n ≤ Z.of_nat (length arr))%Z →
  for_up (Z.to_nat n) 0 (λ i L, a ← load arr (off + i); store L i a)
    (replicate (Z.to_nat n) 0%Z)
  = Returns (take (Z.to_nat n) (drop (Z.to_nat off) arr)).
Proof.
  intros Hoff Hn Hlen.
  destruct (for_up_rule
    (λ (i : Z) (L : list Z), length L = Z.to_nat n ∧
       ∀ k, (0 ≤ k < i)%Z → item L k = item arr (off + k))
    (λ i L, a ← load arr (off + i); store L i a)
    (Z.to_nat n) 0%Z (replicate (Z.to_nat n) 0%Z)) as (L & -> & HL & Hitem).
  - split; [by rewrite length_replicate|]. intros k Hk. lia.
  - intros i L Hi [HL Hitem].
    destruct (item_is_Some arr (off + i)) as [a Ha]; [lia|].
    rewrite (load_item _ _ _ Ha), bind_Returns, store_Returns by lia.
    eexists. split; [done|]. split; [by rewrite length_insert|].
    intros k Hk. rewrite item_insert by lia. case_decide as Hki.
    + by subst k.
    + apply Hitem. lia.
  - f_equal. apply list_eq. intros k.
    destruct (decide (k < Z.to_nat n)) as [Hk|Hk].
    + rewrite lookup_take, decide_True, lookup_drop by done.
      rewrite <- item_nat, Hitem by lia. unfold item.
      rewrite decide_True by lia. f_equal. lia.
    + rewrite lookup_take, decide_False by done. apply lookup_ge_None_2. lia.
Qed.

Lemma seg_snoc (arr1 : list Z) (l k : Z) (a : Z) :
  (0 ≤ l ≤ k)%Z → (k < Z.of_nat (length arr1))%Z →
  take (Z.to_nat (k + 1 - l)) (drop (Z.to_nat l) (<[Z.to_nat k:=a]> arr1))
  = take (Z.to_nat (k - l)) (drop (Z.to_nat l) arr1) ++ [a].
Proof.
  intros Hl Hk.
  replace (Z.to_nat (k + 1 - l)) with (S (Z.to_nat (k - l))) by lia.
  rewrite drop_insert_ge by lia.
  replace (Z.to_nat k - Z.to_nat l) with (Z.to_nat (k - l)) by lia.
  rewrite (take_S_r _ _ a).
  - by rewrite take_insert_ge by lia.
  - apply list_lookup_insert_eq. rewrite length_drop. lia.
Qed.

Lemma item_take_S (L : list Z) (i : Z) (a : Z) :
  (0 ≤ i)%Z → item L i = Some a →
  take (Z.to_nat (i + 1)) L = take (Z.to_nat i) L ++ [a].
Proof.
  intros Hi Ha. unfold item in Ha. rewrite decide_True in Ha by done.
  replace (Z.to_nat (i + 1)) with (S (Z.to_nat i)) by lia.
  by apply take_S_r.
Qed.

Lemma merge_loop_inv_sym l L R arr i j k arr1 :
  merge_loop_inv l L R arr (i, j, k, arr1) → merge_loop_inv l R L arr (j, i, k, arr1).
Proof.
  intros (Hi & Hj & Hk & Ho & Hs & HL & HR & Hp).
  split_and!; try (done || lia). by rewrite Hp, Permutation_app_comm.
Qed.

(** One element of [L] goes to the output. *)
Lemma merge_take l L R arr i j k arr1 a :
  (0 ≤ l)%Z →
  (l + Z.of_nat (length L) + Z.of_nat (length R) ≤ Z.of_nat (length arr))%Z →
  sorted_in 0 (Z.of_nat (length L) - 1) L →
  merge_loop_inv l L R arr (i, j, k, arr1) →
  item L i = Some a → (∀ b, item R j = Some b → (a ≤ b)%Z) →
  merge_loop_inv l L R arr ((i + 1)%Z, j, (k + 1)%Z, <[Z.to_nat k:=a]> arr1).
Proof.
  intros Hl Hlen HsL (Hi & Hj & Hk & [Hlen1 Ho] & Hs & HL & HR & Hp) Ha Hab.
  apply item_lt in Ha as Hia.
  assert (∀ x, item (<[Z.to_nat k:=a]> arr1) x =
    if decide (x = k) then Some a else item arr1 x) as Hitem.
  { intros x. apply item_insert. lia. }
  replace (k + 1 - 1)%Z with k by lia.
  split_and!; try lia.
  - split; [by rewrite length_insert|].
    intros x Hx. rewrite Hitem, decide_False by lia. apply Ho. lia.
  - intros x y u v Hxy Hy. rewrite !Hitem. intros Hu Hv.
    destruct (decide (y = k)) as [->|Hyk].
    + injection Hv as <-. destruct (decide (x = k)) as [->|Hxk].
      * injection Hu as <-. done.
      * apply (HL x u); [lia|done|done].
    + rewrite decide_False in Hu by lia. apply (Hs x y); (done || lia).
  - intros x u Hx. rewrite Hitem. intros Hu y Hy.
    assert (a ≤ y)%Z as Hay.
    { apply item_lt in Hy as ?. apply (HsL i (i + 1)%Z); (done || lia). }
    case_decide.
    + injection Hu as <-. done.
    + trans a; [|done]. apply (HL x u); [lia|done|done].
  - intros x u Hx. rewrite Hitem. intros Hu y Hy.
    case_decide.
    + injection Hu as <-. by apply Hab.
    + apply (HR x u); [lia|done|done].
  - rewrite seg_snoc by lia. rewrite (item_take_S L i a) by (done || lia).
    rewrite Hp. rewrite <- !(assoc_L (++)). f_equiv. apply Permutation_app_comm.
Qed.

Section Merge.

Variables (l : Z) (L R arr : list Z) (m : Metrics).
Hypothesis Hl : (0 ≤ l)%Z.
Hypothesis Hlen :
  (l + Z.of_nat (length L) + Z.of_nat (length R) ≤ Z.of_nat (length arr))%Z.
Hypothesis HsL : sorted_in 0 (Z.of_nat (length L) - 1) L.
Hypothesis HsR : sorted_in 0 (Z.of_nat (length R) - 1) R.

Lemma merge_both_spec fuel :
  1 ≤ length L → length L + length R ≤ fuel →
  ∃ i j k arr1 m1,
    merge_both fuel L R (Z.of_nat (length L)) (Z.of_nat (length R)) (0%Z, 0%Z, l, arr, m)
      = Returns (i, j, k, arr1, m1) ∧
    merge_state_ok l L R arr m (i, j, k, arr1, m1) ∧
    (i = Z.of_nat (length L) ∨ j = Z.of_nat (length R)) ∧
    m1.(comparisons) = (m.(comparisons) + (k - l))%Z ∧
    (k - l ≤ Z.of_nat (length L) + Z.of_nat (length R) - 1)%Z.
Proof.
  intros HL1 Hfuel. unfold merge_both.
  while_rule_with
    (λ st : Z * Z * Z * list Z * Metrics,
       merge_state_ok l L R arr m st ∧
       st.2.(comparisons) = (m.(comparisons) + (st.1.1.2 - l))%Z ∧
       (st.1.1.2 - l ≤ Z.of_nat (length L) + Z.of_nat (length R) - 1)%Z)
    (λ st : Z * Z * Z * list Z * Metrics,
       merge_state_ok l L R arr m st ∧
       (st.1.1.1.1 = Z.of_nat (length L) ∨ st.1.1.1.2 = Z.of_nat (length R)) ∧
       st.2.(comparisons) = (m.(comparisons) + (st.1.1.2 - l))%Z ∧
       (st.1.1.2 - l ≤ Z.of_nat (length L) + Z.of_nat (length R) - 1)%Z)
    (λ st : Z * Z * Z * list Z * Metrics,
       Z.to_nat (l + Z.of_nat (length L) + Z.of_nat (length R) - st.1.1.2)) Hw.
  destruct Hw with (fuel := fuel) (s := (0%Z, 0%Z, l, arr, m))
    as ([[[[i j] k] arr1] m1] & -> & Hok & Hexit & Hcmp & Hk).
  - intros [[[[i j] k] arr1] m1] ((Hinv & Hcnt & Hsw) & Hcmp & Hkb).
    simpl in Hcmp, Hkb. eexists _, _. split; [done|].
    pose proof Hinv as (Hi & Hj & Hk & [Hlen1 Ho] & _).
    destruct (bool_decide (i < Z.of_nat (length L))%Z) eqn:Hbi; cbn [andb].
    + destruct (bool_decide (j < Z.of_nat (length R))%Z) eqn:Hbj; cbv beta iota.
      * apply bool_decide_eq_true in Hbi, Hbj.
        destruct (item_is_Some L i) as [a Ha]; [lia|].
        destruct (item_is_Some R j) as [b Hb]; [lia|].
        rewrite (load_item _ _ _ Ha), bind_Returns, (load_item _ _ _ Hb), bind_Returns.
        unfold compare_le_counted. case_bool_decide as Hab.
        -- rewrite bind_Returns, store_Returns, bind_Returns by lia.
           eexists. split; [done|]. split; [|simpl; lia].
           split; [|simpl; lia]. split; [|split; [|simpl; lia]].
           ++ apply merge_take; try done. intros b' Hb'. by simplify_eq.
           ++ eapply counted_trans; [|apply counted_swap].
              eapply counted_trans; [exact Hcnt|apply counted_comparison].
        -- rewrite bind_Returns, store_Returns, bind_Returns by lia.
           eexists. split; [done|]. split; [|simpl; lia].
           split; [|simpl; lia]. split; [|split; [|simpl; lia]].
           ++ apply merge_loop_inv_sym. apply merge_take; try (done || lia).
              ** by apply merge_loop_inv_sym.
              ** intros a' Ha'. simplify_eq. lia.
           ++ eapply counted_trans; [|apply counted_swap].
              eapply counted_trans; [exact Hcnt|apply counted_comparison].
      * apply bool_decide_eq_false in Hbj. split_and!; fin.
    + apply bool_decide_eq_false in Hbi. split_and!; fin.
  - split; [|simpl; lia]. split; [|split; [apply counted_refl|simpl; lia]].
    unfold merge_loop_inv. replace (l + 0 + 0 - 1)%Z with (l - 1)%Z by lia.
    replace (l + 0 + 0 - l)%Z with 0%Z by lia.
    split_and!; try fin.
    + intros x y u v Hxy. lia.
    + intros x u Hx. lia.
    + intros x u Hx. lia.
    + by replace (l - l)%Z with 0%Z by lia.
  - simpl. lia.
  - by exists i, j, k, arr1, m1.
Qed.

Lemma merge_left_spec fuel i j k arr1 m1 :
  length L + length R ≤ fuel →
  merge_state_ok l L R arr m (i, j, k, arr1, m1) →
  (i = Z.of_nat (length L) ∨ j = Z.of_nat (length R)) →
  ∃ k' arr2 m2,
    merge_left fuel L (Z.of_nat (length L)) (i, j, k, arr1, m1)
      = Returns (Z.of_nat (length L), j, k', arr2, m2) ∧
    merge_state_ok l L R arr m (Z.of_nat (length L), j, k', arr2, m2) ∧
    m2.(comparisons) = m1.(comparisons).
Proof.
  intros Hfuel Hok Hij. unfold merge_left.
  while_rule_with
    (λ st : Z * Z * Z * list Z * Metrics,
       merge_state_ok l L R arr m st ∧ st.1.1.1.2 = j ∧
       (st.1.1.1.1 = Z.of_nat (length L) ∨ j = Z.of_nat (length R)) ∧
       st.2.(comparisons) = m1.(comparisons))
    (λ st : Z * Z * Z * list Z * Metrics,
       merge_state_ok l L R arr m st ∧ st.1.1.1.2 = j ∧
       st.1.1.1.1 = Z.of_nat (length L) ∧
       st.2.(comparisons) = m1.(comparisons))
    (λ st : Z * Z * Z * list Z * Metrics,
       Z.to_nat (Z.of_nat (length L) - st.1.1.1.1)) Hw.
  destruct Hw with (fuel := fuel) (s := (i, j, k, arr1, m1))
    as ([[[[i' j'] k'] arr2] m2] & -> & Hok' & Hj' & Hi' & Hcmp).
  - intros [[[[i' j'] k'] arr2] m2] ((Hinv & Hcnt & Hsw) & Hj' & Hij' & Hcmp).
    simpl in Hj', Hij', Hcmp. subst j'. eexists _, _. split; [done|].
    pose proof Hinv as (Hi & Hj & Hk & [Hlen1 Ho] & _).
    case_bool_decide as Hbi.
    + destruct (item_is_Some L i') as [a Ha]; [lia|].
      rewrite (load_item _ _ _ Ha), bind_Returns, store_Returns, bind_Returns by lia.
      eexists. split; [done|]. split; [|simpl; lia].
      split; [|simpl; split_and!; (done || lia)].
      split; [|split; [|simpl; lia]].
      * apply merge_take; try done. intros b Hb%item_lt. lia.
      * eapply counted_trans; [exact Hcnt|apply counted_swap].
    + split_and!; fin.
  - split; [done|]. simpl. by split_and!.
  - pose proof Hok as [(Hi & _) _]. simpl. lia.
  - simpl in Hj', Hi'. subst. by exists k', arr2, m2.
Qed.

Lemma merge_right_spec fuel j k arr1 m1 :
  length L + length R ≤ fuel →
  merge_state_ok l L R arr m (Z.of_nat (length L), j, k, arr1, m1) →
  ∃ k' arr2 m2,
    merge_right fuel R (Z.of_nat (length R)) (Z.of_nat (length L), j, k, arr1, m1)
      = Returns (Z.of_nat (length L), Z.of_nat (length R), k', arr2, m2) ∧
    merge_state_ok l L R arr m (Z.of_nat (length L), Z.of_nat (length R), k', arr2, m2) ∧
    m2.(comparisons) = m1.(comparisons).
Proof.
  intros Hfuel Hok. unfold merge_right.
  while_rule_with
    (λ st : Z * Z * Z * list Z * Metrics,
       merge_state_ok l L R arr m st ∧ st.1.1.1.1 = Z.of_nat (length L) ∧
       st.2.(comparisons) = m1.(comparisons))
    (λ st : Z * Z * Z * list Z * Metrics,
       merge_state_ok l L R arr m st ∧ st.1.1.1.1 = Z.of_nat (length L) ∧
       st.1.1.1.2 = Z.of_nat (length R) ∧
       st.2.(comparisons) = m1.(comparisons))
    (λ st : Z * Z * Z * list Z * Metrics,
       Z.to_nat (Z.of_nat (length R) - st.1.1.1.2)) Hw.
  destruct Hw with (fuel := fuel) (s := (Z.of_nat (length L), j, k, arr1, m1))
    as ([[[[i' j'] k'] arr2] m2] & -> & Hok' & Hi' & Hj' & Hcmp).
  - intros [[[[i' j'] k'] arr2] m2] ((Hinv & Hcnt & Hsw) & Hi' & Hcmp).
    simpl in Hi', Hcmp. subst i'. eexists _, _. split; [done|].
    pose proof Hinv as (Hi & Hj & Hk & [Hlen1 Ho] & _).
    case_bool_decide as Hbj.
    + destruct (item_is_Some R j') as [b Hb]; [lia|].
      rewrite (load_item _ _ _ Hb), bind_Returns, store_Returns, bind_Returns by lia.
      eexists. split; [done|]. split; [|simpl; lia].
      split; [|simpl; split_and!; (done || lia)].
      split; [|split; [|simpl; lia]].
      * apply merge_loop_inv_sym. apply merge_take; try (done || lia).
        -- by apply merge_loop_inv_sym.
        -- intros a Ha%item_lt. lia.
      * eapply counted_trans; [exact Hcnt|apply counted_swap].
    + split_and!; fin.
  - split; [done|]. simpl. by split_and!.
  - pose proof Hok as [(_ & Hj & _) _]. simpl. lia.
  - simpl in Hj', Hi'. subst. by exists k', arr2, m2.
Qed.

End Merge.

Lemma permuted_from_segment l r arr arr' :
  (0 ≤ l ≤ r)%Z → (r < Z.of_nat (length arr))%Z →
  same_outside l r arr arr' →
  take (Z.to_nat (r + 1 - l)) (drop (Z.to_nat l) arr')
    ≡ₚ take (Z.to_nat (r + 1 - l)) (drop (Z.to_nat l) arr) →
  permuted l r arr arr'.
Proof.
  intros Hl Hr Ho Hseg.
  pose proof (permuted_from_range (Z.to_nat l) (Z.to_nat r) arr arr') as H.
  rewrite !Z2Nat.id in H by lia. apply H; [lia|lia|done|].
  by replace (S (Z.to_nat r) - Z.to_nat l) with (Z.to_nat (r + 1 - l)) by lia.
Qed.

Lemma item_segment (arr : list Z) (off n i : Z) :
  (0 ≤ off)%Z → (0 ≤ i < n)%Z →
  item (take (Z.to_nat n) (drop (Z.to_nat off) arr)) i = item arr (off + i).
Proof.
  intros Hoff Hi. unfold item. rewrite !decide_True by lia.
  rewrite lookup_take, decide_True, lookup_drop by lia. f_equal. lia.
Qed.

Lemma new_vector_Returns n :
  (0 ≤ n)%Z → new_vector n = Returns (replicate (Z.to_nat n) 0%Z).
Proof. intros Hn. unfold new_vector. by rewrite decide_True. Qed.

Lemma merge_halves_spec fuel arr l mid r m :
  (0 ≤ l ≤ mid)%Z → (mid ≤ r)%Z → (r < Z.of_nat (length arr))%Z →
  sorted_in l mid arr → sorted_in (mid + 1) r arr →
  (r - l + 1 ≤ Z.of_nat fuel)%Z →
  ∃ arr' m', merge fuel arr l mid r m = Returns (arr', m') ∧
    permuted l r arr arr' ∧ sorted_in l r arr' ∧ counted m m' ∧
    m'.(swaps) = (m.(swaps) + (r - l + 1))%Z ∧
    (Z.min (mid - l + 1) (r - mid) ≤ m'.(comparisons) - m.(comparisons))%Z ∧
    (m'.(comparisons) - m.(comparisons) ≤ r - l)%Z.
Proof.
  intros Hl Hmid Hr Hs1 Hs2 Hfuel. unfold merge.
  rewrite !new_vector_Returns by lia. rewrite !bind_Returns.
  rewrite !copy_spec by lia. rewrite !bind_Returns.
  set (L := take (Z.to_nat (mid - l + 1)) (drop (Z.to_nat l) arr)).
  set (R := take (Z.to_nat (r - mid)) (drop (Z.to_nat (mid + 1)) arr)).
  assert (Z.of_nat (length L) = mid - l + 1)%Z as HL.
  { unfold L. rewrite length_take, length_drop. lia. }
  assert (Z.of_nat (length R) = r - mid)%Z as HR.
  { unfold R. rewrite length_take, length_drop. lia. }
  rewrite <- HL, <- HR.
  assert (sorted_in 0 (Z.of_nat (length L) - 1) L) as HsL.
  { intros i j x y Hij Hj. unfold L. rewrite !item_segment by lia.
    apply Hs1; lia. }
  assert (sorted_in 0 (Z.of_nat (length R) - 1) R) as HsR.
  { intros i j x y Hij Hj. unfold R. rewrite !item_segment by lia.
    apply Hs2; lia. }
  destruct (merge_both_spec l L R arr m ltac:(lia) ltac:(lia) HsL HsR fuel)
    as (i & j & k & arr1 & m1 & -> & Hok1 & Hij & Hcmp1 & Hk1); [lia|lia|].
  rewrite bind_Returns.
  destruct (merge_left_spec l L R arr m ltac:(lia) ltac:(lia) HsL fuel i j k arr1 m1)
    as (k2 & arr2 & m2 & -> & Hok2 & Hcmp2); [lia|done|done|].
  rewrite bind_Returns.
  destruct (merge_right_spec l L R arr m ltac:(lia) ltac:(lia) HsR fuel j k2 arr2 m2)
    as (k3 & arr3 & m3 & -> & Hok3 & Hcmp3); [lia|done|].
  rewrite bind_Returns. exists arr3, m3. split; [done|].
  destruct Hok3 as ((_ & _ & Hk3 & Ho & Hs & _ & _ & Hp) & Hcnt & Hsw).
  assert (k3 = r + 1)%Z as -> by lia.
  replace (r + 1 - 1)%Z with r in * by lia.
  pose proof Hok1 as ((Hi1 & Hj1 & Hk & _) & _).
  split_and!; try (done || lia).
  apply permuted_from_segment; [lia|lia|done|].
  rewrite Hp. rewrite !Nat2Z.id, !firstn_all.
  unfold L, R.
  replace (Z.to_nat (mid + 1)) with (Z.to_nat l + Z.to_nat (mid - l + 1)) by lia.
  rewrite <- drop_drop, take_take_drop.
  by replace (Z.to_nat (mid - l + 1) + Z.to_nat (r - mid))
    with (Z.to_nat (r + 1 - l)) by lia.
Qed.

Lemma log_depth_step n h1 h2 d1 d2 :
  (h1 + h2 = n)%Z → (1 ≤ h2 ≤ h1)%Z → (h1 ≤ h2 + 1)%Z →
  log_depth h1 d1 → log_depth h2 d2 → log_depth n (1 + Z.max d1 d2).
Proof.
  intros Hn Hh Hh1 H1 H2. right.
  assert (∀ h d, (1 ≤ h ≤ h1)%Z → log_depth h d → (0 ≤ d ∧ 2 ^ d ≤ n - 1)%Z) as Hpow.
  { intros h d Hhh [[-> ->]|(? & ? & Hp)].
    - simpl. lia.
    - replace d with (Z.succ (d - 1)) at 2 by lia.
      rewrite Z.pow_succ_r by lia. lia. }
  destruct (Hpow h1 d1 ltac:(lia) H1), (Hpow h2 d2 ltac:(lia) H2).
  replace (1 + Z.max d1 d2 - 1)%Z with (Z.max d1 d2) by lia.
  split_and!; try lia. destruct (Z.max_spec d1 d2) as [[_ ->]|[_ ->]]; lia.
Qed.

Lemma log_depth_bound n d : log_depth n d → (0 ≤ d ∧ 2 ^ d < 2 * n)%Z.
Proof.
  intros [[-> ->]|(? & ? & Hp)]; [simpl; lia|].
  split; [lia|]. replace d with (Z.succ (d - 1)) by lia.
  rewrite Z.pow_succ_r by lia. lia.
Qed.

Lemma quot2_bounds x : (0 ≤ x)%Z → (2 * (x `quot` 2) ≤ x ≤ 2 * (x `quot` 2) + 1)%Z.
Proof.
  intros Hx. rewrite Z.quot_div_nonneg by lia.
  pose proof (Z.div_mod x 2 ltac:(lia)). pose proof (Z.mod_pos_bound x 2 ltac:(lia)).
  lia.
Qed.

Lemma mergeSortHelper_spec fuel :
  ∀ arr l r m,
    (0 ≤ l ≤ r)%Z → (r < Z.of_nat (length arr))%Z → (r - l + 1 ≤ Z.of_nat fuel)%Z →
    (m.(current_depth) ≤ m.(max_depth))%Z →
    ∃ arr' m' d,
      mergeSortHelper fuel arr l r m = Returns (arr', m') ∧
      permuted l r arr arr' ∧ sorted_in l r arr' ∧
      log_depth (r - l + 1) d ∧
      m'.(current_depth) = m.(current_depth) ∧
      m'.(max_depth) = Z.max m.(max_depth) (m.(current_depth) + d) ∧
      (0 ≤ m'.(comparisons) - m.(comparisons) ≤ m'.(swaps) - m.(swaps))%Z ∧
      (m'.(swaps) - m.(swaps) ≤ (r - l + 1) * d)%Z.
Proof.
  induction fuel as [|fuel IH]; intros arr l r m Hl Hr Hfuel Hdepth; [lia|].
  cbn [mergeSortHelper]. case_decide as Hlr.
  - pose proof (quot2_bounds (r - l) ltac:(lia)) as Hq.
    set (mid := (l + (r - l) `quot` 2)%Z) in *.
    destruct (IH arr l mid (enter m)) as (arr1 & m1 & d1 & -> & Hp1 & Hs1 & Hd1 & Hc1 & Hx1 & Hcmp1 & Hsw1);
      [lia|lia|lia|simpl; case_decide; lia|].
    rewrite bind_Returns.
    pose proof (permuted_length _ _ _ _ Hp1) as Hlen1.
    destruct (IH arr1 (mid + 1)%Z r m1) as (arr2 & m2 & d2 & -> & Hp2 & Hs2 & Hd2 & Hc2 & Hx2 & Hcmp2 & Hsw2);
      [lia|lia|lia|
       simpl in Hc1, Hx1; destruct (decide (max_depth m < current_depth m + 1)%Z); lia|].
    rewrite bind_Returns.
    pose proof (permuted_length _ _ _ _ Hp2) as Hlen2.
    destruct (merge_halves_spec (S fuel) arr2 l mid r m2) as (arr3 & m3 & -> & Hp3 & Hs3 & Hc3 & Hsw3 & Hlo3 & Hhi3);
      [lia|lia|lia| | |lia|].
    { eapply sorted_in_same; [|exact Hs1].
      intros k Hk. destruct Hp2 as [_ [_ Ho]]. apply Ho. lia. }
    { done. }
    rewrite bind_Returns. exists arr3, (leave m3), (1 + Z.max d1 d2)%Z.
    split; [done|].
    pose proof (log_depth_step (r - l + 1) (mid - l + 1) (r - mid) d1 d2
      ltac:(lia) ltac:(lia) ltac:(lia)) as Hd.
    replace (mid + 1 - 1)%Z with mid in * by lia.
    replace (r - (mid + 1) + 1)%Z with (r - mid)%Z in * by lia.
    specialize (Hd Hd1 Hd2).
    destruct (log_depth_bound _ _ Hd1) as [Hd1' _].
    destruct (log_depth_bound _ _ Hd2) as [Hd2' _].
    destruct Hc3 as (Hc3a & Hc3b & Hc3c & Hc3d).
    assert ((mid - l + 1) * d1 + (r - mid) * d2
            ≤ (r - l + 1) * Z.max d1 d2)%Z as Hmul.
    { pose proof (Z.mul_le_mono_nonneg_l d1 (Z.max d1 d2) (mid - l + 1)
        ltac:(lia) ltac:(lia)).
      pose proof (Z.mul_le_mono_nonneg_l d2 (Z.max d1 d2) (r - mid)
        ltac:(lia) ltac:(lia)).
      lia. }
    split.
    { eapply permuted_trans; [|exact Hp3].
      eapply permuted_trans.
      - eapply permuted_weaken; [| |exact Hp1]; lia.
      - eapply permuted_weaken; [| |exact Hp2]; lia. }
    split; [done|]. split; [done|].
    simpl in Hc1, Hx1, Hcmp1, Hsw1. simpl.
    destruct (decide (max_depth m < current_depth m + 1)%Z); lia.
  - assert (l = r) as -> by lia. exists arr, m, 0%Z. split; [done|].
    split; [apply permuted_refl|]. split; [by apply sorted_in_empty|].
    split; [left; lia|]. lia.
Qed.

Lemma mergeSort_spec fuel arr m :
  length arr ≤ fuel → (m.(current_depth) ≤ m.(max_depth))%Z →
  ∃ arr' m' d,
    mergeSort fuel arr m = Returns (arr', m') ∧
    arr' ≡ₚ arr ∧ StronglySorted Z.le arr' ∧
    (0 ≤ d)%Z ∧ (2 ^ d < 2 * Z.max 1 (Z.of_nat (length arr)))%Z ∧
    m'.(current_depth) = m.(current_depth) ∧
    m'.(max_depth) = Z.max m.(max_depth) (m.(current_depth) + d) ∧
    (0 ≤ m'.(comparisons) - m.(comparisons) ≤ m'.(swaps) - m.(swaps))%Z ∧
    (m'.(swaps) - m.(swaps) ≤ Z.of_nat (length arr) * d)%Z.
Proof.
  intros Hfuel Hdepth. unfold mergeSort. case_decide as Hlen.
  - destruct (mergeSortHelper_spec fuel arr 0 (Z.of_nat (length arr) - 1) m)
      as (arr' & m' & d & -> & Hp & Hs & Hd & Hc & Hx & Hcmp & Hsw); [lia..|].
    exists arr', m', d. split; [done|].
    replace (Z.of_nat (length arr) - 1 - 0 + 1)%Z with (Z.of_nat (length arr)) in * by lia.
    destruct (log_depth_bound _ _ Hd).
    split_and!; try (done || lia).
    + by destruct Hp.
    + apply sorted_whole. by rewrite (permuted_length _ _ _ _ Hp).
  - exists arr, m, 0%Z. split; [done|]. split_and!; try (done || lia).
    destruct arr as [|a [|b arr]]; [constructor|repeat constructor|simpl in Hlen; lia].
Qed.

(** ** Heap sort *)

(** [if (cand < n && compare_counted(arr[cur], arr[cand], m)) cur = cand;] *)
Lemma pick_larger_spec arr (n cur cand : Z) m x :
  item arr cur = Some x → ((cand < n)%Z → (0 ≤ cand < Z.of_nat (length arr))%Z) →
  ∃ best m' v,
    (if decide (cand < n)%Z then
       a ← load arr cur; b ← load arr cand;
       let '(c, m) := compare_counted a b m in
       mret (if c : bool then cand else cur, m)
     else mret (cur, m)) = Returns (best, m') ∧
    (best = cur ∨ (best = cand ∧ (cand < n)%Z)) ∧
    item arr best = Some v ∧ (x ≤ v)%Z ∧
    (∀ y, (cand < n)%Z → item arr cand = Some y → (y ≤ v)%Z) ∧
    counted m m' ∧ m'.(swaps) = m.(swaps) ∧
    (m'.(comparisons) ≤ m.(comparisons) + 1)%Z.
Proof.
  intros Hx Hcand. case_decide as Hn.
  - destruct (item_is_Some arr cand) as [y Hy]; [by apply Hcand|].
    rewrite (load_item _ _ _ Hx), bind_Returns, (load_item _ _ _ Hy), bind_Returns.
    unfold compare_counted. case_bool_decide as Hc.
    + exists cand, (count_comparison m), y. split; [done|].
      split_and!; try fin; try apply counted_comparison.
      intros y' _ Hy'. simplify_eq. lia.
    + exists cur, (count_comparison m), x. split; [done|].
      split_and!; try fin; try apply counted_comparison.
      intros y' _ Hy'. simplify_eq. lia.
  - exists cur, m, x. split; [done|]. split_and!; fin.
Qed.

Lemma heapify_spec lo fuel :
  ∀ arr n i m,
    (0 ≤ lo ≤ i)%Z → (i < n)%Z → (n ≤ Z.of_nat (length arr))%Z →
    Z.to_nat (n - i) ≤ fuel →
    almost_heap lo n i arr →
    ∃ arr' m', heapify fuel arr n i m = Returns (arr', m') ∧
      permuted i (n - 1) arr arr' ∧ heap_from lo n arr' ∧ counted m m' ∧
      (m'.(comparisons) - m.(comparisons) ≤ 2 * (m'.(swaps) - m.(swaps)) + 2)%Z.
Proof.
  induction fuel as [|fuel IH]; intros arr n i m Hlo Hi Hn Hfuel [Hheap Hparent]; [lia|].
  cbn [heapify].
  destruct (item_is_Some arr i) as [x Hx]; [lia|].
  destruct (pick_larger_spec arr n i (2 * i + 1)%Z m x Hx ltac:(lia))
    as (l1 & m1 & v1 & -> & Hl1 & Hv1 & Hxv1 & Hleft & Hc1 & Hsw1 & Hcmp1).
  rewrite bind_Returns.
  destruct (pick_larger_spec arr n l1 (2 * i + 2)%Z m1 v1 Hv1 ltac:(lia))
    as (l2 & m2 & v2 & -> & Hl2 & Hv2 & Hxv2 & Hright & Hc2 & Hsw2 & Hcmp2).
  rewrite bind_Returns.
  assert (∀ c y, (c = 2 * i + 1 ∨ c = 2 * i + 2)%Z → (c < n)%Z →
    item arr c = Some y → (y ≤ v2)%Z) as Hmax.
  { intros c y [->| ->] Hc Hy.
    - trans v1; [by apply Hleft|done].
    - by apply Hright. }
  assert (counted m m2) as Hc12 by (by eapply counted_trans).
  pose proof Hc1 as (? & _). pose proof Hc2 as (? & _).
  case_decide as Hne.
  - assert ((l2 = 2 * i + 1 ∨ l2 = 2 * i + 2)%Z ∧ (l2 < n)%Z) as [Hl2c Hl2n].
    { destruct Hl2 as [->|[-> ?]]; [|lia].
      destruct Hl1 as [->|[-> ?]]; [done|lia]. }
    destruct (swap_counted_spec i (n - 1) arr i l2 m2 x v2)
      as (arr1 & -> & Hp1 & Hi1 & Hl21 & Hoth); [lia|lia|done|done|].
    rewrite bind_Returns.
    pose proof (permuted_length _ _ _ _ Hp1) as Hlen1.
    destruct (IH arr1 n l2 (count_swap m2)) as (arr' & m' & -> & Hp' & Hheap' & Hc' & Hcmp');
      [lia|lia|lia|lia| |].
    { split.
      - intros k Hk Hkl c a b Hc Hcn Ha Hb.
        destruct (decide (k = i)) as [->|Hki].
        + rewrite Hi1 in Ha. injection Ha as <-.
          destruct (decide (c = l2)) as [->|Hcl].
          * rewrite Hl21 in Hb. injection Hb as <-. lia.
          * rewrite Hoth in Hb by lia. by apply (Hmax c).
        + rewrite Hoth in Ha by lia.
          destruct (decide (c = i)) as [->|Hci].
          * rewrite Hi1 in Hb. injection Hb as <-.
            apply (Hparent k l2 a v2); (done || lia).
          * rewrite Hoth in Hb by lia. apply (Hheap k Hk Hki c a b); (done || lia).
      - intros p c a b Hp Hpl Hc Hcn Ha Hb.
        assert (p = i) as -> by lia.
        rewrite Hi1 in Ha. injection Ha as <-.
        rewrite Hoth in Hb by lia.
        apply (Hheap l2 ltac:(lia) ltac:(lia) c v2 b); (done || lia). }
    exists arr', m'. split; [done|]. split; [|split; [done|split]].
    + eapply permuted_trans; [exact Hp1|].
      eapply permuted_weaken; [| |exact Hp']; lia.
    + eapply counted_trans; [|exact Hc'].
      eapply counted_trans; [exact Hc12|apply counted_swap].
    + simpl in Hcmp'. lia.
  - subst l2.
    exists arr, m2. split; [done|]. split; [apply permuted_refl|].
    split; [|split; [done|lia]].
    intros k Hk. destruct (decide (k = i)) as [->|Hki]; [|by apply Hheap].
    intros c a b Hc Hcn Ha Hb. assert (a = v2) as -> by congruence.
    by apply (Hmax c).
Qed.

(** The root of a heap is its greatest element. *)
Lemma heap_root_max n arr root :
  heap_from 0 n arr → (n ≤ Z.of_nat (length arr))%Z → item arr 0 = Some root →
  ∀ k x, (0 ≤ k < n)%Z → item arr k = Some x → (x ≤ root)%Z.
Proof.
  intros Hheap Hn Hroot k x Hk. revert x.
  assert (∀ j : nat, ∀ k x, Z.to_nat k ≤ j → (0 ≤ k < n)%Z →
    item arr k = Some x → (x ≤ root)%Z) as Hind.
  { clear k Hk. induction j as [|j IH]; intros k x Hj Hk Hx.
    - assert (k = 0)%Z as -> by lia. assert (x = root) as -> by congruence. lia.
    - destruct (decide (k = 0%Z)) as [->|Hk0].
      { assert (x = root) as -> by congruence. lia. }
      set (p := ((k - 1) `div` 2)%Z).
      pose proof (Z.div_mod (k - 1) 2 ltac:(lia)) as Hdiv.
      pose proof (Z.mod_pos_bound (k - 1) 2 ltac:(lia)) as Hmod.
      fold p in Hdiv.
      destruct (item_is_Some arr p) as [y Hy]; [lia|].
      trans y.
      + apply (Hheap p ltac:(lia) k y x); (done || lia).
      + apply (IH p); (done || lia). }
  intros x. by apply (Hind (Z.to_nat k)).
Qed.

Lemma heap_from_leaves n arr lo : (n ≤ 2 * lo + 1)%Z → heap_from lo n arr.
Proof. intros Hlo k Hk c x y Hc Hcn. lia. Qed.

Lemma heapSort_spec fuel arr m :
  length arr ≤ fuel →
  ∃ arr' m', heapSort fuel arr m = Returns (arr', m') ∧
    arr' ≡ₚ arr ∧ StronglySorted Z.le arr' ∧ counted m m' ∧
    (Z.of_nat (length arr) - 1 ≤ m'.(swaps) - m.(swaps))%Z ∧
    (m'.(comparisons) - m.(comparisons)
       ≤ 2 * (m'.(swaps) - m.(swaps)) + Z.of_nat (length arr))%Z.
Proof.
  intros Hfuel. unfold heapSort.
  set (n := Z.of_nat (length arr)).
  pose proof (quot2_bounds n ltac:(lia)) as Hq.
  (* Build the heap. *)
  destruct (for_down_rule
    (λ (i : Z) (st : list Z * Metrics),
       permuted 0 (n - 1) arr st.1 ∧ heap_from (i + 1) n st.1 ∧ counted m st.2 ∧
       (st.2.(comparisons) - m.(comparisons)
          ≤ 2 * (st.2.(swaps) - m.(swaps)) + 2 * (n `quot` 2 - 1 - i))%Z)
    (λ i '(arr, m), heapify fuel arr n i m)
    (Z.to_nat (n `quot` 2)) (n `quot` 2 - 1)%Z (arr, m))
    as ([arr1 m1] & -> & Hp1 & Hheap1 & Hc1 & Hcmp1).
  { simpl. split; [apply permuted_refl|]. split; [|split; [apply counted_refl|lia]].
    apply heap_from_leaves. lia. }
  { intros i [arr1 m1] Hi (Hp1 & Hheap1 & Hc1 & Hcmp1).
    simpl in Hp1, Hheap1, Hc1, Hcmp1.
    pose proof (permuted_length _ _ _ _ Hp1) as Hlen1.
    destruct (heapify_spec i fuel arr1 n i m1) as (arr2 & m2 & -> & Hp2 & Hheap2 & Hc2 & Hcmp2);
      [lia|lia|lia|lia| |].
    { split.
      - intros k Hk Hki. apply Hheap1. lia.
      - intros p c x y Hp Hpi. lia. }
    eexists. split; [done|]. simpl.
    replace (i - 1 + 1)%Z with i by lia.
    split; [|split; [done|split]].
    - eapply permuted_trans; [exact Hp1|].
      eapply permuted_weaken; [| |exact Hp2]; lia.
    - by eapply counted_trans.
    - pose proof Hc2 as (? & ? & _). lia. }
  rewrite bind_Returns. simpl in Hp1, Hheap1, Hc1, Hcmp1.
  replace (n `quot` 2 - 1 - Z.of_nat (Z.to_nat (n `quot` 2)) + 1)%Z with 0%Z
    in Hheap1 by lia.
  replace (n `quot` 2 - 1 - (n `quot` 2 - 1 - Z.of_nat (Z.to_nat (n `quot` 2))))%Z
    with (n `quot` 2)%Z in Hcmp1 by lia.
  (* Move the greatest element to the end, one element at a time. *)
  destruct (for_down_rule
    (λ (i : Z) (st : list Z * Metrics),
       permuted 0 (n - 1) arr st.1 ∧ heap_from 0 (i + 1) st.1 ∧
       sorted_in (i + 1) (n - 1) st.1 ∧
       (∀ k j x y, (0 ≤ k ≤ i)%Z → (i < j ≤ n - 1)%Z →
          item st.1 k = Some x → item st.1 j = Some y → (x ≤ y)%Z) ∧
       counted m st.2 ∧
       (n - 1 - i ≤ st.2.(swaps) - m.(swaps))%Z ∧
       (st.2.(comparisons) - m.(comparisons)
          ≤ 2 * (st.2.(swaps) - m.(swaps)) + 2 * (n `quot` 2))%Z)
    (λ i '(arr, m),
       '(arr, m) ← swap_counted arr 0 i m;
       heapify fuel arr i 0 m)
    (Z.to_nat (n - 1)) (n - 1)%Z (arr1, m1))
    as ([arr' m'] & -> & Hp' & Hheap' & Hs' & Hcross' & Hc' & Hsw' & Hcmp').
  { simpl. replace (n - 1 + 1)%Z with n by lia.
    split; [done|]. split; [done|]. split; [by apply sorted_in_empty; lia|].
    split; [intros k j x y Hk Hj; lia|]. split; [done|].
    pose proof Hc1 as (? & ? & _). lia. }
  { intros i [arr2 m2] Hi (Hp2 & Hheap2 & Hs2 & Hcross2 & Hc2 & Hsw2 & Hcmp2).
    simpl in Hp2, Hheap2, Hs2, Hcross2, Hc2, Hsw2, Hcmp2.
    pose proof (permuted_length _ _ _ _ Hp2) as Hlen2.
    destruct (item_is_Some arr2 0) as [root Hroot]; [lia|].
    destruct (item_is_Some arr2 i) as [z Hz]; [lia|].
    destruct (swap_counted_spec 0 (n - 1) arr2 0 i m2 root z)
      as (arr3 & -> & Hp3 & H03 & Hi3 & Hoth); [lia|lia|done|done|].
    rewrite bind_Returns.
    pose proof (permuted_length _ _ _ _ Hp3) as Hlen3.
    destruct (heapify_spec 0 fuel arr3 i 0 (count_swap m2))
      as (arr4 & m4 & -> & Hp4 & Hheap4 & Hc4 & Hcmp4); [lia|lia|lia|lia| |].
    { split.
      - intros k Hk Hk0 c a b Hc Hci Ha Hb.
        rewrite Hoth in Ha, Hb by lia.
        apply (Hheap2 k Hk c a b); (done || lia).
      - intros p c a b Hp Hp0. lia. }
    eexists. split; [done|]. simpl.
    replace (i - 1 + 1)%Z with i by lia.
    pose proof (heap_root_max (i + 1) arr2 root Hheap2 ltac:(lia) Hroot) as Hmax.
    assert (∀ k x, (i ≤ k ≤ n - 1)%Z → item arr4 k = Some x →
      if decide (k = i) then x = root else item arr2 k = Some x) as Hhigh.
    { intros k x Hk Hx. destruct Hp4 as [_ [_ Ho]].
      rewrite Ho in Hx by lia. case_decide as Hki.
      - subst k. congruence.
      - by rewrite Hoth in Hx by lia. }
    assert (∀ k x, (0 ≤ k ≤ i - 1)%Z → item arr4 k = Some x →
      ∃ k', (0 ≤ k' ≤ i)%Z ∧ item arr2 k' = Some x) as Hlow.
    { intros k x Hk Hx.
      destruct (permuted_elem 0 (i - 1) arr3 arr4 k x Hp4 ltac:(lia) Hx) as (k' & Hk' & Hx').
      destruct (decide (k' = 0%Z)) as [->|Hk0].
      - exists i. split; [lia|]. congruence.
      - exists k'. split; [lia|]. by rewrite Hoth in Hx' by lia. }
    split; [|split; [done|split; [|split; [|split; [|split]]]]].
    - eapply permuted_trans; [exact Hp2|].
      eapply permuted_trans; [exact Hp3|].
      eapply permuted_weaken; [| |exact Hp4]; lia.
    - intros a b x y Hab Hb Hx Hy.
      apply Hhigh in Hx; [|lia]. apply Hhigh in Hy; [|lia].
      destruct (decide (a = i)) as [->|Hai].
      + subst x. destruct (decide (b = i)) as [->|Hbi]; [lia|].
        apply (Hcross2 0%Z b); (done || lia).
      + rewrite decide_False in Hy by lia.
        apply (Hs2 a b); (done || lia).
    - intros k j x y Hk Hj Hx Hy.
      apply Hlow in Hx as (k' & Hk' & Hx); [|lia].
      apply Hhigh in Hy; [|lia]. case_decide as Hji.
      + subst y. apply (Hmax k'); [lia|done].
      + apply (Hcross2 k' j); (done || lia).
    - eapply counted_trans; [|exact Hc4].
      eapply counted_trans; [exact Hc2|apply counted_swap].
    - pose proof Hc4 as (? & ? & _). simpl in *. lia.
    - pose proof Hc4 as (? & ? & _). simpl in *. lia. }
  simpl in Hp', Hheap', Hs', Hcross', Hc', Hsw', Hcmp'.
  exists arr', m'. split; [done|].
  pose proof (permuted_length _ _ _ _ Hp') as Hlen'.
  split; [by destruct Hp'|]. split; [|split; [done|lia]].
  apply sorted_whole. rewrite Hlen'. fold n.
  intros a b x y Hab Hb Hx Hy.
  destruct (decide (n = 0%Z)) as [Hn0|Hn0].
  { apply item_lt in Hx. lia. }
  replace (n - 1 - Z.of_nat (Z.to_nat (n - 1)))%Z with 0%Z in * by lia.
  destruct (decide (a = 0%Z)) as [->|Ha].
  - destruct (decide (b = 0%Z)) as [->|Hb0]; [by simplify_eq|].
    apply (Hcross' 0%Z b); (done || lia).
  - apply (Hs' a b); (done || lia).
Qed.

(** ** The first element as pivot, on sorted input *)

Lemma bind_mret {A B} (a : A) (f : A → outcome B) : (mret a ≫= f) = f a.
Proof. done. Qed.

Lemma partition_TwoWay_increasing fuel arr l r m :
  (0 ≤ l < r)%Z → (r < Z.of_nat (length arr))%Z → increasing_in l r arr →
  Z.to_nat (r - l) ≤ fuel →
  ∃ m', partition_TwoWay fuel arr l r m = Returns (l, arr, m') ∧
    m'.(comparisons) = (m.(comparisons) + (r - l + 1))%Z ∧
    m'.(swaps) = (m.(swaps) + 1)%Z ∧
    m'.(max_depth) = m.(max_depth) ∧ m'.(current_depth) = m.(current_depth).
Proof.
  intros Hl Hr Hinc Hfuel. unfold partition_TwoWay.
  destruct (item_is_Some arr l) as [pivot Hpivot]; [lia|].
  rewrite (load_item _ _ _ Hpivot), bind_Returns.
  destruct fuel as [|fuel']; [lia|].
  rewrite while_unfold, bind_Returns, bool_decide_eq_true_2 by lia.
  unfold partition_step.
  destruct (skip_small_spec (S fuel') pivot arr (l + 1) r m)
    as (s1 & m1 & -> & Hs1 & Hall1 & Hcnt1 & Hsw1 & Hc1); [lia..|].
  rewrite bind_Returns.
  assert (s1 = l + 1)%Z as ->.
  { destruct (decide (s1 = l + 1)%Z) as [|Hne]; [done|]. exfalso.
    destruct (item_is_Some arr (l + 1)) as [y Hy]; [lia|].
    pose proof (Hall1 (l + 1)%Z y ltac:(lia) Hy) as Hle. simpl in Hle.
    pose proof (Hinc l (l + 1)%Z pivot y ltac:(lia) ltac:(lia) Hpivot Hy). lia. }
  rewrite decide_True in Hc1 by lia. destruct Hc1 as [_ Hcmp1].
  destruct (skip_large_spec (S fuel') pivot arr (l + 1) r m1)
    as (e1 & m2 & -> & He1 & Hall2 & Hcnt2 & Hsw2 & Hc2); [lia..|].
  rewrite bind_Returns.
  assert (e1 = l) as ->.
  { destruct (decide (e1 = l)) as [|Hne]; [done|]. exfalso.
    rewrite decide_True in Hc2 by lia. destruct Hc2 as [(y & Hy & Hle) _].
    pose proof (Hinc l e1 pivot y ltac:(lia) ltac:(lia) Hpivot Hy). lia. }
  rewrite decide_False in Hc2 by lia.
  rewrite decide_False, bind_Returns by lia.
  rewrite while_unfold, bind_Returns, bool_decide_eq_false_2 by lia.
  rewrite bind_Returns. unfold swap_counted.
  rewrite decide_False by (intros Hne; by apply Hne).
  rewrite bind_Returns. eexists. split; [done|]. simpl.
  destruct Hcnt1 as (_ & _ & ? & ?). destruct Hcnt2 as (_ & _ & ? & ?).
  split_and!; lia.
Qed.

Lemma quicksort_TwoWay_empty Rng fuel findPivot arr l r m (rng : Rng) :
  (r ≤ l)%Z → quicksort_TwoWay Rng fuel findPivot arr l r m rng = Returns (arr, m, rng).
Proof. intros Hrl. destruct fuel; cbn [quicksort_TwoWay]; by rewrite decide_True. Qed.

Lemma quicksort_naive_increasing Rng fuel :
  ∀ arr l r m (rng : Rng),
    (0 ≤ l ≤ r)%Z → (r < Z.of_nat (length arr))%Z → increasing_in l r arr →
    Z.to_nat (r - l) ≤ fuel → (m.(current_depth) ≤ m.(max_depth))%Z →
    ∃ m', quicksort_TwoWay Rng fuel (findPivot_Naive Rng) arr l r m rng
            = Returns (arr, m', rng) ∧
      (2 * (m'.(comparisons) - m.(comparisons)) = (r - l + 3) * (r - l))%Z ∧
      (m'.(swaps) - m.(swaps) = 2 * (r - l))%Z ∧
      m'.(current_depth) = m.(current_depth) ∧
      m'.(max_depth) = Z.max m.(max_depth) (m.(current_depth) + (r - l)).
Proof.
  induction fuel as [|fuel IH]; intros arr l r m rng Hl Hr Hinc Hfuel Hdepth.
  - assert (r = l) as -> by lia.
    rewrite quicksort_TwoWay_empty by lia. exists m. split; [done|]. lia.
  - cbn [quicksort_TwoWay]. case_decide as Hrl.
    { assert (r = l) as -> by lia. exists m. split; [done|]. lia. }
    change (findPivot_Naive Rng arr l r (enter m) rng)
      with (Returns (l, arr, enter m, rng) : outcome (Z * list Z * Metrics * Rng)).
    rewrite bind_Returns.
    unfold swap_counted at 1.
    rewrite decide_False by (intros Hne; by apply Hne). rewrite bind_Returns.
    destruct (partition_TwoWay_increasing (S fuel) arr l r (count_swap (enter m)))
      as (m1 & -> & Hcmp1 & Hsw1 & Hx1 & Hc1); [lia|lia|done|lia|].
    rewrite bind_Returns.
    rewrite quicksort_TwoWay_empty, bind_Returns by lia.
    destruct (IH arr (l + 1)%Z r m1 rng) as (m2 & -> & Hcmp2 & Hsw2 & Hc2 & Hx2);
      [lia|lia| |lia| |].
    { intros i j x y Hi Hj. apply Hinc; lia. }
    { simpl in Hx1, Hc1. rewrite Hx1, Hc1. case_decide; lia. }
    rewrite bind_Returns. eexists. split; [done|]. simpl.
    simpl in Hcmp1, Hsw1, Hx1, Hc1.
    destruct (decide (max_depth m < current_depth m + 1)%Z); split_and!; lia.
Qed.

Lemma generateSorted_spec n :
  (0 ≤ n)%Z →
  ∃ arr, generateSorted n = Returns arr ∧ Z.of_nat (length arr) = n ∧
    ∀ k, (0 ≤ k < n)%Z → item arr k = Some (k + 1)%Z.
Proof.
  intros Hn. unfold generateSorted.
  rewrite new_vector_Returns, bind_Returns by done.
  destruct (for_up_rule
    (λ (i : Z) (arr : list Z), length arr = Z.to_nat n ∧
       ∀ k, (0 ≤ k < i)%Z → item arr k = Some (k + 1)%Z)
    (λ i arr, store arr i (i + 1)%Z)
    (Z.to_nat n) 0%Z (replicate (Z.to_nat n) 0%Z)) as (arr & -> & Hlen & Hitem).
  - split; [by rewrite length_replicate|]. intros k Hk. lia.
  - intros i arr Hi [Hlen Hitem]. rewrite store_Returns by lia.
    eexists. split; [done|]. split; [by rewrite length_insert|].
    intros k Hk. rewrite item_insert by lia. case_decide as Hki.
    + by subst k.
    + apply Hitem. lia.
  - exists arr. split; [done|]. split; [lia|]. intros k Hk. apply Hitem. lia.
Qed.

(** ** Ranges of equal elements *)

Lemma constant_range_same l r v arr arr' :
  permuted l r arr arr' → all_in l r arr (λ x, x = v) → arr' = arr.
Proof.
  intros Hp Hall. pose proof (all_in_permuted l r l r arr arr' _ ltac:(lia) ltac:(lia) Hp Hall) as Hall'.
  destruct Hp as [_ [Hlen Ho]]. apply item_ext; [done|]. intros k.
  destruct (decide (l ≤ k ≤ r)%Z) as [Hk|Hk]; [|by apply Ho].
  destruct (item arr' k) as [x|] eqn:Hx.
  - apply item_lt in Hx as Hkl. rewrite Hlen in Hkl.
    destruct (item_is_Some arr k Hkl) as [y Hy].
    rewrite (Hall' k x Hk Hx), Hy. f_equal. symmetry. by apply (Hall k).
  - destruct (item arr k) as [y|] eqn:Hy; [|done].
    apply item_lt in Hy. rewrite <- Hlen in Hy.
    destruct (item_is_Some arr' k Hy) as [x Hx']. congruence.
Qed.

Lemma quicksort_ThreeWay_empty fuel arr l r m :
  (r ≤ l)%Z → quicksort_ThreeWay fuel arr l r m = Returns (arr, m).
Proof. intros Hrl. destruct fuel; cbn [quicksort_ThreeWay]; by rewrite decide_True. Qed.

Lemma quicksort_ThreeWay_constant fuel arr l r m v :
  (0 ≤ l < r)%Z → (r < Z.of_nat (length arr))%Z → all_in l r arr (λ x, x = v) →
  Z.to_nat (r - l) ≤ fuel →
  ∃ m', quicksort_ThreeWay fuel arr l r m = Returns (arr, m') ∧
    (r - l ≤ m'.(comparisons) - m.(comparisons) ≤ 2 * (r - l))%Z ∧
    (m.(swaps) ≤ m'.(swaps))%Z ∧
    m'.(current_depth) = m.(current_depth) ∧
    m'.(max_depth) = Z.max m.(max_depth) (m.(current_depth) + 1).
Proof.
  intros Hl Hr Hall Hfuel. destruct fuel as [|fuel]; [lia|].
  cbn [quicksort_ThreeWay]. rewrite decide_False by lia.
  destruct (item_is_Some arr l) as [pivot Hpiv]; [lia|].
  assert (pivot = v) as -> by (by apply (Hall l pivot); [lia|]).
  destruct (partition_ThreeWay_spec (S fuel) arr l r (enter m) v)
    as (lt & gt & arr1 & m1 & -> & Hlt & Hgt & Hp1 & Hless & Heq & Hgreater & Hc1 & Hcmp1);
    [lia|lia|done|lia|].
  rewrite bind_Returns.
  pose proof (constant_range_same l r v arr arr1 Hp1 Hall) as ->.
  assert (lt = l) as ->.
  { destruct (decide (lt = l)) as [|Hne]; [done|]. exfalso.
    pose proof (Hless l v ltac:(lia) Hpiv) as Hlv. simpl in Hlv. lia. }
  assert (gt = r) as ->.
  { destruct (decide (gt = r)) as [|Hne]; [done|]. exfalso.
    destruct (item_is_Some arr r) as [y Hy]; [lia|].
    pose proof (Hgreater r y ltac:(lia) Hy) as Hlv. simpl in Hlv.
    pose proof (Hall r y ltac:(lia) Hy) as ->. lia. }
  rewrite !quicksort_ThreeWay_empty, !bind_Returns by lia.
  rewrite quicksort_ThreeWay_empty, bind_Returns by lia.
  eexists. split; [done|]. destruct Hc1 as (? & ? & Hx & Hc). simpl in *.
  rewrite Hx, Hc. destruct (decide (max_depth m < current_depth m + 1)%Z); split_and!; lia.
Qed.

Section ConstantTwoWay.

Context {Rng : Type}.
Variable findPivot : PivotFunc Rng.
Variable N : Z.
Hypothesis findPivot_ok : pivot_ok N findPivot.

Lemma quicksort_TwoWay_constant fuel v :
  ∀ arr l r m rng,
    indices_fit arr →
    (0 ≤ l ≤ r)%Z → (r < Z.of_nat (length arr))%Z → (r - l + 1 ≤ N)%Z →
    all_in l r arr (λ x, x = v) →
    Z.to_nat (r - l) ≤ fuel → (m.(current_depth) ≤ m.(max_depth))%Z →
    ∃ m' rng', quicksort_TwoWay Rng fuel findPivot arr l r m rng
                 = Returns (arr, m', rng') ∧
      ((r - l + 1) * (r - l) ≤ 2 * (m'.(comparisons) - m.(comparisons)))%Z ∧
      (2 * (r - l) ≤ m'.(swaps) - m.(swaps))%Z ∧
      m'.(current_depth) = m.(current_depth) ∧
      m'.(max_depth) = Z.max m.(max_depth) (m.(current_depth) + (r - l)).
Proof.
  induction fuel as [|fuel IH]; intros arr l r m rng Hfit Hl Hr HN Hall Hfuel Hdepth.
  - assert (r = l) as -> by lia.
    rewrite quicksort_TwoWay_empty by lia. exists m, rng. split; [done|]. lia.
  - cbn [quicksort_TwoWay]. case_decide as Hrl.
    { assert (r = l) as -> by lia. exists m, rng. split; [done|]. lia. }
    destruct (findPivot_ok arr l r (enter m) rng) as (i & arr1 & m1 & rng1 & -> & Hi & Hp1 & Hc1);
      [done|lia|lia|lia|].
    rewrite bind_Returns.
    pose proof (constant_range_same l r v arr arr1 Hp1 Hall) as ->.
    destruct (item_is_Some arr l) as [a Ha]; [lia|].
    destruct (item_is_Some arr i) as [b Hb]; [lia|].
    destruct (swap_counted_spec l r arr l i m1 a b) as (arr2 & -> & Hp2 & _);
      [lia|lia|done|done|].
    rewrite bind_Returns.
    pose proof (constant_range_same l r v arr arr2 Hp2 Hall) as ->.
    assert (a = v) as -> by (by apply (Hall l a); [lia|]).
    destruct (partition_TwoWay_spec (S fuel) arr l r (count_swap m1) v)
      as (p & arr3 & m3 & -> & Hp & Hp3 & Hpiv & Hleft & Hright & Hc3 & Hcmp3 & Hsw3 & _);
      [lia|lia|done|lia|].
    rewrite bind_Returns.
    pose proof (constant_range_same l r v arr arr3 Hp3 Hall) as ->.
    assert (p = r) as ->.
    { destruct (decide (p = r)) as [|Hne]; [done|]. exfalso.
      destruct (item_is_Some arr r) as [y Hy]; [lia|].
      pose proof (Hright r y ltac:(lia) Hy) as Hlv. simpl in Hlv.
      pose proof (Hall r y ltac:(lia) Hy) as ->. lia. }
    pose proof Hc1 as (? & ? & Hx1 & Hd1). pose proof Hc3 as (? & ? & Hx3 & Hd3).
    simpl in Hx1, Hd1, Hx3, Hd3, Hsw3.
    destruct (IH arr l (r - 1)%Z m3 rng1) as (m4 & rng4 & -> & Hcmp4 & Hsw4 & Hd4 & Hx4);
      [done|lia|lia|lia| |lia| |].
    { intros k x Hk. apply Hall. lia. }
    { rewrite Hx3, Hd3, Hx1, Hd1. case_decide; lia. }
    rewrite bind_Returns, quicksort_TwoWay_empty, bind_Returns by lia.
    eexists _, _. split; [done|]. simpl in *.
    replace (r - 1 - l + 1)%Z with (r - l)%Z in Hcmp4 by lia.
    destruct (decide (max_depth m < current_depth m + 1)%Z); split_and!; lia.
Qed.

End ConstantTwoWay.

(** ** The almost sorted data set *)

Section AlmostSorted.

Context {Rng : Type}.
Variable uniform : Rng → Z → Z → Z * Rng.
Hypothesis uniform_range :
  ∀ rng l r, (l ≤ r)%Z → (l ≤ (uniform rng l r).1 ≤ r)%Z.

Lemma noise_body_spec n arr rng :
  (1 ≤ n)%Z → Z.of_nat (length arr) = n →
  ∃ arr' rng', noise_body Rng uniform n (arr, rng) = Returns (arr', rng') ∧
    permuted 0 (n - 1) arr arr'.
Proof.
  intros Hn Hlen. unfold noise_body.
  destruct (draw_spec uniform uniform_range rng 0 (n - 1)) as (i1 & rng1 & -> & Hi1); [lia|].
  rewrite bind_Returns.
  destruct (draw_spec uniform uniform_range rng1 0 (n - 1)) as (i2 & rng2 & -> & Hi2); [lia|].
  rewrite bind_Returns.
  destruct (item_is_Some arr i1) as [a Ha]; [lia|].
  destruct (item_is_Some arr i2) as [b Hb]; [lia|].
  rewrite (load_item _ _ _ Ha), bind_Returns, (load_item _ _ _ Hb), bind_Returns.
  rewrite store_Returns, bind_Returns by lia.
  rewrite store_Returns, bind_Returns by (rewrite length_insert; lia).
  eexists _, _. split; [done|]. by apply permuted_swap.
Qed.

Lemma generateAlmostSorted_spec n rng :
  (1 ≤ n)%Z →
  ∃ arr rng', generateAlmostSorted Rng uniform n rng = Returns (arr, rng') ∧
    arr ≡ₚ Z.of_nat <$> seq 0 (Z.to_nat n).
Proof.
  intros Hn. unfold generateAlmostSorted.
  rewrite new_vector_Returns, bind_Returns by lia.
  destruct (for_up_rule
    (λ (i : Z) (arr : list Z), length arr = Z.to_nat n ∧
       ∀ k, (0 ≤ k < i)%Z → item arr k = Some k)
    (λ i arr, store arr i i)
    (Z.to_nat n) 0%Z (replicate (Z.to_nat n) 0%Z)) as (arr0 & -> & Hlen & Hitem).
  { split; [by rewrite length_replicate|]. intros k Hk. lia. }
  { intros i arr Hi [Hlen Hitem]. rewrite store_Returns by lia.
    eexists. split; [done|]. split; [by rewrite length_insert|].
    intros k Hk. rewrite item_insert by lia. case_decide as Hki.
    - by subst k.
    - apply Hitem. lia. }
  rewrite bind_Returns.
  assert (arr0 = Z.of_nat <$> seq 0 (Z.to_nat n)) as Harr0.
  { apply list_eq. intros k. rewrite list_lookup_fmap.
    destruct (decide (k < Z.to_nat n)) as [Hk|Hk].
    - rewrite lookup_seq_lt by done. simpl.
      rewrite <- item_nat. apply Hitem. lia.
    - rewrite lookup_seq_ge by lia. simpl. apply lookup_ge_None_2. lia. }
  destruct (for_up_rule
    (λ (i : Z) (st : list Z * Rng), st.1 ≡ₚ arr0 ∧ length st.1 = length arr0)
    (λ _, noise_body Rng uniform n)
    (Z.to_nat (Z.max 1 (n `quot` 100))) 0%Z (arr0, rng)) as ([arr rng'] & -> & Hp & _).
  { done. }
  { intros i [arr rng1] Hi [Hp Hl]. simpl in Hp, Hl.
    destruct (noise_body_spec n arr rng1) as (arr' & rng' & -> & Hp'); [lia|lia|].
    eexists. split; [done|]. simpl. destruct Hp' as [Hp' [Hl' _]].
    split; [by rewrite Hp'|congruence]. }
  exists arr, rng'. split; [done|]. simpl in Hp. by rewrite Hp, Harr0.
Qed.

End AlmostSorted.

Lemma generateAlmostSorted_empty Rng uniform n (rng : Rng) :
  (n ≤ 0)%Z → generateAlmostSorted Rng uniform n rng = Undefined.
Proof.
  intros Hn. unfold generateAlmostSorted.
  destruct (decide (n = 0%Z)) as [->|Hn0].
  - by vm_compute.
  - unfold new_vector. by rewrite decide_False by lia.
Qed.

(** ** The sorting functions, as their callers see them *)

(** The hypotheses of the examples below. *)
Ltac example_hyp :=
  first
    [ lia
    | reflexivity
    | try unfold indices_fit; try unfold Int.INT_MAX; simpl; lia ].

(** X14: [partition_TwoWay] on the range [l..r] of a vector, with the
    pivot [arr[l]], returns an index [p] of the range and permutes the
    range only: the pivot is at [p], the elements before [p] are at most
    the pivot and the elements after [p] are greater.  It makes [r - l]
    or [r - l + 1] comparisons, and between one and [(r - l) / 2 + 1]
    calls of [swap_counted]. *)
Theorem partition_TwoWay_splits_range fuel arr l r m pivot :
  indices_fit arr →
  (0 ≤ l ≤ r)%Z → (r < Z.of_nat (length arr))%Z → item arr l = Some pivot →
  Z.to_nat (r - l) ≤ fuel →
  ∃ p arr' m', partition_TwoWay fuel arr l r m = Returns (p, arr', m') ∧
    (l ≤ p ≤ r)%Z ∧ permuted l r arr arr' ∧ item arr' p = Some pivot ∧
    all_in l (p - 1) arr' (λ x, x ≤ pivot)%Z ∧
    all_in (p + 1) r arr' (λ x, pivot < x)%Z ∧
    counted m m' ∧
    (r - l ≤ m'.(comparisons) - m.(comparisons) ≤ r - l + 1)%Z ∧
    (1 ≤ m'.(swaps) - m.(swaps))%Z ∧
    (2 * (m'.(swaps) - m.(swaps)) ≤ r - l + 2)%Z.
Proof.
  intros _ Hl Hr Hpivot Hfuel. by apply partition_TwoWay_spec.
Qed.

Lemma partition_TwoWay_splits_range_witness :
  ∃ p arr' m',
    partition_TwoWay 4 [3; 5; 1; 4; 2]%Z 0 4 Metrics_init = Returns (p, arr', m') ∧
    (0 ≤ p ≤ 4)%Z ∧ permuted 0 4 [3; 5; 1; 4; 2]%Z arr' ∧ item arr' p = Some 3%Z ∧
    all_in 0 (p - 1) arr' (λ x, x ≤ 3)%Z ∧
    all_in (p + 1) 4 arr' (λ x, 3 < x)%Z ∧
    counted Metrics_init m' ∧
    (4 - 0 ≤ m'.(comparisons) - Metrics_init.(comparisons) ≤ 4 - 0 + 1)%Z ∧
    (1 ≤ m'.(swaps) - Metrics_init.(swaps))%Z ∧
    (2 * (m'.(swaps) - Metrics_init.(swaps)) ≤ 4 - 0 + 2)%Z.
Proof.
  apply (partition_TwoWay_splits_range 4 [3; 5; 1; 4; 2]%Z 0 4 Metrics_init 3);
    example_hyp.
Defined.

(** X15: [quicksort_TwoWay] with a pivot function that meets the
    contract [pivot_ok] (it returns an index of the range and may permute
    the range) sorts the range [l..r] and touches nothing else; called
    on the whole vector, as the benchmark does, it leaves a sorted
    permutation of the vector.  The depth counter is back at its value
    and the maximum depth has grown by at most [r - l]. *)
Theorem quicksort_TwoWay_sorts {Rng : Type} (findPivot : PivotFunc Rng)
    fuel arr l r m (rng : Rng) :
  indices_fit arr → pivot_ok (r - l + 1) findPivot →
  (0 ≤ l)%Z → (r < Z.of_nat (length arr))%Z → Z.to_nat (r - l) ≤ fuel →
  ∃ arr' m' rng',
    quicksort_TwoWay Rng fuel findPivot arr l r m rng = Returns (arr', m', rng') ∧
    permuted l r arr arr' ∧ sorted_in l r arr' ∧ depth_ok (r - l + 1) m m' ∧
    (l = 0%Z → r = (Z.of_nat (length arr) - 1)%Z →
     arr' ≡ₚ arr ∧ StronglySorted Z.le arr').
Proof.
  intros Hfit Hpivot Hl Hr Hfuel.
  destruct (quicksort_TwoWay_spec findPivot (r - l + 1) Hpivot fuel arr l r m rng)
    as (arr' & m' & rng' & Hrun & Hp & Hs & Hd); [done|lia..|].
  exists arr', m', rng'. split_and!; try done.
  intros -> ->. split; [by destruct Hp|].
  apply sorted_whole. by rewrite (permuted_length _ _ _ _ Hp).
Qed.

Lemma quicksort_TwoWay_sorts_witness :
  ∃ arr' m' rng',
    quicksort_TwoWay unit 4 (findPivot_Naive unit) [3; 5; 1; 4; 2]%Z 0 4 Metrics_init tt
      = Returns (arr', m', rng') ∧
    permuted 0 4 [3; 5; 1; 4; 2]%Z arr' ∧ sorted_in 0 4 arr' ∧
    depth_ok (4 - 0 + 1) Metrics_init m' ∧
    (0%Z = 0%Z → 4%Z = (Z.of_nat (length [3; 5; 1; 4; 2]%Z) - 1)%Z →
     arr' ≡ₚ [3; 5; 1; 4; 2]%Z ∧ StronglySorted Z.le arr').
Proof.
  apply (quicksort_TwoWay_sorts (findPivot_Naive unit) 4 [3; 5; 1; 4; 2]%Z 0 4
           Metrics_init tt); [example_hyp|apply findPivot_Naive_ok|example_hyp..].
Defined.

(** X16: the five pivot functions meet the contract of
    [quicksort_TwoWay]: each returns an index of the range [l..r], changes
    the vector by a permutation of the range at most, and leaves the
    depth counters alone; for the two randomized ones provided that the
    distribution draws within its bounds, for the median of medians on
    ranges of at most [fuel] elements. *)
Theorem pivot_functions_meet_contract (Rng : Type)
    (uniform : Rng → Z → Z → Z * Rng) (fuel : nat) (N : Z) :
  (∀ rng l r, (l ≤ r)%Z → (l ≤ (uniform rng l r).1 ≤ r)%Z) →
  (N ≤ Z.of_nat fuel)%Z →
  pivot_ok N (findPivot_Naive Rng) ∧
  pivot_ok N (findPivot_MedianOfThree Rng) ∧
  pivot_ok N (findPivot_Randomized Rng uniform) ∧
  pivot_ok N (findPivot_RandomizedMedianOfThree Rng uniform) ∧
  pivot_ok N (findPivot_MoM Rng fuel).
Proof.
  intros Huniform HN. split_and!.
  - apply findPivot_Naive_ok.
  - apply findPivot_MedianOfThree_ok.
  - by apply findPivot_Randomized_ok.
  - by apply findPivot_RandomizedMedianOfThree_ok.
  - by apply findPivot_MoM_ok.
Qed.

Lemma pivot_functions_meet_contract_witness :
  pivot_ok 7 (findPivot_Naive unit) ∧
  pivot_ok 7 (findPivot_MedianOfThree unit) ∧
  pivot_ok 7 (findPivot_Randomized unit (λ rng l r, (r, rng))) ∧
  pivot_ok 7 (findPivot_RandomizedMedianOfThree unit (λ rng l r, (r, rng))) ∧
  pivot_ok 7 (findPivot_MoM unit 7).
Proof.
  apply (pivot_functions_meet_contract unit (λ rng l r, (r, rng)) 7 7).
  - intros rng l r Hlr. simpl. lia.
  - lia.
Defined.

(** X17: [findPivot_MedianOfThree] returns the index [l], [mid] or [r]
    of the median of [arr[l]], [arr[mid]] and [arr[r]], where
    [mid = l + (r - l) / 2]; it makes exactly three comparisons and
    changes neither the vector nor the generator. *)
Theorem median_of_three_picks_median Rng arr l r m (rng : Rng) :
  indices_fit arr → (0 ≤ l ≤ r)%Z → (r < Z.of_nat (length arr))%Z →
  ∃ a b c i,
    item arr l = Some a ∧ item arr (l + (r - l) `quot` 2) = Some b ∧
    item arr r = Some c ∧
    findPivot_MedianOfThree Rng arr l r m rng
      = Returns (i, arr, count_comparison (count_comparison (count_comparison m)), rng) ∧
    (i = l ∨ i = (l + (r - l) `quot` 2)%Z ∨ i = r) ∧
    item arr i = Some (a + b + c - Z.min a (Z.min b c) - Z.max a (Z.max b c))%Z.
Proof.
  intros _ Hl Hr. by apply findPivot_MedianOfThree_spec.
Qed.

Lemma median_of_three_picks_median_witness :
  ∃ a b c i : Z,
    item [3; 5; 1; 4; 2]%Z 0 = Some a ∧
    item [3; 5; 1; 4; 2]%Z (0 + (4 - 0) `quot` 2) = Some b ∧
    item [3; 5; 1; 4; 2]%Z 4 = Some c ∧
    findPivot_MedianOfThree unit [3; 5; 1; 4; 2]%Z 0%Z 4%Z Metrics_init tt
      = Returns (i, [3; 5; 1; 4; 2]%Z,
                 count_comparison (count_comparison (count_comparison Metrics_init)), tt) ∧
    (i = 0%Z ∨ i = (0 + (4 - 0) `quot` 2)%Z ∨ i = 4%Z) ∧
    item [3; 5; 1; 4; 2]%Z i
      = Some (a + b + c - Z.min a (Z.min b c) - Z.max a (Z.max b c))%Z.
Proof.
  apply (median_of_three_picks_median unit [3; 5; 1; 4; 2]%Z 0 4 Metrics_init tt);
    example_hyp.
Defined.

(** X18: [sort5_MoM], the insertion sort of the groups of five, sorts
    the range [l..r] of any length and touches nothing else.  It makes
    at least [r - l] and at most [(r - l) (r - l + 1) / 2] comparisons,
    and counts no more swaps than comparisons. *)
Theorem sort5_MoM_sorts_range fuel arr l r m :
  indices_fit arr →
  (0 ≤ l ≤ r)%Z → (r < Z.of_nat (length arr))%Z → Z.to_nat (r - l) ≤ fuel →
  ∃ arr' m', sort5_MoM fuel arr l r m = Returns (arr', m') ∧
    permuted l r arr arr' ∧ sorted_in l r arr' ∧ counted m m' ∧
    (r - l ≤ m'.(comparisons) - m.(comparisons))%Z ∧
    (2 * (m'.(comparisons) - m.(comparisons)) ≤ (r - l) * (r - l + 1))%Z ∧
    (m'.(swaps) - m.(swaps) ≤ m'.(comparisons) - m.(comparisons))%Z.
Proof.
  intros _ Hl Hr Hfuel. by apply sort5_MoM_spec.
Qed.

Lemma sort5_MoM_sorts_range_witness :
  ∃ arr' m', sort5_MoM 3 [9; 5; 1; 4; 2]%Z 1 4 Metrics_init = Returns (arr', m') ∧
    permuted 1 4 [9; 5; 1; 4; 2]%Z arr' ∧ sorted_in 1 4 arr' ∧
    counted Metrics_init m' ∧
    (4 - 1 ≤ m'.(comparisons) - Metrics_init.(comparisons))%Z ∧
    (2 * (m'.(comparisons) - Metrics_init.(comparisons)) ≤ (4 - 1) * (4 - 1 + 1))%Z ∧
    (m'.(swaps) - Metrics_init.(swaps)
       ≤ m'.(comparisons) - Metrics_init.(comparisons))%Z.
Proof.
  apply (sort5_MoM_sorts_range 3 [9; 5; 1; 4; 2]%Z 1 4 Metrics_init); example_hyp.
Defined.

(** X19: [momSelect] on the range [l..r] with [0 <= k <= r - l] returns
    an index of the range and changes the vector by a permutation of the
    range at most; it does not partition.  On a range of at most five
    elements it sorts the range and returns [l + k], the index of the
    element of rank [k]. *)
Theorem momSelect_returns_index_of_range fuel arr l r k m :
  indices_fit arr →
  (0 ≤ l ≤ r)%Z → (r < Z.of_nat (length arr))%Z → (0 ≤ k ≤ r - l)%Z →
  (r - l + 1 ≤ Z.of_nat fuel)%Z →
  ∃ p arr' m', momSelect fuel arr l r k m = Returns (p, arr', m') ∧
    (l ≤ p ≤ r)%Z ∧ permuted l r arr arr' ∧ counted m m' ∧
    ((r - l + 1 ≤ 5)%Z → p = (l + k)%Z ∧ sorted_in l r arr').
Proof.
  intros _ Hl Hr Hk Hfuel. by apply momSelect_spec.
Qed.

Lemma momSelect_returns_index_of_range_witness :
  ∃ p arr' m',
    momSelect 7 [7; 3; 5; 1; 4; 2; 6]%Z 0 6 3 Metrics_init = Returns (p, arr', m') ∧
    (0 ≤ p ≤ 6)%Z ∧ permuted 0 6 [7; 3; 5; 1; 4; 2; 6]%Z arr' ∧
    counted Metrics_init m' ∧
    ((6 - 0 + 1 ≤ 5)%Z → p = (0 + 3)%Z ∧ sorted_in 0 6 arr').
Proof.
  apply (momSelect_returns_index_of_range 7 [7; 3; 5; 1; 4; 2; 6]%Z 0 6 3 Metrics_init);
    example_hyp.
Defined.

(** X20: [partition_ThreeWay] on the range [l..r], with the pivot
    [arr[l]], permutes the range only and returns [lt] and [gt] with
    [l <= lt <= gt <= r]: the elements before [lt] are smaller than the
    pivot, the elements of [lt..gt] are equal to it and the elements
    after [gt] are greater.  It makes between [r - l] and [2 (r - l)]
    comparisons. *)
Theorem partition_ThreeWay_splits_range fuel arr l r m pivot :
  indices_fit arr →
  (0 ≤ l ≤ r)%Z → (r < Z.of_nat (length arr))%Z → item arr l = Some pivot →
  Z.to_nat (r - l) ≤ fuel →
  ∃ lt gt arr' m', partition_ThreeWay fuel arr l r m = Returns (lt, gt, arr', m') ∧
    (l ≤ lt ≤ gt)%Z ∧ (gt ≤ r)%Z ∧ permuted l r arr arr' ∧
    all_in l (lt - 1) arr' (λ x, x < pivot)%Z ∧
    all_in lt gt arr' (λ x, x = pivot) ∧
    all_in (gt + 1) r arr' (λ x, pivot < x)%Z ∧
    counted m m' ∧
    (r - l ≤ m'.(comparisons) - m.(comparisons) ≤ 2 * (r - l))%Z.
Proof.
  intros _ Hl Hr Hpivot Hfuel. by apply partition_ThreeWay_spec.
Qed.

Lemma partition_ThreeWay_splits_range_witness :
  ∃ lt gt arr' m',
    partition_ThreeWay 4 [3; 5; 3; 1; 3]%Z 0 4 Metrics_init = Returns (lt, gt, arr', m') ∧
    (0 ≤ lt ≤ gt)%Z ∧ (gt ≤ 4)%Z ∧ permuted 0 4 [3; 5; 3; 1; 3]%Z arr' ∧
    all_in 0 (lt - 1) arr' (λ x, x < 3)%Z ∧
    all_in lt gt arr' (λ x, x = 3%Z) ∧
    all_in (gt + 1) 4 arr' (λ x, 3 < x)%Z ∧
    counted Metrics_init m' ∧
    (4 - 0 ≤ m'.(comparisons) - Metrics_init.(comparisons) ≤ 2 * (4 - 0))%Z.
Proof.
  apply (partition_ThreeWay_splits_range 4 [3; 5; 3; 1; 3]%Z 0 4 Metrics_init 3);
    example_hyp.
Defined.

(** X21: [quicksort_ThreeWay] sorts the range [l..r] and touches nothing
    else; called on the whole vector, as the benchmark does, it leaves a
    sorted permutation of the vector.  The depth counter is back at its
    value and the maximum depth has grown by at most [r - l]. *)
Theorem quicksort_ThreeWay_sorts fuel arr l r m :
  indices_fit arr →
  (0 ≤ l)%Z → (r < Z.of_nat (length arr))%Z → Z.to_nat (r - l) ≤ fuel →
  ∃ arr' m',
    quicksort_ThreeWay fuel arr l r m = Returns (arr', m') ∧
    permuted l r arr arr' ∧ sorted_in l r arr' ∧ depth_ok (r - l + 1) m m' ∧
    (l = 0%Z → r = (Z.of_nat (length arr) - 1)%Z →
     arr' ≡ₚ arr ∧ StronglySorted Z.le arr').
Proof.
  intros _ Hl Hr Hfuel.
  destruct (quicksort_ThreeWay_spec fuel arr l r m)
    as (arr' & m' & Hrun & Hp & Hs & Hd); [lia..|].
  exists arr', m'. split_and!; try done.
  intros -> ->. split; [by destruct Hp|].
  apply sorted_whole. by rewrite (permuted_length _ _ _ _ Hp).
Qed.

Lemma quicksort_ThreeWay_sorts_witness :
  ∃ arr' m',
    quicksort_ThreeWay 4 [3; 5; 3; 1; 3]%Z 0 4 Metrics_init = Returns (arr', m') ∧
    permuted 0 4 [3; 5; 3; 1; 3]%Z arr' ∧ sorted_in 0 4 arr' ∧
    depth_ok (4 - 0 + 1) Metrics_init m' ∧
    (0%Z = 0%Z → 4%Z = (Z.of_nat (length [3; 5; 3; 1; 3]%Z) - 1)%Z →
     arr' ≡ₚ [3; 5; 3; 1; 3]%Z ∧ StronglySorted Z.le arr').
Proof.
  apply (quicksort_ThreeWay_sorts 4 [3; 5; 3; 1; 3]%Z 0 4 Metrics_init); example_hyp.
Defined.

(** The hypotheses on the elements of a range of an example: the
    index is one of the first indices and the element is read off. *)
Ltac example_index k :=
  assert (k = 0 ∨ k = 1 ∨ k = 2 ∨ k = 3 ∨ k = 4)%Z as [->|[->|[->|[->| ->]]]] by lia.

Ltac example_range :=
  first
    [ intros ?i ?j ?x ?y ?Hij ?Hj ?Hx ?Hy; example_index i; example_index j;
      try lia; vm_compute in Hx, Hy; simplify_eq; lia
    | intros ?k ?x ?Hk ?Hx; example_index k;
      try lia; vm_compute in Hx; simplify_eq; lia ].

(** X22: [merge] on a range [l..r] whose halves [l..mid] and
    [mid + 1..r] are sorted leaves the range sorted, as a permutation of
    its elements, and touches nothing else.  It counts one swap per
    element, [r - l + 1], and makes at least as many comparisons as the
    shorter half has elements and at most [r - l]. *)
Theorem merge_merges_sorted_halves fuel arr l mid r m :
  indices_fit arr →
  (0 ≤ l ≤ mid)%Z → (mid ≤ r)%Z → (r < Z.of_nat (length arr))%Z →
  sorted_in l mid arr → sorted_in (mid + 1) r arr →
  (r - l + 1 ≤ Z.of_nat fuel)%Z →
  ∃ arr' m', merge fuel arr l mid r m = Returns (arr', m') ∧
    permuted l r arr arr' ∧ sorted_in l r arr' ∧ counted m m' ∧
    m'.(swaps) = (m.(swaps) + (r - l + 1))%Z ∧
    (Z.min (mid - l + 1) (r - mid) ≤ m'.(comparisons) - m.(comparisons))%Z ∧
    (m'.(comparisons) - m.(comparisons) ≤ r - l)%Z.
Proof.
  intros _ Hl Hmid Hr Hs1 Hs2 Hfuel. by apply merge_halves_spec.
Qed.

Lemma merge_merges_sorted_halves_witness :
  ∃ arr' m', merge 4 [1; 4; 2; 3]%Z 0 1 3 Metrics_init = Returns (arr', m') ∧
    permuted 0 3 [1; 4; 2; 3]%Z arr' ∧ sorted_in 0 3 arr' ∧
    counted Metrics_init m' ∧
    m'.(swaps) = (Metrics_init.(swaps) + (3 - 0 + 1))%Z ∧
    (Z.min (1 - 0 + 1) (3 - 1) ≤ m'.(comparisons) - Metrics_init.(comparisons))%Z ∧
    (m'.(comparisons) - Metrics_init.(comparisons) ≤ 3 - 0)%Z.
Proof.
  apply (merge_merges_sorted_halves 4 [1; 4; 2; 3]%Z 0 1 3 Metrics_init);
    first [example_hyp|example_range].
Defined.

(** X23: [mergeSort] leaves a sorted permutation of the vector.  The
    depth counter is back at its value; the depth [d] that the recursion
    reached is logarithmic, [2 ^ d < 2 n] for [n] elements; at most
    [n d] swaps are counted, and no more comparisons than swaps. *)
Theorem mergeSort_sorts fuel arr m :
  indices_fit arr → length arr ≤ fuel →
  (m.(current_depth) ≤ m.(max_depth))%Z →
  ∃ arr' m' d,
    mergeSort fuel arr m = Returns (arr', m') ∧
    arr' ≡ₚ arr ∧ StronglySorted Z.le arr' ∧
    (0 ≤ d)%Z ∧ (2 ^ d < 2 * Z.max 1 (Z.of_nat (length arr)))%Z ∧
    m'.(current_depth) = m.(current_depth) ∧
    m'.(max_depth) = Z.max m.(max_depth) (m.(current_depth) + d) ∧
    (0 ≤ m'.(comparisons) - m.(comparisons) ≤ m'.(swaps) - m.(swaps))%Z ∧
    (m'.(swaps) - m.(swaps) ≤ Z.of_nat (length arr) * d)%Z.
Proof.
  intros _ Hfuel Hdepth. by apply mergeSort_spec.
Qed.

Lemma mergeSort_sorts_witness :
  ∃ arr' m' d,
    mergeSort 5 [3; 5; 1; 4; 2]%Z Metrics_init = Returns (arr', m') ∧
    arr' ≡ₚ [3; 5; 1; 4; 2]%Z ∧ StronglySorted Z.le arr' ∧
    (0 ≤ d)%Z ∧ (2 ^ d < 2 * Z.max 1 (Z.of_nat (length [3; 5; 1; 4; 2]%Z)))%Z ∧
    m'.(current_depth) = Metrics_init.(current_depth) ∧
    m'.(max_depth) = Z.max Metrics_init.(max_depth) (Metrics_init.(current_depth) + d) ∧
    (0 ≤ m'.(comparisons) - Metrics_init.(comparisons)
       ≤ m'.(swaps) - Metrics_init.(swaps))%Z ∧
    (m'.(swaps) - Metrics_init.(swaps) ≤ Z.of_nat (length [3; 5; 1; 4; 2]%Z) * d)%Z.
Proof.
  apply (mergeSort_sorts 5 [3; 5; 1; 4; 2]%Z Metrics_init); example_hyp.
Defined.

(** X24: [heapify] at the index [i] of a heap of [n] elements that is in
    order from the index [lo] on, except that the element at [i] may be
    too small, restores the heap order from [lo] on; it permutes the
    elements at [i..n-1] only, and makes at most two comparisons per
    swap and two more. *)
Theorem heapify_restores_heap lo fuel arr n i m :
  indices_fit arr →
  (0 ≤ lo ≤ i)%Z → (i < n)%Z → (n ≤ Z.of_nat (length arr))%Z →
  Z.to_nat (n - i) ≤ fuel →
  almost_heap lo n i arr →
  ∃ arr' m', heapify fuel arr n i m = Returns (arr', m') ∧
    permuted i (n - 1) arr arr' ∧ heap_from lo n arr' ∧ counted m m' ∧
    (m'.(comparisons) - m.(comparisons) ≤ 2 * (m'.(swaps) - m.(swaps)) + 2)%Z.
Proof.
  intros _ Hlo Hi Hn Hfuel Hheap. by apply heapify_spec.
Qed.

Lemma heapify_restores_heap_witness :
  ∃ arr' m', heapify 3 [1; 5; 4]%Z 3 0 Metrics_init = Returns (arr', m') ∧
    permuted 0 (3 - 1) [1; 5; 4]%Z arr' ∧ heap_from 0 3 arr' ∧
    counted Metrics_init m' ∧
    (m'.(comparisons) - Metrics_init.(comparisons)
       ≤ 2 * (m'.(swaps) - Metrics_init.(swaps)) + 2)%Z.
Proof.
  apply (heapify_restores_heap 0 3 [1; 5; 4]%Z 3 0 Metrics_init); try example_hyp.
  split.
  - intros k Hk Hk0 c x y Hc Hcn. lia.
  - intros p c x y Hp Hp0. lia.
Defined.

(** X25: [heapSort] leaves a sorted permutation of the vector.  It does
    not touch the depth counters, counts at least [n - 1] swaps for [n]
    elements, and makes at most two comparisons per swap and [n]
    more. *)
Theorem heapSort_sorts fuel arr m :
  indices_fit arr → length arr ≤ fuel →
  ∃ arr' m', heapSort fuel arr m = Returns (arr', m') ∧
    arr' ≡ₚ arr ∧ StronglySorted Z.le arr' ∧ counted m m' ∧
    (Z.of_nat (length arr) - 1 ≤ m'.(swaps) - m.(swaps))%Z ∧
    (m'.(comparisons) - m.(comparisons)
       ≤ 2 * (m'.(swaps) - m.(swaps)) + Z.of_nat (length arr))%Z.
Proof.
  intros _ Hfuel. by apply heapSort_spec.
Qed.

Lemma heapSort_sorts_witness :
  ∃ arr' m', heapSort 5 [3; 5; 1; 4; 2]%Z Metrics_init = Returns (arr', m') ∧
    arr' ≡ₚ [3; 5; 1; 4; 2]%Z ∧ StronglySorted Z.le arr' ∧
    counted Metrics_init m' ∧
    (Z.of_nat (length [3; 5; 1; 4; 2]%Z) - 1 ≤ m'.(swaps) - Metrics_init.(swaps))%Z ∧
    (m'.(comparisons) - Metrics_init.(comparisons)
       ≤ 2 * (m'.(swaps) - Metrics_init.(swaps))
         + Z.of_nat (length [3; 5; 1; 4; 2]%Z))%Z.
Proof.
  apply (heapSort_sorts 5 [3; 5; 1; 4; 2]%Z Metrics_init); example_hyp.
Defined.

(** X26: on the vector [1, 2, ..., n] of [generateSorted],
    [quicksort_TwoWay] with [findPivot_Naive] leaves the vector as it
    is, makes [(n + 2) (n - 1) / 2] comparisons, counts [2 (n - 1)]
    swaps and reaches the depth [n - 1]: the sorted input is the
    quadratic case of the first element as pivot. *)
Theorem naive_quicksort_sorted_input (Rng : Type) fuel n m (rng : Rng) :
  (1 ≤ n)%Z → (2 * n ≤ Int.INT_MAX)%Z → Z.to_nat (n - 1) ≤ fuel →
  (m.(current_depth) ≤ m.(max_depth))%Z →
  ∃ arr m',
    generateSorted n = Returns arr ∧ Z.of_nat (length arr) = n ∧
    (∀ k, (0 ≤ k < n)%Z → item arr k = Some (k + 1)%Z) ∧
    quicksort_TwoWay Rng fuel (findPivot_Naive Rng) arr 0 (n - 1) m rng
      = Returns (arr, m', rng) ∧
    (2 * (m'.(comparisons) - m.(comparisons)) = (n + 2) * (n - 1))%Z ∧
    (m'.(swaps) - m.(swaps) = 2 * (n - 1))%Z ∧
    m'.(current_depth) = m.(current_depth) ∧
    m'.(max_depth) = Z.max m.(max_depth) (m.(current_depth) + (n - 1)).
Proof.
  intros Hn Hfit Hfuel Hdepth.
  destruct (generateSorted_spec n) as (arr & Hgen & Hlen & Hitem); [lia|].
  destruct (quicksort_naive_increasing Rng fuel arr 0 (n - 1) m rng)
    as (m' & Hrun & Hcmp & Hsw & Hc & Hx); [lia|lia| |lia|done|].
  { intros i j x y Hi Hj. rewrite !Hitem by lia. intros [= <-] [= <-]. lia. }
  exists arr, m'. split_and!; try done.
  - rewrite Hcmp. lia.
  - lia.
  - rewrite Hx. f_equal. lia.
Qed.

Lemma naive_quicksort_sorted_input_witness :
  ∃ arr m',
    generateSorted 6 = Returns arr ∧ Z.of_nat (length arr) = 6%Z ∧
    (∀ k, (0 ≤ k < 6)%Z → item arr k = Some (k + 1)%Z) ∧
    quicksort_TwoWay unit 5 (findPivot_Naive unit) arr 0 (6 - 1) Metrics_init tt
      = Returns (arr, m', tt) ∧
    (2 * (m'.(comparisons) - Metrics_init.(comparisons)) = (6 + 2) * (6 - 1))%Z ∧
    (m'.(swaps) - Metrics_init.(swaps) = 2 * (6 - 1))%Z ∧
    m'.(current_depth) = Metrics_init.(current_depth) ∧
    m'.(max_depth)
      = Z.max Metrics_init.(max_depth) (Metrics_init.(current_depth) + (6 - 1)).
Proof.
  apply (naive_quicksort_sorted_input unit 5 6 Metrics_init tt); example_hyp.
Defined.

(** X27: on a range [l..r] of equal elements, [quicksort_TwoWay] with
    any pivot function that meets the contract leaves the vector as it
    is and degenerates: every partition puts the pivot last, the depth
    reaches [r - l], and at least [(r - l + 1) (r - l) / 2] comparisons
    and [2 (r - l)] swaps are counted. *)
Theorem two_way_quicksort_equal_elements {Rng : Type} (findPivot : PivotFunc Rng)
    fuel v arr l r m (rng : Rng) :
  indices_fit arr → pivot_ok (r - l + 1) findPivot →
  (0 ≤ l ≤ r)%Z → (r < Z.of_nat (length arr))%Z →
  all_in l r arr (λ x, x = v) →
  Z.to_nat (r - l) ≤ fuel → (m.(current_depth) ≤ m.(max_depth))%Z →
  ∃ m' rng',
    quicksort_TwoWay Rng fuel findPivot arr l r m rng = Returns (arr, m', rng') ∧
    ((r - l + 1) * (r - l) ≤ 2 * (m'.(comparisons) - m.(comparisons)))%Z ∧
    (2 * (r - l) ≤ m'.(swaps) - m.(swaps))%Z ∧
    m'.(current_depth) = m.(current_depth) ∧
    m'.(max_depth) = Z.max m.(max_depth) (m.(current_depth) + (r - l)).
Proof.
  intros Hfit Hpivot Hl Hr Hall Hfuel Hdepth.
  apply (quicksort_TwoWay_constant findPivot (r - l + 1) Hpivot fuel v); (done || lia).
Qed.

Lemma two_way_quicksort_equal_elements_witness :
  ∃ m' rng',
    quicksort_TwoWay unit 4 (findPivot_MedianOfThree unit) [7; 7; 7; 7; 7]%Z 0 4
      Metrics_init tt = Returns ([7; 7; 7; 7; 7]%Z, m', rng') ∧
    ((4 - 0 + 1) * (4 - 0) ≤ 2 * (m'.(comparisons) - Metrics_init.(comparisons)))%Z ∧
    (2 * (4 - 0) ≤ m'.(swaps) - Metrics_init.(swaps))%Z ∧
    m'.(current_depth) = Metrics_init.(current_depth) ∧
    m'.(max_depth)
      = Z.max Metrics_init.(max_depth) (Metrics_init.(current_depth) + (4 - 0)).
Proof.
  apply (two_way_quicksort_equal_elements (findPivot_MedianOfThree unit) 4 7
           [7; 7; 7; 7; 7]%Z 0 4 Metrics_init tt);
    first [apply findPivot_MedianOfThree_ok|example_hyp|example_range].
Defined.

(** X28: on a range [l..r] of equal elements, [l < r],
    [quicksort_ThreeWay] leaves the vector as it is after one partition:
    it makes at most [2 (r - l)] comparisons and the depth it reaches
    is one. *)
Theorem three_way_quicksort_equal_elements fuel arr l r m v :
  indices_fit arr →
  (0 ≤ l < r)%Z → (r < Z.of_nat (length arr))%Z → all_in l r arr (λ x, x = v) →
  Z.to_nat (r - l) ≤ fuel →
  ∃ m', quicksort_ThreeWay fuel arr l r m = Returns (arr, m') ∧
    (r - l ≤ m'.(comparisons) - m.(comparisons) ≤ 2 * (r - l))%Z ∧
    (m.(swaps) ≤ m'.(swaps))%Z ∧
    m'.(current_depth) = m.(current_depth) ∧
    m'.(max_depth) = Z.max m.(max_depth) (m.(current_depth) + 1).
Proof.
  intros _ Hl Hr Hall Hfuel. by apply (quicksort_ThreeWay_constant fuel arr l r m v).
Qed.

Lemma three_way_quicksort_equal_elements_witness :
  ∃ m', quicksort_ThreeWay 4 [7; 7; 7; 7; 7]%Z 0 4 Metrics_init
          = Returns ([7; 7; 7; 7; 7]%Z, m') ∧
    (4 - 0 ≤ m'.(comparisons) - Metrics_init.(comparisons) ≤ 2 * (4 - 0))%Z ∧
    (Metrics_init.(swaps) ≤ m'.(swaps))%Z ∧
    m'.(current_depth) = Metrics_init.(current_depth) ∧
    m'.(max_depth) = Z.max Metrics_init.(max_depth) (Metrics_init.(current_depth) + 1).
Proof.
  apply (three_way_quicksort_equal_elements 4 [7; 7; 7; 7; 7]%Z 0 4 Metrics_init 7);
    first [example_hyp|example_range].
Defined.

(** X29: [generateAlmostSorted] with [n >= 1] returns a permutation of
    [0, 1, ..., n - 1], whatever the generator draws within the bounds
    of the distribution: the elements of the almost sorted data set are
    distinct.  With [n <= 0] it is undefined (a vector of negative size,
    or a distribution over the empty range [0..-1]). *)
Theorem generateAlmostSorted_permutes_indices (Rng : Type)
    (uniform : Rng → Z → Z → Z * Rng) n (rng : Rng) :
  (∀ rng l r, (l ≤ r)%Z → (l ≤ (uniform rng l r).1 ≤ r)%Z) →
  (2 * n ≤ Int.INT_MAX)%Z →
  ((1 ≤ n)%Z →
   ∃ arr rng', generateAlmostSorted Rng uniform n rng = Returns (arr, rng') ∧
     arr ≡ₚ Z.of_nat <$> seq 0 (Z.to_nat n) ∧
     NoDup arr ∧ Z.of_nat (length arr) = n) ∧
  ((n ≤ 0)%Z → generateAlmostSorted Rng uniform n rng = Undefined).
Proof.
  intros Huniform _. split.
  - intros Hn.
    destruct (generateAlmostSorted_spec uniform Huniform n rng Hn)
      as (arr & rng' & Hrun & Hp).
    exists arr, rng'. split_and!; [done|done| |].
    + rewrite Hp. apply (NoDup_fmap_2 _), NoDup_seq.
    + rewrite Hp, length_fmap, length_seq. lia.
  - apply generateAlmostSorted_empty.
Qed.

Lemma generateAlmostSorted_permutes_indices_witness :
  ((1 ≤ 5)%Z →
   ∃ arr rng',
     generateAlmostSorted unit (λ rng l r, (r, rng)) 5 tt = Returns (arr, rng') ∧
     arr ≡ₚ Z.of_nat <$> seq 0 (Z.to_nat 5) ∧
     NoDup arr ∧ Z.of_nat (length arr) = 5%Z) ∧
  ((5 ≤ 0)%Z → generateAlmostSorted unit (λ rng l r, (r, rng)) 5 tt = Undefined).
Proof.
  apply (generateAlmostSorted_permutes_indices unit (λ rng l r, (r, rng)) 5 tt).
  - intros rng l r Hlr. simpl. lia.
  - unfold Int.INT_MAX. lia.
Defined.

(** X30: the sorting functions of the benchmark agree: on the same
    vector, [quicksort_TwoWay] with any pivot function that meets the
    contract, [quicksort_ThreeWay], [mergeSort] and [heapSort] all leave
    the same vector, the sorted permutation of the input. *)
Theorem sorting_functions_agree {Rng : Type} (findPivot : PivotFunc Rng)
    fuel arr m (rng : Rng) :
  indices_fit arr → pivot_ok (Z.of_nat (length arr)) findPivot →
  length arr ≤ fuel → (m.(current_depth) ≤ m.(max_depth))%Z →
  ∃ sorted m1 rng1 m2 m3 m4,
    quicksort_TwoWay Rng fuel findPivot arr 0 (Z.of_nat (length arr) - 1) m rng
      = Returns (sorted, m1, rng1) ∧
    quicksort_ThreeWay fuel arr 0 (Z.of_nat (length arr) - 1) m
      = Returns (sorted, m2) ∧
    mergeSort fuel arr m = Returns (sorted, m3) ∧
    heapSort fuel arr m = Returns (sorted, m4) ∧
    sorted ≡ₚ arr ∧ StronglySorted Z.le sorted.
Proof.
  intros Hfit Hpivot Hfuel Hdepth.
  set (r := (Z.of_nat (length arr) - 1)%Z).
  destruct (quicksort_TwoWay_spec findPivot (Z.of_nat (length arr)) Hpivot fuel arr 0 r m rng)
    as (a1 & m1 & rng1 & Hrun1 & Hp1 & Hs1 & _); [done|lia..|].
  destruct (quicksort_ThreeWay_spec fuel arr 0 r m)
    as (a2 & m2 & Hrun2 & Hp2 & Hs2 & _); [lia..|].
  destruct (mergeSort_spec fuel arr m Hfuel Hdepth)
    as (a3 & m3 & d & Hrun3 & Hp3 & Hs3 & _).
  destruct (heapSort_spec fuel arr m Hfuel)
    as (a4 & m4 & Hrun4 & Hp4 & Hs4 & _).
  assert (StronglySorted Z.le a1) as Hs1'.
  { apply sorted_whole. by rewrite (permuted_length _ _ _ _ Hp1). }
  assert (StronglySorted Z.le a2) as Hs2'.
  { apply sorted_whole. by rewrite (permuted_length _ _ _ _ Hp2). }
  destruct Hp1 as [Hp1 _]. destruct Hp2 as [Hp2 _].
  assert (a2 = a1) as ->.
  { apply (StronglySorted_unique Z.le); [done|done|]. by rewrite Hp1, Hp2. }
  assert (a3 = a1) as ->.
  { apply (StronglySorted_unique Z.le); [done|done|]. by rewrite Hp1, Hp3. }
  assert (a4 = a1) as ->.
  { apply (StronglySorted_unique Z.le); [done|done|]. by rewrite Hp1, Hp4. }
  by exists a1, m1, rng1, m2, m3, m4.
Qed.

Lemma sorting_functions_agree_witness :
  ∃ sorted m1 rng1 m2 m3 m4,
    quicksort_TwoWay unit 5 (findPivot_MedianOfThree unit) [3; 5; 1; 4; 2]%Z 0
      (Z.of_nat (length [3; 5; 1; 4; 2]%Z) - 1) Metrics_init tt
      = Returns (sorted, m1, rng1) ∧
    quicksort_ThreeWay 5 [3; 5; 1; 4; 2]%Z 0
      (Z.of_nat (length [3; 5; 1; 4; 2]%Z) - 1) Metrics_init = Returns (sorted, m2) ∧
    mergeSort 5 [3; 5; 1; 4; 2]%Z Metrics_init = Returns (sorted, m3) ∧
    heapSort 5 [3; 5; 1; 4; 2]%Z Metrics_init = Returns (sorted, m4) ∧
    sorted ≡ₚ [3; 5; 1; 4; 2]%Z ∧ StronglySorted Z.le sorted.
Proof.
  apply (sorting_functions_agree (findPivot_MedianOfThree unit) 5 [3; 5; 1; 4; 2]%Z
           Metrics_init tt);
    first [apply findPivot_MedianOfThree_ok|example_hyp].
Defined.
